(** * Pascal-to-flowchart translator: control-flow graph builder and C regenerator

    A shallow embedding of [flow.py], [parser_flow.py], [flow_cgen.py] and the
    graph helpers of [gui.py].

    - Python objects live in a heap (an arena, a [list] indexed by address);
      a reference to a node is its address.  The attribute [id] of a node is
      read from the class attribute [FlowNode._counter], which is separate
      from object identity.
    - The semantic actions [p_*] of the grammar run in a state monad over the
      counter and the heap.
    - The regenerator [_walk] is recursive on a cyclic graph; it is modelled
      with fuel, which counts the depth of the recursion, and shown to return
      for enough fuel.  The interpreter allows a depth of [recursion_limit].
    - A text is a [string] of ASCII characters; where a property is about
      every text, [isascii] says so. *)

From Stdlib Require Import Ascii String DecimalString.
From stdpp Require Import base tactics option list numbers strings gmap sets.

(** ** Python string helpers *)

Module PyStr.

(** The double quote and line feed characters. *)
Definition dquote : string := String "034"%char EmptyString.
Definition newline : string := String "010"%char EmptyString.

(** [s * n] *)
Fixpoint repeat (s : string) (n : nat) : string :=
  match n with
  | O => EmptyString
  | S n => s +:+ repeat s n
  end.

(** [sep.join(l)] *)
Fixpoint join (sep : string) (l : list string) : string :=
  match l with
  | [] => EmptyString
  | [x] => x
  | x :: l => x +:+ sep +:+ join sep l
  end.

(** [s.isascii()] *)
Fixpoint isascii (s : string) : bool :=
  match s with
  | EmptyString => true
  | String c s' => (nat_of_ascii c <? 128) && isascii s'
  end.

(** Python's [str.isspace] on one ASCII character.  Beyond ASCII other
    characters are white space as well (U+0085, U+00A0, ...), and [strip]
    removes them too: [strip] below is [str.strip] on the texts that satisfy
    [isascii]. *)
Definition is_space (c : ascii) : bool :=
  let n := nat_of_ascii c in
  ((9 <=? n) && (n <=? 13)) || ((28 <=? n) && (n <=? 32)).

(** [s.rstrip()] *)
Fixpoint rstrip (s : string) : string :=
  match s with
  | EmptyString => EmptyString
  | String c s' =>
      match rstrip s' with
      | EmptyString => if is_space c then EmptyString else String c EmptyString
      | r => String c r
      end
  end.

(** [s.lstrip()] and [s.strip()] *)
Fixpoint lstrip (s : string) : string :=
  match s with
  | EmptyString => EmptyString
  | String c s' => if is_space c then lstrip s' else s
  end.
Definition strip (s : string) : string := rstrip (lstrip s).

(** [s.split()]: the words of [s] between runs of white space; [w] is the
    word being read. *)
Fixpoint split_from (w : string) (s : string) : list string :=
  match s with
  | EmptyString => match w with EmptyString => [] | _ => [w] end
  | String c s' =>
      if is_space c then
        match w with
        | EmptyString => split_from EmptyString s'
        | _ => w :: split_from EmptyString s'
        end
      else split_from (w +:+ String c EmptyString) s'
  end.
Definition split (s : string) : list string := split_from EmptyString s.

(** [" ".join(s.split())]: the text with every run of white space, line
    breaks included, replaced by one space. *)
Definition one_line (s : string) : string := join " " (split s).

(** [c.lower()] and [s.lower()] on ASCII. *)
Definition lower_char (c : ascii) : ascii :=
  let n := nat_of_ascii c in
  if (65 <=? n) && (n <=? 90) then ascii_of_nat (n + 32) else c.

Fixpoint lower (s : string) : string :=
  match s with
  | EmptyString => EmptyString
  | String c s' => String (lower_char c) (lower s')
  end.

(** [s.startswith(p)] *)
Fixpoint startswith (p s : string) : bool :=
  match p, s with
  | EmptyString, _ => true
  | String a p', String b s' => if Ascii.eqb a b then startswith p' s' else false
  | String _ _, EmptyString => false
  end.

(** [m in s] *)
Fixpoint contains (m s : string) : bool :=
  startswith m s ||
  match s with
  | EmptyString => false
  | String _ s' => contains m s'
  end.

(** [str(n)] for a non-negative [int]. *)
Definition str_of_N (n : N) : string :=
  NilZero.string_of_uint (N.to_uint n).

End PyStr.

(** ** flow.py *)

Module Flow.

(** A reference to a node object. *)
Definition addr := nat.

(** The subclass of a node with the attributes the subclass adds. *)
Inductive node_class :=
| StartNode
| EndNode
| OperationNode (code : string)
| ConditionNode (cond_code : string) (true_branch false_branch : option addr).

Record FlowNode := mkFlowNode {
  id : nat;
  label : string;
  next : list addr;
  cls : node_class;
}.

(** The process: the class attribute [FlowNode._counter] and the objects. *)
Record process := mkProcess {
  _counter : nat;
  heap : list FlowNode;
}.

(** State monad over the process. *)
Definition M (A : Type) : Type := process -> A * process.
Definition ret {A} (x : A) : M A := fun s => (x, s).
Definition bind {A B} (m : M A) (k : A -> M B) : M B :=
  fun s => let (x, s') := m s in k x s'.

(** [FlowNode.__init__], reached through [super().__init__(label)]. *)
Definition new_node (lbl : string) (c : node_class) : M addr :=
  fun s =>
    (length (heap s),
     {| _counter := S (_counter s);
        heap := heap s ++ [ {| id := _counter s; label := lbl; next := []; cls := c |} ] |}).

Definition new_StartNode : M addr := new_node "START" StartNode.
Definition new_EndNode : M addr := new_node "END" EndNode.
Definition new_OperationNode (code : string) : M addr :=
  new_node "OP" (OperationNode code).
Definition new_ConditionNode (cond_code : string) : M addr :=
  new_node "COND" (ConditionNode cond_code None None).

Definition update (a : addr) (f : FlowNode -> FlowNode) : M unit :=
  fun s => (tt, {| _counter := _counter s; heap := alter f a (heap s) |}).

Definition add_next (other : addr) (n : FlowNode) : FlowNode :=
  {| id := id n; label := label n; next := next n ++ [other]; cls := cls n |}.

(** [self.next.append(other)] *)
Definition connect (self other : addr) : M unit := update self (add_next other).

Definition with_true (b : addr) (n : FlowNode) : FlowNode :=
  match cls n with
  | ConditionNode c _ f =>
      {| id := id n; label := label n; next := next n; cls := ConditionNode c (Some b) f |}
  | _ => n
  end.

Definition with_false (b : addr) (n : FlowNode) : FlowNode :=
  match cls n with
  | ConditionNode c t _ =>
      {| id := id n; label := label n; next := next n; cls := ConditionNode c t (Some b) |}
  | _ => n
  end.

(** [cond.true_branch = b] and [cond.false_branch = b] *)
Definition set_true_branch (cond b : addr) : M unit := update cond (with_true b).
Definition set_false_branch (cond b : addr) : M unit := update cond (with_false b).

End Flow.

Import Flow.

Notation "'do' x <- m ; k" := (bind m (fun x => k))
  (at level 10, x name, m at level 100, k at level 200).
Notation "'do_' m ; k" := (bind m (fun _ => k))
  (at level 10, m at level 100, k at level 200).

(** ** parser_flow.py: the tokenizer

    The rules of the PLY lexer.  PLY tries the function rules in the order of
    their definition ([t_FLOAT], [t_INT], [t_ID], [t_newline], [t_comment]),
    then the string rules by decreasing length of their pattern, so the
    two-character operators come before the one-character ones.  A character
    of [t_ignore] is skipped before any rule is tried.

    The input is taken to be ASCII ([isascii]): in a Python pattern [\d] also
    matches the decimal digits beyond ASCII, which this tokenizer would report
    as characters without a rule. *)

Module Lexer.

Inductive token_type :=
| ID | INT | FLOAT
| PLUS | MINUS | TIMES | DIVIDE
| ASSIGN
| EQ | NE | LT | LE | GT | GE
| LPAREN | RPAREN
| SEMI | COLON | COMMA | DOT
| BEGIN | END | IF | THEN | ELSE | WHILE | DO | FOR | TO | DOWNTO
| REPEAT | UNTIL | WRITELN | WRITE | READLN | READ | VAR
| INTEGER | REAL | BOOLEAN | AND | OR | NOT | DIV | MOD.

Global Instance token_type_eq_dec : EqDecision token_type.
Proof. solve_decision. Defined.

(** [t.value]: text, or the number [t_INT] and [t_FLOAT] convert it to.  A
    float is kept as the text it was read from. *)
Inductive token_value :=
| VStr (s : string)
| VInt (n : N)
| VFloat (lexeme : string).

Record token := mkToken {
  type : token_type;
  value : token_value;
  lineno : nat;
}.

Definition reserved : list (string * token_type) :=
  [ ("begin", BEGIN); ("end", END); ("if", IF); ("then", THEN); ("else", ELSE);
    ("while", WHILE); ("do", DO); ("for", FOR); ("to", TO); ("downto", DOWNTO);
    ("repeat", REPEAT); ("until", UNTIL); ("writeln", WRITELN); ("write", WRITE);
    ("readln", READLN); ("read", READ); ("var", VAR); ("integer", INTEGER);
    ("real", REAL); ("boolean", BOOLEAN); ("and", AND); ("or", OR); ("not", NOT);
    ("div", DIV); ("mod", MOD) ].

(** [reserved.get(k)] *)
Fixpoint lookup_reserved (k : string) (l : list (string * token_type))
    : option token_type :=
  match l with
  | [] => None
  | (k', v) :: l' => if String.eqb k k' then Some v else lookup_reserved k l'
  end.

Definition is_digit (c : ascii) : bool :=
  let n := nat_of_ascii c in (48 <=? n) && (n <=? 57).

Definition is_id_start (c : ascii) : bool :=
  let n := nat_of_ascii c in
  ((65 <=? n) && (n <=? 90)) || ((97 <=? n) && (n <=? 122)) || (n =? 95).

Definition is_id_char (c : ascii) : bool := is_id_start c || is_digit c.

(** [t_ignore = ' \t\r'] *)
Definition t_ignore (c : ascii) : bool :=
  let n := nat_of_ascii c in (n =? 32) || (n =? 9) || (n =? 13).

Definition is_newline (c : ascii) : bool := nat_of_ascii c =? 10.
Definition not_rbrace (c : ascii) : bool := negb (nat_of_ascii c =? 125).

(** The longest prefix of characters that satisfy [p], and the rest. *)
Fixpoint span (p : ascii -> bool) (s : string) : string * string :=
  match s with
  | EmptyString => (EmptyString, EmptyString)
  | String c s' =>
      if p c then let (a, r) := span p s' in (String c a, r)
      else (EmptyString, s)
  end.

(** The number of digits [int()] converts: CPython from 3.11 on raises
    [ValueError] on a longer string ([sys.int_info.default_max_str_digits]). *)
Definition int_max_str_digits : nat := 4300.

(** No run of digits of [s] is longer than [n]; [run] is the length of the
    run of digits before [s]. *)
Fixpoint digits_within (n run : nat) (s : string) : bool :=
  match s with
  | EmptyString => true
  | String c s' =>
      if is_digit c then (S run <=? n) && digits_within n (S run) s'
      else digits_within n 0 s'
  end.

(** [int(t.value)] on a string of digits, of at most [int_max_str_digits]
    digits ([digits_within]). *)
Fixpoint int_of_digits (acc : N) (s : string) : N :=
  match s with
  | EmptyString => acc
  | String c s' => int_of_digits (acc * 10 + (N.of_nat (nat_of_ascii c) - 48))%N s'
  end.

(** The string rules: patterns of two characters, then of one. *)
Definition op2 (a b : ascii) : option token_type :=
  match a, b with
  | ":"%char, "="%char => Some ASSIGN
  | "<"%char, ">"%char => Some NE
  | "<"%char, "="%char => Some LE
  | ">"%char, "="%char => Some GE
  | _, _ => None
  end.

Definition op1 (a : ascii) : option token_type :=
  match a with
  | "+"%char => Some PLUS
  | "-"%char => Some MINUS
  | "*"%char => Some TIMES
  | "/"%char => Some DIVIDE
  | "="%char => Some EQ
  | "<"%char => Some LT
  | ">"%char => Some GT
  | "("%char => Some LPAREN
  | ")"%char => Some RPAREN
  | ";"%char => Some SEMI
  | ":"%char => Some COLON
  | ","%char => Some COMMA
  | "."%char => Some DOT
  | _ => None
  end.

(** One step of [lexer.token()] at the head of the remaining input. *)
Inductive lex_step :=
| LexToken (t : token) (rest : string)
| LexSkip (rest : string) (lineno : nat)
| LexEOF
| LexError (c : ascii) (lineno : nat).

Definition lex_string_rules (c : ascii) (s' : string) (line : nat) : lex_step :=
  let one :=
    match op1 c with
    | Some ty => LexToken (mkToken ty (VStr (String c EmptyString)) line) s'
    | None => LexError c line
    end in
  match s' with
  | String d s'' =>
      match op2 c d with
      | Some ty => LexToken (mkToken ty (VStr (String c (String d EmptyString))) line) s''
      | None => one
      end
  | EmptyString => one
  end.

Definition lex_one (s : string) (line : nat) : lex_step :=
  match s with
  | EmptyString => LexEOF
  | String c s' =>
      if t_ignore c then LexSkip s' line
      else if is_digit c then
        (* t_FLOAT, then t_INT *)
        let (d1, r1) := span is_digit s in
        let int_tok := LexToken (mkToken INT (VInt (int_of_digits 0 d1)) line) r1 in
        match r1 with
        | String "."%char r2 =>
            let (d2, r3) := span is_digit r2 in
            match d2 with
            | EmptyString => int_tok
            | _ => LexToken (mkToken FLOAT (VFloat (d1 +:+ "." +:+ d2)) line) r3
            end
        | _ => int_tok
        end
      else if is_id_start c then
        (* t_ID *)
        let (w, r) := span is_id_char s in
        match lookup_reserved (PyStr.lower w) reserved with
        | Some ty => LexToken (mkToken ty (VStr w) line) r
        | None => LexToken (mkToken ID (VStr w) line) r
        end
      else if is_newline c then
        (* t_newline *)
        let (w, r) := span is_newline s in
        LexSkip r (line + String.length w)
      else
        match c with
        | "{"%char =>
            (* t_comment *)
            let (w, r) := span not_rbrace s' in
            match r with
            | String _ r' => LexSkip r' line
            | EmptyString => lex_string_rules c s' line
            end
        | _ => lex_string_rules c s' line
        end
  end.

(** How the token stream ends: at the end of the input, or at a character
    no rule matches, where [t_error] is called. *)
Inductive lex_end :=
| AtEOF (lineno : nat)
| Illegal (c : ascii) (lineno : nat)
| LexFuel.

(** All the tokens the lexer can hand out, up to the end or to the first
    character without a rule. *)
Fixpoint tokenize (fuel : nat) (s : string) (line : nat) : list token * lex_end :=
  match fuel with
  | O => ([], LexFuel)
  | S fuel =>
      match lex_one s line with
      | LexToken t rest => let (ts, e) := tokenize fuel rest line in (t :: ts, e)
      | LexSkip rest line' => tokenize fuel rest line'
      | LexEOF => ([], AtEOF line)
      | LexError c line' => ([], Illegal c line')
      end
  end.

Definition tokens_of (s : string) (line : nat) : list token * lex_end :=
  tokenize (S (String.length s)) s line.

(** *** Where the tokenizer is in the text *)

(** [s.count(newline)] *)
Fixpoint newlines (s : string) : nat :=
  match s with
  | EmptyString => 0
  | String c s' => (if is_newline c then 1 else 0) + newlines s'
  end.

Definition is_lbrace (c : ascii) : bool := nat_of_ascii c =? 123.

(** A comment of [s] holds a line feed; [inside] tells whether [s] begins
    inside a comment. *)
Fixpoint comment_newline (inside : bool) (s : string) : bool :=
  match s with
  | EmptyString => false
  | String c s' =>
      if inside then is_newline c || comment_newline (not_rbrace c) s'
      else comment_newline (is_lbrace c) s'
  end.

(** A character of a token or a blank: no line feed and no opening brace. *)
Definition plain (c : ascii) : bool := negb (is_newline c) && negb (is_lbrace c).

(** Every character of [s] satisfies [p]. *)
Fixpoint all_chars (p : ascii -> bool) (s : string) : bool :=
  match s with
  | EmptyString => true
  | String c s' => p c && all_chars p s'
  end.

(** The tokenizer, started on the input [s] with its line counter at [l],
    gets to the input [s'] with the counter at [l'], after any number of
    tokens, blanks, line feeds and comments. *)
Inductive reads : string -> nat -> string -> nat -> Prop :=
| reads_here s l : reads s l s l
| reads_token s l t rest s' l' :
    lex_one s l = LexToken t rest -> reads rest l s' l' -> reads s l s' l'
| reads_skip s l rest l1 s' l' :
    lex_one s l = LexSkip rest l1 -> reads rest l1 s' l' -> reads s l s' l'.

(** One step of the tokenizer: the characters it takes, and the line
    counter after them when no comment among them holds a line feed. *)
Definition step_ok (s : string) (l : nat) (rest : string) (l1 : nat) : Prop :=
  exists chunk, s = chunk +:+ rest
    /\ forall x, comment_newline false (chunk +:+ x) = false ->
         comment_newline false x = false /\ l1 = l + newlines chunk.

End Lexer.

Import Lexer.

(** ** parser_flow.py: the semantic actions of the grammar *)

Module ParserFlow.

(** [FlowSegment]: entry node [first] and exit node [last] of a fragment. *)
Record FlowSegment := mkFlowSegment { first : addr; last : addr }.

Definition binop_to_c (op : string) : string :=
  let l := PyStr.lower op in
  if String.eqb l "and" then "&&"
  else if String.eqb l "or" then "||"
  else if String.eqb l "div" then "/"
  else if String.eqb l "mod" then "%"
  else if String.eqb l "=" then "=="
  else if String.eqb l "<>" then "!="
  else op.

Definition make_bin_expr (a op b : string) : string :=
  "(" +:+ a +:+ " " +:+ binop_to_c op +:+ " " +:+ b +:+ ")".

(** [p_expr_binop], [p_expr_unary], [p_expr_group], [p_expr_int],
    [p_expr_var]: expressions are C text, built while parsing. *)
Definition p_expr_binop (p1 p2 p3 : string) : string := make_bin_expr p1 p2 p3.
Definition p_expr_unary (p1 p2 : string) : string :=
  if String.eqb p1 "-" then "(-(" +:+ p2 +:+ "))" else "!(" +:+ p2 +:+ ")".
Definition p_expr_group (p2 : string) : string := "(" +:+ p2 +:+ ")".
Definition p_expr_int (p1 : N) : string := PyStr.str_of_N p1.
Definition p_expr_var (p1 : string) : string := p1.

(** [p_program] *)
Definition p_program (seg : FlowSegment) : M FlowSegment :=
  do start <- new_StartNode;
  do end_ <- new_EndNode;
  do_ connect start (first seg);
  do_ connect (last seg) end_;
  ret (mkFlowSegment start end_).

(** [p_stmt_list], both alternatives. *)
Definition p_stmt_list_one (p1 : FlowSegment) : M FlowSegment := ret p1.
Definition p_stmt_list_seq (seg1 seg2 : FlowSegment) : M FlowSegment :=
  do_ connect (last seg1) (first seg2);
  ret (mkFlowSegment (first seg1) (last seg2)).

(** [p_stmt]: [p1] is [None] for the alternative [empty]. *)
Definition p_stmt (p1 : option FlowSegment) : M FlowSegment :=
  match p1 with
  | None =>
      do n <- new_OperationNode "/* empty */";
      ret (mkFlowSegment n n)
  | Some seg => ret seg
  end.

Definition p_block (p2 : FlowSegment) : M FlowSegment := ret p2.

Definition p_assign_stmt (p1 p3 : string) : M FlowSegment :=
  let code := p1 +:+ " = " +:+ p3 +:+ ";" in
  do node <- new_OperationNode code;
  ret (mkFlowSegment node node).

(** [p_if_stmt]: [p5] is the value of [opt_else]. *)
Definition p_if_stmt (p2 : string) (then_seg : FlowSegment)
    (p5 : option FlowSegment) : M FlowSegment :=
  let cond_code := p2 in
  do cond_node <- new_ConditionNode cond_code;
  do_ set_true_branch cond_node (first then_seg);
  match p5 with
  | Some else_seg =>
      do_ set_false_branch cond_node (first else_seg);
      do join <- new_OperationNode "/* join */";
      do_ connect (last then_seg) join;
      do_ connect (last else_seg) join;
      ret (mkFlowSegment cond_node join)
  | None =>
      do join <- new_OperationNode "/* join */";
      do_ set_false_branch cond_node join;
      do_ connect (last then_seg) join;
      ret (mkFlowSegment cond_node join)
  end.

Definition p_while_stmt (p2 : string) (body_seg : FlowSegment) : M FlowSegment :=
  do cond <- new_ConditionNode p2;
  do_ set_true_branch cond (first body_seg);
  do_ connect (last body_seg) cond;
  do after <- new_OperationNode "/* after while */";
  do_ set_false_branch cond after;
  ret (mkFlowSegment cond after).

(** [p_for_stmt]: [p5] is the text of the [to] or [downto] keyword. *)
Definition p_for_stmt (p2 p4 p5 p6 : string) (body_seg : FlowSegment) : M FlowSegment :=
  let var := p2 in
  let start := p4 in
  let end_ := p6 in
  let downto := String.eqb (PyStr.lower p5) "downto" in
  do init <- new_OperationNode (var +:+ " = " +:+ start +:+ ";");
  let cond_code :=
    if downto then var +:+ " >= " +:+ end_ else var +:+ " <= " +:+ end_ in
  do cond <- new_ConditionNode cond_code;
  let step_code := if downto then var +:+ "--;" else var +:+ "++;" in
  do step <- new_OperationNode step_code;
  do_ connect init cond;
  do_ set_true_branch cond (first body_seg);
  do_ connect (last body_seg) step;
  do_ connect step cond;
  do after <- new_OperationNode "/* after for */";
  do_ set_false_branch cond after;
  ret (mkFlowSegment init after).

Definition p_repeat_stmt (body_seg : FlowSegment) (p4 : string) : M FlowSegment :=
  do cond <- new_ConditionNode p4;
  do_ connect (last body_seg) cond;
  do after <- new_OperationNode "/* after repeat */";
  do_ set_true_branch cond after;
  do_ set_false_branch cond (first body_seg);
  ret (mkFlowSegment (first body_seg) after).

(** The text built by [p_io_stmt] from the keyword [p1] and the list [p3]. *)
Definition io_code (p1 : string) (p3 : list string) : string :=
  let f := PyStr.lower p1 in
  if String.eqb f "writeln" || String.eqb f "write" then
    let fmt := PyStr.repeat "%d " (length p3) in
    let fmt := PyStr.rstrip fmt in
    let args := PyStr.join ", " p3 in
    "printf(" +:+ PyStr.dquote +:+ fmt +:+ "\n" +:+ PyStr.dquote +:+ ", " +:+ args +:+ ");"
  else
    PyStr.join " "
      (map (fun v => "scanf(" +:+ PyStr.dquote +:+ "%d" +:+ PyStr.dquote +:+ ", &" +:+ v +:+ ");") p3).

Definition p_io_stmt (p1 : string) (p3 : list string) : M FlowSegment :=
  do node <- new_OperationNode (io_code p1 p3);
  ret (mkFlowSegment node node).

(** *** Derivation trees

    The tree of the productions the parser reduces for the statement part of
    a program, with the values of the tokens and of [expr] (C text) at the
    leaves. *)
Inductive stmt :=
| AssignStmt (p1 p3 : string)
| IfStmt (p2 : string) (p4 : stmt) (p5 : opt_else)
| WhileStmt (p2 : string) (p4 : stmt)
| ForStmt (p2 p4 p5 p6 : string) (p8 : stmt)
| RepeatStmt (p2 : stmt_list) (p4 : string)
| IoStmt (p1 : string) (p3 : list string)
| BlockStmt (p2 : stmt_list)
| EmptyStmt
with opt_else :=
| ElseStmt (p2 : stmt)
| NoElse
with stmt_list :=
| StmtOne (p1 : stmt)
| StmtSeq (p1 : stmt_list) (p3 : stmt).

(** The reductions of a derivation tree in the order an LR parser performs
    them: the children left to right, then the production itself. *)
Fixpoint build_stmt (s : stmt) : M FlowSegment :=
  match s with
  | AssignStmt p1 p3 =>
      do seg <- p_assign_stmt p1 p3; p_stmt (Some seg)
  | IfStmt p2 p4 p5 =>
      do then_seg <- build_stmt p4;
      do else_seg <- build_opt_else p5;
      do seg <- p_if_stmt p2 then_seg else_seg; p_stmt (Some seg)
  | WhileStmt p2 p4 =>
      do body_seg <- build_stmt p4;
      do seg <- p_while_stmt p2 body_seg; p_stmt (Some seg)
  | ForStmt p2 p4 p5 p6 p8 =>
      do body_seg <- build_stmt p8;
      do seg <- p_for_stmt p2 p4 p5 p6 body_seg; p_stmt (Some seg)
  | RepeatStmt p2 p4 =>
      do body_seg <- build_stmt_list p2;
      do seg <- p_repeat_stmt body_seg p4; p_stmt (Some seg)
  | IoStmt p1 p3 =>
      do seg <- p_io_stmt p1 p3; p_stmt (Some seg)
  | BlockStmt p2 =>
      do body <- build_stmt_list p2;
      do seg <- p_block body; p_stmt (Some seg)
  | EmptyStmt => p_stmt None
  end
with build_opt_else (e : opt_else) : M (option FlowSegment) :=
  match e with
  | ElseStmt p2 => do seg <- build_stmt p2; ret (Some seg)
  | NoElse => ret None
  end
with build_stmt_list (l : stmt_list) : M FlowSegment :=
  match l with
  | StmtOne p1 => do seg <- build_stmt p1; p_stmt_list_one seg
  | StmtSeq p1 p3 =>
      do seg1 <- build_stmt_list p1;
      do seg2 <- build_stmt p3;
      p_stmt_list_seq seg1 seg2
  end.

(** [program : opt_var_section BEGIN stmt_list END DOT]; the variable
    section has no semantic value. *)
Definition build_program (body : stmt_list) : M FlowSegment :=
  do seg <- build_stmt_list body;
  p_program seg.

(** *** The parser

    PLY derives an LALR(1) automaton from the productions in the docstrings
    of the [p_*] functions and the [precedence] table.  The automaton is
    modelled by a predictive parser for the same productions: binary
    operators by precedence level ([or] < [and] < comparison < additive <
    multiplicative, all left associative), the prefix operators above them,
    an [else] attached to the closest [if].  A token is consumed only where
    a production allows it, so an error is reported at the first token that
    cannot continue the input read so far, as the automaton does. *)

Inductive presult (A : Type) :=
| POk (x : A) (rest : list token)
| PErr (p : option token)
| PFuel.
Arguments POk {A} x rest.
Arguments PErr {A} p.
Arguments PFuel {A}.

Definition pbind {A B} (r : presult A) (k : A -> list token -> presult B)
    : presult B :=
  match r with
  | POk x rest => k x rest
  | PErr p => PErr p
  | PFuel => PFuel
  end.

(** Consume one token of type [ty]. *)
Definition expect (ty : token_type) (ts : list token) : presult token :=
  match ts with
  | t :: rest => if decide (type t = ty) then POk t rest else PErr (Some t)
  | [] => PErr None
  end.

(** The level of a binary operator: 1 binds tightest. *)
Definition binop_level (ty : token_type) : option nat :=
  match ty with
  | TIMES | DIVIDE | DIV | MOD => Some 1
  | PLUS | MINUS => Some 2
  | EQ | NE | LT | LE | GT | GE => Some 3
  | AND => Some 4
  | OR => Some 5
  | _ => None
  end.

(** The exception both [t_error] and [p_error] raise. *)
Inductive exception := SyntaxError (msg : string).

(** The outcome of a call: a value, or the exception raised. *)
Inductive outcome (A : Type) :=
| Returned (x : A)
| Raised (e : exception)
| NoFuel.
Arguments Returned {A} x.
Arguments Raised {A} e.
Arguments NoFuel {A}.

Section Parser.

(** [str(float(lexeme))]: floating point is not modelled. *)
Variable float_str : string -> string.

(** [str(t.value)] *)
Definition token_text (t : token) : string :=
  match value t with
  | VStr s => s
  | VInt n => PyStr.str_of_N n
  | VFloat l => float_str l
  end.

Definition p_expr_real (p1 : string) : string := float_str p1.

(** [expr] at a level: level 0 is a prefix operator, a literal, a
    variable or a parenthesised expression; level [S l] is a chain of
    operators of that level over operands of level [l]. *)
Fixpoint parse_expr (fuel : nat) (lvl : nat) (ts : list token) : presult string :=
  match fuel with
  | O => PFuel
  | S fuel =>
      match lvl with
      | O =>
          match ts with
          | [] => PErr None
          | t :: rest =>
              match type t with
              | MINUS | NOT =>
                  pbind (parse_expr fuel 0 rest) (fun e rest =>
                  POk (p_expr_unary (token_text t) e) rest)
              | LPAREN =>
                  pbind (parse_expr fuel 5 rest) (fun e rest =>
                  pbind (expect RPAREN rest) (fun _ rest =>
                  POk (p_expr_group e) rest))
              | INT =>
                  match value t with
                  | VInt n => POk (p_expr_int n) rest
                  | _ => POk (token_text t) rest
                  end
              | FLOAT =>
                  match value t with
                  | VFloat l => POk (p_expr_real l) rest
                  | _ => POk (token_text t) rest
                  end
              | ID => POk (p_expr_var (token_text t)) rest
              | _ => PErr (Some t)
              end
          end
      | S l =>
          pbind (parse_expr fuel l ts) (fun a rest =>
          parse_binop_rest fuel (S l) a rest)
      end
  end
with parse_binop_rest (fuel : nat) (lvl : nat) (a : string) (ts : list token)
    : presult string :=
  match fuel with
  | O => PFuel
  | S fuel =>
      match ts with
      | t :: rest =>
          if decide (binop_level (type t) = Some lvl) then
            pbind (parse_expr fuel (lvl - 1) rest) (fun b rest =>
            parse_binop_rest fuel lvl (p_expr_binop a (token_text t) b) rest)
          else POk a ts
      | [] => POk a []
      end
  end.

(** [expr_list : expr | expr_list COMMA expr] *)
Fixpoint parse_expr_list (fuel : nat) (acc : list string) (ts : list token)
    : presult (list string) :=
  match fuel with
  | O => PFuel
  | S fuel =>
      pbind (parse_expr fuel 5 ts) (fun e rest =>
      match rest with
      | t :: rest' =>
          if decide (type t = COMMA) then parse_expr_list fuel (acc ++ [e]) rest'
          else POk (acc ++ [e]) rest
      | [] => POk (acc ++ [e]) []
      end)
  end.

(** [id_list] and [id_expr_list : ID | id_expr_list COMMA ID] *)
Fixpoint parse_id_list (fuel : nat) (acc : list string) (ts : list token)
    : presult (list string) :=
  match fuel with
  | O => PFuel
  | S fuel =>
      pbind (expect ID ts) (fun v rest =>
      match rest with
      | t :: rest' =>
          if decide (type t = COMMA) then
            parse_id_list fuel (acc ++ [token_text v]) rest'
          else POk (acc ++ [token_text v]) rest
      | [] => POk (acc ++ [token_text v]) []
      end)
  end.

Fixpoint parse_stmt (fuel : nat) (ts : list token) : presult stmt :=
  match fuel with
  | O => PFuel
  | S fuel =>
      match ts with
      | [] => POk EmptyStmt []
      | t :: rest =>
          match type t with
          | ID =>
              pbind (expect ASSIGN rest) (fun _ rest =>
              pbind (parse_expr fuel 5 rest) (fun e rest =>
              POk (AssignStmt (token_text t) e) rest))
          | IF =>
              pbind (parse_expr fuel 5 rest) (fun c rest =>
              pbind (expect THEN rest) (fun _ rest =>
              pbind (parse_stmt fuel rest) (fun s1 rest =>
              match rest with
              | t' :: rest' =>
                  if decide (type t' = ELSE) then
                    pbind (parse_stmt fuel rest') (fun s2 rest =>
                    POk (IfStmt c s1 (ElseStmt s2)) rest)
                  else POk (IfStmt c s1 NoElse) rest
              | [] => POk (IfStmt c s1 NoElse) []
              end)))
          | WHILE =>
              pbind (parse_expr fuel 5 rest) (fun c rest =>
              pbind (expect DO rest) (fun _ rest =>
              pbind (parse_stmt fuel rest) (fun b rest =>
              POk (WhileStmt c b) rest)))
          | FOR =>
              pbind (expect ID rest) (fun v rest =>
              pbind (expect ASSIGN rest) (fun _ rest =>
              pbind (parse_expr fuel 5 rest) (fun lo rest =>
              match rest with
              | d :: rest' =>
                  if bool_decide (type d = TO) || bool_decide (type d = DOWNTO) then
                    pbind (parse_expr fuel 5 rest') (fun hi rest =>
                    pbind (expect DO rest) (fun _ rest =>
                    pbind (parse_stmt fuel rest) (fun b rest =>
                    POk (ForStmt (token_text v) lo (token_text d) hi b) rest)))
                  else PErr (Some d)
              | [] => PErr None
              end)))
          | REPEAT =>
              pbind (parse_stmt_list fuel rest) (fun b rest =>
              pbind (expect UNTIL rest) (fun _ rest =>
              pbind (parse_expr fuel 5 rest) (fun c rest =>
              POk (RepeatStmt b c) rest)))
          | WRITELN | WRITE =>
              pbind (expect LPAREN rest) (fun _ rest =>
              pbind (parse_expr_list fuel [] rest) (fun args rest =>
              pbind (expect RPAREN rest) (fun _ rest =>
              POk (IoStmt (token_text t) args) rest)))
          | READLN | READ =>
              pbind (expect LPAREN rest) (fun _ rest =>
              pbind (parse_id_list fuel [] rest) (fun args rest =>
              pbind (expect RPAREN rest) (fun _ rest =>
              POk (IoStmt (token_text t) args) rest)))
          | BEGIN =>
              pbind (parse_stmt_list fuel rest) (fun b rest =>
              pbind (expect END rest) (fun _ rest =>
              POk (BlockStmt b) rest))
          | _ => POk EmptyStmt ts
          end
      end
  end
with parse_stmt_list (fuel : nat) (ts : list token) : presult stmt_list :=
  match fuel with
  | O => PFuel
  | S fuel =>
      pbind (parse_stmt fuel ts) (fun s rest =>
      parse_stmt_list_rest fuel (StmtOne s) rest)
  end
with parse_stmt_list_rest (fuel : nat) (acc : stmt_list) (ts : list token)
    : presult stmt_list :=
  match fuel with
  | O => PFuel
  | S fuel =>
      match ts with
      | t :: rest =>
          if decide (type t = SEMI) then
            pbind (parse_stmt fuel rest) (fun s rest =>
            parse_stmt_list_rest fuel (StmtSeq acc s) rest)
          else POk acc ts
      | [] => POk acc []
      end
  end.

(** [var_decl : id_list COLON type_name SEMI], one or more. *)
Fixpoint parse_var_decls (fuel : nat) (ts : list token) : presult unit :=
  match fuel with
  | O => PFuel
  | S fuel =>
      pbind (parse_id_list fuel [] ts) (fun _ rest =>
      pbind (expect COLON rest) (fun _ rest =>
      match rest with
      | t :: rest' =>
          if bool_decide (type t = INTEGER) || bool_decide (type t = REAL)
             || bool_decide (type t = BOOLEAN) then
            pbind (expect SEMI rest') (fun _ rest =>
            match rest with
            | t' :: _ =>
                if decide (type t' = ID) then parse_var_decls fuel rest
                else POk tt rest
            | [] => POk tt []
            end)
          else PErr (Some t)
      | [] => PErr None
      end))
  end.

(** [program : opt_var_section BEGIN stmt_list END DOT] *)
Definition parse_program (fuel : nat) (ts : list token) : presult stmt_list :=
  let vars :=
    match ts with
    | t :: rest =>
        if decide (type t = VAR) then parse_var_decls fuel rest else POk tt ts
    | [] => POk tt []
    end in
  pbind vars (fun _ rest =>
  pbind (expect BEGIN rest) (fun _ rest =>
  pbind (parse_stmt_list fuel rest) (fun body rest =>
  pbind (expect END rest) (fun _ rest =>
  pbind (expect DOT rest) (fun _ rest =>
  POk body rest))))).

Definition t_error (c : ascii) (line : nat) : exception :=
  SyntaxError ("Illegal character '" +:+ String c EmptyString +:+ "' at line "
               +:+ PyStr.str_of_N (N.of_nat line)).

Definition p_error (p : option token) : exception :=
  match p with
  | Some t => SyntaxError ("Syntax error at '" +:+ token_text t +:+ "'")
  | None => SyntaxError "Syntax error at EOF"
  end.

(** [parser.parse]: the parser asks the lexer for one token at a time, so
    a character without a rule is reported only when the parser gets to
    it. *)
Definition end_of_tokens {A} (e : lex_end) (at_eof : outcome A) : outcome A :=
  match e with
  | AtEOF _ => at_eof
  | Illegal c line => Raised (t_error c line)
  | LexFuel => NoFuel
  end.

Definition parse (fuel : nat) (src : string) (line : nat) : outcome stmt_list :=
  let (ts, e) := tokens_of src line in
  match parse_program fuel ts with
  | POk body [] => end_of_tokens e (Returned body)
  | POk body (t :: _) => Raised (p_error (Some t))
  | PErr (Some t) => Raised (p_error (Some t))
  | PErr None => end_of_tokens e (Raised (p_error None))
  | PFuel => NoFuel
  end.

(** [parse_pascal_to_flow]: the reductions of the derivation run on the
    process.  When an exception is raised there is no segment; the nodes
    made until then are unreachable and only the counter keeps a trace
    of them, which is not modelled. *)
Definition parse_pascal_to_flow (fuel : nat) (src : string) (line : nat)
    (s : process) : outcome (FlowSegment * process) :=
  match parse fuel src line with
  | Returned body => Returned (build_program body s)
  | Raised e => Raised e
  | NoFuel => NoFuel
  end.

End Parser.

End ParserFlow.

Import ParserFlow.

(** ** flow_cgen.py *)

Module FlowCGen.

Record FlowCGenerator := mkGen {
  lines : list string;
  indent_level : nat;
  visited : gset nat;
}.

(** [FlowCGenerator()] *)
Definition new_generator : FlowCGenerator :=
  {| lines := []; indent_level := 0; visited := ∅ |}.

Definition indent (g : FlowCGenerator) : string :=
  PyStr.repeat "    " (indent_level g).

Definition emit (line : string) (g : FlowCGenerator) : FlowCGenerator :=
  {| lines := lines g ++ [indent g +:+ line];
     indent_level := indent_level g;
     visited := visited g |}.

(** [self.indent_level += 1] and [self.indent_level -= 1]; in [_walk] and
    [generate] a decrement always follows its increment, so the level is
    never negative. *)
Definition indent_inc (g : FlowCGenerator) : FlowCGenerator :=
  {| lines := lines g; indent_level := S (indent_level g); visited := visited g |}.
Definition indent_dec (g : FlowCGenerator) : FlowCGenerator :=
  {| lines := lines g; indent_level := indent_level g - 1; visited := visited g |}.

(** [self.visited.add(i)] *)
Definition visit (i : nat) (g : FlowCGenerator) : FlowCGenerator :=
  {| lines := lines g; indent_level := indent_level g; visited := {[ i ]} ∪ visited g |}.

(** [for nxt in l: walk(nxt)] *)
Fixpoint walk_each (walk : addr -> FlowCGenerator -> option FlowCGenerator)
    (l : list addr) (g : FlowCGenerator) : option FlowCGenerator :=
  match l with
  | [] => Some g
  | nxt :: l' =>
      match walk nxt g with
      | Some g' => walk_each walk l' g'
      | None => None
      end
  end.

(** [if b: walk(b)] for an attribute that is a node or [None]. *)
Definition walk_opt (walk : addr -> FlowCGenerator -> option FlowCGenerator)
    (b : option addr) (g : FlowCGenerator) : option FlowCGenerator :=
  match b with
  | Some a => walk a g
  | None => Some g
  end.

(** The depth of the call stack that CPython allows by default,
    [sys.getrecursionlimit()]; the program never sets another. *)
Definition recursion_limit : nat := 1000.

(** [_walk]: every call on a successor or on a branch is one frame deeper,
    and the fuel counts the frames that are left.  [None] stands for running
    out of them, which is [RecursionError] in the interpreter when the fuel is
    [recursion_limit] (the frames of the callers of [generate] leave less), or
    for following a reference to no object, which Python cannot do. *)
Fixpoint _walk (fuel : nat) (h : list FlowNode) (node : addr)
    (g : FlowCGenerator) : option FlowCGenerator :=
  match fuel with
  | O => None
  | S fuel =>
      match h !! node with
      | None => None
      | Some n =>
          if decide (id n ∈ visited g) then Some g
          else
            let g := visit (id n) g in
            match cls n with
            | OperationNode code =>
                let g := emit code g in
                walk_each (_walk fuel h) (next n) g
            | ConditionNode cond_code true_branch false_branch =>
                let g := emit ("if (" +:+ cond_code +:+ ") {") g in
                let g := indent_inc g in
                match walk_opt (_walk fuel h) true_branch g with
                | None => None
                | Some g =>
                    let g := indent_dec g in
                    let r :=
                      match false_branch with
                      | Some fb =>
                          let g := emit "} else {" g in
                          let g := indent_inc g in
                          match _walk fuel h fb g with
                          | None => None
                          | Some g => Some (indent_dec g)
                          end
                      | None => Some g
                      end in
                    match r with
                    | None => None
                    | Some g =>
                        let g := emit "}" g in
                        walk_each (_walk fuel h) (next n) g
                    end
                end
            | _ => walk_each (_walk fuel h) (next n) g
            end
      end
  end.

(** The generator when [generate] calls [_walk]. *)
Definition header : FlowCGenerator :=
  let g := new_generator in
  let g := emit "#include <stdio.h>" g in
  let g := emit EmptyString g in
  let g := emit "int main() {" g in
  indent_inc g.

(** The list [self.lines] at the end of [generate]. *)
Definition generate_lines (fuel : nat) (h : list FlowNode) (start : addr)
    : option (list string) :=
  match _walk fuel h start header with
  | None => None
  | Some g =>
      let g := emit "return 0;" g in
      let g := indent_dec g in
      let g := emit "}" g in
      Some (lines g)
  end.

Definition generate (fuel : nat) (h : list FlowNode) (start : addr) : option string :=
  match generate_lines fuel h start with
  | None => None
  | Some l => Some (PyStr.join PyStr.newline l)
  end.

End FlowCGen.

Import FlowCGen.

(** ** gui.py: the graph helpers and the translation of a source text *)

Module Gui.

Definition SERVICE_MARKERS : list string :=
  ["/* empty */"; "/* join */"; "/* after while */"; "/* after for */"].

(** [is_real]: every node is of one of the four subclasses. *)
Definition is_real (node : FlowNode) : bool :=
  match cls node with
  | StartNode | EndNode | ConditionNode _ _ _ => true
  | OperationNode code =>
      negb (existsb (fun m => PyStr.contains m code) SERVICE_MARKERS)
  end.

(** What [on_translate] shows to the user: a warning when the source pane
    is empty, the message of the exception the parser raised, or the C text
    in the output pane. *)
Inductive reaction :=
| ShowWarning
| ShowError (e : exception)
| ShowText (c_code : string)
| OutOfFuel.

(** [on_translate] on the text of the source pane: strip it, parse it, then
    regenerate from the Entry node with a new generator.  [walk_fuel] is the
    depth of recursion left to [_walk], at most [recursion_limit]: when the
    walk needs more, [RecursionError] is raised outside of the [try] block and
    no text is shown, which is [OutOfFuel]. *)
Definition on_translate (float_str : string -> string) (fuel walk_fuel : nat)
    (text : string) (line : nat) (s : process) : reaction :=
  let src := PyStr.strip text in
  match src with
  | EmptyString => ShowWarning
  | _ =>
      match parse_pascal_to_flow float_str fuel src line s with
      | Raised e => ShowError e
      | Returned (seg, s') =>
          match generate walk_fuel (heap s') (first seg) with
          | Some c_code => ShowText c_code
          | None => OutOfFuel
          end
      | NoFuel => OutOfFuel
      end
  end.

End Gui.

Import Gui.
Import PyStr.

(** ** The shape of a built graph

    What the reductions of a derivation leave in the heap, as functions of
    the derivation: the nodes are made one after the other, so a statement
    built at address [a] with the counter at [c] fills the addresses
    [a .. a + nodes s - 1] with the ids [c .. c + nodes s - 1]. *)

Module Shape.

(** The number of nodes a derivation makes. *)
Fixpoint nodes (s : stmt) : nat :=
  match s with
  | AssignStmt _ _ => 1
  | IfStmt _ p4 p5 => nodes p4 + nodes_else p5 + 2
  | WhileStmt _ p4 => nodes p4 + 2
  | ForStmt _ _ _ _ p8 => nodes p8 + 4
  | RepeatStmt p2 _ => nodes_list p2 + 2
  | IoStmt _ _ => 1
  | BlockStmt p2 => nodes_list p2
  | EmptyStmt => 1
  end
with nodes_else (e : opt_else) : nat :=
  match e with
  | ElseStmt p2 => nodes p2
  | NoElse => 0
  end
with nodes_list (l : stmt_list) : nat :=
  match l with
  | StmtOne p1 => nodes p1
  | StmtSeq p1 p3 => nodes_list p1 + nodes p3
  end.

(** The offset of the entry node of a fragment among its nodes. *)
Fixpoint first_off (s : stmt) : nat :=
  match s with
  | AssignStmt _ _ => 0
  | IfStmt _ p4 p5 => nodes p4 + nodes_else p5
  | WhileStmt _ p4 => nodes p4
  | ForStmt _ _ _ _ p8 => nodes p8
  | RepeatStmt p2 _ => first_off_list p2
  | IoStmt _ _ => 0
  | BlockStmt p2 => first_off_list p2
  | EmptyStmt => 0
  end
with first_off_list (l : stmt_list) : nat :=
  match l with
  | StmtOne p1 => first_off p1
  | StmtSeq p1 _ => first_off_list p1
  end.

Definition op_node (i : nat) (code : string) (nx : list addr) : FlowNode :=
  {| id := i; label := "OP"; next := nx; cls := OperationNode code |}.

Definition cond_node (i : nat) (c : string) (t f : addr) : FlowNode :=
  {| id := i; label := "COND"; next := [];
     cls := ConditionNode c (Some t) (Some f) |}.

Definition for_downto (p5 : string) : bool := String.eqb (PyStr.lower p5) "downto".
Definition for_init_code (p2 p4 : string) : string := p2 +:+ " = " +:+ p4 +:+ ";".
Definition for_cond_code (p2 p5 p6 : string) : string :=
  if for_downto p5 then p2 +:+ " >= " +:+ p6 else p2 +:+ " <= " +:+ p6.
Definition for_step_code (p2 p5 : string) : string :=
  if for_downto p5 then p2 +:+ "--;" else p2 +:+ "++;".

(** The nodes of a fragment built at address [a] with the counter at [c],
    its exit node having the successors [nx]. *)
Fixpoint graph (s : stmt) (a c : nat) (nx : list addr) : list FlowNode :=
  match s with
  | AssignStmt p1 p3 => [op_node c (p1 +:+ " = " +:+ p3 +:+ ";") nx]
  | IfStmt p2 p4 p5 =>
      let n4 := nodes p4 in
      let n5 := nodes_else p5 in
      let cond := a + n4 + n5 in
      let join := S cond in
      graph p4 a c [join] ++ graph_else p5 (a + n4) (c + n4) [join]
        ++ [cond_node (c + n4 + n5) p2 (a + first_off p4)
              (match p5 with
               | ElseStmt e => a + n4 + first_off e
               | NoElse => join
               end);
            op_node (S (c + n4 + n5)) "/* join */" nx]
  | WhileStmt p2 p4 =>
      let n4 := nodes p4 in
      graph p4 a c [a + n4]
        ++ [cond_node (c + n4) p2 (a + first_off p4) (S (a + n4));
            op_node (S (c + n4)) "/* after while */" nx]
  | ForStmt p2 p4 p5 p6 p8 =>
      let n8 := nodes p8 in
      graph p8 a c [S (S (a + n8))]
        ++ [op_node (c + n8) (for_init_code p2 p4) [S (a + n8)];
            cond_node (S (c + n8)) (for_cond_code p2 p5 p6) (a + first_off p8)
              (S (S (S (a + n8))));
            op_node (S (S (c + n8))) (for_step_code p2 p5) [S (a + n8)];
            op_node (S (S (S (c + n8)))) "/* after for */" nx]
  | RepeatStmt p2 p4 =>
      let n2 := nodes_list p2 in
      graph_list p2 a c [a + n2]
        ++ [cond_node (c + n2) p4 (S (a + n2)) (a + first_off_list p2);
            op_node (S (c + n2)) "/* after repeat */" nx]
  | IoStmt p1 p3 => [op_node c (io_code p1 p3) nx]
  | BlockStmt p2 => graph_list p2 a c nx
  | EmptyStmt => [op_node c "/* empty */" nx]
  end
with graph_else (e : opt_else) (a c : nat) (nx : list addr) : list FlowNode :=
  match e with
  | ElseStmt p2 => graph p2 a c nx
  | NoElse => []
  end
with graph_list (l : stmt_list) (a c : nat) (nx : list addr) : list FlowNode :=
  match l with
  | StmtOne p1 => graph p1 a c nx
  | StmtSeq p1 p3 =>
      let n1 := nodes_list p1 in
      graph_list p1 a c [a + n1 + first_off p3] ++ graph p3 (a + n1) (c + n1) nx
  end.

(** The segment of a fragment built at address [a]. *)
Definition segment (s : stmt) (a : nat) : FlowSegment :=
  {| first := a + first_off s; last := a + nodes s - 1 |}.
Definition segment_else (e : opt_else) (a : nat) : option FlowSegment :=
  match e with
  | ElseStmt p2 => Some (segment p2 a)
  | NoElse => None
  end.
Definition segment_list (l : stmt_list) (a : nat) : FlowSegment :=
  {| first := a + first_off_list l; last := a + nodes_list l - 1 |}.

(** The graph of a whole program: the body, then the Entry and the Exit
    markers. *)
Definition program_graph (body : stmt_list) (a c : nat) : list FlowNode :=
  let n := nodes_list body in
  graph_list body a c [S (a + n)]
    ++ [ {| id := c + n; label := "START"; next := [a + first_off_list body];
            cls := StartNode |};
         {| id := S (c + n); label := "END"; next := []; cls := EndNode |} ].

End Shape.

Import Shape.

(** ** The text of a regenerated program

    The lines the walk emits for a fragment, as functions of the derivation.
    The walk reaches what follows a fragment through the exit node of the
    fragment, while it is still inside the blocks it opened on the way: the
    lines of a fragment come in two parts, those emitted before the walk goes
    on to the successor of the exit node and those emitted after it returns,
    and the successor is rendered [depth] levels deeper. *)

Module Render.

Definition ind (i : nat) (line : string) : string := PyStr.repeat "    " i +:+ line.

Definition if_line (cond_code : string) : string := "if (" +:+ cond_code +:+ ") {".

(** How many blocks are open at the exit node of a fragment. *)
Fixpoint depth (s : stmt) : nat :=
  match s with
  | IfStmt _ p4 _ => S (depth p4)
  | WhileStmt _ _ => 1
  | ForStmt _ _ _ _ _ => 1
  | RepeatStmt p2 _ => S (depth_list p2)
  | BlockStmt p2 => depth_list p2
  | _ => 0
  end
with depth_list (l : stmt_list) : nat :=
  match l with
  | StmtOne p1 => depth p1
  | StmtSeq p1 p3 => depth_list p1 + depth p3
  end.

(** The lines up to the exit node, and the lines after the walk is back
    from the successors of the exit node, at indent level [i]. *)
Fixpoint before (s : stmt) (i : nat) : list string :=
  match s with
  | AssignStmt p1 p3 => [ind i (p1 +:+ " = " +:+ p3 +:+ ";")]
  | IfStmt p2 p4 _ =>
      [ind i (if_line p2)] ++ before p4 (S i) ++ [ind (S i + depth p4) "/* join */"]
  | WhileStmt p2 p4 =>
      [ind i (if_line p2)] ++ before p4 (S i) ++ after p4 (S i)
        ++ [ind i "} else {"; ind (S i) "/* after while */"]
  | ForStmt p2 p4 p5 p6 p8 =>
      [ind i (for_init_code p2 p4); ind i (if_line (for_cond_code p2 p5 p6))]
        ++ before p8 (S i) ++ [ind (S i + depth p8) (for_step_code p2 p5)]
        ++ after p8 (S i)
        ++ [ind i "} else {"; ind (S i) "/* after for */"]
  | RepeatStmt p2 p4 =>
      let d := depth_list p2 in
      before_list p2 i ++ [ind (i + d) (if_line p4); ind (S (i + d)) "/* after repeat */"]
  | IoStmt p1 p3 => [ind i (io_code p1 p3)]
  | BlockStmt p2 => before_list p2 i
  | EmptyStmt => [ind i "/* empty */"]
  end
with after (s : stmt) (i : nat) : list string :=
  match s with
  | IfStmt p2 p4 p5 =>
      after p4 (S i) ++ [ind i "} else {"]
        ++ match p5 with
           | ElseStmt e => before e (S i) ++ after e (S i)
           | NoElse => []
           end
        ++ [ind i "}"]
  | WhileStmt _ _ => [ind i "}"]
  | ForStmt _ _ _ _ _ => [ind i "}"]
  | RepeatStmt p2 _ =>
      let d := depth_list p2 in
      [ind (i + d) "} else {"; ind (i + d) "}"] ++ after_list p2 i
  | BlockStmt p2 => after_list p2 i
  | _ => []
  end
with before_list (l : stmt_list) (i : nat) : list string :=
  match l with
  | StmtOne p1 => before p1 i
  | StmtSeq p1 p3 => before_list p1 i ++ before p3 (i + depth_list p1)
  end
with after_list (l : stmt_list) (i : nat) : list string :=
  match l with
  | StmtOne p1 => after p1 i
  | StmtSeq p1 p3 => after p3 (i + depth_list p1) ++ after_list p1 i
  end.

(** The lines of a whole program. *)
Definition program_lines (body : stmt_list) : list string :=
  ["#include <stdio.h>"; EmptyString; "int main() {"]
    ++ before_list body 1 ++ after_list body 1
    ++ [ind 1 "return 0;"; "}"].

Definition program_text (body : stmt_list) : string :=
  PyStr.join PyStr.newline (program_lines body).

(** The ids of the nodes of a fragment that the walk visits only after it
    is back from the successors of the exit node: with the counter at [c]
    when the fragment is built. *)
Fixpoint late (s : stmt) (c : nat) : gset nat :=
  match s with
  | IfStmt _ p4 p5 => late p4 c ∪ set_seq (c + nodes p4) (nodes_else p5)
  | RepeatStmt p2 _ => late_list p2 c
  | BlockStmt p2 => late_list p2 c
  | _ => ∅
  end
with late_list (l : stmt_list) (c : nat) : gset nat :=
  match l with
  | StmtOne p1 => late p1 c
  | StmtSeq p1 p3 => late_list p1 c ∪ late p3 (c + nodes_list p1)
  end.

Definition early (s : stmt) (c : nat) : gset nat :=
  set_seq c (nodes s) ∖ late s c.
Definition early_list (l : stmt_list) (c : nat) : gset nat :=
  set_seq c (nodes_list l) ∖ late_list l c.

End Render.

Import Render.

Scheme stmt_mut := Induction for stmt Sort Prop
  with opt_else_mut := Induction for opt_else Sort Prop
  with stmt_list_mut := Induction for stmt_list Sort Prop.
Combined Scheme stmt_mutind from stmt_mut, opt_else_mut, stmt_list_mut.

(** ** The walk *)

Definition walks (h : list FlowNode) (a : addr) (g g' : FlowCGenerator) : Prop :=
  exists fuel, _walk fuel h a g = Some g'.

Definition walks_each (h : list FlowNode) (l : list addr) (g g' : FlowCGenerator) : Prop :=
  exists fuel, walk_each (_walk fuel h) l g = Some g'.

(** A heap holds the nodes [G] from address [a] on. *)
Definition holds (h : list FlowNode) (a : nat) (G : list FlowNode) : Prop :=
  forall k n, G !! k = Some n -> h !! (a + k) = Some n.

(** The nodes of [G] carry the ids [c], [c + 1], ... in the order of their
    addresses. *)
Definition ids_from (c : nat) (G : list FlowNode) : Prop :=
  forall k n, G !! k = Some n -> id n = c + k.

(** The state when the walk reaches the successors of the exit node of a
    fragment, and when it is back from the fragment. *)
Definition enter (pre : list string) (d : nat) (A : gset nat) (g : FlowCGenerator)
    : FlowCGenerator :=
  {| lines := lines g ++ pre; indent_level := indent_level g + d;
     visited := visited g ∪ A |}.
Definition leave (post : list string) (B : gset nat) (g g1 : FlowCGenerator)
    : FlowCGenerator :=
  {| lines := lines g1 ++ post; indent_level := indent_level g;
     visited := visited g1 ∪ B |}.

Definition walk_spec (s : stmt) : Prop :=
  forall a c nx h, holds h a (graph s a c nx) ->
  forall g, (forall x, c <= x < c + nodes s -> x ∉ visited g) ->
  forall g1,
    walks_each h nx (enter (before s (indent_level g)) (depth s) (early s c) g) g1 ->
    (forall x, x ∈ late s c -> x ∉ visited g1) ->
    walks h (a + first_off s) g (leave (after s (indent_level g)) (late s c) g g1).

Definition walk_spec_else (e : opt_else) : Prop :=
  match e with
  | ElseStmt s => walk_spec s
  | NoElse => True
  end.

Definition walk_spec_list (l : stmt_list) : Prop :=
  forall a c nx h, holds h a (graph_list l a c nx) ->
  forall g, (forall x, c <= x < c + nodes_list l -> x ∉ visited g) ->
  forall g1,
    walks_each h nx
      (enter (before_list l (indent_level g)) (depth_list l) (early_list l c) g) g1 ->
    (forall x, x ∈ late_list l c -> x ∉ visited g1) ->
    walks h (a + first_off_list l) g
      (leave (after_list l (indent_level g)) (late_list l c) g g1).

(** Programs without [if], [while], [for] and [repeat], and the C text of
    their statements in the order of the source. *)
Fixpoint straight (s : stmt) : bool :=
  match s with
  | AssignStmt _ _ | IoStmt _ _ | EmptyStmt => true
  | BlockStmt p2 => straight_list p2
  | _ => false
  end
with straight_list (l : stmt_list) : bool :=
  match l with
  | StmtOne p1 => straight p1
  | StmtSeq p1 p3 => straight_list p1 && straight p3
  end.

Fixpoint statements (s : stmt) : list string :=
  match s with
  | AssignStmt p1 p3 => [p1 +:+ " = " +:+ p3 +:+ ";"]
  | IoStmt p1 p3 => [io_code p1 p3]
  | EmptyStmt => ["/* empty */"]
  | BlockStmt p2 => statements_list p2
  | _ => []
  end
with statements_list (l : stmt_list) : list string :=
  match l with
  | StmtOne p1 => statements p1
  | StmtSeq p1 p3 => statements_list p1 ++ statements p3
  end.

(** A line of the body of [main]: indented by at least one level, and not the
    text of the [return] statement. *)
Definition indented_text (line : string) : Prop :=
  exists j text, line = ind (S j) text /\ text <> "return 0;".

(** A Condition node with both branches set and no other successor. *)
Definition two_branches (n : FlowNode) : Prop :=
  match cls n with
  | ConditionNode _ t f => is_Some t /\ is_Some f /\ next n = []
  | _ => True
  end.

(** The texts a node is rendered with: its code for an Operation node, the
    three lines of its block for a Condition node, nothing for the Entry and
    the Exit node. *)
Definition node_texts (n : FlowNode) : list string :=
  match cls n with
  | OperationNode code => [code]
  | ConditionNode cond_code _ _ => [if_line cond_code; "} else {"; "}"]
  | _ => []
  end.

(** [line] is [text] at some indent level. *)
Definition indented_as (line text : string) : Prop := exists i, line = ind i text.

(** The nodes a call made: those of the heap [h'] after it that are not in
    the heap [h] before it. *)
Definition new_nodes (h h' : list FlowNode) : list FlowNode := drop (length h) h'.

(** The three inputs of the examples. *)
Definition while_example : string := "begin while a < 5 do a := a + 1; end.".
Definition if_example : string := "begin if a > 0 then a := 1 else a := 2; end.".
Definition assign_example : string := "begin a := 1; end.".

(** A program of [n + 1] assignments in sequence, as a derivation and as a
    text, and the one of a thousand assignments. *)
Fixpoint assignments (n : nat) : stmt_list :=
  match n with
  | 0 => StmtOne (AssignStmt "a" "1")
  | S n => StmtSeq (assignments n) (AssignStmt "a" "1")
  end.

Fixpoint assignments_text (n : nat) : string :=
  match n with
  | 0 => " end."
  | S n => "; a := 1" +:+ assignments_text n
  end.

Definition long_program : stmt_list := assignments 999.
Definition long_example : string := "begin a := 1" +:+ assignments_text 999.

(** The text both [writeln] and [write] give for the arguments [args]: one
    [printf] with a [%d] for each argument, the line feed, and the arguments
    in their order. *)
Definition printf_line (args : list string) : string :=
  "printf(" +:+ dquote +:+ join " " (replicate (length args) "%d") +:+ "\n" +:+ dquote
    +:+ ", " +:+ join ", " args +:+ ");".

(** ** The grammar

    The productions in the docstrings of the [p_*] functions, as predicates
    on the list of the types of the tokens they derive. *)

Module Grammar.

Definition is_binop (ty : token_type) : Prop :=
  ty ∈ [PLUS; MINUS; TIMES; DIVIDE; DIV; MOD; EQ; NE; LT; LE; GT; GE; AND; OR].

(** [expr] *)
Inductive expr : list token_type -> Prop :=
| expr_binop a op b : expr a -> is_binop op -> expr b -> expr (a ++ op :: b)
| expr_minus e : expr e -> expr (MINUS :: e)
| expr_not e : expr e -> expr (NOT :: e)
| expr_group e : expr e -> expr (LPAREN :: e ++ [RPAREN])
| expr_int : expr [INT]
| expr_real : expr [FLOAT]
| expr_var : expr [ID].

(** [expr_list : expr | expr_list COMMA expr] *)
Inductive expr_list : list token_type -> Prop :=
| expr_list_one e : expr e -> expr_list e
| expr_list_more l e : expr_list l -> expr e -> expr_list (l ++ COMMA :: e).

(** [id_list] and [id_expr_list : ID | id_expr_list COMMA ID] *)
Inductive id_list : list token_type -> Prop :=
| id_list_one : id_list [ID]
| id_list_more l : id_list l -> id_list (l ++ [COMMA; ID]).

(** [stmt], with [assign_stmt], [if_stmt] and [opt_else], [while_stmt],
    [for_stmt], [repeat_stmt], [io_stmt], [block] and [empty]; and
    [stmt_list : stmt_list SEMI stmt | stmt]. *)
Inductive stmt : list token_type -> Prop :=
| stmt_assign e : expr e -> stmt (ID :: ASSIGN :: e)
| stmt_if c s : expr c -> stmt s -> stmt (IF :: c ++ THEN :: s)
| stmt_if_else c s1 s2 :
    expr c -> stmt s1 -> stmt s2 -> stmt (IF :: c ++ THEN :: s1 ++ ELSE :: s2)
| stmt_while c s : expr c -> stmt s -> stmt (WHILE :: c ++ DO :: s)
| stmt_for d lo hi s :
    d = TO \/ d = DOWNTO -> expr lo -> expr hi -> stmt s ->
    stmt (FOR :: ID :: ASSIGN :: lo ++ d :: hi ++ DO :: s)
| stmt_repeat l c : stmt_list l -> expr c -> stmt (REPEAT :: l ++ UNTIL :: c)
| stmt_write k l :
    k = WRITELN \/ k = WRITE -> expr_list l -> stmt (k :: LPAREN :: l ++ [RPAREN])
| stmt_read k l :
    k = READLN \/ k = READ -> id_list l -> stmt (k :: LPAREN :: l ++ [RPAREN])
| stmt_block l : stmt_list l -> stmt (BEGIN :: l ++ [END])
| stmt_empty : stmt []
with stmt_list : list token_type -> Prop :=
| stmt_list_one s : stmt s -> stmt_list s
| stmt_list_more l s : stmt_list l -> stmt s -> stmt_list (l ++ SEMI :: s).

(** [var_decl : id_list COLON type_name SEMI] and [var_decls] *)
Inductive var_decls : list token_type -> Prop :=
| var_decls_one l ty :
    id_list l -> ty = INTEGER \/ ty = REAL \/ ty = BOOLEAN ->
    var_decls (l ++ [COLON; ty; SEMI])
| var_decls_more ds l ty :
    var_decls ds -> id_list l -> ty = INTEGER \/ ty = REAL \/ ty = BOOLEAN ->
    var_decls (ds ++ l ++ [COLON; ty; SEMI]).

(** [program : opt_var_section BEGIN stmt_list END DOT] *)
Inductive program : list token_type -> Prop :=
| program_plain l : stmt_list l -> program (BEGIN :: l ++ [END; DOT])
| program_var ds l :
    var_decls ds -> stmt_list l -> program (VAR :: ds ++ BEGIN :: l ++ [END; DOT]).

End Grammar.

(** What a parsing function may return on the tokens [ts]: a value with the
    tokens left over, the tokens it consumed being derived by [G]; an error
    at a token of [ts]; or an error at their end, when [G] derives a sequence
    that begins with them. *)
Definition parses {A} (G : list token_type -> Prop) (ts : list token)
    (r : presult A) : Prop :=
  match r with
  | POk _ rest => exists pre, ts = pre ++ rest /\ G (map type pre)
  | PErr (Some t) => t ∈ ts
  | PErr None => exists q, G (map type ts ++ q)
  | PFuel => True
  end.

(** A source text is a program of the grammar when the lexer reaches its end
    and the types of its tokens are derived by [program]. *)
Definition grammatical (src : string) (line : nat) : Prop :=
  exists l, (tokens_of src line).2 = AtEOF l
            /\ Grammar.program (map type (tokens_of src line).1).

(** The type of the next token, which is all a parsing function sees of the
    tokens it leaves. *)
Definition lookahead (ts : list token) : option token_type := type <$> head ts.

(** A parsing function is local at [ts]: its result depends on the tokens it
    consumes and on the type of the next one only.  A value is returned
    whatever follows with the same lookahead, and an error at the token [t]
    whatever follows [t]. *)
Definition local_at {A} (F : list token -> presult A) (ts : list token) : Prop :=
  match F ts with
  | POk x rest =>
      exists pre, ts = pre ++ rest
        /\ forall rest', lookahead rest' = lookahead rest -> F (pre ++ rest') = POk x rest'
  | PErr (Some t) =>
      exists pre post, ts = pre ++ t :: post
        /\ forall post', F (pre ++ t :: post') = PErr (Some t)
  | _ => True
  end.

(** The tokens [p] begin a program of the grammar. *)
Definition viable (p : list token_type) : Prop := exists q, Grammar.program (p ++ q).

(** The offending token of [ts]: the first one with which no program of the
    grammar continues the tokens before it. *)
Definition offending (ts : list token) (t : token) : Prop :=
  exists pre post, ts = pre ++ t :: post
    /\ viable (map type pre) /\ ~ viable (map type (pre ++ [t])).

(** A token of a given type, to write a sequence of types as tokens. *)
Definition token_of (ty : token_type) : token :=
  {| type := ty; value := VStr EmptyString; lineno := 0 |}.

Definition bad_assign_example : string := "begin a := end.".

(** ** Phrases of tokens

    The vocabulary of the proof that the predictive parser accepts every
    sequence of tokens the productions derive. *)

(** A result that is not an error, with what is left of the tokens in [Q]. *)
Definition yields {A} (r : presult A) (Q : list token -> Prop) : Prop :=
  match r with
  | POk _ rest => Q rest
  | PErr _ => False
  | PFuel => True
  end.

(** The tokens of a list of parts, each a token followed by a phrase: the
    operators and operands of an expression after its first operand, the
    [else] parts after a statement, the items of a list after its first
    one. *)
Fixpoint links (parts : list (token * list token)) : list token :=
  match parts with
  | [] => []
  | p :: parts => p.1 :: p.2 ++ links parts
  end.

(** An operand of a binary operator: a literal, a variable, an expression in
    parentheses, or an operand after a prefix operator. *)
Inductive operand : list token -> Prop :=
| operand_atom t : type t = INT \/ type t = FLOAT \/ type t = ID -> operand [t]
| operand_group t e t' :
    type t = LPAREN -> Grammar.expr (map type e) -> type t' = RPAREN ->
    operand (t :: e ++ [t'])
| operand_prefix t o : type t = MINUS \/ type t = NOT -> operand o -> operand (t :: o).

(** The level of the operator of a part, and the parts an expression of
    level [l] takes and leaves. *)
Definition level (p : token * list token) : nat := default 0 (binop_level (type p.1)).
Definition operation (p : token * list token) : Prop :=
  is_Some (binop_level (type p.1)) /\ operand p.2.
Definition low (l : nat) (parts : list (token * list token)) : Prop :=
  Forall (fun p => level p <= l) parts.
Definition high (l : nat) (parts : list (token * list token)) : Prop :=
  match parts with
  | [] => True
  | p :: _ => l < level p
  end.

(** The next token is no binary operator. *)
Definition ends_expr (rest : list token) : Prop :=
  match rest with
  | [] => True
  | t :: _ => binop_level (type t) = None
  end.

(** The parts of a list after its first item: [sep] is the type of the
    separator and [G] derives an item. *)
Definition part_of (sep : token_type) (G : list token_type -> Prop)
    (p : token * list token) : Prop :=
  type p.1 = sep /\ G (map type p.2).

(** The next token is not of type [ty]. *)
Definition next_is_not (ty : token_type) (rest : list token) : Prop :=
  match rest with
  | [] => True
  | t :: _ => type t <> ty
  end.

(** The next token is one of those after a statement of a list ([;], [end]
    or [until]), or one of those after a list. *)
Definition ends_stmt (rest : list token) : Prop :=
  exists t r, rest = t :: r /\ (type t = SEMI \/ type t = END \/ type t = UNTIL).
Definition ends_list (rest : list token) : Prop :=
  exists t r, rest = t :: r /\ (type t = END \/ type t = UNTIL).

(** The productions of [stmt] on tokens; [el] is the [else] part of a
    conditional, if any. *)
Inductive stmt_view : list token -> Prop :=
| view_empty : stmt_view []
| view_assign t1 t2 e :
    type t1 = ID -> type t2 = ASSIGN -> Grammar.expr (map type e) ->
    stmt_view (t1 :: t2 :: e)
| view_if t c t' s el :
    type t = IF -> Grammar.expr (map type c) -> type t' = THEN ->
    Grammar.stmt (map type s) -> Forall (part_of ELSE Grammar.stmt) el -> length el <= 1 ->
    stmt_view (t :: c ++ t' :: s ++ links el)
| view_while t c t' s :
    type t = WHILE -> Grammar.expr (map type c) -> type t' = DO ->
    Grammar.stmt (map type s) ->
    stmt_view (t :: c ++ t' :: s)
| view_for t tv ta lo d hi t' s :
    type t = FOR -> type tv = ID -> type ta = ASSIGN -> Grammar.expr (map type lo) ->
    type d = TO \/ type d = DOWNTO -> Grammar.expr (map type hi) -> type t' = DO ->
    Grammar.stmt (map type s) ->
    stmt_view (t :: tv :: ta :: lo ++ d :: hi ++ t' :: s)
| view_repeat t l t' c :
    type t = REPEAT -> Grammar.stmt_list (map type l) -> type t' = UNTIL ->
    Grammar.expr (map type c) ->
    stmt_view (t :: l ++ t' :: c)
| view_write t tl l tr :
    type t = WRITELN \/ type t = WRITE -> type tl = LPAREN ->
    Grammar.expr_list (map type l) -> type tr = RPAREN ->
    stmt_view (t :: tl :: l ++ [tr])
| view_read t tl l tr :
    type t = READLN \/ type t = READ -> type tl = LPAREN ->
    Grammar.id_list (map type l) -> type tr = RPAREN ->
    stmt_view (t :: tl :: l ++ [tr])
| view_block t l t' :
    type t = BEGIN -> Grammar.stmt_list (map type l) -> type t' = END ->
    stmt_view (t :: l ++ [t']).

(** One declaration of the variable section on tokens. *)
Definition decl (d : list token) : Prop :=
  exists ids tc ty ts,
    d = ids ++ [tc; ty; ts] /\ Grammar.id_list (map type ids) /\ type tc = COLON
    /\ (type ty = INTEGER \/ type ty = REAL \/ type ty = BOOLEAN) /\ type ts = SEMI.

(** ** Graphs in the heap *)

(** The nodes a node refers to: the branches of a Condition node that are
    set, then its [next] list. *)
Definition refs (n : FlowNode) : list addr :=
  match cls n with
  | ConditionNode _ t f => option_list t ++ option_list f
  | _ => []
  end ++ next n.

(** Every reference of a node of the heap is a node of the heap, as it is
    for Python objects. *)
Definition closed (h : list FlowNode) : Prop :=
  forall a n, h !! a = Some n -> forall x, x ∈ refs n -> x < length h.

(** The ids of the nodes of a heap. *)
Definition ids (h : list FlowNode) : gset nat := list_to_set (map id h).

(** A node of the graph of a program, whose references lie in the addresses
    [lo .. hi - 1]: an Operation node has one successor, a Condition node has
    both branches and no successor, the Entry node has one successor and the
    Exit node none. *)
Definition program_node (lo hi : nat) (n : FlowNode) : Prop :=
  match cls n with
  | OperationNode _ | StartNode => exists x, next n = [x] /\ lo <= x < hi
  | ConditionNode _ t f =>
      next n = [] /\ exists ta fa, t = Some ta /\ f = Some fa
                                   /\ lo <= ta < hi /\ lo <= fa < hi
  | EndNode => next n = []
  end.
(** The lines a walk adds are indented at least as deep as the walk
    starts. *)
Definition deeper (i : nat) (line : string) : Prop :=
  exists j text, line = ind (i + j) text.

(** ** gui.py: the graph helpers *)

Module GraphUtils.

(** [stack.append(x)] for each [x] of [l] in turn.  The stack is a list
    whose head is the top, the element [stack.pop()] takes. *)
Definition push_all (l : list addr) (stack : list addr) : list addr := reverse l ++ stack.

(** The loop of [iter_reachable]: the nodes it yields, in the order it
    yields them.  A node pushes the branches of a Condition that are set, then
    its [next] list, which is [refs].  [None] stands for running out of fuel,
    or for a reference to no object. *)
Fixpoint iter_loop (fuel : nat) (h : list FlowNode) (visited : gset nat)
    (stack : list addr) : option (list addr) :=
  match fuel with
  | O => None
  | S fuel =>
      match stack with
      | [] => Some []
      | n :: stack =>
          match h !! n with
          | None => None
          | Some node =>
              if decide (id node ∈ visited) then iter_loop fuel h visited stack
              else
                match iter_loop fuel h ({[id node]} ∪ visited)
                        (push_all (refs node) stack) with
                | Some l => Some (n :: l)
                | None => None
                end
          end
      end
  end.

Definition iter_reachable (fuel : nat) (h : list FlowNode) (start : addr)
    : option (list addr) :=
  iter_loop fuel h ∅ [start].

(** The loop of [skip_service] with the set [seen] and the node [cur], which
    is [None] for Python's [None].  The result is the node returned; the outer
    [None] stands for running out of fuel or a reference to no object. *)
Fixpoint skip_loop (fuel : nat) (h : list FlowNode) (seen : gset nat)
    (cur : option addr) : option (option addr) :=
  match fuel with
  | O => None
  | S fuel =>
      match cur with
      | None => Some None
      | Some a =>
          match h !! a with
          | None => None
          | Some n =>
              if decide (id n ∈ seen) then Some cur
              else if is_real n then Some cur
              else
                match next n with
                | x :: _ => skip_loop fuel h ({[id n]} ∪ seen) (Some x)
                | [] => Some None
                end
          end
      end
  end.

Definition skip_service (fuel : nat) (h : list FlowNode) (node : option addr)
    : option (option addr) :=
  skip_loop fuel h ∅ node.

(** The loop of [is_loop_condition]: the search for the node [cond] itself
    ([n is cond]) among the nodes reached from the stack. *)
Fixpoint loop_search (fuel : nat) (h : list FlowNode) (cond : addr)
    (visited : gset nat) (stack : list addr) : option bool :=
  match fuel with
  | O => None
  | S fuel =>
      match stack with
      | [] => Some false
      | n :: stack =>
          match h !! n with
          | None => None
          | Some node =>
              if decide (id node ∈ visited) then loop_search fuel h cond visited stack
              else if decide (n = cond) then Some true
              else loop_search fuel h cond ({[id node]} ∪ visited)
                     (push_all (refs node) stack)
          end
      end
  end.

(** [is_loop_condition]; it is called on Condition nodes only, and [None]
    also stands for the attribute error on another node. *)
Definition is_loop_condition (fuel : nat) (h : list FlowNode) (cond : addr)
    : option bool :=
  match h !! cond with
  | Some n =>
      match cls n with
      | ConditionNode _ true_branch _ =>
          match skip_service fuel h true_branch with
          | Some (Some start) => loop_search fuel h cond ∅ [start]
          | Some None => Some false
          | None => None
          end
      | _ => None
      end
  | None => None
  end.

End GraphUtils.

Import GraphUtils.

(** A node reaches another along references. *)
Inductive reach (h : list FlowNode) : addr -> addr -> Prop :=
| reach_refl a : reach h a a
| reach_step a n x b : h !! a = Some n -> x ∈ refs n -> reach h x b -> reach h a b.

(** The largest number of references of a node of the heap. *)
Definition degree (h : list FlowNode) : nat :=
  foldr Nat.max 0 (map (fun n => length (refs n)) h).
(** The ids of the nodes at the addresses [l]. *)
Definition ids_at (h : list FlowNode) (l : list addr) : list nat :=
  omap (fun a => id <$> h !! a) l.

(** A process as the builder leaves it: every reference is to a node of the
    heap, the ids differ from each other and are below the counter. *)
Definition process_ok (s : process) : Prop :=
  closed (heap s) /\ NoDup (map id (heap s))
  /\ Forall (fun n => id n < _counter s) (heap s).

(** The successor of an Operation node of a fragment lies after the node,
    but for the step of a [for] loop, whose successor is the Condition node of
    the loop. *)
Definition forward (h : list FlowNode) (b : addr) : Prop :=
  forall n code x, h !! b = Some n -> cls n = OperationNode code -> x ∈ next n ->
    b < x \/ exists m cc t f, h !! x = Some m /\ cls m = ConditionNode cc t f.

(** ** gui.py: the layout of the drawing *)

Module Layout.

(** The attributes of a [Layout] that change: the positions by node id, the
    height of the main line and the ids [place_linear] has seen. *)
Record Layout := mkLayout {
  pos : gmap nat (Z * Z);
  level_y : Z;
  visited : gset nat;
}.

Definition step_y : Z := 110.
Definition branch_dx : Z := 260.

(** [Layout()] *)
Definition new_Layout : Layout := {| pos := ∅; level_y := 0; visited := ∅ |}.

(** [self.pos[nid] = p] *)
Definition set_pos (nid : nat) (p : Z * Z) (lay : Layout) : Layout :=
  {| pos := <[nid := p]> (pos lay); level_y := level_y lay; visited := visited lay |}.

(** [skip_service(node.next[0]) if node.next else None] *)
Definition skip_next (fuel : nat) (h : list FlowNode) (node : FlowNode)
    : option (option addr) :=
  match next node with
  | x :: _ => skip_service fuel h (Some x)
  | [] => Some None
  end.

(** The loop of [place_subchain], with the node [cur], the height [y] and
    the set [local_seen]; the result is the height returned. *)
Fixpoint subchain_loop (fuel : nat) (h : list FlowNode) (x : Z) (stop_at : option addr)
    (cur : option addr) (y : Z) (local_seen : gset nat) (lay : Layout)
    : option (Z * Layout) :=
  match fuel with
  | O => None
  | S fuel =>
      match cur with
      | None => Some (y, lay)
      | Some a =>
          match h !! a with
          | None => None
          | Some n =>
              if decide (id n ∈ local_seen) then Some (y, lay)
              else
                let local_seen := {[id n]} ∪ local_seen in
                if decide (Some a = stop_at) then Some (y, lay)
                else
                  match (if is_real n then Some (Some a)
                         else skip_service fuel h (Some a)) with
                  | None => None
                  | Some None => Some (y, lay)
                  | Some (Some a') =>
                      match h !! a' with
                      | None => None
                      | Some n' =>
                          let '(y, lay) :=
                            match pos lay !! id n' with
                            | None => ((y + step_y)%Z, set_pos (id n') (x, y) lay)
                            | Some _ => (y, lay)
                            end in
                          match cls n' with
                          | ConditionNode _ _ _ => Some (y, lay)
                          | _ =>
                              match skip_next fuel h n' with
                              | None => None
                              | Some cur => subchain_loop fuel h x stop_at cur y local_seen lay
                              end
                          end
                      end
                  end
          end
      end
  end.

Definition place_subchain (fuel : nat) (h : list FlowNode) (start : addr) (x y_start : Z)
    (stop_at : option addr) (lay : Layout) : option (Z * Layout) :=
  subchain_loop fuel h x stop_at (Some start) y_start ∅ lay.

(** [place_condition], with [place_linear] for the call it makes at its
    end. *)
Definition place_condition_with (place_linear : addr -> Z -> Layout -> option Layout)
    (fuel : nat) (h : list FlowNode) (cond : addr) (x_center : Z) (lay : Layout)
    : option Layout :=
  match h !! cond with
  | Some node =>
      match cls node with
      | ConditionNode _ true_branch false_branch =>
          match skip_service fuel h true_branch, skip_service fuel h false_branch,
                is_loop_condition fuel h cond, pos lay !! id node with
          | Some t, Some f, Some loop, Some (_, y_cond) =>
              let y_t_end := (y_cond + step_y)%Z in
              let y_f_end := (y_cond + step_y)%Z in
              match (match t with
                     | Some t =>
                         place_subchain fuel h t (x_center + branch_dx) (y_cond + step_y)
                           (if loop then Some cond else None) lay
                     | None => Some (y_t_end, lay)
                     end) with
              | None => None
              | Some (y_t_end, lay) =>
                  match (match f with
                         | Some f =>
                             if loop then
                               match h !! f with
                               | Some nf =>
                                   Some ((y_cond + step_y + step_y)%Z,
                                         match pos lay !! id nf with
                                         | None => set_pos (id nf) (x_center, (y_cond + step_y)%Z) lay
                                         | Some _ => lay
                                         end)
                               | None => None
                               end
                             else
                               place_subchain fuel h f (x_center - branch_dx)
                                 (y_cond + step_y) None lay
                         | None => Some (y_f_end, lay)
                         end) with
                  | None => None
                  | Some (y_f_end, lay) =>
                      let join_y := (Z.max (Z.max y_t_end y_f_end) (y_cond + step_y) + step_y)%Z in
                      match skip_next fuel h node with
                      | None => None
                      | Some None => Some lay
                      | Some (Some nxt) =>
                          match h !! nxt with
                          | None => None
                          | Some nn =>
                              match pos lay !! id nn with
                              | Some _ => Some lay
                              | None =>
                                  place_linear nxt x_center
                                    {| pos := <[id nn := (x_center, join_y)]> (pos lay);
                                       level_y := Z.max (level_y lay) (join_y + step_y);
                                       visited := visited lay |}
                              end
                          end
                      end
                  end
              end
          | _, _, _, _ => None
          end
      | _ => None
      end
  | None => None
  end.

(** [place_linear] calls itself on the next real node of the line, one
    frame deeper for each of them; the fuel bounds this depth and the turns of
    the loops together, and is not compared with [recursion_limit]. *)
Fixpoint place_linear (fuel : nat) (h : list FlowNode) (node : addr) (x : Z)
    (lay : Layout) : option Layout :=
  match fuel with
  | O => None
  | S fuel =>
      match h !! node with
      | None => None
      | Some n =>
          let nid := id n in
          if decide (nid ∈ visited lay) then Some lay
          else
            let lay := {| pos := <[nid := (x, level_y lay)]> (pos lay);
                          level_y := level_y lay + step_y;
                          visited := {[nid]} ∪ visited lay |} in
            match cls n with
            | ConditionNode _ _ _ =>
                place_condition_with (place_linear fuel h) fuel h node x lay
            | _ =>
                match skip_next fuel h n with
                | None => None
                | Some None => Some lay
                | Some (Some nxt) => place_linear fuel h nxt x lay
                end
            end
      end
  end.

Definition place_condition (fuel : nat) (h : list FlowNode) :=
  place_condition_with (place_linear fuel h) fuel h.

(** The positions [draw_flow] computes for the graph of [current_start]:
    [start = skip_service(self.current_start) or self.current_start], then
    [lay.place_linear(start, x=0)] on a new [Layout]. *)
Definition positions (fuel : nat) (h : list FlowNode) (current_start : addr)
    : option (gmap nat (Z * Z)) :=
  match skip_service fuel h (Some current_start) with
  | None => None
  | Some r =>
      let start := default current_start r in
      pos <$> place_linear fuel h start 0 new_Layout
  end.

End Layout.

(** The Condition nodes of the heap that have a position. *)
Definition positioned_conditions (h : list FlowNode) (p : gmap nat (Z * Z))
    : list FlowNode :=
  filter (fun n => match cls n with
                   | ConditionNode _ _ _ => bool_decide (is_Some (p !! id n))
                   | _ => false
                   end = true) h.

(** A real node of the set [P], which is one of [cs] when a Condition
    node. *)
Definition placed (h : list FlowNode) (P : addr -> Prop) (cs : list addr) (a : addr)
    : Prop :=
  P a /\ exists n, h !! a = Some n /\ is_real n = true
                   /\ forall cc t f, cls n = ConditionNode cc t f -> a ∈ cs.

(** The ids of [l] are the only keys added to [p]. *)
Definition adds (h : list FlowNode) (p p' : gmap nat (Z * Z)) (l : list addr) : Prop :=
  forall i, is_Some (p' !! i) ->
    is_Some (p !! i) \/ exists a n, a ∈ l /\ h !! a = Some n /\ id n = i.

(** A line of nodes: none is a Condition node, the [next] list of each holds
    the node after it in the line and nothing else, and the last one, with an
    empty [next] list, is real. *)
Fixpoint chain (h : list FlowNode) (l : list addr) : Prop :=
  match l with
  | [] => True
  | u :: rest =>
      (exists n, h !! u = Some n
                 /\ match cls n with ConditionNode _ _ _ => False | _ => True end
                 /\ next n = option_list (head rest)
                 /\ (rest = [] -> is_real n = true))
      /\ chain h rest
  end.

(** The nodes of [l] that are real. *)
Definition real_of (h : list FlowNode) (l : list addr) : list addr :=
  filter (fun a => is_real <$> h !! a = Some true) l.

(** One column of the drawing: the ids [l] at [x], from the height [y]
    downwards, one step apart. *)
Fixpoint column (x y : Z) (l : list nat) : list (nat * (Z * Z)) :=
  match l with
  | [] => []
  | i :: l => (i, (x, y)) :: column x (y + Layout.step_y) l
  end.

(** * Properties *)

Create Rewrite HintDb len.
Create Rewrite HintDb gen.

(** ** The builder makes the graph of the derivation *)

Lemma nodes_pos :
  (forall s, 0 < nodes s) /\ (forall e : opt_else, True) /\ (forall l, 0 < nodes_list l).
Proof. apply stmt_mutind; simpl; intros; lia. Qed.

Lemma nodes_stmt_pos s : 0 < nodes s.
Proof. apply nodes_pos. Qed.
Lemma nodes_list_pos l : 0 < nodes_list l.
Proof. apply nodes_pos. Qed.

Lemma length_graph_all :
  (forall s a c nx, length (graph s a c nx) = nodes s)
  /\ (forall e a c nx, length (graph_else e a c nx) = nodes_else e)
  /\ (forall l a c nx, length (graph_list l a c nx) = nodes_list l).
Proof.
  apply stmt_mutind; simpl; intros; rewrite ?length_app; simpl; rewrite ?H, ?H0; try lia.
Qed.

Lemma length_graph s a c nx : length (graph s a c nx) = nodes s.
Proof. apply length_graph_all. Qed.
Lemma length_graph_else e a c nx : length (graph_else e a c nx) = nodes_else e.
Proof. apply length_graph_all. Qed.
Lemma length_graph_list l a c nx : length (graph_list l a c nx) = nodes_list l.
Proof. apply length_graph_all. Qed.

Hint Rewrite @length_app @length_cons @length_nil length_graph length_graph_else
  length_graph_list : len.

Ltac len := autorewrite with len; simpl; try lia.

Lemma alter_last {A} (f : A -> A) (l : list A) (x : A) n :
  n = length l -> alter f n (l ++ [x]) = l ++ [f x].
Proof.
  intros ->. rewrite alter_app_r_alt by lia. by rewrite Nat.sub_diag.
Qed.

(** Write a list that ends in explicit elements as appended singletons,
    nested to the left. *)
Ltac snoc_form :=
  repeat match goal with
         | |- context [?x :: ?y :: ?l] => change (x :: y :: l) with ([x] ++ y :: l)
         end;
  rewrite ?app_assoc.

(** Connecting the exit node of a fragment adds a successor to the last node
    of its graph. *)
Lemma graph_add_next :
  (forall s a c nx x,
     alter (add_next x) (nodes s - 1) (graph s a c nx) = graph s a c (nx ++ [x]))
  /\ (forall e : opt_else, True)
  /\ (forall l a c nx x,
     alter (add_next x) (nodes_list l - 1) (graph_list l a c nx) = graph_list l a c (nx ++ [x])).
Proof.
  apply stmt_mutind; simpl; intros; try done;
    try (snoc_form; rewrite alter_last by len; done).
  - rewrite alter_app_r_alt by (pose proof (nodes_stmt_pos p3); len).
    f_equal. rewrite <- H0. f_equal. pose proof (nodes_stmt_pos p3); len.
Qed.

Hint Rewrite @length_alter : len.

Lemma graph_connect_at s a c x i :
  i = nodes s - 1 -> alter (add_next x) i (graph s a c []) = graph s a c [x].
Proof. intros ->. apply graph_add_next. Qed.
Lemma graph_list_connect_at l a c x i :
  i = nodes_list l - 1 ->
  alter (add_next x) i (graph_list l a c []) = graph_list l a c [x].
Proof. intros ->. apply graph_add_next. Qed.
Lemma alter_single {A} (f : A -> A) (x : A) i : i = 0 -> alter f i [x] = [f x].
Proof. by intros ->. Qed.

(** Run the semantic actions on a process. *)
Ltac run_monad :=
  unfold p_if_stmt, p_while_stmt, p_for_stmt, p_repeat_stmt, p_io_stmt, p_assign_stmt,
    p_stmt, p_block, p_stmt_list_one, p_stmt_list_seq, p_program,
    new_StartNode, new_EndNode, new_OperationNode, new_ConditionNode, new_node,
    set_true_branch, set_false_branch, connect, update, bind, ret,
    segment, segment_else, segment_list;
  simpl.

Ltac side := autorewrite with len; simpl;
  repeat match goal with
         | |- context [nodes ?s] => lazymatch goal with
             | _ : 0 < nodes s |- _ => fail
             | _ => pose proof (nodes_stmt_pos s) end
         | |- context [nodes_list ?s] => lazymatch goal with
             | _ : 0 < nodes_list s |- _ => fail
             | _ => pose proof (nodes_list_pos s) end
         end; lia.

(** Push every [alter] to the node it changes. *)
Ltac heap_norm :=
  autorewrite with len;
  repeat match goal with
         | |- context [?x :: ?y :: ?l] => change (x :: y :: l) with ([x] ++ y :: l)
         end;
  rewrite <- ?app_assoc;
  repeat first
    [ rewrite alter_app_r_alt by side
    | rewrite alter_app_l by side
    | rewrite graph_connect_at by side
    | rewrite graph_list_connect_at by side
    | rewrite alter_single by side ];
  simpl.

Ltac heap_done :=
  unfold with_true, with_false, add_next, cond_node, op_node,
    for_init_code, for_cond_code, for_step_code, for_downto; simpl;
  rewrite <- ?app_assoc; simpl;
  repeat (f_equal; try lia);
  rewrite ?app_nil_r; try done.

(** The reductions of a derivation, run on any process, append the nodes of
    [graph] to the heap and advance the counter by their number. *)
Lemma build_graph :
  (forall s σ,
     build_stmt s σ =
       (segment s (length (heap σ)),
        {| _counter := _counter σ + nodes s;
           heap := heap σ ++ graph s (length (heap σ)) (_counter σ) [] |}))
  /\ (forall e σ,
     build_opt_else e σ =
       (segment_else e (length (heap σ)),
        {| _counter := _counter σ + nodes_else e;
           heap := heap σ ++ graph_else e (length (heap σ)) (_counter σ) [] |}))
  /\ (forall l σ,
     build_stmt_list l σ =
       (segment_list l (length (heap σ)),
        {| _counter := _counter σ + nodes_list l;
           heap := heap σ ++ graph_list l (length (heap σ)) (_counter σ) [] |})).
Proof.
  apply stmt_mutind; intros; simpl;
    repeat (unfold bind at 1;
            match goal with
            | H : forall _ : process, _ = _ |- _ => rewrite H; clear H
            end);
    destruct σ as [c h];
    try match goal with p5 : opt_else |- _ => destruct p5 end;
    run_monad; heap_norm; heap_done.
Qed.

Lemma build_program_graph body σ :
  build_program body σ =
    ({| first := length (heap σ) + nodes_list body;
        last := length (heap σ) + nodes_list body + 1 |},
     {| _counter := _counter σ + nodes_list body + 2;
        heap := heap σ ++ program_graph body (length (heap σ)) (_counter σ) |}).
Proof.
  unfold build_program. unfold bind at 1.
  destruct build_graph as (_ & _ & ->).
  destruct σ as [c h]. unfold program_graph. run_monad; heap_norm; heap_done.
Qed.

(** ** The walk: fuel, and what a walk leaves unchanged *)

Lemma walk_each_mono (w w' : addr -> FlowCGenerator -> option FlowCGenerator) l :
  (forall a g r, w a g = Some r -> w' a g = Some r) ->
  forall g r, walk_each w l g = Some r -> walk_each w' l g = Some r.
Proof.
  intros Hw. induction l as [|x l IH]; simpl; intros g r H; [done|].
  destruct (w x g) as [g1|] eqn:E; [|done].
  rewrite (Hw _ _ _ E). auto.
Qed.

(** More fuel gives the same result. *)
Lemma _walk_mono fuel : forall fuel' h a g r,
  fuel <= fuel' -> _walk fuel h a g = Some r -> _walk fuel' h a g = Some r.
Proof.
  induction fuel as [|fuel IH]; intros fuel' h a g r Hle H; [done|].
  destruct fuel' as [|fuel']; [lia|].
  assert (Hs : forall a g r, _walk fuel h a g = Some r -> _walk fuel' h a g = Some r).
  { intros. eapply IH; [|done]. lia. }
  simpl in *. destruct (h !! a) as [n|]; [|done].
  destruct (decide (id n ∈ visited g)); [done|].
  destruct (cls n) as [| |code|c t f].
  - eapply walk_each_mono; eauto.
  - eapply walk_each_mono; eauto.
  - eapply walk_each_mono; eauto.
  - destruct t as [t|]; simpl in *.
    + destruct (_walk fuel h t _) as [g1|] eqn:E1; [|done].
      rewrite (Hs _ _ _ E1).
      destruct f as [f|].
      * destruct (_walk fuel h f _) as [g2|] eqn:E2; [|done].
        rewrite (Hs _ _ _ E2). eapply walk_each_mono; eauto.
      * eapply walk_each_mono; eauto.
    + destruct f as [f|].
      * destruct (_walk fuel h f _) as [g2|] eqn:E2; [|done].
        rewrite (Hs _ _ _ E2). eapply walk_each_mono; eauto.
      * eapply walk_each_mono; eauto.
Qed.

(** The steps of [_walk], for some amount of fuel. *)
Lemma walks_each_nil h g : walks_each h [] g g.
Proof. by exists 0. Qed.

Lemma walks_each_cons h x l g g1 g2 :
  walks h x g g1 -> walks_each h l g1 g2 -> walks_each h (x :: l) g g2.
Proof.
  intros [f1 H1] [f2 H2]. exists (f1 + f2). simpl.
  rewrite (_walk_mono f1 (f1 + f2) h x g g1) by (done || lia).
  eapply walk_each_mono; [|done]. intros. eapply _walk_mono; [|done]. lia.
Qed.

Lemma walks_each_one h x g g1 : walks h x g g1 -> walks_each h [x] g g1.
Proof. intros. eapply walks_each_cons; [done|apply walks_each_nil]. Qed.

Lemma walks_visited h a n g :
  h !! a = Some n -> id n ∈ visited g -> walks h a g g.
Proof.
  intros Hn Hv. exists 1. simpl. rewrite Hn. by rewrite decide_True.
Qed.

Lemma walks_operation h a n code g g' :
  h !! a = Some n -> id n ∉ visited g -> cls n = OperationNode code ->
  walks_each h (next n) (emit code (visit (id n) g)) g' ->
  walks h a g g'.
Proof.
  intros Hn Hv Hc [f H]. exists (S f). simpl.
  rewrite Hn, decide_False, Hc by done. done.
Qed.

Lemma walks_marker h a n g g' :
  h !! a = Some n -> id n ∉ visited g ->
  cls n = StartNode \/ cls n = EndNode ->
  walks_each h (next n) (visit (id n) g) g' ->
  walks h a g g'.
Proof.
  intros Hn Hv Hc [f H]. exists (S f). simpl.
  rewrite Hn, decide_False by done. by destruct Hc as [-> | ->].
Qed.

Lemma walks_condition h a n c t f g g1 g2 :
  h !! a = Some n -> id n ∉ visited g ->
  cls n = ConditionNode c (Some t) (Some f) -> next n = [] ->
  walks h t (indent_inc (emit ("if (" +:+ c +:+ ") {") (visit (id n) g))) g1 ->
  walks h f (indent_inc (emit "} else {" (indent_dec g1))) g2 ->
  walks h a g (emit "}" (indent_dec g2)).
Proof.
  intros Hn Hv Hc Hx [f1 H1] [f2 H2]. exists (S (f1 + f2)). simpl.
  rewrite Hn, decide_False, Hc, Hx by done. simpl.
  rewrite (_walk_mono f1 (f1 + f2) _ _ _ _ ltac:(lia) H1).
  rewrite (_walk_mono f2 (f1 + f2) _ _ _ _ ltac:(lia) H2). done.
Qed.

Lemma gen_eq g g' :
  lines g = lines g' -> indent_level g = indent_level g' -> visited g = visited g' ->
  g = g'.
Proof. destruct g, g'; simpl; by intros -> -> ->. Qed.

(** A walk returns at the indent level it started at, forgets no visited
    node and only adds lines. *)
Lemma walk_each_frame (w : addr -> FlowCGenerator -> option FlowCGenerator) l :
  (forall a g r, w a g = Some r ->
     indent_level r = indent_level g /\ visited g ⊆ visited r
     /\ exists out, lines r = lines g ++ out) ->
  forall g r, walk_each w l g = Some r ->
     indent_level r = indent_level g /\ visited g ⊆ visited r
     /\ exists out, lines r = lines g ++ out.
Proof.
  intros Hw. induction l as [|x l IH]; simpl; intros g r H.
  - injection H as <-. split_and!; [done|done|]. exists []. by rewrite app_nil_r.
  - destruct (w x g) as [g1|] eqn:E; [|done].
    destruct (Hw _ _ _ E) as (Hi & Hv & out & Hl).
    destruct (IH _ _ H) as (Hi' & Hv' & out' & Hl').
    split_and!; [congruence|set_solver|].
    exists (out ++ out'). by rewrite Hl', Hl, app_assoc.
Qed.

Lemma _walk_frame fuel : forall h a g r,
  _walk fuel h a g = Some r ->
  indent_level r = indent_level g /\ visited g ⊆ visited r
  /\ exists out, lines r = lines g ++ out.
Proof.
  induction fuel as [|fuel IH]; intros h a g r H; [done|].
  simpl in H. destruct (h !! a) as [n|]; [|done].
  destruct (decide (id n ∈ visited g)).
  { injection H as <-. split_and!; [done|done|]. exists []. by rewrite app_nil_r. }
  assert (Hs := fun a g r => IH h a g r).
  destruct (cls n) as [| |code|c t f].
  - apply (walk_each_frame _ _ Hs) in H as (Hi & Hv & out & Hl). simpl in *.
    split_and!; [done|set_solver|eauto].
  - apply (walk_each_frame _ _ Hs) in H as (Hi & Hv & out & Hl). simpl in *.
    split_and!; [done|set_solver|eauto].
  - apply (walk_each_frame _ _ Hs) in H as (Hi & Hv & out & Hl). simpl in *.
    split_and!; [done|set_solver|]. exists ([indent g +:+ code] ++ out).
    by rewrite Hl, app_assoc.
  - assert (exists g1, walk_opt (_walk fuel h) t
               (indent_inc (emit ("if (" +:+ c +:+ ") {") (visit (id n) g))) = Some g1
             /\ exists g2, match f with
                  | Some fb =>
                      match _walk fuel h fb (indent_inc (emit "} else {" (indent_dec g1))) with
                      | Some g => Some (indent_dec g)
                      | None => None
                      end
                  | None => Some (indent_dec g1)
                  end = Some g2
               /\ walk_each (_walk fuel h) (next n) (emit "}" g2) = Some r)
      as (g1 & H1 & g2 & H2 & H3).
    { destruct (walk_opt _ t _) as [g1|]; [|done]. exists g1. split; [done|].
      destruct f as [fb|].
      - destruct (_walk fuel h fb _) as [g2|]; [|done]. eauto.
      - eauto. }
    clear H.
    assert (indent_level g1 = S (indent_level g) /\ {[id n]} ∪ visited g ⊆ visited g1
            /\ exists out, lines g1 = lines g ++ out) as (Hi1 & Hv1 & out1 & Hl1).
    { destruct t as [t|]; simpl in H1.
      - apply Hs in H1 as (Hi & Hv & out & Hl). simpl in *.
        split_and!; [done|done|]. rewrite Hl, <- app_assoc. eauto.
      - injection H1 as <-. simpl. split_and!; [done|done|eauto]. }
    assert (indent_level g2 = indent_level g /\ visited g1 ⊆ visited g2
            /\ exists out, lines g2 = lines g1 ++ out) as (Hi2 & Hv2 & out2 & Hl2).
    { destruct f as [fb|].
      - destruct (_walk fuel h fb _) as [g'|] eqn:E; [|done]. injection H2 as <-.
        apply Hs in E as (Hi & Hv & out & Hl). simpl in *.
        split_and!; [lia|done|]. rewrite Hl, <- app_assoc. eauto.
      - injection H2 as <-. simpl. split_and!; [lia|done|].
        exists []. by rewrite app_nil_r. }
    apply (walk_each_frame _ _ Hs) in H3 as (Hi & Hv & out & Hl). simpl in *.
    split_and!; [congruence|set_solver|].
    rewrite Hl, Hl2, Hl1, <- !app_assoc. eauto.
Qed.

Lemma walks_each_frame h l g r :
  walks_each h l g r ->
  indent_level r = indent_level g /\ visited g ⊆ visited r
  /\ exists out, lines r = lines g ++ out.
Proof.
  intros [fuel H]. eapply walk_each_frame; [|done]. apply _walk_frame.
Qed.

(** ** The walk of the graph of a derivation *)

Lemma holds_app h a G1 G2 :
  holds h a (G1 ++ G2) <-> holds h a G1 /\ holds h (a + length G1) G2.
Proof.
  unfold holds. split.
  - intros H. split; intros k n Hk.
    + apply H. by apply lookup_app_l_Some.
    + replace (a + length G1 + k) with (a + (length G1 + k)) by lia.
      apply H. rewrite lookup_app_r by lia.
      by replace (length G1 + k - length G1) with k by lia.
  - intros [H1 H2] k n Hk. apply lookup_app_Some in Hk as [Hk|[Hle Hk]]; [auto|].
    replace (a + k) with (a + length G1 + (k - length G1)) by lia. auto.
Qed.

Lemma holds_cons h a x G :
  holds h a (x :: G) <-> h !! a = Some x /\ holds h (S a) G.
Proof.
  unfold holds. split.
  - intros H. split.
    + rewrite <- (Nat.add_0_r a). by apply H.
    + intros k n Hk. replace (S a + k) with (a + S k) by lia. by apply H.
  - intros [H1 H2] [|k] n Hk; simpl in Hk.
    + injection Hk as <-. by rewrite Nat.add_0_r.
    + replace (a + S k) with (S a + k) by lia. auto.
Qed.

Lemma holds_self h G : holds (h ++ G) (length h) G.
Proof.
  intros k n Hk. rewrite lookup_app_r by lia.
  by replace (length h + k - length h) with k by lia.
Qed.

(** The late ids of a fragment are ids of the fragment, and the id of its
    entry node is not one of them. *)
Lemma late_range :
  (forall s c x, x ∈ late s c -> c <= x < c + nodes s)
  /\ (forall e : opt_else, True)
  /\ (forall l c x, x ∈ late_list l c -> c <= x < c + nodes_list l).
Proof.
  apply stmt_mutind; simpl; intros; try done; try set_solver.
  - apply elem_of_union in H1 as [H1|H1].
    + apply H in H1. lia.
    + apply elem_of_set_seq in H1. lia.
  - apply H in H0. lia.
  - apply elem_of_union in H1 as [H1|H1].
    + apply H in H1. lia.
    + apply H0 in H1. lia.
Qed.

Lemma late_stmt_range s c x : x ∈ late s c -> c <= x < c + nodes s.
Proof. apply late_range. Qed.
Lemma late_list_range l c x : x ∈ late_list l c -> c <= x < c + nodes_list l.
Proof. apply late_range. Qed.

Lemma first_off_early :
  (forall s, first_off s < nodes s /\ forall c, c + first_off s ∉ late s c)
  /\ (forall e : opt_else, True)
  /\ (forall l, first_off_list l < nodes_list l
                /\ forall c, c + first_off_list l ∉ late_list l c).
Proof.
  apply stmt_mutind; simpl; intros; try done;
    repeat match goal with H : _ /\ _ |- _ => destruct H end;
    try (split; [lia|set_solver]).
  - split; [lia|]. intros c Hin. apply elem_of_union in Hin as [Hin|Hin].
    + apply late_stmt_range in Hin. lia.
    + apply elem_of_set_seq in Hin. lia.
  - split; [lia|]. intros c Hin. apply elem_of_union in Hin as [Hin|Hin].
    + by eapply H2.
    + apply late_stmt_range in Hin. lia.
Qed.

(** The fields of a generator after each of its methods. *)
Lemma lines_emit l g : lines (emit l g) = lines g ++ [ind (indent_level g) l].
Proof. done. Qed.
Lemma indent_emit l g : indent_level (emit l g) = indent_level g.
Proof. done. Qed.
Lemma visited_emit l g : visited (emit l g) = visited g.
Proof. done. Qed.
Lemma lines_visit i g : lines (visit i g) = lines g.
Proof. done. Qed.
Lemma indent_visit i g : indent_level (visit i g) = indent_level g.
Proof. done. Qed.
Lemma visited_visit i g : visited (visit i g) = {[i]} ∪ visited g.
Proof. done. Qed.
Lemma lines_inc g : lines (indent_inc g) = lines g.
Proof. done. Qed.
Lemma indent_inc_level g : indent_level (indent_inc g) = S (indent_level g).
Proof. done. Qed.
Lemma visited_inc g : visited (indent_inc g) = visited g.
Proof. done. Qed.
Lemma lines_dec g : lines (indent_dec g) = lines g.
Proof. done. Qed.
Lemma indent_dec_level g : indent_level (indent_dec g) = indent_level g - 1.
Proof. done. Qed.
Lemma visited_dec g : visited (indent_dec g) = visited g.
Proof. done. Qed.

Lemma lines_enter pre d A g : lines (enter pre d A g) = lines g ++ pre.
Proof. done. Qed.
Lemma indent_enter pre d A g : indent_level (enter pre d A g) = indent_level g + d.
Proof. done. Qed.
Lemma visited_enter pre d A g : visited (enter pre d A g) = visited g ∪ A.
Proof. done. Qed.
Lemma lines_leave post B g g1 : lines (leave post B g g1) = lines g1 ++ post.
Proof. done. Qed.
Lemma indent_leave post B g g1 : indent_level (leave post B g g1) = indent_level g.
Proof. done. Qed.
Lemma visited_leave post B g g1 : visited (leave post B g g1) = visited g1 ∪ B.
Proof. done. Qed.

Hint Rewrite lines_emit indent_emit visited_emit lines_visit indent_visit visited_visit
  lines_inc indent_inc_level visited_inc lines_dec indent_dec_level visited_dec
  lines_enter indent_enter visited_enter lines_leave indent_leave visited_leave : gen.

Lemma walks_to h a g r r' : walks h a g r -> r = r' -> walks h a g r'.
Proof. by intros ? <-. Qed.

Lemma walks_each_eq h l g g' r r' :
  walks_each h l g r -> g = g' -> r = r' -> walks_each h l g' r'.
Proof. by intros ? <- <-. Qed.

Arguments walks : simpl never.
Arguments walks_each : simpl never.

(** Facts about the state the walk is in when it is back from the
    successors of an exit node. *)
Ltac frame_of Hk :=
  let Hi := fresh "Hi" in
  let Hv := fresh "Hv" in
  destruct (walks_each_frame _ _ _ _ Hk) as (Hi & Hv & _);
  autorewrite with gen in Hi, Hv.

Ltac late_fact s c :=
  lazymatch goal with
  | _ : forall x, x ∈ late s c -> _ <= x < _ |- _ => fail
  | _ => pose proof (late_stmt_range s c)
  end.
Ltac late_list_fact s c :=
  lazymatch goal with
  | _ : forall x, x ∈ late_list s c -> _ <= x < _ |- _ => fail
  | _ => pose proof (late_list_range s c)
  end.

Lemma iff_T (P : Prop) : P -> (P <-> True).
Proof. tauto. Qed.
Lemma iff_F (P : Prop) : ~ P -> (P <-> False).
Proof. tauto. Qed.

(** Replace every membership that is known to hold or not by [True] or
    [False], so that linear arithmetic can finish. *)
Ltac atoms_decided :=
  repeat match goal with
         | H : ?x ∈ ?S |- context [?x ∈ ?S] => rewrite (iff_T _ H)
         | H : ?x ∉ ?S |- context [?x ∈ ?S] => rewrite (iff_F _ H)
         | H : ?x ∈ ?S, H2 : context [?x ∈ ?S] |- _ =>
             lazymatch type of H2 with
             | x ∈ S => fail
             | _ => rewrite (iff_T _ H) in H2
             end
         | H : ?x ∉ ?S, H2 : context [?x ∈ ?S] |- _ =>
             lazymatch type of H2 with
             | x ∉ S => fail
             | _ => rewrite (iff_F _ H) in H2
             end
         end.

Ltac pointwise x :=
  repeat match goal with
         | H : forall y : nat, _ |- _ => specialize (H x)
         end;
  repeat match goal with
         | |- context [x ∈ ?S] =>
             lazymatch goal with
             | _ : x ∈ S |- _ => fail
             | _ : x ∉ S |- _ => fail
             | _ => destruct (decide (x ∈ S))
             end
         | _ : context [x ∈ ?S] |- _ =>
             lazymatch goal with
             | _ : x ∈ S |- _ => fail
             | _ : x ∉ S |- _ => fail
             | _ => destruct (decide (x ∈ S))
             end
         end;
  atoms_decided; lia.

Ltac set_prep :=
  autorewrite with gen in *; simpl id in *;
  unfold early, early_list in *;
  cbn [late late_list nodes nodes_else nodes_list] in *;
  repeat match goal with
         | |- context [late ?s ?c] => late_fact s c
         | _ : context [late ?s ?c] |- _ => late_fact s c
         | |- context [late_list ?s ?c] => late_list_fact s c
         | _ : context [late_list ?s ?c] |- _ => late_list_fact s c
         end;
  set_unfold.

(** A goal about all elements, and a goal about the element [x]. *)
Ltac set_tac :=
  set_prep; first [ done | let x := fresh "x" in intros x; pointwise x ].
Ltac set_at x := set_prep; pointwise x.

Ltac gen_solve :=
  apply gen_eq; autorewrite with gen; cbn [lines indent_level visited];
  [ rewrite <- ?app_assoc; simpl; rewrite ?app_nil_r; repeat (f_equal; try lia)
  | try lia
  | set_tac ].

(** The walk of a fragment of one Operation node. *)
Lemma walk_leaf code h a c nx g g1 :
  h !! a = Some (op_node c code nx) ->
  c ∉ visited g ->
  walks_each h nx (enter [ind (indent_level g) code] 0 (set_seq c 1 ∖ ∅) g) g1 ->
  walks h (a + 0) g (leave [] ∅ g g1).
Proof.
  intros Hn Hv Hk. rewrite Nat.add_0_r. frame_of Hk.
  eapply walks_operation; [done|done|done|]. simpl.
  eapply walks_each_eq; [apply Hk| |]; gen_solve.
Qed.

(** The nodes of a graph carry consecutive ids in the order of their
    addresses. *)
Lemma ids_from_nil c : ids_from c [].
Proof. by intros k n H. Qed.

Lemma ids_from_cons c x G : id x = c -> ids_from (S c) G -> ids_from c (x :: G).
Proof.
  intros Hx HG [|k] n H; simpl in H.
  - injection H as <-. lia.
  - apply HG in H. lia.
Qed.

Lemma ids_from_app c G1 G2 :
  ids_from c G1 -> ids_from (c + length G1) G2 -> ids_from c (G1 ++ G2).
Proof.
  intros H1 H2 k n H. apply lookup_app_Some in H as [H|[Hle H]].
  - by apply H1.
  - apply H2 in H. lia.
Qed.

Lemma graph_ids :
  (forall s a c nx, ids_from c (graph s a c nx))
  /\ (forall e a c nx, ids_from c (graph_else e a c nx))
  /\ (forall l a c nx, ids_from c (graph_list l a c nx)).
Proof.
  apply stmt_mutind; intros;
    cbn [graph graph_else graph_list];
    repeat first
      [ apply ids_from_nil
      | apply ids_from_app; autorewrite with len
      | apply ids_from_cons; [simpl; lia|]
      | match goal with H : forall a c nx, ids_from c _ |- _ => apply H end ].
Qed.

Lemma graph_lookup :
  (forall s a c nx k, k < nodes s ->
     exists n, graph s a c nx !! k = Some n /\ id n = c + k)
  /\ (forall e a c nx k, k < nodes_else e ->
     exists n, graph_else e a c nx !! k = Some n /\ id n = c + k)
  /\ (forall l a c nx k, k < nodes_list l ->
     exists n, graph_list l a c nx !! k = Some n /\ id n = c + k).
Proof.
  destruct graph_ids as (H1 & H2 & H3).
  split_and!; intros s a c nx k Hk.
  - destruct (lookup_lt_is_Some_2 (graph s a c nx) k) as [n Hn]; [by len|].
    exists n. split; [done|]. by eapply H1.
  - destruct (lookup_lt_is_Some_2 (graph_else s a c nx) k) as [n Hn]; [by len|].
    exists n. split; [done|]. by eapply H2.
  - destruct (lookup_lt_is_Some_2 (graph_list s a c nx) k) as [n Hn]; [by len|].
    exists n. split; [done|]. by eapply H3.
Qed.

Lemma graph_list_first l a c nx :
  exists n, graph_list l a c nx !! first_off_list l = Some n
            /\ id n = c + first_off_list l.
Proof. apply graph_lookup. apply first_off_early. Qed.

Ltac unfold_shape :=
  cbn [nodes nodes_else nodes_list first_off first_off_list
       graph graph_else graph_list before after before_list after_list
       depth depth_list late late_list walk_spec_else] in *.

Ltac holds_split H :=
  repeat first
    [ apply holds_app in H as [? H]
    | apply holds_cons in H as [? H] ];
  autorewrite with len in *.

(** The walk of the graph of a derivation, entered with none of its nodes
    visited, emits [before], goes on to the successors of the exit node, and
    emits [after] when it is back; the nodes it has not visited by the time it
    reaches the successors are the late ones. *)
Lemma walk_graph :
  (forall s, walk_spec s) /\ (forall e, walk_spec_else e) /\ (forall l, walk_spec_list l).
Proof.
  apply stmt_mutind.
  - (* assignment *)
    intros p1 p3 a c nx h Hh g Hfresh g1 Hk Hlate. unfold_shape.
    apply holds_cons in Hh as [Hn _].
    eapply walk_leaf; [done| |done]. apply Hfresh. lia.
  - (* if *)
    intros p2 p4 IH4 p5 IH5 a c nx h Hh g Hfresh g1 Hk Hlate.
    destruct p5 as [e|]; unfold_shape; holds_split Hh; frame_of Hk.
    + replace (a + (nodes p4 + nodes e)) with (a + nodes p4 + nodes e) by lia.
      eapply walks_to.
      * eapply walks_condition; [done| |done|done| |].
        -- set_at (c + nodes p4 + nodes e).
        -- eapply IH4; [done| | |].
           ++ intros x Hx. set_at x.
           ++ apply walks_each_one. eapply walks_operation; [done| |done|].
              ** set_at (S (c + nodes p4 + nodes e)).
              ** simpl. eapply walks_each_eq; [apply Hk| |reflexivity].
                 gen_solve.
           ++ intros x Hx. set_at x.
        -- eapply IH5; [done| | |].
           ++ intros x Hx. set_at x.
           ++ apply walks_each_one. eapply walks_visited; [done|].
              set_at (S (c + nodes p4 + nodes e)).
           ++ intros x Hx. set_at x.
      * gen_solve.
    + replace (a + (nodes p4 + 0)) with (a + nodes p4 + 0) by lia.
      eapply walks_to.
      * eapply walks_condition; [done| |done|done| |].
        -- set_at (c + nodes p4 + 0).
        -- eapply IH4; [done| | |].
           ++ intros x Hx. set_at x.
           ++ apply walks_each_one. eapply walks_operation; [done| |done|].
              ** set_at (S (c + nodes p4 + 0)).
              ** simpl. eapply walks_each_eq; [apply Hk| |reflexivity]. gen_solve.
           ++ intros x Hx. set_at x.
        -- eapply walks_visited; [done|]. set_at (S (c + nodes p4 + 0)).
      * gen_solve.
  - (* while *)
    intros p2 p4 IH a c nx h Hh g Hfresh g1 Hk Hlate.
    unfold_shape. holds_split Hh. frame_of Hk.
    eapply walks_to.
    + eapply walks_condition; [done| |done|done| |].
      * set_at (c + nodes p4).
      * eapply IH; [done| | |].
        -- intros x Hx. set_at x.
        -- apply walks_each_one. eapply walks_visited; [done|].
           set_at (c + nodes p4).
        -- intros x Hx. set_at x.
      * eapply walks_operation; [done| |done|].
        -- set_at (S (c + nodes p4)).
        -- simpl. eapply walks_each_eq; [apply Hk| |reflexivity].
           gen_solve.
    + gen_solve.
  - (* for *)
    intros p2 p4 p5 p6 p8 IH a c nx h Hh g Hfresh g1 Hk Hlate.
    unfold_shape. holds_split Hh. frame_of Hk.
    eapply walks_operation; [done| |done|].
    { set_at (c + nodes p8). }
    simpl. apply walks_each_one. eapply walks_to.
    + eapply walks_condition; [done| |done|done| |].
      * set_at (S (c + nodes p8)).
      * eapply IH; [done| | |].
        -- intros x Hx. set_at x.
        -- apply walks_each_one. eapply walks_operation; [done| |done|].
           ++ set_at (S (S (c + nodes p8))).
           ++ simpl. apply walks_each_one. eapply walks_visited; [done|].
              set_at (S (c + nodes p8)).
        -- intros x Hx. set_at x.
      * eapply walks_operation; [done| |done|].
        -- set_at (S (S (S (c + nodes p8)))).
        -- simpl. eapply walks_each_eq; [apply Hk| |reflexivity]. gen_solve.
    + gen_solve.
  - (* repeat *)
    intros p2 IH p4 a c nx h Hh g Hfresh g1 Hk Hlate.
    unfold_shape. holds_split Hh. frame_of Hk.
    destruct (graph_list_first p2 a c [a + nodes_list p2]) as (n & Hn & Hid).
    apply H in Hn.
    destruct first_off_early as (_ & _ & Hf). destruct (Hf p2) as [Hf1 Hf2].
    specialize (Hf2 c). clear Hf.
    eapply walks_to.
    + eapply IH; [done| | |].
      * intros x Hx. set_at x.
      * apply walks_each_one. eapply walks_condition; [done| |done|done| |].
        -- set_at (c + nodes_list p2).
        -- eapply walks_operation; [done| |done|].
           ++ set_at (S (c + nodes_list p2)).
           ++ simpl. eapply walks_each_eq; [apply Hk| |reflexivity]. gen_solve.
        -- eapply walks_visited; [done|]. rewrite Hid.
           set_at (c + first_off_list p2).
      * intros x Hx. set_at x.
    + gen_solve.
  - (* input and output *)
    intros p1 p3 a c nx h Hh g Hfresh g1 Hk Hlate. unfold_shape.
    apply holds_cons in Hh as [Hn _].
    eapply walk_leaf; [done| |done]. apply Hfresh. lia.
  - (* block *)
    intros p2 IH a c nx h Hh g Hfresh g1 Hk Hlate.
    exact (IH a c nx h Hh g Hfresh g1 Hk Hlate).
  - (* empty *)
    intros a c nx h Hh g Hfresh g1 Hk Hlate. unfold_shape.
    apply holds_cons in Hh as [Hn _].
    eapply walk_leaf; [done| |done]. apply Hfresh. lia.
  - intros p2 IH. exact IH.
  - exact I.
  - intros p1 IH a c nx h Hh g Hfresh g1 Hk Hlate.
    exact (IH a c nx h Hh g Hfresh g1 Hk Hlate).
  - (* sequence *)
    intros p1 IH1 p3 IH3 a c nx h Hh g Hfresh g1 Hk Hlate.
    unfold_shape. holds_split Hh. frame_of Hk.
    eapply walks_to.
    + eapply IH1; [done| | |].
      * intros x Hx. set_at x.
      * apply walks_each_one.
        replace (a + nodes_list p1 + first_off p3)
          with ((a + nodes_list p1) + first_off p3) by lia.
        eapply IH3; [done| | |].
        -- intros x Hx. set_at x.
        -- eapply walks_each_eq; [apply Hk| |reflexivity]. gen_solve.
        -- intros x Hx. set_at x.
      * intros x Hx. set_at x.
    + gen_solve.
Qed.

(** ** The regenerated text of a built program *)

(** From the Entry node the walk emits the lines of the body and visits
    every node of the graph. *)
Lemma walk_program body a c h g :
  holds h a (program_graph body a c) ->
  (forall x, c <= x < c + nodes_list body + 2 -> x ∉ visited g) ->
  walks h (a + nodes_list body) g
    {| lines := lines g ++ before_list body (indent_level g)
                  ++ after_list body (indent_level g);
       indent_level := indent_level g;
       visited := visited g ∪ set_seq c (nodes_list body + 2) |}.
Proof.
  intros Hh Hfresh. unfold program_graph in Hh. holds_split Hh.
  destruct walk_graph as (_ & _ & Hw).
  eapply walks_marker; [done| |by left|].
  { set_at (c + nodes_list body). }
  simpl. apply walks_each_one. eapply walks_to.
  - eapply Hw; [done| | |].
    + intros x Hx. set_at x.
    + apply walks_each_one. eapply walks_marker; [done| |by right|].
      * set_at (S (c + nodes_list body)).
      * apply walks_each_nil.
    + intros x Hx. set_at x.
  - gen_solve.
Qed.

(** Regenerating from the graph the builder made gives [program_lines]. *)
Lemma generate_lines_program body s :
  exists fuel,
    generate_lines fuel (heap (build_program body s).2) (first (build_program body s).1)
    = Some (program_lines body).
Proof.
  rewrite build_program_graph. simpl.
  destruct (walk_program body (length (heap s)) (_counter s)
              (heap s ++ program_graph body (length (heap s)) (_counter s))
              header)
    as [fuel Hw].
  - apply holds_self.
  - intros x _. simpl. set_solver.
  - exists fuel. unfold generate_lines. rewrite Hw. f_equal.
    unfold program_lines. cbn -[before_list after_list ind]. rewrite <- !app_assoc. reflexivity.
Qed.

(** ** Programs without conditionals and loops *)

Lemma straight_lines :
  (forall s, straight s = true ->
     depth s = 0 /\ forall i, before s i = map (ind i) (statements s) /\ after s i = [])
  /\ (forall e : opt_else, True)
  /\ (forall l, straight_list l = true ->
     depth_list l = 0
     /\ forall i, before_list l i = map (ind i) (statements_list l) /\ after_list l i = []).
Proof.
  apply stmt_mutind; simpl; try done; try (intros; split; [done|]; intros; done); try (intros; auto; fail).
  - intros p1 IH1 p3 IH3 H. apply andb_true_iff in H as [H1 H3].
    destruct (IH1 H1) as [Hd Hl]. destruct (IH3 H3) as [Hd' Hl'].
    split; [lia|]. intros i. rewrite Hd, Nat.add_0_r.
    destruct (Hl i) as [-> ->]. destruct (Hl' i) as [-> ->].
    by rewrite map_app.
Qed.

(** C8: for a program without conditionals and loops, the regenerated lines
    between the opening of [main] and its [return] are the C texts of the
    statements of the source, one line per statement, in the order of the
    source. *)
Theorem straight_program_keeps_order body s :
  straight_list body = true ->
  exists fuel,
    generate_lines fuel (heap (build_program body s).2) (first (build_program body s).1)
    = Some (["#include <stdio.h>"; EmptyString; "int main() {"]
            ++ map (ind 1) (statements_list body)
            ++ ["    return 0;"; "}"]).
Proof.
  intros Hs. destruct (generate_lines_program body s) as [fuel H].
  exists fuel. rewrite H. unfold program_lines.
  destruct straight_lines as (_ & _ & Hl). destruct (Hl body Hs) as [_ Hb].
  destruct (Hb 1) as [-> ->]. reflexivity.
Qed.

Lemma straight_program_keeps_order_witness :
  exists fuel,
    generate_lines fuel
      (heap (build_program
               (StmtSeq (StmtSeq (StmtOne (AssignStmt "a" "1"))
                           (BlockStmt (StmtSeq (StmtOne (IoStmt "writeln" ["a"]))
                                          EmptyStmt)))
                  (AssignStmt "b" "(a + 2)"))
               {| _counter := 7; heap := [] |}).2)
      (first (build_program
               (StmtSeq (StmtSeq (StmtOne (AssignStmt "a" "1"))
                           (BlockStmt (StmtSeq (StmtOne (IoStmt "writeln" ["a"]))
                                          EmptyStmt)))
                  (AssignStmt "b" "(a + 2)"))
               {| _counter := 7; heap := [] |}).1)
    = Some (["#include <stdio.h>"; EmptyString; "int main() {"]
            ++ map (ind 1)
                 ["a = 1;"; "printf(" +:+ dquote +:+ "%d\n" +:+ dquote +:+ ", a);";
                  "/* empty */"; "b = (a + 2);"]
            ++ ["    return 0;"; "}"]).
Proof.
  apply (straight_program_keeps_order
           (StmtSeq (StmtSeq (StmtOne (AssignStmt "a" "1"))
                       (BlockStmt (StmtSeq (StmtOne (IoStmt "writeln" ["a"]))
                                      EmptyStmt)))
              (AssignStmt "b" "(a + 2)"))
           {| _counter := 7; heap := [] |}).
  reflexivity.
Defined.

(** ** The scaffold of the text *)

Lemma append_cons c s t : String c s +:+ t = String c (s +:+ t).
Proof. done. Qed.
Lemma append_nil t : EmptyString +:+ t = t.
Proof. done. Qed.
Lemma append_assoc s t u : (s +:+ t) +:+ u = s +:+ (t +:+ u).
Proof. induction s as [|c s IH]; [done|]. by rewrite !append_cons, IH. Qed.

Lemma contains_app_r m a b : contains m b = true -> contains m (a +:+ b) = true.
Proof.
  intros H. induction a as [|c a IH]; [done|].
  rewrite append_cons. simpl. rewrite IH. by rewrite orb_true_r.
Qed.

Lemma assign_not_return p1 p3 : p1 +:+ " = " +:+ p3 +:+ ";" <> "return 0;".
Proof.
  intros H.
  assert (Hc : contains "=" (p1 +:+ " = " +:+ p3 +:+ ";") = true)
    by (by apply contains_app_r).
  by rewrite H in Hc.
Qed.

Lemma step_not_return p2 p5 : for_step_code p2 p5 <> "return 0;".
Proof.
  unfold for_step_code. intros H. destruct (for_downto p5).
  - assert (Hc : contains "-" (p2 +:+ "--;") = true) by (by apply contains_app_r).
    by rewrite H in Hc.
  - assert (Hc : contains "+" (p2 +:+ "++;") = true) by (by apply contains_app_r).
    by rewrite H in Hc.
Qed.

Lemma if_line_not_return c : if_line c <> "return 0;".
Proof. unfold if_line. rewrite !append_cons. discriminate. Qed.

Lemma io_code_not_return p1 p3 : io_code p1 p3 <> "return 0;".
Proof.
  unfold io_code. destruct (_ || _).
  - rewrite !append_cons. discriminate.
  - destruct p3 as [|v [|w l]]; simpl; rewrite ?append_cons; discriminate.
Qed.

Lemma indented_text_scaffold line :
  indented_text line ->
  line <> "#include <stdio.h>" /\ line <> "int main() {"
  /\ line <> "    return 0;" /\ line <> "}".
Proof.
  intros (j & text & -> & Ht). unfold ind. simpl PyStr.repeat.
  rewrite !append_assoc, !append_cons, append_nil.
  split_and!; try discriminate.
  intros H. injection H as H. destruct j as [|j]; simpl in H.
  - by rewrite append_nil in H.
  - rewrite !append_assoc, !append_cons in H. discriminate.
Qed.

Ltac indented_leaf :=
  eexists _, _; split; [reflexivity|];
  first [ apply assign_not_return | apply step_not_return | apply if_line_not_return
        | apply io_code_not_return | discriminate ].

(** Every line of the body of [main] is indented and is not the [return]
    statement. *)
Lemma body_lines_indented :
  (forall s i, Forall indented_text (before s (S i))
               /\ Forall indented_text (after s (S i)))
  /\ (forall e : opt_else, match e with
                           | ElseStmt s =>
                               forall i, Forall indented_text (before s (S i))
                                         /\ Forall indented_text (after s (S i))
                           | NoElse => True
                           end)
  /\ (forall l i, Forall indented_text (before_list l (S i))
                  /\ Forall indented_text (after_list l (S i))).
Proof.
  apply stmt_mutind; try done.
  - intros p1 p3 i. simpl. split; [|done]. apply Forall_cons; split; [indented_leaf|done].
  - intros p2 p4 IH4 p5 IH5 i. destruct (IH4 (S i)) as [Hb Ha].
    cbn [before after]. split.
    + repeat first [ apply Forall_app; split | apply Forall_cons; split
                   | apply Forall_nil | done | indented_leaf ].
    + destruct p5 as [e|].
      * destruct (IH5 (S i)).
        repeat first [ apply Forall_app; split | apply Forall_cons; split
                     | apply Forall_nil | done | indented_leaf ].
      * repeat first [ apply Forall_app; split | apply Forall_cons; split
                     | apply Forall_nil | done | indented_leaf ].
  - intros p2 p4 IH i. destruct (IH (S i)) as [Hb Ha]. cbn [before after]. split;
      repeat first [ apply Forall_app; split | apply Forall_cons; split
                   | apply Forall_nil | done | indented_leaf ].
  - intros p2 p4 p5 p6 p8 IH i. destruct (IH (S i)) as [Hb Ha].
    cbn [before after]. split;
      repeat first [ apply Forall_app; split | apply Forall_cons; split
                   | apply Forall_nil | done | indented_leaf
                   | eexists _, _; split; [reflexivity|apply assign_not_return] ].
  - intros p2 IH p4 i. destruct (IH i) as [Hb Ha]. cbn [before after]. split;
      repeat first [ apply Forall_app; split | apply Forall_cons; split
                   | apply Forall_nil | done | indented_leaf ].
  - intros p1 p3 i. simpl. split; [|done]. apply Forall_cons; split; [indented_leaf|done].
  - intros i. simpl. split; [|done]. apply Forall_cons; split; [indented_leaf|done].
  - intros p1 IH1 p3 IH3 i. destruct (IH1 i) as [Hb Ha].
    destruct (IH3 (i + depth_list p1)) as [Hb' Ha']. cbn [before_list after_list]. split;
      repeat first [ apply Forall_app; split | done ].
Qed.

Lemma generate_lines_mono fuel fuel' h a out :
  fuel <= fuel' -> generate_lines fuel h a = Some out ->
  generate_lines fuel' h a = Some out.
Proof.
  unfold generate_lines. intros Hle H.
  destruct (_walk fuel h a _) as [g|] eqn:E; [|done].
  by rewrite (_walk_mono _ _ _ _ _ _ Hle E).
Qed.

Lemma count_occ_absent (l : list string) x :
  Forall (fun y => y <> x) l -> count_occ string_dec l x = 0.
Proof.
  intros H. apply count_occ_not_In. intros Hin.
  rewrite Forall_forall in H. apply list_elem_of_In in Hin. by apply (H x).
Qed.

Lemma join_newline_nonempty x y l : join newline (x :: y :: l) <> EmptyString.
Proof.
  simpl. destruct x; [|by rewrite append_cons]. rewrite append_nil.
  unfold newline. by rewrite append_cons.
Qed.

Ltac scaffold_once :=
  unfold program_lines;
  rewrite !count_occ_app,
    (count_occ_absent (before_list _ 1)), (count_occ_absent (after_list _ 1));
  [ done | | ];
  (eapply Forall_impl; [eassumption|]);
  intros ? ?; by apply indented_text_scaffold.

(** ** Condition nodes *)

Lemma graph_two_branches :
  (forall s a c nx, Forall two_branches (graph s a c nx))
  /\ (forall e a c nx, Forall two_branches (graph_else e a c nx))
  /\ (forall l a c nx, Forall two_branches (graph_list l a c nx)).
Proof.
  apply stmt_mutind; intros; cbn [graph graph_else graph_list];
    repeat first
      [ apply Forall_nil
      | apply Forall_app; split
      | apply Forall_cons; split
      | match goal with H : forall a c nx, Forall _ _ |- _ => apply H end
      | done
      | by (unfold two_branches; simpl; eauto) ].
Qed.

Lemma program_graph_two_branches body a c :
  Forall two_branches (program_graph body a c).
Proof.
  unfold program_graph. apply Forall_app; split; [apply graph_two_branches|].
  by repeat constructor.
Qed.

Lemma program_graph_ids body a c : ids_from c (program_graph body a c).
Proof.
  unfold program_graph. apply ids_from_app; [apply graph_ids|].
  autorewrite with len. apply ids_from_cons; [done|].
  apply ids_from_cons; [simpl; lia|]. apply ids_from_nil.
Qed.

Lemma length_program_graph body a c :
  length (program_graph body a c) = nodes_list body + 2.
Proof. unfold program_graph. by len. Qed.

Lemma walk_condition_shape fuel h a n cc ta fa g g' :
  h !! a = Some n -> cls n = ConditionNode cc (Some ta) (Some fa) -> next n = [] ->
  id n ∉ visited g -> _walk fuel h a g = Some g' ->
  exists inner_if inner_else,
    lines g' = lines g ++ [ind (indent_level g) (if_line cc)] ++ inner_if
                 ++ [ind (indent_level g) "} else {"] ++ inner_else
                 ++ [ind (indent_level g) "}"].
Proof.
  intros Hn Hc Hx Hv H. destruct fuel as [|fuel]; [done|]. simpl in H.
  rewrite Hn, decide_False, Hc, Hx in H by done. simpl in H.
  destruct (_walk fuel h ta _) as [g1|] eqn:E1; [|done].
  destruct (_walk fuel h fa _) as [g2|] eqn:E2; [|done].
  injection H as <-.
  apply _walk_frame in E1 as (Hi1 & _ & out1 & Hl1).
  apply _walk_frame in E2 as (Hi2 & _ & out2 & Hl2).
  autorewrite with gen in *. exists out1, out2.
  rewrite Hl2, Hl1, Hi2, Hi1.
  rewrite !Nat.sub_succ, !Nat.sub_0_r, <- !app_assoc. reflexivity.
Qed.

(** C1: in the graph built from a program every Condition node, whatever
    construct it comes from, has a true branch and a false branch and no other
    successor; the walk of [generate] visits it; and a walk that enters it
    emits [if (cond) {], the lines of the true branch, [} else {], the lines
    of the false branch and [}], all three at the same indent.  For an [if]
    without [else] the false branch of the Condition is the join marker
    alone; the walk of the true branch emits the marker, so in the text of
    such a program no line stands between [} else {] and [}]. *)
Theorem condition_rendered_as_if_else body s :
  let r := build_program body s in
  (forall a n cc t f,
     length (heap s) <= a -> heap r.2 !! a = Some n -> cls n = ConditionNode cc t f ->
     (exists ta fa, t = Some ta /\ f = Some fa) /\ next n = []
     /\ (exists fuel g',
           _walk fuel (heap r.2) (first r.1) header = Some g' /\ id n ∈ visited g')
     /\ (forall fuel g g',
           id n ∉ visited g -> _walk fuel (heap r.2) a g = Some g' ->
           exists inner_if inner_else,
             lines g' = lines g ++ [ind (indent_level g) (if_line cc)] ++ inner_if
                          ++ [ind (indent_level g) "} else {"] ++ inner_else
                          ++ [ind (indent_level g) "}"]))
  /\ (forall p2 p4 s0,
        let r0 := build_stmt (IfStmt p2 p4 NoElse) s0 in
        exists nc nj ta,
          heap r0.2 !! first r0.1 = Some nc
          /\ cls nc = ConditionNode p2 (Some ta) (Some (last r0.1))
          /\ heap r0.2 !! last r0.1 = Some nj
          /\ cls nj = OperationNode "/* join */" /\ next nj = [])
  /\ (forall p2 p4 s0,
        let r0 := build_program (StmtOne (IfStmt p2 p4 NoElse)) s0 in
        exists fuel,
          generate_lines fuel (heap r0.2) (first r0.1)
          = Some (["#include <stdio.h>"; EmptyString; "int main() {"]
                  ++ [ind 1 (if_line p2)] ++ before p4 2
                  ++ [ind (2 + depth p4) "/* join */"] ++ after p4 2
                  ++ [ind 1 "} else {"; ind 1 "}"]
                  ++ ["    return 0;"; "}"])).
Proof.
  intros r. split_and!.
  - intros a n cc t f Ha Hn Hc. unfold r in *. rewrite build_program_graph in *.
    cbn [fst snd heap first] in *.
    rewrite lookup_app_r in Hn by done.
    pose proof (program_graph_two_branches body (length (heap s)) (_counter s)) as Hall.
    rewrite Forall_lookup in Hall. pose proof (Hall _ _ Hn) as Hok.
    unfold two_branches in Hok. rewrite Hc in Hok. destruct Hok as ([ta ->] & [fa ->] & Hx).
    pose proof (program_graph_ids body _ _ _ _ Hn) as Hid.
    pose proof (lookup_lt_Some _ _ _ Hn) as Hlt. rewrite length_program_graph in Hlt.
    split_and!; [eauto|done| |].
    + destruct (walk_program body (length (heap s)) (_counter s)
                  (heap s ++ program_graph body (length (heap s)) (_counter s)) header)
        as [fuel Hw].
      * apply holds_self.
      * intros x _. simpl. set_solver.
      * exists fuel. eexists. split; [exact Hw|]. cbn [visited].
        apply elem_of_union_r, elem_of_set_seq. lia.
    + intros fuel g g' Hv Hw. eapply walk_condition_shape; [|done..].
      rewrite lookup_app_r by done. done.
  - intros p2 p4 s0 r0. unfold r0. destruct build_graph as (Hb & _ & _).
    rewrite Hb. cbn [fst snd heap first last segment graph nodes nodes_else first_off].
    eexists _, _, _. split_and!.
    + rewrite lookup_app_r by lia.
      replace (length (heap s0) + (nodes p4 + 0) - length (heap s0)) with (nodes p4 + 0) by lia.
      rewrite lookup_app_r by (by len). autorewrite with len.
      replace (nodes p4 + 0 - nodes p4) with 0 by lia. reflexivity.
    + simpl. repeat f_equal. lia.
    + rewrite lookup_app_r by lia.
      replace (length (heap s0) + (nodes p4 + 0 + 2) - 1 - length (heap s0))
        with (nodes p4 + 1) by lia.
      rewrite lookup_app_r by (by len). autorewrite with len.
      replace (nodes p4 + 1 - nodes p4) with 1 by lia. reflexivity.
    + done.
    + done.
  - intros p2 p4 s0 r0.
    destruct (generate_lines_program (StmtOne (IfStmt p2 p4 NoElse)) s0) as [fuel H].
    exists fuel. fold r0 in H. rewrite H. unfold program_lines.
    cbn [before_list after_list before after]. by rewrite <- !app_assoc.
Qed.

Lemma condition_rendered_as_if_else_witness :
  (exists ta fa, Some 0 = Some ta /\ Some 2 = Some fa)
  /\ (forall fuel g g',
        1 ∉ visited g ->
        _walk fuel
          (heap (build_program
                   (StmtOne (WhileStmt "(a < 5)" (AssignStmt "a" "(a + 1)")))
                   {| _counter := 0; heap := [] |}).2) 1 g = Some g' ->
        exists inner_if inner_else,
          lines g' = lines g ++ [ind (indent_level g) (if_line "(a < 5)")] ++ inner_if
                       ++ [ind (indent_level g) "} else {"] ++ inner_else
                       ++ [ind (indent_level g) "}"]).
Proof.
  destruct (condition_rendered_as_if_else
              (StmtOne (WhileStmt "(a < 5)" (AssignStmt "a" "(a + 1)")))
              {| _counter := 0; heap := [] |}) as [H _].
  destruct (H 1 {| id := 1; label := "COND"; next := [];
                   cls := ConditionNode "(a < 5)" (Some 0) (Some 2) |}
              "(a < 5)" (Some 0) (Some 2)) as (H1 & _ & _ & H2).
  - simpl. lia.
  - reflexivity.
  - reflexivity.
  - split; [exact H1|exact H2].
Defined.

Ltac texts_split :=
  repeat match goal with
         | |- Forall2 _ [] _ => constructor
         | |- Forall2 _ (_ :: _) _ => constructor; [by (eexists; reflexivity)|]
         | |- Forall2 _ (_ ++ _) _ => apply Forall2_app
         | |- Forall2 _ _ _ => eassumption
         end.

(** ** Every node is emitted once *)

Lemma count_occ_cons_dec (y x : string) l :
  count_occ string_dec (y :: l) x
  = (if string_dec y x then 1 else 0) + count_occ string_dec l x.
Proof. simpl. by destruct (string_dec y x). Qed.

Ltac texts_count :=
  intros x; cbn [graph graph_else graph_list];
  rewrite ?map_app, ?concat_app, ?count_occ_app;
  repeat match goal with
         | H : forall x, count_occ _ _ x = _ |- _ => rewrite <- (H x); clear H
         end;
  cbn [map concat node_texts cond_node op_node cls app];
  rewrite ?count_occ_app, ?count_occ_cons_dec, ?count_occ_nil;
  repeat match goal with
         | |- context [string_dec ?y x] => destruct (string_dec y x)
         end;
  lia.

(** The lines of a fragment are, without their indentation and up to their
    order, the texts of the nodes of its graph. *)
Lemma texts_of_graph :
  (forall s a c nx i,
     exists tb ta,
       Forall2 indented_as (before s i) tb /\ Forall2 indented_as (after s i) ta
       /\ forall x, count_occ string_dec (tb ++ ta) x
                    = count_occ string_dec (concat (map node_texts (graph s a c nx))) x)
  /\ (forall e a c nx i,
     match e with
     | ElseStmt s =>
         exists tb ta,
           Forall2 indented_as (before s i) tb /\ Forall2 indented_as (after s i) ta
           /\ forall x, count_occ string_dec (tb ++ ta) x
                        = count_occ string_dec (concat (map node_texts (graph s a c nx))) x
     | NoElse => True
     end)
  /\ (forall l a c nx i,
     exists tb ta,
       Forall2 indented_as (before_list l i) tb /\ Forall2 indented_as (after_list l i) ta
       /\ forall x, count_occ string_dec (tb ++ ta) x
                    = count_occ string_dec (concat (map node_texts (graph_list l a c nx))) x).
Proof.
  apply stmt_mutind.
  - intros p1 p3 a c nx i. eexists _, _. split_and!; [cbn [before after before_list after_list]; texts_split..|texts_count].
  - intros p2 p4 IH4 p5 IH5 a c nx i.
    destruct (IH4 a c [S (a + nodes p4 + nodes_else p5)] (S i)) as (tb & ta & Hb & Ha & Hc).
    specialize (IH5 (a + nodes p4) (c + nodes p4) [S (a + nodes p4 + nodes_else p5)] (S i)).
    destruct p5 as [e|].
    + destruct IH5 as (tb' & ta' & Hb' & Ha' & Hc').
      eexists _, _. split_and!; [cbn [before after before_list after_list]; texts_split..|texts_count].
    + eexists _, _. split_and!; [cbn [before after before_list after_list]; texts_split..|texts_count].
  - intros p2 p4 IH4 a c nx i.
    destruct (IH4 a c [a + nodes p4] (S i)) as (tb & ta & Hb & Ha & Hc).
    eexists _, _. split_and!; [cbn [before after before_list after_list]; texts_split..|texts_count].
  - intros p2 p4 p5 p6 p8 IH8 a c nx i.
    destruct (IH8 a c [S (S (a + nodes p8))] (S i)) as (tb & ta & Hb & Ha & Hc).
    eexists _, _. split_and!; [cbn [before after before_list after_list]; texts_split..|texts_count].
  - intros p2 IH2 p4 a c nx i.
    destruct (IH2 a c [a + nodes_list p2] i) as (tb & ta & Hb & Ha & Hc).
    eexists _, _. split_and!; [cbn [before after before_list after_list]; texts_split..|texts_count].
  - intros p1 p3 a c nx i. eexists _, _. split_and!; [cbn [before after before_list after_list]; texts_split..|texts_count].
  - intros p2 IH2 a c nx i. apply IH2.
  - intros a c nx i. eexists _, _. split_and!; [cbn [before after before_list after_list]; texts_split..|texts_count].
  - intros p2 IH2 a c nx i. apply IH2.
  - done.
  - intros p1 IH1 a c nx i. apply IH1.
  - intros p1 IH1 p3 IH3 a c nx i.
    destruct (IH1 a c [a + nodes_list p1 + first_off p3] i) as (tb & ta & Hb & Ha & Hc).
    destruct (IH3 (a + nodes_list p1) (c + nodes_list p1) nx (i + depth_list p1))
      as (tb' & ta' & Hb' & Ha' & Hc').
    eexists _, _. split_and!; [cbn [before after before_list after_list]; texts_split..|texts_count].
Qed.

Lemma new_nodes_program body s :
  new_nodes (heap s) (heap (build_program body s).2)
  = program_graph body (length (heap s)) (_counter s).
Proof.
  rewrite build_program_graph. unfold new_nodes. simpl. by rewrite drop_app_length.
Qed.

(** ** The examples *)

Lemma parse_while_example float_str line :
  parse float_str 100 while_example line
  = Returned (StmtSeq (StmtOne (WhileStmt "(a < 5)" (AssignStmt "a" "(a + 1)"))) EmptyStmt).
Proof. vm_compute. reflexivity. Qed.

Lemma parse_if_example float_str line :
  parse float_str 100 if_example line
  = Returned (StmtSeq (StmtOne (IfStmt "(a > 0)" (AssignStmt "a" "1")
                                  (ElseStmt (AssignStmt "a" "2")))) EmptyStmt).
Proof. vm_compute. reflexivity. Qed.

Lemma parse_assign_example float_str line :
  parse float_str 100 assign_example line
  = Returned (StmtSeq (StmtOne (AssignStmt "a" "1")) EmptyStmt).
Proof. vm_compute. reflexivity. Qed.

(** The text shown for a source whose derivation is [body]. *)
Lemma on_translate_parsed float_str text line body s :
  strip text = text -> text <> EmptyString ->
  parse float_str 100 text line = Returned body ->
  exists fuel, forall k,
    on_translate float_str 100 (fuel + k) text line s = ShowText (program_text body).
Proof.
  intros Hs Hne Hp. destruct (generate_lines_program body s) as [fuel H].
  exists fuel. intros k. unfold on_translate, parse_pascal_to_flow. rewrite Hs, Hp.
  destruct (build_program body s) as [seg s'] eqn:E. simpl in H.
  apply (generate_lines_mono _ (fuel + k)) in H; [|lia].
  unfold generate. rewrite H. by destruct text.
Qed.

(** C2 (as amended): the text regenerated for the [while] example is the
    body guarded by an [if], with the marker of the loop exit and the marker
    of the empty statement after the last semicolon in the [else] block; and
    for every program nothing is emitted twice: the lines between the opening
    of [main] and its [return] are, without their indentation and up to their
    order, the code of each Operation node of the graph once and the three
    lines of the block of each Condition node once. *)
Theorem while_example_and_no_repetition :
  (forall float_str line s, exists fuel, forall k,
     on_translate float_str 100 (fuel + k) while_example line s
     = ShowText (join newline
         ["#include <stdio.h>"; EmptyString; "int main() {";
          "    if ((a < 5)) {";
          "        a = (a + 1);";
          "    } else {";
          "        /* after while */";
          "        /* empty */";
          "    }";
          "    return 0;"; "}"]))
  /\ (forall body s,
        let r := build_program body s in
        exists fuel inner texts,
          generate_lines fuel (heap r.2) (first r.1)
          = Some (["#include <stdio.h>"; EmptyString; "int main() {"]
                  ++ inner ++ ["    return 0;"; "}"])
          /\ Forall2 indented_as inner texts
          /\ texts ≡ₚ concat (map node_texts (new_nodes (heap s) (heap r.2)))).
Proof.
  split.
  - intros float_str line s.
    apply (on_translate_parsed float_str while_example line _ s eq_refl ltac:(done)
             (parse_while_example float_str line)).
  - intros body s r. destruct (generate_lines_program body s) as [fuel H].
    destruct texts_of_graph as (_ & _ & Hl).
    destruct (Hl body (length (heap s)) (_counter s)
                [S (length (heap s) + nodes_list body)] 1) as (tb & ta & Hb & Ha & Hc).
    exists fuel, (before_list body 1 ++ after_list body 1), (tb ++ ta). split_and!.
    + fold r in H. rewrite H. unfold program_lines. by rewrite <- app_assoc.
    + by apply Forall2_app.
    + unfold r. rewrite new_nodes_program. unfold program_graph.
      apply (Permutation_count_occ string_dec). intros x.
      rewrite Hc, map_app, concat_app, count_occ_app. simpl. lia.
Qed.

(** C2, the claim as stated fails: the [else] block of the text regenerated
    for the [while] example holds the marker of the empty statement too. *)
Lemma while_example_counterexample :
  on_translate (fun l => l) 100 100 while_example 1 {| _counter := 0; heap := [] |}
  = ShowText (join newline
      ["#include <stdio.h>"; EmptyString; "int main() {";
       "    if ((a < 5)) {";
       "        a = (a + 1);";
       "    } else {";
       "        /* after while */";
       "        /* empty */";
       "    }";
       "    return 0;"; "}"])
  /\ contains "if ((a < 5)) { a = (a + 1); } else { /* after while */ }"
       (one_line (join newline
          ["#include <stdio.h>"; EmptyString; "int main() {";
           "    if ((a < 5)) {";
           "        a = (a + 1);";
           "    } else {";
           "        /* after while */";
           "        /* empty */";
           "    }";
           "    return 0;"; "}"])) = false.
Proof. split; vm_compute; reflexivity. Qed.

(** C3 (as amended): in the text regenerated for the [if] example the
    true branch holds the statement [a = 1;] followed by the join marker and
    the marker of the empty statement after the last semicolon, and the
    [else] branch holds [a = 2;]. *)
Theorem if_example_text float_str line s :
  exists fuel, forall k,
    exists c_code,
      on_translate float_str 100 (fuel + k) if_example line s = ShowText c_code
      /\ c_code = join newline
           ["#include <stdio.h>"; EmptyString; "int main() {";
            "    if ((a > 0)) {";
            "        a = 1;";
            "        /* join */";
            "        /* empty */";
            "    } else {";
            "        a = 2;";
            "    }";
            "    return 0;"; "}"]
      /\ contains "if ((a > 0)) { a = 1; /* join */ /* empty */ } else { a = 2; }"
           (one_line c_code) = true.
Proof.
  destruct (on_translate_parsed float_str if_example line _ s eq_refl ltac:(done)
              (parse_if_example float_str line)) as [fuel H].
  exists fuel. intros k. eexists. split; [by apply H|].
  split; vm_compute; reflexivity.
Qed.

(** C3, the claim as stated fails: the text regenerated for the [if]
    example does not contain the one-line rendering of the claim, neither as
    it is nor when its line breaks and indentation are replaced by single
    spaces. *)
Lemma if_example_counterexample :
  exists c_code,
    on_translate (fun l => l) 100 100 if_example 1 {| _counter := 0; heap := [] |}
    = ShowText c_code
    /\ contains "if ((a > 0)) { a = 1; } else { a = 2; }" c_code = false
    /\ contains "if ((a > 0)) { a = 1; } else { a = 2; }" (one_line c_code) = false
    /\ one_line c_code
       = "#include <stdio.h> int main() { if ((a > 0)) { a = 1; /* join */ /* empty */ } else { a = 2; } return 0; }".
Proof. eexists. split_and!; vm_compute; reflexivity. Qed.

(** C7 (as amended): the graph built for the assignment example is Entry,
    the Operation [a = 1;], the Operation of the empty statement after the
    semicolon, Exit: four nodes and three edges, of which [is_real] takes all
    but the Operation of the empty statement for real nodes; the regenerated
    text has the line [a = 1;] and no conditional block. *)
Theorem assign_example_graph float_str line s :
  let a := length (heap s) in
  let c := _counter s in
  let n_assign :=
    {| id := c; label := "OP"; next := [a + 1]; cls := OperationNode "a = 1;" |} in
  let n_empty :=
    {| id := c + 1; label := "OP"; next := [a + 3]; cls := OperationNode "/* empty */" |} in
  let n_entry := {| id := c + 2; label := "START"; next := [a]; cls := StartNode |} in
  let n_exit := {| id := c + 3; label := "END"; next := []; cls := EndNode |} in
  parse_pascal_to_flow float_str 100 assign_example line s
  = Returned
      ({| first := a + 2; last := a + 3 |},
       {| _counter := c + 4; heap := heap s ++ [n_assign; n_empty; n_entry; n_exit] |})
  /\ List.filter is_real [n_assign; n_empty; n_entry; n_exit] = [n_assign; n_entry; n_exit]
  /\ exists fuel, forall k,
       on_translate float_str 100 (fuel + k) assign_example line s
       = ShowText (join newline
           ["#include <stdio.h>"; EmptyString; "int main() {";
            "    a = 1;";
            "    /* empty */";
            "    return 0;"; "}"]).
Proof.
  intros a c n_assign n_empty n_entry n_exit. split_and!.
  - unfold parse_pascal_to_flow. rewrite parse_assign_example, build_program_graph.
    unfold program_graph, n_assign, n_empty, n_entry, n_exit. cbn. unfold op_node.
    fold a. fold c. repeat (first [reflexivity | lia | f_equal]).
  - reflexivity.
  - apply (on_translate_parsed float_str assign_example line _ s eq_refl ltac:(done)
             (parse_assign_example float_str line)).
Qed.

(** C7, the claim as stated fails: the graph of the assignment example has
    four nodes, the fourth being the Operation of the empty statement. *)
Lemma assign_example_counterexample :
  exists seg s',
    parse_pascal_to_flow (fun l => l) 100 assign_example 1 {| _counter := 0; heap := [] |}
    = Returned (seg, s')
    /\ length (heap s') = 4
    /\ heap s' !! 1
       = Some {| id := 1; label := "OP"; next := [3]; cls := OperationNode "/* empty */" |}.
Proof. eexists _, _. split_and!; vm_compute; reflexivity. Qed.

(** ** Input and output statements *)

Lemma rstrip_cons c s :
  rstrip s <> EmptyString -> rstrip (String c s) = String c (rstrip s).
Proof. simpl. by destruct (rstrip s). Qed.

Lemma rstrip_format n :
  rstrip (PyStr.repeat "%d " (S n)) = join " " (replicate (S n) "%d").
Proof.
  induction n as [|n IH]; [done|].
  change (PyStr.repeat "%d " (S (S n)))
    with (String "%" (String "d" (String " " (PyStr.repeat "%d " (S n))))).
  assert (Hne : rstrip (PyStr.repeat "%d " (S n)) <> EmptyString).
  { rewrite IH. simpl. destruct (replicate n "%d"); by rewrite ?append_cons. }
  set (X := PyStr.repeat "%d " (S n)) in *.
  assert (H1 : rstrip (String " " X) = String " " (rstrip X)) by (by apply rstrip_cons).
  assert (H2 : rstrip (String "d" (String " " X)) = String "d" (String " " (rstrip X))).
  { rewrite rstrip_cons; rewrite H1; done. }
  rewrite rstrip_cons; rewrite H2; [|done]. rewrite IH. reflexivity.
Qed.

Lemma rstrip_format_all n :
  rstrip (PyStr.repeat "%d " n) = join " " (replicate n "%d").
Proof. destruct n; [done|apply rstrip_format]. Qed.

(** C5 (as amended): for a [writeln] and for a [write] statement alike,
    whatever the case of the keyword, the builder makes one Operation node
    whose text is one [printf] with a [%d] for each argument, separated by
    spaces and followed by the line feed, then the arguments in source order;
    the texts for [write(args)] and [writeln(args)] are the same. *)
Theorem write_and_writeln_print_a_line p1 args s :
  lower p1 = "writeln" \/ lower p1 = "write" ->
  io_code p1 args = printf_line args
  /\ io_code "write" args = io_code "writeln" args
  /\ p_io_stmt p1 args s
     = ({| first := length (heap s); last := length (heap s) |},
        {| _counter := S (_counter s);
           heap := heap s ++ [ {| id := _counter s; label := "OP"; next := [];
                                  cls := OperationNode (printf_line args) |} ] |}).
Proof.
  intros Hf.
  assert (Hc : io_code p1 args = printf_line args).
  { unfold io_code, printf_line. destruct Hf as [-> | ->]; simpl;
      by rewrite rstrip_format_all. }
  split_and!; [done|done|].
  unfold p_io_stmt, bind, new_OperationNode, new_node, ret. by rewrite Hc.
Qed.

Lemma write_and_writeln_print_a_line_witness :
  io_code "WriteLn" ["a"; "(b + 1)"]
  = "printf(" +:+ dquote +:+ "%d %d\n" +:+ dquote +:+ ", a, (b + 1));".
Proof.
  destruct (write_and_writeln_print_a_line "WriteLn" ["a"; "(b + 1)"]
              {| _counter := 0; heap := [] |}) as (H & _);
    [left; reflexivity|exact H].
Defined.

(** C5, the claim as stated fails: the text for [write(a, b)] ends its
    format with the line feed, as the text for [writeln(a, b)] does. *)
Lemma write_counterexample :
  io_code "write" ["a"; "b"]
  = "printf(" +:+ dquote +:+ "%d %d\n" +:+ dquote +:+ ", a, b);"
  /\ io_code "write" ["a"; "b"] = io_code "writeln" ["a"; "b"].
Proof. split; reflexivity. Qed.

(** ** Markers *)

Lemma last_node_lookup (h G G' : list FlowNode) n k :
  G = G' ++ [n] -> k = length h + length G - 1 -> (h ++ G) !! k = Some n.
Proof.
  intros -> ->. rewrite length_app. simpl. rewrite lookup_app_r by lia.
  rewrite lookup_app_r by lia.
  by replace (length h + (length G' + 1) - 1 - length h - length G') with 0 by lia.
Qed.

(** C10: the exit marker of a [repeat] loop carries the text
    [/* after repeat */], which holds none of the four texts of
    [SERVICE_MARKERS], so [is_real] takes it for a real node; the markers of
    the empty statement, of the join of an [if], of the exit of a [while] and
    of a [for] are not real. *)
Theorem repeat_marker_is_real :
  SERVICE_MARKERS = ["/* empty */"; "/* join */"; "/* after while */"; "/* after for */"]
  /\ (forall p2 p4 s,
        let r := build_stmt (RepeatStmt p2 p4) s in
        exists n, heap r.2 !! last r.1 = Some n
                  /\ cls n = OperationNode "/* after repeat */" /\ is_real n = true)
  /\ (forall s,
        let r := build_stmt EmptyStmt s in
        exists n, heap r.2 !! last r.1 = Some n
                  /\ cls n = OperationNode "/* empty */" /\ is_real n = false)
  /\ (forall p2 p4 p5 s,
        let r := build_stmt (IfStmt p2 p4 p5) s in
        exists n, heap r.2 !! last r.1 = Some n
                  /\ cls n = OperationNode "/* join */" /\ is_real n = false)
  /\ (forall p2 p4 s,
        let r := build_stmt (WhileStmt p2 p4) s in
        exists n, heap r.2 !! last r.1 = Some n
                  /\ cls n = OperationNode "/* after while */" /\ is_real n = false)
  /\ (forall p2 p4 p5 p6 p8 s,
        let r := build_stmt (ForStmt p2 p4 p5 p6 p8) s in
        exists n, heap r.2 !! last r.1 = Some n
                  /\ cls n = OperationNode "/* after for */" /\ is_real n = false).
Proof.
  destruct build_graph as (Hb & _ & _).
  split_and!; [done|..]; intros; unfold r; rewrite Hb;
    cbn [fst snd heap last segment graph nodes];
    (eexists; split; [eapply last_node_lookup; [snoc_form; try reflexivity|]|]).
  all: try (by split).
  all: try (by len).
  - exact (eq_refl : [op_node (_counter s) "/* empty */" []] = [] ++ [_]).
  - by split.
Qed.

(** ** Node ids *)

Lemma ids_from_seq c G : ids_from c G -> map id G = seq c (length G).
Proof.
  revert c. induction G as [|n G IH]; intros c H; [done|].
  simpl. f_equal.
  - rewrite (H 0 n) by done. lia.
  - apply IH. intros k m Hk. rewrite (H (S k) m) by done. lia.
Qed.

(** C9 (as amended): every node gets the value of the one counter of the
    process as its id, and the counter grows by one with each node; so no two
    nodes of one graph share an id, and the ids of a graph built later in the
    same process, from a counter that is not below the counter the first
    build left, are none of the ids of the first graph. *)
Theorem ids_unique_in_a_process body s :
  let r := build_program body s in
  let G := new_nodes (heap s) (heap r.2) in
  _counter r.2 = _counter s + length G
  /\ (forall k n, G !! k = Some n -> id n = _counter s + k)
  /\ NoDup (map id G)
  /\ (forall body' s',
        _counter r.2 <= _counter s' ->
        let r' := build_program body' s' in
        forall n n', n ∈ G -> n' ∈ new_nodes (heap s') (heap r'.2) -> id n <> id n').
Proof.
  intros r G. unfold G, r. rewrite new_nodes_program, build_program_graph.
  cbn [fst snd _counter heap]. rewrite length_program_graph.
  pose proof (program_graph_ids body (length (heap s)) (_counter s)) as Hids.
  split_and!.
  - lia.
  - exact Hids.
  - rewrite (ids_from_seq _ _ Hids). apply NoDup_seq.
  - intros body' s' Hle n n' Hn Hn'.
    rewrite new_nodes_program in Hn'.
    apply list_elem_of_lookup in Hn as [k Hk]. apply list_elem_of_lookup in Hn' as [k' Hk'].
    pose proof (lookup_lt_Some _ _ _ Hk) as Hlt. rewrite length_program_graph in Hlt.
    apply Hids in Hk. apply program_graph_ids in Hk'. lia.
Qed.

Lemma ids_unique_in_a_process_witness :
  id {| id := 0; label := "OP"; next := [2]; cls := OperationNode "/* empty */" |}
  <> id {| id := 3; label := "OP"; next := [5]; cls := OperationNode "/* empty */" |}.
Proof.
  destruct (ids_unique_in_a_process (StmtOne EmptyStmt) {| _counter := 0; heap := [] |})
    as (_ & _ & _ & H).
  apply (H (StmtOne EmptyStmt)
           (build_program (StmtOne EmptyStmt) {| _counter := 0; heap := [] |}).2).
  - vm_compute. lia.
  - vm_compute. apply list_elem_of_here.
  - vm_compute. apply list_elem_of_here.
Defined.

(** C9, the claim as stated fails for independent counters: two processes
    that both start their counter at 0 give the first node of their graphs
    the same id. *)
Lemma independent_counters_counterexample :
  exists n n',
    n ∈ new_nodes [] (heap (build_program (StmtOne EmptyStmt)
                              {| _counter := 0; heap := [] |}).2)
    /\ n' ∈ new_nodes [] (heap (build_program (StmtOne (AssignStmt "a" "1"))
                                  {| _counter := 0; heap := [] |}).2)
    /\ id n = id n'.
Proof.
  eexists _, _. split_and!.
  - vm_compute. apply list_elem_of_here.
  - vm_compute. apply list_elem_of_here.
  - reflexivity.
Qed.

(** ** Rejected inputs

    *** The parser accepts programs of the grammar only. *)

Lemma parses_pbind {A B} (G1 G : list token_type -> Prop) ts (r : presult A)
    (k : A -> list token -> presult B) :
  parses G1 ts r ->
  (forall p, G1 p -> exists q, G (p ++ q)) ->
  (forall x rest pre, ts = pre ++ rest -> G1 (map type pre) ->
     parses (fun p => G (map type pre ++ p)) rest (k x rest)) ->
  parses G ts (pbind r k).
Proof.
  intros Hr Hq Hk. destruct r as [x rest|[t|]|]; simpl in *; try done.
  - destruct Hr as (pre & -> & HG).
    specialize (Hk x rest pre eq_refl HG).
    destruct (k x rest) as [y rest'|[t|]|]; simpl in *; try done.
    + destruct Hk as (pre' & -> & HG'). exists (pre ++ pre').
      by rewrite map_app, app_assoc.
    + set_solver.
    + destruct Hk as [q Hk]. exists q. by rewrite map_app, <- app_assoc.
  - destruct Hr as [q1 Hr]. destruct (Hq _ Hr) as [q HG].
    exists (q1 ++ q). by rewrite app_assoc.
Qed.

Lemma parses_expect ty ts : parses (fun p => p = [ty]) ts (expect ty ts).
Proof.
  destruct ts as [|t rest]; simpl; [by exists [ty]|].
  destruct (decide (type t = ty)) as [<-|]; simpl.
  - by exists [t].
  - set_solver.
Qed.

Lemma parses_cons {A} (G : list token_type -> Prop) t rest (r : presult A) :
  parses (fun p => G (type t :: p)) rest r -> parses G (t :: rest) r.
Proof.
  destruct r as [x rest'|[t'|]|]; simpl; try done.
  - intros (pre & -> & HG). by exists (t :: pre).
  - set_solver.
Qed.

Lemma parses_weaken {A} (G G' : list token_type -> Prop) ts (r : presult A) :
  (forall p, G p -> G' p) -> parses G ts r -> parses G' ts r.
Proof.
  intros HG. destruct r as [x rest|[t|]|]; simpl; try done.
  - intros (pre & -> & H). eauto.
  - intros (q & H). eauto.
Qed.

Lemma parses_ok {A} (G : list token_type -> Prop) ts (x : A) :
  G [] -> parses G ts (POk x ts).
Proof. intros HG. by exists []. Qed.

(** At the end of the tokens, [q] completes the phrase. *)
Lemma parses_end {A} (G : list token_type -> Prop) q :
  G q -> parses G [] (@PErr A None).
Proof. intros HG. by exists q. Qed.

Create HintDb grammar.
#[export] Hint Constructors Grammar.expr Grammar.expr_list Grammar.id_list Grammar.stmt
  Grammar.stmt_list Grammar.var_decls Grammar.program : grammar.

Lemma for_begins lo :
  Grammar.expr lo -> Grammar.stmt (FOR :: ID :: ASSIGN :: lo ++ [TO; ID; DO]).
Proof. intros Hlo. apply (Grammar.stmt_for TO lo [ID] []); auto with grammar. Qed.

(** The phrase read so far is completed by the tokens [q]. *)
Ltac phrase :=
  cbv beta in *; subst;
  repeat match goal with H : map type _ = [_] |- _ => rewrite H; clear H end;
  rewrite ?app_nil_r, <- ?app_assoc; simpl;
  first [ solve [eauto 7 with grammar]
        | solve [apply (for_begins [ID]); eauto with grammar]
        | solve [apply for_begins; eauto with grammar]
        | solve [apply (Grammar.stmt_write _ [ID]); eauto with grammar]
        | solve [apply (Grammar.stmt_read _ [ID]); eauto with grammar] ].

Ltac completed_by q :=
  let p := fresh "p" in
  let Hp := fresh "Hp" in
  intros p Hp; exists q; phrase.

Lemma binop_level_is_binop ty l : binop_level ty = Some l -> Grammar.is_binop ty.
Proof. unfold Grammar.is_binop. destruct ty; try done; set_solver. Qed.

Lemma parse_expr_ok float_str fuel :
  (forall lvl ts, parses Grammar.expr ts (parse_expr float_str fuel lvl ts))
  /\ (forall lvl a ts A,
        Grammar.expr A ->
        parses (fun p => Grammar.expr (A ++ p)) ts
          (parse_binop_rest float_str fuel lvl a ts)).
Proof.
  induction fuel as [|fuel [IHe IHb]]; [by split|]. split.
  - intros [|l] ts; simpl.
    + destruct ts as [|t rest]; [apply (parses_end _ [ID]); constructor|].
      destruct (type t) eqn:Ht; try (simpl; set_solver); apply parses_cons; rewrite Ht.
      * apply (parses_ok _ _ _ Grammar.expr_var).
      * destruct (value t); apply (parses_ok _ _ _ Grammar.expr_int).
      * destruct (value t); apply (parses_ok _ _ _ Grammar.expr_real).
      * eapply parses_pbind; [apply IHe|completed_by (@nil token_type)|]. intros e r pre _ He.
        apply parses_ok. rewrite app_nil_r. by constructor.
      * eapply parses_pbind; [apply IHe|completed_by [RPAREN]|]. intros e r pre _ He.
        eapply parses_pbind; [apply parses_expect|completed_by (@nil token_type)|].
        intros _ r' pre' _ ->.
        apply parses_ok. rewrite app_nil_r. by constructor.
      * eapply parses_pbind; [apply IHe|completed_by (@nil token_type)|]. intros e r pre _ He.
        apply parses_ok. rewrite app_nil_r. by constructor.
    + eapply parses_pbind; [apply IHe|completed_by (@nil token_type)|]. intros a r pre _ Ha.
      by apply IHb.
  - intros lvl a ts A HA. simpl. destruct ts as [|t rest].
    + apply parses_ok. by rewrite app_nil_r.
    + destruct (decide (binop_level (type t) = Some lvl)) as [Hl|Hl].
      * apply binop_level_is_binop in Hl.
        apply parses_cons. eapply parses_pbind; [apply IHe|completed_by (@nil token_type)|].
        intros b r pre _ Hb.
        eapply parses_weaken; [|apply (IHb lvl _ r (A ++ type t :: map type pre))].
        -- intros p Hp. cbv beta in Hp. by rewrite <- app_assoc in Hp.
        -- by constructor.
      * apply parses_ok. by rewrite app_nil_r.
Qed.

Lemma parse_expr_list_ok float_str fuel : forall acc ts pfx,
  pfx = [] \/ (exists l, Grammar.expr_list l /\ pfx = l ++ [COMMA]) ->
  parses (fun p => Grammar.expr_list (pfx ++ p)) ts
    (parse_expr_list float_str fuel acc ts).
Proof.
  induction fuel as [|fuel IH]; [done|]. intros acc ts pfx Hpfx. simpl.
  assert (Hl : forall p, Grammar.expr p -> Grammar.expr_list (pfx ++ p)).
  { intros p Hp. destruct Hpfx as [->|(l & Hl & ->)]; [by constructor|].
    rewrite <- app_assoc. by constructor. }
  eapply parses_pbind; [apply parse_expr_ok| |].
  { intros p Hp. exists []. rewrite app_nil_r. auto. }
  intros e rest pre _ He. apply Hl in He.
  destruct rest as [|t rest'].
  - apply parses_ok. by rewrite app_nil_r.
  - destruct (decide (type t = COMMA)) as [Ht|Ht].
    + apply parses_cons. rewrite Ht.
      eapply parses_weaken; [|apply (IH _ _ ((pfx ++ map type pre) ++ [COMMA]))].
      * intros p Hp. cbv beta in Hp. by rewrite <- !app_assoc in Hp.
      * right. eauto.
    + apply parses_ok. by rewrite app_nil_r.
Qed.

Lemma parse_id_list_ok float_str fuel : forall acc ts pfx,
  pfx = [] \/ (exists l, Grammar.id_list l /\ pfx = l ++ [COMMA]) ->
  parses (fun p => Grammar.id_list (pfx ++ p)) ts
    (parse_id_list float_str fuel acc ts).
Proof.
  induction fuel as [|fuel IH]; [done|]. intros acc ts pfx Hpfx. simpl.
  assert (Hl : Grammar.id_list (pfx ++ [ID])).
  { destruct Hpfx as [->|(l & Hl & ->)]; [by constructor|].
    rewrite <- app_assoc. by constructor. }
  eapply parses_pbind; [apply parses_expect| |].
  { intros p ->. exists []. by rewrite app_nil_r. }
  intros v rest pre _ He. rewrite <- He in Hl.
  destruct rest as [|t rest'].
  - apply parses_ok. by rewrite app_nil_r.
  - destruct (decide (type t = COMMA)) as [Ht|Ht].
    + apply parses_cons. rewrite Ht.
      eapply parses_weaken; [|apply (IH _ _ ((pfx ++ map type pre) ++ [COMMA]))].
      * intros p Hp. cbv beta in Hp. by rewrite <- !app_assoc in Hp.
      * right. eauto.
    + apply parses_ok. by rewrite app_nil_r.
Qed.

Ltac parse_step lem q :=
  eapply parses_pbind; [first [apply lem | apply parses_expect]|completed_by q|];
  let pre := fresh "pre" in
  let H := fresh "Hpre" in
  intros ? ? pre _ H.

Ltac parse_done :=
  apply parses_ok; cbv beta in *; rewrite ?app_nil_r;
  repeat match goal with H : map type _ = [_] |- _ => rewrite H; clear H end;
  rewrite <- ?app_assoc; simpl.

Lemma parse_stmt_ok float_str fuel :
  (forall ts, parses Grammar.stmt ts (parse_stmt float_str fuel ts))
  /\ (forall ts, parses Grammar.stmt_list ts (parse_stmt_list float_str fuel ts))
  /\ (forall acc ts L,
        Grammar.stmt_list L ->
        parses (fun p => Grammar.stmt_list (L ++ p)) ts
          (parse_stmt_list_rest float_str fuel acc ts)).
Proof.
  induction fuel as [|fuel (IHs & IHl & IHr)]; [by split_and!|].
  pose proof (fun lvl ts => proj1 (parse_expr_ok float_str fuel) lvl ts) as IHe.
  pose (none := @nil token_type).
  split_and!.
  - intros ts. simpl. destruct ts as [|t rest]; [apply parses_ok; constructor|].
    destruct (type t) eqn:Ht;
      try (apply parses_ok; constructor); apply parses_cons; rewrite Ht.
    + (* ID *)
      parse_step IHe [ID]. parse_step IHe none. parse_done. by constructor.
    + (* BEGIN *)
      parse_step IHl [END]. parse_step IHl none. parse_done. by constructor.
    + (* IF *)
      parse_step IHe [THEN]. parse_step IHe none. parse_step IHs none.
      match goal with |- parses _ ?r _ => destruct r as [|t' rest'] end.
      * parse_done. by constructor.
      * destruct (decide (type t' = ELSE)) as [Ht'|Ht'].
        -- apply parses_cons. rewrite Ht'. parse_step IHs none. parse_done.
           by constructor.
        -- parse_done. by constructor.
    + (* WHILE *)
      parse_step IHe [DO]. parse_step IHe none. parse_step IHs none. parse_done.
      by constructor.
    + (* FOR *)
      parse_step IHe [ASSIGN; ID; TO; ID; DO]. parse_step IHe [ID; TO; ID; DO].
      parse_step IHe [TO; ID; DO].
      match goal with |- parses _ ?r _ => destruct r as [|d rest'] end.
      { apply (parses_end _ [TO; ID; DO]). phrase. }
      destruct (bool_decide (type d = TO) || bool_decide (type d = DOWNTO)) eqn:Hd;
        [|simpl; set_solver].
      assert (Hd' : type d = TO \/ type d = DOWNTO).
      { apply orb_true_iff in Hd as [Hd|Hd]; apply bool_decide_eq_true in Hd; auto. }
      apply parses_cons. parse_step IHe [DO]. parse_step IHe none. parse_step IHs none.
      parse_done. by constructor.
    + (* REPEAT *)
      parse_step IHl [UNTIL; ID]. parse_step IHl [ID]. parse_step IHe none. parse_done.
      by constructor.
    + (* WRITELN *)
      parse_step IHe [ID; RPAREN].
      eapply parses_pbind; [apply (parse_expr_list_ok float_str fuel [] _ []); by left
                           |completed_by [RPAREN]|].
      intros ? ? pre1 _ Hpre1. parse_step IHe none. parse_done.
      apply Grammar.stmt_write; auto.
    + (* WRITE *)
      parse_step IHe [ID; RPAREN].
      eapply parses_pbind; [apply (parse_expr_list_ok float_str fuel [] _ []); by left
                           |completed_by [RPAREN]|].
      intros ? ? pre1 _ Hpre1. parse_step IHe none. parse_done.
      apply Grammar.stmt_write; auto.
    + (* READLN *)
      parse_step IHe [ID; RPAREN].
      eapply parses_pbind; [apply (parse_id_list_ok float_str fuel [] _ []); by left
                           |completed_by [RPAREN]|].
      intros ? ? pre1 _ Hpre1. parse_step IHe none. parse_done.
      apply Grammar.stmt_read; auto.
    + (* READ *)
      parse_step IHe [ID; RPAREN].
      eapply parses_pbind; [apply (parse_id_list_ok float_str fuel [] _ []); by left
                           |completed_by [RPAREN]|].
      intros ? ? pre1 _ Hpre1. parse_step IHe none. parse_done.
      apply Grammar.stmt_read; auto.
  - intros ts. simpl. parse_step IHs none.
    eapply parses_weaken; [|apply IHr; by constructor]. done.
  - intros acc ts L HL. simpl. destruct ts as [|t rest].
    + apply parses_ok. by rewrite app_nil_r.
    + destruct (decide (type t = SEMI)) as [Ht|Ht].
      * apply parses_cons. rewrite Ht. parse_step IHs none.
        eapply parses_weaken; [|apply (IHr _ _ (L ++ SEMI :: map type pre))].
        -- intros p Hp. cbv beta in Hp. by rewrite <- !app_assoc in Hp.
        -- by constructor.
      * apply parses_ok. by rewrite app_nil_r.
Qed.

Lemma parse_var_decls_ok float_str fuel : forall ts pfx,
  pfx = [] \/ Grammar.var_decls pfx ->
  parses (fun p => Grammar.var_decls (pfx ++ p)) ts (parse_var_decls float_str fuel ts).
Proof.
  induction fuel as [|fuel IH]; [done|]. intros ts pfx Hpfx. simpl.
  assert (Hdecl : forall l ty, Grammar.id_list l ->
            ty = INTEGER \/ ty = REAL \/ ty = BOOLEAN ->
            Grammar.var_decls (pfx ++ l ++ [COLON; ty; SEMI])).
  { intros l ty Hl Hty. destruct Hpfx as [->|Hp]; by constructor. }
  eapply parses_pbind; [apply (parse_id_list_ok float_str fuel [] _ []); by left| |].
  { intros p Hp. exists [COLON; INTEGER; SEMI]. apply Hdecl; auto. }
  intros ? r1 pre1 _ Hpre1. simpl in Hpre1.
  eapply parses_pbind; [apply parses_expect| |].
  { intros p ->. exists [INTEGER; SEMI]. cbv beta. rewrite <- ?app_assoc. simpl.
    apply Hdecl; auto. }
  intros ? r2 pre2 _ Hpre2. cbv beta.
  destruct r2 as [|t r2'].
  { apply (parses_end _ [INTEGER; SEMI]). cbv beta. rewrite Hpre2, <- ?app_assoc. simpl.
    apply Hdecl; auto. }
  destruct (bool_decide (type t = INTEGER) || bool_decide (type t = REAL)
            || bool_decide (type t = BOOLEAN)) eqn:Hty; [|simpl; set_solver].
  assert (Hty' : type t = INTEGER \/ type t = REAL \/ type t = BOOLEAN).
  { apply orb_true_iff in Hty as [Hty|Hty]; [apply orb_true_iff in Hty as [Hty|Hty]|];
      apply bool_decide_eq_true in Hty; auto. }
  apply parses_cons.
  eapply parses_pbind; [apply parses_expect| |].
  { intros p ->. exists []. cbv beta. rewrite Hpre2, app_nil_r, <- ?app_assoc. simpl.
    by apply Hdecl. }
  intros ? r3 pre3 _ Hpre3.
  cbv beta in *.
  assert (Hd : Grammar.var_decls
                 (pfx ++ map type pre1 ++ map type pre2 ++ type t :: map type pre3)).
  { rewrite Hpre2, Hpre3. simpl. by apply Hdecl. }
  destruct r3 as [|t' r3'].
  - apply parses_ok. by rewrite app_nil_r.
  - destruct (decide (type t' = ID)).
    + eapply parses_weaken; [|apply (IH _ _ (or_intror Hd))].
      intros p Hp. cbv beta in Hp. by rewrite <- !app_assoc in Hp.
    + apply parses_ok. by rewrite app_nil_r.
Qed.

Lemma parse_program_ok float_str fuel ts :
  parses Grammar.program ts (parse_program float_str fuel ts).
Proof.
  unfold parse_program.
  destruct parse_stmt_ok with (float_str := float_str) (fuel := fuel) as (_ & IHl & _).
  assert (Hv : parses (fun p => p = [] \/ exists ds, Grammar.var_decls ds /\ p = VAR :: ds) ts
                 match ts with
                 | [] => POk () []
                 | t :: rest =>
                     if decide (type t = VAR) then parse_var_decls float_str fuel rest
                     else POk () ts
                 end).
  { destruct ts as [|t rest]; [apply parses_ok; by left|].
    destruct (decide (type t = VAR)) as [Ht|Ht].
    - apply parses_cons. rewrite Ht.
      eapply parses_weaken; [|apply (parse_var_decls_ok float_str fuel rest []); by left].
      intros p Hp. right. eauto.
    - apply parses_ok. by left. }
  assert (Hprog : forall p l,
            p = [] \/ (exists ds, Grammar.var_decls ds /\ p = VAR :: ds) ->
            Grammar.stmt_list l -> Grammar.program (p ++ BEGIN :: l ++ [END; DOT])).
  { intros p l [->|(ds & Hds & ->)] Hl; simpl; by constructor. }
  assert (Hnone : Grammar.stmt_list []) by (constructor; constructor).
  eapply parses_pbind; [apply Hv| |].
  { intros p Hp. exists [BEGIN; END; DOT]. by apply (Hprog p []). }
  intros _ rest pre0 _ Hpre0.
  eapply parses_pbind; [apply parses_expect| |].
  { intros p ->. exists [END; DOT]. by apply (Hprog _ []). }
  intros _ rest1 pre1 _ Hpre1.
  eapply parses_pbind; [apply IHl| |].
  { intros p Hp. exists [END; DOT]. cbv beta. rewrite Hpre1. by apply Hprog. }
  intros body rest2 pre2 _ Hpre2.
  eapply parses_pbind; [apply parses_expect| |].
  { intros p ->. exists [DOT]. cbv beta. rewrite Hpre1. by apply Hprog. }
  intros _ rest3 pre3 _ Hpre3.
  eapply parses_pbind; [apply parses_expect| |].
  { intros p ->. exists []. cbv beta. rewrite Hpre1, Hpre3. by apply Hprog. }
  intros _ rest4 pre4 _ Hpre4.
  parse_done. by apply Hprog.
Qed.

(** *** The parser is local: an error depends on the tokens up to it. *)

Lemma lookahead_app pre rest rest' :
  lookahead rest' = lookahead rest -> lookahead (pre ++ rest') = lookahead (pre ++ rest).
Proof. by destruct pre. Qed.

Lemma lookahead_nil rest : lookahead rest = lookahead [] -> rest = [].
Proof. by destruct rest. Qed.

Lemma lookahead_cons rest t r :
  lookahead rest = lookahead (t :: r) -> exists t' r', rest = t' :: r' /\ type t' = type t.
Proof. destruct rest as [|t' r']; [done|]. intros [= H]. eauto. Qed.

Lemma local_at_ext {A} (F G : list token -> presult A) ts :
  (forall r, lookahead r = lookahead ts -> F r = G r) -> local_at G ts -> local_at F ts.
Proof.
  unfold local_at. intros H. rewrite (H ts) by done.
  destruct (G ts) as [x rest|[t|]|]; try done.
  - intros (pre & -> & HG). exists pre. split; [done|]. intros r Hr.
    rewrite H by (by apply lookahead_app). auto.
  - intros (pre & post & -> & HG). exists pre, post. split; [done|]. intros r.
    rewrite H by (by destruct pre). auto.
Qed.

Lemma local_at_ok {A} (x : A) ts : local_at (POk x) ts.
Proof. by exists []. Qed.

Lemma local_at_expect ty ts : local_at (expect ty) ts.
Proof.
  unfold local_at. destruct ts as [|t rest]; simpl; [done|].
  destruct (decide (type t = ty)) as [Ht|Ht] eqn:E.
  - exists [t]. split; [done|]. intros r _. simpl. by rewrite E.
  - exists [], rest. split; [done|]. intros r. simpl. by rewrite E.
Qed.

Lemma local_at_bind {A B} (F : list token -> presult A)
    (K : A -> list token -> presult B) ts :
  local_at F ts -> (forall x rest, F ts = POk x rest -> local_at (K x) rest) ->
  local_at (fun ts => pbind (F ts) K) ts.
Proof.
  unfold local_at at 1 3. intros HF HK.
  destruct (F ts) as [x rest|[t|]|] eqn:E; simpl; try done.
  - destruct HF as (pre & -> & HF). specialize (HK x rest eq_refl).
    unfold local_at in HK. destruct (K x rest) as [y rest2|[t|]|] eqn:EK; try done.
    + destruct HK as (pre2 & -> & HK). exists (pre ++ pre2).
      split; [by rewrite app_assoc|]. intros r Hr.
      rewrite <- app_assoc, (HF (pre2 ++ r)) by (by apply lookahead_app). simpl. auto.
    + destruct HK as (pre2 & post & -> & HK). exists (pre ++ pre2), post.
      split; [by rewrite app_assoc|]. intros r.
      rewrite <- app_assoc, (HF (pre2 ++ t :: r)) by (by apply lookahead_app). simpl. auto.
  - destruct HF as (pre & post & -> & HF). exists pre, post. split; [done|].
    intros r. by rewrite HF.
Qed.

Lemma local_at_cons {A} (F G : list token -> presult A) t rest :
  (forall r, F (t :: r) = G r) -> local_at G rest -> local_at F (t :: rest).
Proof.
  unfold local_at. intros H. rewrite H. destruct (G rest) as [x rest2|[t2|]|]; try done.
  - intros (pre & -> & HG). exists (t :: pre). split; [done|]. intros r Hr.
    simpl. rewrite H. auto.
  - intros (pre & post & -> & HG). exists (t :: pre), post. split; [done|]. intros r.
    simpl. rewrite H. auto.
Qed.

Lemma local_at_stop {A} (F : list token -> presult A) x ts :
  (forall rest, lookahead rest = lookahead ts -> F rest = POk x rest) -> local_at F ts.
Proof.
  intros H. unfold local_at. rewrite (H ts) by done. exists []. split; [done|]. apply H.
Qed.

Lemma local_at_err {A} (F : list token -> presult A) t rest :
  (forall post, F (t :: post) = PErr (Some t)) -> local_at F (t :: rest).
Proof.
  intros H. unfold local_at. rewrite H. exists [], rest. split; [done|]. apply H.
Qed.

(** A function that stops at the head of its tokens stops at every head of
    the same type. *)
Ltac same_lookahead :=
  let r := fresh "r" in
  let H := fresh "H" in
  intros r H;
  first
    [ apply lookahead_nil in H; subst r
    | let t := fresh "t" in
      let r' := fresh "r" in
      let Ht := fresh "Ht" in
      apply lookahead_cons in H as (t & r' & -> & Ht) ].

Section Local.

Variable float_str : string -> string.

(** Each parsing function is local. *)
Lemma parse_expr_local fuel :
  (forall lvl ts, local_at (parse_expr float_str fuel lvl) ts)
  /\ (forall lvl a ts, local_at (parse_binop_rest float_str fuel lvl a) ts).
Proof.
  induction fuel as [|fuel [IHe IHb]]; [by split|]. split.
  - intros [|l] ts.
    + destruct ts as [|t rest]; [done|].
      destruct (type t) eqn:Ht;
        try (apply local_at_err; intros post; simpl; by rewrite Ht).
      * (* ID *)
        eapply local_at_cons; [intros r; simpl; rewrite Ht; reflexivity|].
        apply local_at_ok.
      * (* INT *)
        eapply local_at_cons; [intros r; simpl; rewrite Ht; reflexivity|].
        destruct (value t); apply local_at_ok.
      * (* FLOAT *)
        eapply local_at_cons; [intros r; simpl; rewrite Ht; reflexivity|].
        destruct (value t); apply local_at_ok.
      * (* MINUS *)
        eapply local_at_cons; [intros r; simpl; rewrite Ht; reflexivity|].
        apply local_at_bind; [apply IHe|]. intros e r _. apply local_at_ok.
      * (* LPAREN *)
        eapply local_at_cons; [intros r; simpl; rewrite Ht; reflexivity|].
        apply local_at_bind; [apply IHe|]. intros e r _.
        apply (local_at_bind (expect RPAREN)); [apply local_at_expect|].
        intros ? r' _. apply local_at_ok.
      * (* NOT *)
        eapply local_at_cons; [intros r; simpl; rewrite Ht; reflexivity|].
        apply local_at_bind; [apply IHe|]. intros e r _. apply local_at_ok.
    + apply (local_at_bind (parse_expr float_str fuel l)); [apply IHe|].
      intros a r _. apply IHb.
  - intros lvl a ts. destruct ts as [|t rest].
    + apply (local_at_stop _ a). by same_lookahead.
    + destruct (decide (binop_level (type t) = Some lvl)) as [Hl|Hl].
      * eapply local_at_cons; [intros r; simpl; rewrite decide_True by done; reflexivity|].
        apply local_at_bind; [apply IHe|]. intros b r _. apply IHb.
      * apply (local_at_stop _ a). same_lookahead. simpl.
        rewrite decide_False; [done|]. by rewrite Ht.
Qed.

Lemma parse_expr_list_local fuel : forall acc ts,
  local_at (parse_expr_list float_str fuel acc) ts.
Proof.
  induction fuel as [|fuel IH]; [done|]. intros acc ts.
  apply (local_at_bind (parse_expr float_str fuel 5)); [apply parse_expr_local|].
  intros e rest _. destruct rest as [|t rest].
  - apply (local_at_stop _ (acc ++ [e])). by same_lookahead.
  - destruct (decide (type t = COMMA)) as [Ht|Ht].
    + eapply local_at_cons; [intros r; simpl; rewrite decide_True by done; reflexivity|].
      apply IH.
    + apply (local_at_stop _ (acc ++ [e])). same_lookahead. simpl.
      rewrite decide_False; [done|]. by rewrite Ht0.
Qed.

Lemma parse_id_list_local fuel : forall acc ts,
  local_at (parse_id_list float_str fuel acc) ts.
Proof.
  induction fuel as [|fuel IH]; [done|]. intros acc ts.
  apply (local_at_bind (expect ID)); [apply local_at_expect|].
  intros v rest _. destruct rest as [|t rest].
  - apply (local_at_stop _ (acc ++ [token_text float_str v])). by same_lookahead.
  - destruct (decide (type t = COMMA)) as [Ht|Ht].
    + eapply local_at_cons; [intros r; simpl; rewrite decide_True by done; reflexivity|].
      apply IH.
    + apply (local_at_stop _ (acc ++ [token_text float_str v])). same_lookahead. simpl.
      rewrite decide_False; [done|]. by rewrite Ht0.
Qed.

Ltac local_step :=
  first
    [ apply local_at_ok
    | apply (local_at_bind (expect _)); [apply local_at_expect|]; intros ? ? _
    | apply (local_at_bind (parse_expr float_str _ _)); [apply parse_expr_local|];
      intros ? ? _
    | apply (local_at_bind (parse_expr_list float_str _ _));
      [apply parse_expr_list_local|]; intros ? ? _
    | apply (local_at_bind (parse_id_list float_str _ _));
      [apply parse_id_list_local|]; intros ? ? _
    | apply (local_at_bind (parse_stmt float_str _)); [auto|]; intros ? ? _
    | apply (local_at_bind (parse_stmt_list float_str _)); [auto|]; intros ? ? _ ].

Lemma parse_stmt_local fuel :
  (forall ts, local_at (parse_stmt float_str fuel) ts)
  /\ (forall ts, local_at (parse_stmt_list float_str fuel) ts)
  /\ (forall acc ts, local_at (parse_stmt_list_rest float_str fuel acc) ts).
Proof.
  induction fuel as [|fuel (IHs & IHl & IHr)]; [by split_and!|]. split_and!.
  - intros ts. destruct ts as [|t rest].
    { apply (local_at_stop _ EmptyStmt). by same_lookahead. }
    destruct (type t) eqn:Ht;
      try (apply (local_at_stop _ EmptyStmt); same_lookahead; simpl;
           match goal with H : type _ = type t |- _ => rewrite H, Ht end; reflexivity);
      (eapply local_at_cons; [intros r; simpl; rewrite Ht; reflexivity|]).
    + (* ID *) repeat local_step.
    + (* BEGIN *) repeat local_step.
    + (* IF *)
      do 3 local_step.
      match goal with |- local_at _ ?r => destruct r as [|t' rest'] end.
      * eapply local_at_stop. by same_lookahead.
      * destruct (decide (type t' = ELSE)) as [Ht'|Ht'].
        -- eapply local_at_cons;
             [intros r; simpl; rewrite decide_True by done; reflexivity|].
           repeat local_step.
        -- eapply local_at_stop. same_lookahead. simpl.
           rewrite decide_False; [done|]. congruence.
    + (* WHILE *) repeat local_step.
    + (* FOR *)
      do 3 local_step.
      match goal with |- local_at _ ?r => destruct r as [|d rest'] end; [done|].
      destruct (bool_decide (type d = TO) || bool_decide (type d = DOWNTO)) eqn:Hd.
      * eapply local_at_cons; [intros r; simpl; rewrite Hd; reflexivity|].
        repeat local_step.
      * apply local_at_err. intros post. simpl. by rewrite Hd.
    + (* REPEAT *) repeat local_step.
    + (* WRITELN *) repeat local_step.
    + (* WRITE *) repeat local_step.
    + (* READLN *) repeat local_step.
    + (* READ *) repeat local_step.
  - intros ts. apply (local_at_bind (parse_stmt float_str fuel)); [apply IHs|].
    intros s r _. apply IHr.
  - intros acc ts. destruct ts as [|t rest].
    + apply (local_at_stop _ acc). by same_lookahead.
    + destruct (decide (type t = SEMI)) as [Ht|Ht].
      * eapply local_at_cons; [intros r; simpl; rewrite decide_True by done; reflexivity|].
        apply (local_at_bind (parse_stmt float_str fuel)); [apply IHs|].
        intros s r _. apply IHr.
      * apply (local_at_stop _ acc). same_lookahead. simpl.
        rewrite decide_False; [done|]. congruence.
Qed.

Lemma parse_var_decls_local fuel : forall ts,
  local_at (parse_var_decls float_str fuel) ts.
Proof.
  induction fuel as [|fuel IH]; [done|]. intros ts.
  do 2 local_step.
  match goal with |- local_at _ ?r => destruct r as [|t rest'] end; [done|].
  destruct (bool_decide (type t = INTEGER) || bool_decide (type t = REAL)
            || bool_decide (type t = BOOLEAN)) eqn:Hty.
  - eapply local_at_cons; [intros r; simpl; rewrite Hty; reflexivity|].
    local_step.
    match goal with |- local_at _ ?r => destruct r as [|t' rest''] end.
    + eapply local_at_stop. by same_lookahead.
    + destruct (decide (type t' = ID)) as [Ht'|Ht'].
      * eapply local_at_ext; [|apply (IH (t' :: rest''))].
        same_lookahead. simpl. rewrite decide_True; [done|]. congruence.
      * eapply local_at_stop. same_lookahead. simpl.
        rewrite decide_False; [done|]. congruence.
  - apply local_at_err. intros post. simpl. by rewrite Hty.
Qed.

Lemma parse_program_local fuel ts : local_at (parse_program float_str fuel) ts.
Proof.
  unfold parse_program.
  apply (local_at_bind
           (fun ts => match ts with
                      | [] => POk () []
                      | t :: rest =>
                          if decide (type t = VAR) then parse_var_decls float_str fuel rest
                          else POk () ts
                      end)).
  { destruct ts as [|t rest].
    - eapply local_at_stop. by same_lookahead.
    - destruct (decide (type t = VAR)) as [Ht|Ht].
      + eapply local_at_cons;
          [intros r; simpl; rewrite decide_True by done; reflexivity|].
        apply parse_var_decls_local.
      + eapply local_at_stop. same_lookahead. simpl.
        rewrite decide_False; [done|]. congruence. }
  intros _ r0 _. local_step.
  apply (local_at_bind (parse_stmt_list float_str fuel)); [apply parse_stmt_local|].
  intros body r1 _. repeat local_step.
Qed.

End Local.

(** *** The parser returns: enough fuel for the tokens gives a result. *)

Lemma expr_nonempty p : Grammar.expr p -> p <> [].
Proof. induction 1; try done. by destruct a. Qed.

Lemma pbind_defined {A B} (r : presult A) (k : A -> list token -> presult B) :
  r <> PFuel -> (forall x rest, r = POk x rest -> k x rest <> PFuel) ->
  pbind r k <> PFuel.
Proof. destruct r; simpl; auto. Qed.

Lemma expect_defined ty ts : expect ty ts <> PFuel.
Proof. destruct ts as [|t rest]; simpl; [done|]. by destruct (decide _). Qed.

Lemma expect_shorter ty ts x rest : expect ty ts = POk x rest -> length ts = S (length rest).
Proof.
  destruct ts as [|t r]; simpl; [done|]. destruct (decide _); [|done].
  by intros [= _ ->].
Qed.

Lemma parses_length {A} G ts (r : presult A) x rest :
  parses G ts r -> r = POk x rest -> length rest <= length ts.
Proof. intros H ->. destruct H as (pre & -> & _). rewrite length_app. lia. Qed.

Lemma parse_expr_shorter float_str fuel lvl ts x rest :
  parse_expr float_str fuel lvl ts = POk x rest -> length rest < length ts.
Proof.
  intros E. pose proof (proj1 (parse_expr_ok float_str fuel) lvl ts) as H.
  rewrite E in H. destruct H as (pre & -> & Hg). apply expr_nonempty in Hg.
  rewrite length_app. destruct pre; [done|simpl; lia].
Qed.

Lemma parse_expr_defined float_str fuel :
  (forall lvl ts, 10 * length ts + lvl < fuel ->
     parse_expr float_str fuel lvl ts <> PFuel)
  /\ (forall lvl a ts, 10 * length ts + lvl < fuel ->
     parse_binop_rest float_str fuel lvl a ts <> PFuel).
Proof.
  induction fuel as [|fuel [IHe IHb]]; [split; intros; lia|]. split.
  - intros [|l] ts Hf; simpl.
    + destruct ts as [|t rest]; [done|]. simpl in Hf.
      destruct (type t); try done.
      * by destruct (value t).
      * by destruct (value t).
      * apply pbind_defined; [apply IHe; lia|done].
      * apply pbind_defined; [apply IHe; lia|]. intros e r _.
        apply pbind_defined; [apply expect_defined|done].
      * apply pbind_defined; [apply IHe; lia|done].
    + apply pbind_defined; [apply IHe; lia|]. intros a r E.
      apply parse_expr_shorter in E. apply IHb. lia.
  - intros lvl a ts Hf. simpl. destruct ts as [|t rest]; [done|]. simpl in Hf.
    destruct (decide _); [|done].
    apply pbind_defined; [apply IHe; lia|]. intros b r E.
    apply parse_expr_shorter in E. apply IHb. lia.
Qed.

Lemma parse_expr_list_defined float_str fuel : forall acc ts,
  10 * length ts + 6 < fuel -> parse_expr_list float_str fuel acc ts <> PFuel.
Proof.
  induction fuel as [|fuel IH]; [intros; lia|]. intros acc ts Hf. simpl.
  apply pbind_defined; [apply parse_expr_defined; lia|]. intros e r E.
  apply parse_expr_shorter in E. destruct r as [|t r']; [done|].
  destruct (decide _); [|done]. apply IH. simpl in E. lia.
Qed.

Lemma parse_id_list_defined float_str fuel : forall acc ts,
  10 * length ts < fuel -> parse_id_list float_str fuel acc ts <> PFuel.
Proof.
  induction fuel as [|fuel IH]; [intros; lia|]. intros acc ts Hf. simpl.
  apply pbind_defined; [apply expect_defined|]. intros e r E.
  apply expect_shorter in E. destruct r as [|t r']; [done|].
  destruct (decide _); [|done]. apply IH. simpl in E. lia.
Qed.

Ltac shorter :=
  repeat match goal with
         | E : expect _ _ = POk _ _ |- _ => apply expect_shorter in E
         | E : parse_expr _ _ _ _ = POk _ _ |- _ => apply parse_expr_shorter in E
         | E : parse_expr_list _ _ _ _ = POk _ _ |- _ =>
             eapply parses_length in E;
             [|apply (parse_expr_list_ok _ _ _ _ []); by left]
         | E : parse_id_list _ _ _ _ = POk _ _ |- _ =>
             eapply parses_length in E;
             [|apply (parse_id_list_ok _ _ _ _ []); by left]
         | E : parse_stmt _ _ _ = POk _ _ |- _ =>
             eapply parses_length in E; [|apply parse_stmt_ok]
         | E : parse_stmt_list _ _ _ = POk _ _ |- _ =>
             eapply parses_length in E; [|apply parse_stmt_ok]
         end;
  simpl in *; try lia.

Ltac defined_step :=
  apply pbind_defined;
  [ first [ apply expect_defined
          | apply parse_expr_defined; shorter
          | apply parse_expr_list_defined; shorter
          | apply parse_id_list_defined; shorter
          | match goal with IH : forall ts, _ -> parse_stmt _ _ ts <> PFuel |- _ =>
              apply IH; shorter end
          | match goal with IH : forall ts, _ -> parse_stmt_list _ _ ts <> PFuel |- _ =>
              apply IH; shorter end ]
  | intros ? ? ? ].

Lemma parse_stmt_defined float_str fuel :
  (forall ts, 10 * length ts + 7 < fuel -> parse_stmt float_str fuel ts <> PFuel)
  /\ (forall ts, 10 * length ts + 8 < fuel -> parse_stmt_list float_str fuel ts <> PFuel)
  /\ (forall acc ts, 10 * length ts + 7 < fuel ->
        parse_stmt_list_rest float_str fuel acc ts <> PFuel).
Proof.
  induction fuel as [|fuel (IHs & IHl & IHr)]; [split_and!; intros; lia|]. split_and!.
  - intros ts Hf. simpl. destruct ts as [|t rest]; [done|]. simpl in Hf.
    destruct (type t); try done.
    + repeat defined_step. done.
    + repeat defined_step. done.
    + repeat defined_step.
      match goal with |- match ?r with _ => _ end <> _ => destruct r as [|t' rest'] end;
        [done|].
      destruct (decide _); [|done]. repeat defined_step. done.
    + repeat defined_step. done.
    + repeat defined_step.
      match goal with |- match ?r with _ => _ end <> _ => destruct r as [|t' rest'] end;
        [done|].
      destruct (_ || _); [|done]. repeat defined_step. done.
    + repeat defined_step. done.
    + repeat defined_step. done.
    + repeat defined_step. done.
    + repeat defined_step. done.
    + repeat defined_step. done.
  - intros ts Hf. simpl. apply pbind_defined; [apply IHs; lia|]. intros s r E.
    apply IHr. shorter.
  - intros acc ts Hf. simpl. destruct ts as [|t rest]; [done|]. simpl in Hf.
    destruct (decide _); [|done].
    apply pbind_defined; [apply IHs; lia|]. intros s r E. apply IHr. shorter.
Qed.

Lemma parse_var_decls_defined float_str fuel : forall ts,
  10 * length ts + 1 < fuel -> parse_var_decls float_str fuel ts <> PFuel.
Proof.
  induction fuel as [|fuel IH]; [intros; lia|]. intros ts Hf. simpl.
  apply pbind_defined; [apply parse_id_list_defined; lia|]. intros ? r1 E1.
  apply pbind_defined; [apply expect_defined|]. intros ? r2 E2.
  destruct r2 as [|t r2']; [done|]. destruct (_ || _); [|done].
  apply pbind_defined; [apply expect_defined|]. intros ? r3 E3.
  destruct r3 as [|t' r3']; [done|]. destruct (decide _); [|done].
  apply IH. shorter.
Qed.

Lemma parse_program_defined float_str fuel ts :
  10 * length ts + 8 < fuel -> parse_program float_str fuel ts <> PFuel.
Proof.
  intros Hf. unfold parse_program.
  apply pbind_defined.
  { destruct ts as [|t rest]; [done|]. destruct (decide _); [|done].
    apply parse_var_decls_defined. simpl in Hf. lia. }
  intros ? r0 E0.
  assert (length r0 <= length ts).
  { destruct ts as [|t rest]; [by injection E0 as _ <-|].
    destruct (decide _); [|by injection E0 as _ <-].
    eapply parses_length in E0; [|apply (parse_var_decls_ok _ _ _ []); by left].
    simpl. lia. }
  apply pbind_defined; [apply expect_defined|]. intros ? r1 E1.
  apply pbind_defined; [apply parse_stmt_defined; shorter|]. intros ? r2 E2.
  apply pbind_defined; [apply expect_defined|]. intros ? r3 E3.
  apply pbind_defined; [apply expect_defined|]. done.
Qed.

(** *** The parser accepts every program of the grammar. *)

Lemma yields_pbind {A B} (r : presult A) (k : A -> list token -> presult B)
    (Q Q' : list token -> Prop) :
  yields r Q -> (forall x rest, Q rest -> yields (k x rest) Q') -> yields (pbind r k) Q'.
Proof. destruct r as [x rest|p|]; simpl; auto. Qed.

Lemma yields_impl {A} (r : presult A) (Q Q' : list token -> Prop) :
  (forall rest, Q rest -> Q' rest) -> yields r Q -> yields r Q'.
Proof. destruct r; simpl; auto. Qed.

Lemma yields_expect ty t rest :
  type t = ty -> yields (expect ty (t :: rest)) (fun out => out = rest).
Proof. intros Ht. simpl. destruct (decide (type t = ty)); done. Qed.

Lemma links_app ps1 ps2 : links (ps1 ++ ps2) = links ps1 ++ links ps2.
Proof.
  induction ps1 as [|p ps1 IH]; [done|]. simpl. by rewrite IH, <- app_assoc.
Qed.

Lemma binop_level_range ty k : binop_level ty = Some k -> 1 <= k <= 5.
Proof. destruct ty; simpl; intros [= <-]; lia. Qed.

Lemma is_binop_level ty : Grammar.is_binop ty <-> is_Some (binop_level ty).
Proof.
  unfold Grammar.is_binop. split.
  - intros H. repeat (apply elem_of_cons in H as [->|H]; [by eexists|]).
    by apply elem_of_nil in H.
  - intros [k Hk]. destruct ty; simpl in Hk; try done; set_solver.
Qed.

Lemma operation_level p :
  operation p -> 1 <= level p <= 5 /\ binop_level (type p.1) = Some (level p).
Proof.
  intros [[k Hk] _]. unfold level. rewrite Hk. simpl. split; [|done].
  by eapply binop_level_range.
Qed.

Lemma low_mono l l' ps : l <= l' -> low l ps -> low l' ps.
Proof. intros Hl H. eapply Forall_impl; [exact H|]. intros p. simpl. lia. Qed.

Lemma high_5 ps : Forall operation ps -> high 5 ps -> ps = [].
Proof.
  destruct ps as [|p ps]; [done|]. intros Hp Hh. simpl in Hh.
  apply Forall_cons in Hp as [Hp _]. apply operation_level in Hp. lia.
Qed.

Lemma high_0 ps : Forall operation ps -> high 0 ps.
Proof.
  destruct ps as [|p ps]; [done|]. intros Hp. simpl.
  apply Forall_cons in Hp as [Hp _]. apply operation_level in Hp. lia.
Qed.

(** An expression is an operand followed by operators and operands. *)
Lemma expr_operands e : Grammar.expr e -> forall ts, map type ts = e ->
  exists o parts, ts = o ++ links parts /\ operand o /\ Forall operation parts.
Proof.
  induction 1 as [a op b Ha IHa Hop Hb IHb|e He IH|e He IH|e He IH| | |]; intros ts Hts.
  - apply map_eq_app in Hts as (ta & tb' & -> & Hta & Htb).
    apply map_eq_cons in Htb as (top & tb & -> & Htop & Htb).
    destruct (IHa ta Hta) as (oa & pa & -> & Hoa & Hpa).
    destruct (IHb tb Htb) as (ob & pb & -> & Hob & Hpb).
    exists oa, (pa ++ (top, ob) :: pb). split_and!.
    + rewrite links_app. simpl. by rewrite <- app_assoc.
    + done.
    + apply Forall_app. split; [done|]. constructor; [|done].
      split; [|done]. simpl. rewrite Htop. by apply is_binop_level.
  - apply map_eq_cons in Hts as (t & te & -> & Ht & Hte).
    destruct (IH te Hte) as (o & ps & -> & Ho & Hps).
    exists (t :: o), ps. split_and!; [done| |done]. constructor; auto.
  - apply map_eq_cons in Hts as (t & te & -> & Ht & Hte).
    destruct (IH te Hte) as (o & ps & -> & Ho & Hps).
    exists (t :: o), ps. split_and!; [done| |done]. constructor; auto.
  - apply map_eq_cons in Hts as (t & te' & -> & Ht & Hte).
    apply map_eq_app in Hte as (te & tr & -> & Hte & Htr).
    destruct tr as [|t' [|]]; try done. injection Htr as Ht'.
    exists (t :: te ++ [t']), []. split_and!; [by rewrite app_nil_r| |done].
    constructor; try done. by rewrite Hte.
  - destruct ts as [|t [|]]; try done. injection Hts as Ht.
    exists [t], []. split_and!; [done| |done]. constructor. auto.
  - destruct ts as [|t [|]]; try done. injection Hts as Ht.
    exists [t], []. split_and!; [done| |done]. constructor. auto.
  - destruct ts as [|t [|]]; try done. injection Hts as Ht.
    exists [t], []. split_and!; [done| |done]. constructor. auto.
Qed.

Ltac parts_done :=
  split_and!; try done; try (by apply Forall_nil_2); try (by apply high_0).

Section Complete.

Variable float_str : string -> string.

(** At the level [l] the parser takes the operators of the levels up to [l]
    with their operands, and stops before the first operator of a higher
    level. *)
Lemma parse_expr_parts fuel :
  (forall l o parts rest,
     operand o -> Forall operation parts -> ends_expr rest ->
     yields (parse_expr float_str fuel l (o ++ links parts ++ rest))
       (fun out => exists ps1 ps2,
          parts = ps1 ++ ps2 /\ low l ps1 /\ high l ps2 /\ out = links ps2 ++ rest))
  /\ (forall l a parts rest,
        1 <= l -> Forall operation parts -> high (l - 1) parts -> ends_expr rest ->
        yields (parse_binop_rest float_str fuel l a (links parts ++ rest))
          (fun out => exists ps1 ps2,
             parts = ps1 ++ ps2 /\ low l ps1 /\ high l ps2 /\ out = links ps2 ++ rest)).
Proof.
  induction fuel as [|fuel [IHe IHb]]; [by split|]. split.
  - intros [|l] o parts rest Ho Hps Hrest; cbn [parse_expr].
    + destruct Ho as [t Ht|t e t' Ht He Ht'|t o Ht Ho]; cbn [app].
      * assert (Hout : exists ps1 ps2, parts = ps1 ++ ps2 /\ low 0 ps1 /\ high 0 ps2
                         /\ links parts ++ rest = links ps2 ++ rest).
        { exists [], parts. parts_done. }
        destruct Ht as [Ht|[Ht|Ht]]; rewrite Ht; try done.
        -- by destruct (value t).
        -- by destruct (value t).
      * rewrite Ht.
        destruct (expr_operands _ He e eq_refl) as (oe & pe & -> & Hoe & Hpe).
        eapply yields_pbind.
        { rewrite <- !app_assoc.
          apply (IHe 5 oe pe ([t'] ++ links parts ++ rest)); [done|done|].
          simpl. by rewrite Ht'. }
        intros x out (ps1 & ps2 & -> & Hl & Hh & ->). cbv beta.
        apply Forall_app in Hpe as [_ Hpe2]. rewrite (high_5 ps2 Hpe2 Hh). cbn [links app].
        eapply yields_pbind; [by apply yields_expect|].
        intros _ out ->. simpl. exists [], parts. parts_done.
      * assert (Hyield : yields (parse_expr float_str fuel 0 (o ++ links parts ++ rest))
                  (fun out => exists ps1 ps2,
                     parts = ps1 ++ ps2 /\ low 0 ps1 /\ high 0 ps2 /\ out = links ps2 ++ rest))
          by (by apply IHe).
        destruct Ht as [Ht|Ht]; rewrite Ht;
          (eapply yields_pbind; [exact Hyield|]); intros x out Hout; exact Hout.
    + eapply yields_pbind; [by apply (IHe l o parts rest)|].
      intros a out (ps1 & ps2 & -> & Hl & Hh & ->). cbv beta.
      apply Forall_app in Hps as [Hps1 Hps2].
      eapply yields_impl; [|apply (IHb (S l) a ps2 rest); try done; try lia].
      * intros out (q1 & q2 & -> & Hl2 & Hh2 & ->).
        exists (ps1 ++ q1), q2. split_and!; try done.
        -- by rewrite app_assoc.
        -- apply Forall_app. split; [|done]. eapply low_mono; [|done]. lia.
      * by replace (S l - 1) with l by lia.
  - intros l a parts rest Hl Hps Hh Hrest. cbn [parse_binop_rest].
    destruct parts as [|p ps]; cbn [links]; rewrite <- ?app_comm_cons, ?app_nil_l.
    + assert (Hout : exists ps1 ps2 : list (token * list token),
                [] = ps1 ++ ps2 /\ low l ps1 /\ high l ps2 /\ rest = links ps2 ++ rest).
      { exists [], []. parts_done. }
      destruct rest as [|t r]; [done|]. simpl in Hrest.
      destruct (decide (binop_level (type t) = Some l)) as [E|E]; [congruence|]. done.
    + apply Forall_cons in Hps as [Hp Hps]. pose proof (operation_level _ Hp) as [Hk Hlev].
      simpl in Hh.
      destruct (decide (binop_level (type p.1) = Some l)) as [E|E].
      * assert (Hpl : level p = l) by congruence.
        eapply yields_pbind.
        { rewrite <- app_assoc. apply (IHe (l - 1) p.2 ps rest); [apply Hp|done|done]. }
        intros b out (q1 & q2 & -> & Hl1 & Hh1 & ->). cbv beta.
        apply Forall_app in Hps as [Hq1 Hq2].
        eapply yields_impl; [|apply (IHb l _ q2 rest); done].
        intros out (r1 & r2 & -> & Hl2 & Hh2 & ->).
        exists (p :: q1 ++ r1), r2. split_and!; try done.
        -- simpl. by rewrite <- app_assoc.
        -- constructor; [lia|]. apply Forall_app. split; [|done].
           eapply low_mono; [|done]. lia.
      * simpl. exists [], (p :: ps). parts_done.
        simpl. assert (level p <> l) by congruence. lia.
Qed.

(** An expression followed by a token that is no binary operator is read
    to its end. *)
Lemma parse_expr_complete fuel e rest :
  Grammar.expr (map type e) -> ends_expr rest ->
  yields (parse_expr float_str fuel 5 (e ++ rest)) (fun out => out = rest).
Proof.
  intros He Hrest. destruct (expr_operands _ He e eq_refl) as (o & ps & -> & Ho & Hps).
  rewrite <- app_assoc.
  eapply yields_impl; [|by apply (proj1 (parse_expr_parts fuel) 5 o ps rest)].
  intros out (ps1 & ps2 & -> & Hl & Hh & ->).
  apply Forall_app in Hps as [_ Hps2]. by rewrite (high_5 ps2 Hps2 Hh).
Qed.

End Complete.

(** A list is its first item followed by separators and items. *)
Lemma expr_list_items l : Grammar.expr_list l -> forall ts, map type ts = l ->
  exists e items, ts = e ++ links items /\ Grammar.expr (map type e)
                  /\ Forall (part_of COMMA Grammar.expr) items.
Proof.
  induction 1 as [e He|l e Hl IH He]; intros ts Hts.
  - exists ts, []. rewrite app_nil_r, Hts. by split_and!.
  - apply map_eq_app in Hts as (tl & tr & -> & Htl & Htr).
    apply map_eq_cons in Htr as (tc & te & -> & Htc & Hte).
    destruct (IH _ Htl) as (e0 & items & -> & He0 & Hitems).
    exists e0, (items ++ [(tc, te)]). split_and!; [|done|].
    + rewrite links_app. simpl. by rewrite app_nil_r, <- app_assoc.
    + apply Forall_app. split; [done|]. constructor; [|done]. split; simpl; [done|].
      by rewrite Hte.
Qed.

Lemma id_list_items l : Grammar.id_list l -> forall ts, map type ts = l ->
  exists t items, ts = t :: links items /\ type t = ID
                  /\ Forall (part_of COMMA (fun p => p = [ID])) items.
Proof.
  induction 1 as [|l Hl IH]; intros ts Hts.
  - destruct ts as [|t [|]]; try done. injection Hts as Ht. by exists t, [].
  - apply map_eq_app in Hts as (tl & tr & -> & Htl & Htr).
    destruct tr as [|tc [|ti [|]]]; try done. injection Htr as Htc Hti.
    destruct (IH _ Htl) as (t0 & items & -> & Ht0 & Hitems).
    exists t0, (items ++ [(tc, [ti])]). split_and!; [|done|].
    + rewrite links_app. simpl. done.
    + apply Forall_app. split; [done|]. constructor; [|done]. split; simpl; [done|].
      by rewrite Hti.
Qed.

Lemma stmt_list_items l : Grammar.stmt_list l -> forall ts, map type ts = l ->
  exists s items, ts = s ++ links items /\ Grammar.stmt (map type s)
                  /\ Forall (part_of SEMI Grammar.stmt) items.
Proof.
  induction 1 as [s Hs|l s Hl IH Hs]; intros ts Hts.
  - exists ts, []. rewrite app_nil_r, Hts. by split_and!.
  - apply map_eq_app in Hts as (tl & tr & -> & Htl & Htr).
    apply map_eq_cons in Htr as (tc & te & -> & Htc & Hte).
    destruct (IH _ Htl) as (s0 & items & -> & Hs0 & Hitems).
    exists s0, (items ++ [(tc, te)]). split_and!; [|done|].
    + rewrite links_app. simpl. by rewrite app_nil_r, <- app_assoc.
    + apply Forall_app. split; [done|]. constructor; [|done]. split; simpl; [done|].
      by rewrite Hte.
Qed.

Lemma stmt_view_of w : Grammar.stmt (map type w) -> stmt_view w.
Proof.
  intros H. remember (map type w) as tys eqn:E. symmetry in E.
  destruct H as [e He|c s Hc Hs|c s1 s2 Hc H1 H2|c s Hc Hs|d lo hi s Hd Hlo Hhi Hs
                |l c Hl Hc|k l Hk Hl|k l Hk Hl|l Hl|].
  - apply map_eq_cons in E as (t1 & w1 & -> & Ht1 & E).
    apply map_eq_cons in E as (t2 & te & -> & Ht2 & <-).
    by apply view_assign.
  - apply map_eq_cons in E as (t & w1 & -> & Ht & E).
    apply map_eq_app in E as (tc & w2 & -> & <- & E).
    apply map_eq_cons in E as (t' & ts & -> & Ht' & <-).
    rewrite <- (app_nil_r ts).
    apply (view_if _ _ _ _ []); try done. simpl; lia.
  - apply map_eq_cons in E as (t & w1 & -> & Ht & E).
    apply map_eq_app in E as (tc & w2 & -> & <- & E).
    apply map_eq_cons in E as (t' & w3 & -> & Ht' & E).
    apply map_eq_app in E as (ts1 & w4 & -> & <- & E).
    apply map_eq_cons in E as (te & ts2 & -> & Hte & <-).
    replace (t :: tc ++ t' :: ts1 ++ te :: ts2)
      with (t :: tc ++ t' :: ts1 ++ links [(te, ts2)]) by (simpl; by rewrite app_nil_r).
    apply view_if; first [done | by (constructor; [by split|done]) | simpl; lia].
  - apply map_eq_cons in E as (t & w1 & -> & Ht & E).
    apply map_eq_app in E as (tc & w2 & -> & <- & E).
    apply map_eq_cons in E as (t' & ts & -> & Ht' & <-).
    by apply view_while.
  - apply map_eq_cons in E as (t & w1 & -> & Ht & E).
    apply map_eq_cons in E as (tv & w2 & -> & Htv & E).
    apply map_eq_cons in E as (ta & w3 & -> & Hta & E).
    apply map_eq_app in E as (tlo & w4 & -> & <- & E).
    apply map_eq_cons in E as (td & w5 & -> & Htd & E).
    apply map_eq_app in E as (thi & w6 & -> & <- & E).
    apply map_eq_cons in E as (t' & ts & -> & Ht' & <-).
    apply view_for; try done. rewrite Htd. done.
  - apply map_eq_cons in E as (t & w1 & -> & Ht & E).
    apply map_eq_app in E as (tl & w2 & -> & <- & E).
    apply map_eq_cons in E as (t' & tc & -> & Ht' & <-).
    by apply view_repeat.
  - apply map_eq_cons in E as (t & w1 & -> & Ht & E).
    apply map_eq_cons in E as (tl & w2 & -> & Htl & E).
    apply map_eq_app in E as (tx & w3 & -> & <- & E).
    destruct w3 as [|tr [|]]; try done. injection E as Htr.
    apply view_write; try done. rewrite Ht. done.
  - apply map_eq_cons in E as (t & w1 & -> & Ht & E).
    apply map_eq_cons in E as (tl & w2 & -> & Htl & E).
    apply map_eq_app in E as (tx & w3 & -> & <- & E).
    destruct w3 as [|tr [|]]; try done. injection E as Htr.
    apply view_read; try done. rewrite Ht. done.
  - apply map_eq_cons in E as (t & w1 & -> & Ht & E).
    apply map_eq_app in E as (tx & w3 & -> & <- & E).
    destruct w3 as [|tr [|]]; try done. injection E as Htr.
    by apply view_block.
  - apply map_eq_nil in E as ->. constructor.
Qed.

Lemma ends_expr_links sep G items rest :
  binop_level sep = None -> Forall (part_of sep G) items -> ends_expr rest ->
  ends_expr (links items ++ rest).
Proof.
  intros Hsep Hitems Hrest. destruct items as [|p items]; [done|].
  apply Forall_cons in Hitems as [[Hp _] _]. simpl. by rewrite Hp.
Qed.

Lemma ends_stmt_expr rest : ends_stmt rest -> ends_expr rest.
Proof. intros (t & r & -> & [Ht|[Ht|Ht]]); simpl; by rewrite Ht. Qed.

Lemma ends_list_stmt rest : ends_list rest -> ends_stmt rest.
Proof. intros (t & r & -> & Ht). exists t, r. split; [done|]. tauto. Qed.

Lemma ends_stmt_links items rest :
  Forall (part_of SEMI Grammar.stmt) items -> ends_list rest ->
  ends_stmt (links items ++ rest).
Proof.
  intros Hitems Hrest. destruct items as [|p items]; [by apply ends_list_stmt|].
  apply Forall_cons in Hitems as [[Hp _] _]. simpl. eexists _, _. split; [done|]. by left.
Qed.

Ltac flat :=
  repeat first [rewrite <- app_assoc | rewrite <- app_comm_cons | rewrite app_nil_l].

Section CompleteLists.

Variable float_str : string -> string.

(** A list followed by a token that is no comma is read to its end. *)
Lemma parse_expr_list_complete fuel : forall acc e items rest,
  Grammar.expr (map type e) -> Forall (part_of COMMA Grammar.expr) items ->
  ends_expr rest -> next_is_not COMMA rest ->
  yields (parse_expr_list float_str fuel acc (e ++ links items ++ rest))
    (fun out => out = rest).
Proof.
  induction fuel as [|fuel IH]; [done|]. intros acc e items rest He Hitems Hr Hc.
  cbn [parse_expr_list].
  eapply yields_pbind.
  { apply parse_expr_complete; [done|]. by apply (ends_expr_links COMMA Grammar.expr). }
  intros x out ->. destruct items as [|p items]; cbn [links]; rewrite <- ?app_comm_cons, ?app_nil_l.
  - destruct rest as [|t r]; [done|]. simpl in Hc. by destruct (decide (type t = COMMA)).
  - apply Forall_cons in Hitems as [[Hp He'] Hitems].
    destruct (decide (type p.1 = COMMA)); [|done].
    rewrite <- app_assoc. by apply IH.
Qed.

Lemma parse_id_list_complete fuel : forall acc t items rest,
  type t = ID -> Forall (part_of COMMA (fun p => p = [ID])) items ->
  next_is_not COMMA rest ->
  yields (parse_id_list float_str fuel acc (t :: links items ++ rest))
    (fun out => out = rest).
Proof.
  induction fuel as [|fuel IH]; [done|]. intros acc t items rest Ht Hitems Hc.
  cbn [parse_id_list].
  eapply yields_pbind; [by apply yields_expect|].
  intros x out ->. destruct items as [|p items]; cbn [links]; rewrite <- ?app_comm_cons, ?app_nil_l.
  - destruct rest as [|t' r]; [done|]. simpl in Hc. by destruct (decide (type t' = COMMA)).
  - apply Forall_cons in Hitems as [[Hp Hi] Hitems].
    destruct (decide (type p.1 = COMMA)); [|done].
    destruct p.2 as [|ti [|]]; try done. injection Hi as Hi.
    simpl. by apply IH.
Qed.

Lemma next_not_comma rest ty :
  ty <> COMMA -> (exists t r, rest = t :: r /\ type t = ty) -> next_is_not COMMA rest.
Proof. intros Hty (t & r & -> & Ht). simpl. congruence. Qed.

(** What is left of the [else] parts after the statement that took the
    first of them. *)
Lemma else_parts_left (el elses e1 e2 : list (token * list token)) :
  el ++ elses = e1 ++ e2 -> length el <= length e1 -> exists e1', elses = e1' ++ e2.
Proof.
  intros H Hl. exists (drop (length el) e1).
  apply (f_equal (drop (length el))) in H.
  rewrite drop_app_length in H. rewrite H. rewrite drop_app_le by done. done.
Qed.

(** A statement is read to its end, with those of the [else] parts after it
    that it takes; the others are left to the conditionals around it.  A list
    of statements is read up to the [end] or the [until] after it. *)
Lemma parse_stmt_complete fuel :
  (forall w elses rest,
     Grammar.stmt (map type w) -> Forall (part_of ELSE Grammar.stmt) elses ->
     ends_stmt rest ->
     yields (parse_stmt float_str fuel (w ++ links elses ++ rest))
       (fun out => exists e1 e2, elses = e1 ++ e2 /\ out = links e2 ++ rest))
  /\ (forall l rest,
        Grammar.stmt_list (map type l) -> ends_list rest ->
        yields (parse_stmt_list float_str fuel (l ++ rest)) (fun out => out = rest))
  /\ (forall acc items rest,
        Forall (part_of SEMI Grammar.stmt) items -> ends_list rest ->
        yields (parse_stmt_list_rest float_str fuel acc (links items ++ rest))
          (fun out => out = rest)).
Proof.
  induction fuel as [|fuel (IHs & IHl & IHr)]; [by split_and!|].
  assert (Hafter : forall elses rest,
            Forall (part_of ELSE Grammar.stmt) elses -> ends_stmt rest ->
            ends_expr (links elses ++ rest)).
  { intros elses rest He Hr.
    apply (ends_expr_links ELSE Grammar.stmt); [done|done|by apply ends_stmt_expr]. }
  assert (Hkeep : forall elses rest,
            exists e1 e2 : list (token * list token),
              elses = e1 ++ e2 /\ links elses ++ rest = links e2 ++ rest).
  { intros elses rest. by exists [], elses. }
  split_and!.
  - intros w elses rest Hw Helses Hrest.
    destruct (stmt_view_of w Hw)
      as [|t1 t2 e Ht1 Ht2 He|t c t' s el Ht Hc Ht' Hs Hel Hlen|t c t' s Ht Hc Ht' Hs
         |t tv ta lo d hi t' s Ht Htv Hta Hlo Hd Hhi Ht' Hs|t l t' c Ht Hl Ht' Hc
         |t tl l tr Ht Htl Hl Htr|t tl l tr Ht Htl Hl Htr|t l t' Ht Hl Ht'];
      cbn [parse_stmt]; flat.
    + (* empty *)
      destruct elses as [|p elses]; cbn [links]; rewrite <- ?app_comm_cons, ?app_nil_l.
      * destruct Hrest as (t & r & -> & Ht).
        assert (Hout : exists e1 e2 : list (token * list token),
                  [] = e1 ++ e2 /\ t :: r = links e2 ++ t :: r) by (by exists [], []).
        destruct Ht as [Ht|[Ht|Ht]]; rewrite Ht; exact Hout.
      * apply Forall_cons in Helses as [[Hp _] _]. rewrite Hp. simpl.
        by exists [], (p :: elses).
    + (* assignment *)
      rewrite Ht1.
      eapply yields_pbind; [by apply yields_expect|]. intros _ out ->.
      eapply yields_pbind; [apply parse_expr_complete; [done|by apply Hafter]|].
      intros x out ->. simpl. apply Hkeep.
    + (* if *)
      rewrite Ht.
      eapply yields_pbind; [apply parse_expr_complete; [done|by simpl; rewrite Ht']|].
      intros x out ->.
      eapply yields_pbind; [by apply yields_expect|]. intros _ out ->.
      rewrite (app_assoc (links el)), <- links_app.
      eapply yields_pbind.
      { apply IHs; [done| |done]. by apply Forall_app. }
      intros s1 out (e1 & e2 & He & ->). cbv beta.
      assert (Hparts : Forall (part_of ELSE Grammar.stmt) (e1 ++ e2)).
      { rewrite <- He. by apply Forall_app. }
      apply Forall_app in Hparts as [_ He2].
      destruct e2 as [|p e2]; cbn [links]; rewrite <- ?app_comm_cons, ?app_nil_l.
      * destruct Hrest as (t0 & r & -> & Ht0).
        assert (type t0 <> ELSE) by (destruct Ht0 as [Ht0|[Ht0|Ht0]]; by rewrite Ht0).
        destruct (decide (type t0 = ELSE)); [done|]. simpl. by exists elses, []; rewrite app_nil_r.
      * apply Forall_cons in He2 as [[Hp Hs2] He2].
        destruct (decide (type p.1 = ELSE)); [|done].
        flat.
        eapply yields_pbind; [by apply IHs|].
        intros s2 out (e3 & e4 & -> & ->). simpl.
        destruct (else_parts_left el elses (e1 ++ p :: e3) e4) as [e1' He1'].
        { rewrite He. by rewrite <- app_assoc. }
        { rewrite length_app. simpl. lia. }
        by exists e1', e4.
    + (* while *)
      rewrite Ht.
      eapply yields_pbind; [apply parse_expr_complete; [done|by simpl; rewrite Ht']|].
      intros x out ->.
      eapply yields_pbind; [by apply yields_expect|]. intros _ out ->.
      eapply yields_pbind; [by apply IHs|].
      intros b out Hout. exact Hout.
    + (* for *)
      rewrite Ht.
      eapply yields_pbind; [by apply yields_expect|]. intros v out ->.
      eapply yields_pbind; [by apply yields_expect|]. intros _ out ->.
      eapply yields_pbind.
      { apply parse_expr_complete; [done|]. simpl. by destruct Hd as [-> | ->]. }
      intros x out ->.
      assert (Hto : bool_decide (type d = TO) || bool_decide (type d = DOWNTO) = true).
      { destruct Hd as [Hd|Hd]; rewrite Hd; done. }
      rewrite Hto.
      eapply yields_pbind; [apply parse_expr_complete; [done|by simpl; rewrite Ht']|].
      intros y out ->.
      eapply yields_pbind; [by apply yields_expect|]. intros _ out ->.
      eapply yields_pbind; [by apply IHs|].
      intros b out Hout. exact Hout.
    + (* repeat *)
      rewrite Ht.
      eapply yields_pbind.
      { apply IHl; [done|]. eexists _, _. split; [done|]. by right. }
      intros b out ->.
      eapply yields_pbind; [by apply yields_expect|]. intros _ out ->.
      eapply yields_pbind; [apply parse_expr_complete; [done|by apply Hafter]|].
      intros x out ->. simpl. apply Hkeep.
    + (* write *)
      assert (Hio : forall k : string,
                yields
                  (pbind (expect LPAREN (tl :: l ++ [tr] ++ links elses ++ rest)) (fun _ rest0 =>
                   pbind (parse_expr_list float_str fuel [] rest0) (fun args rest1 =>
                   pbind (expect RPAREN rest1) (fun _ rest2 =>
                   POk (IoStmt k args) rest2))))
                  (fun out => exists e1 e2, elses = e1 ++ e2 /\ out = links e2 ++ rest)).
      { intros k.
        eapply yields_pbind; [by apply yields_expect|]. intros _ out ->.
        destruct (expr_list_items _ Hl l eq_refl) as (e & items & -> & He & Hitems).
        flat.
          eapply yields_pbind.
        { apply parse_expr_list_complete; try done; simpl; by rewrite Htr. }
        intros args out ->.
        eapply yields_pbind; [by apply yields_expect|]. intros _ out ->.
        simpl. apply Hkeep. }
      destruct Ht as [Ht|Ht]; rewrite Ht; apply Hio.
    + (* read *)
      assert (Hio : forall k : string,
                yields
                  (pbind (expect LPAREN (tl :: l ++ [tr] ++ links elses ++ rest)) (fun _ rest0 =>
                   pbind (parse_id_list float_str fuel [] rest0) (fun args rest1 =>
                   pbind (expect RPAREN rest1) (fun _ rest2 =>
                   POk (IoStmt k args) rest2))))
                  (fun out => exists e1 e2, elses = e1 ++ e2 /\ out = links e2 ++ rest)).
      { intros k.
        eapply yields_pbind; [by apply yields_expect|]. intros _ out ->.
        destruct (id_list_items _ Hl l eq_refl) as (ti & items & -> & Hti & Hitems).
        flat.
        flat.
        eapply yields_pbind.
        { apply parse_id_list_complete; try done; simpl; by rewrite Htr. }
        intros args out ->.
        eapply yields_pbind; [by apply yields_expect|]. intros _ out ->.
        simpl. apply Hkeep. }
      destruct Ht as [Ht|Ht]; rewrite Ht; apply Hio.
    + (* block *)
      rewrite Ht.
      eapply yields_pbind.
      { apply IHl; [done|]. eexists _, _. split; [done|]. by left. }
      intros b out ->.
      eapply yields_pbind; [by apply yields_expect|]. intros _ out ->.
      simpl. apply Hkeep.
  - intros l rest Hl Hrest. cbn [parse_stmt_list].
    destruct (stmt_list_items _ Hl l eq_refl) as (s & items & -> & Hs & Hitems).
    rewrite <- app_assoc.
    eapply yields_pbind.
    { apply (IHs s [] (links items ++ rest)); [done|done|]. by apply ends_stmt_links. }
    intros x out (e1 & e2 & He & ->).
    symmetry in He. apply app_eq_nil in He as [_ ->]. cbn [links app].
    by apply IHr.
  - intros acc items rest Hitems Hrest. cbn [parse_stmt_list_rest].
    destruct items as [|p items]; cbn [links]; rewrite <- ?app_comm_cons, ?app_nil_l.
    + destruct Hrest as (t & r & -> & Ht).
      assert (type t <> SEMI) by (destruct Ht as [Ht|Ht]; by rewrite Ht).
      by destruct (decide (type t = SEMI)).
    + apply Forall_cons in Hitems as [[Hp Hs] Hitems].
      destruct (decide (type p.1 = SEMI)); [|done].
      rewrite <- app_assoc.
      eapply yields_pbind.
      { apply (IHs p.2 [] (links items ++ rest)); [done|done|]. by apply ends_stmt_links. }
      intros x out (e1 & e2 & He & ->).
      symmetry in He. apply app_eq_nil in He as [_ ->]. cbn [links app].
      by apply IHr.
Qed.

End CompleteLists.

(** The declarations of a variable section. *)
Lemma var_decls_items ds : Grammar.var_decls ds -> forall ts, map type ts = ds ->
  exists d more, ts = d ++ concat more /\ decl d /\ Forall decl more.
Proof.
  assert (Hone : forall l ty ts,
            Grammar.id_list l -> ty = INTEGER \/ ty = REAL \/ ty = BOOLEAN ->
            map type ts = l ++ [COLON; ty; SEMI] -> decl ts).
  { intros l ty ts Hl Hty Hts.
    apply map_eq_app in Hts as (ids & tr & -> & <- & Htr).
    destruct tr as [|tc [|tt [|tsemi [|]]]]; try done. injection Htr as Htc Htt Hsemi.
    exists ids, tc, tt, tsemi. split_and!; try done. by rewrite Htt. }
  induction 1 as [l ty Hl Hty|ds l ty Hds IH Hl Hty]; intros ts Hts.
  - exists ts, []. simpl. rewrite app_nil_r. split_and!; [done| |done]. by eapply Hone.
  - apply map_eq_app in Hts as (t1 & t2 & -> & Ht1 & Ht2).
    destruct (IH _ Ht1) as (d & more & -> & Hd & Hmore).
    exists d, (more ++ [t2]). split_and!; [|done|].
    + by rewrite concat_app, <- app_assoc; simpl; rewrite app_nil_r.
    + apply Forall_app. split; [done|]. constructor; [|done]. by eapply Hone.
Qed.

Section CompleteProgram.

Variable float_str : string -> string.

(** The declarations are read up to the token after them, which is no
    identifier. *)
Lemma parse_var_decls_complete fuel : forall d more rest,
  decl d -> Forall decl more -> next_is_not ID rest ->
  yields (parse_var_decls float_str fuel (d ++ concat more ++ rest)) (fun out => out = rest).
Proof.
  induction fuel as [|fuel IH]; [done|]. intros d more rest Hd Hmore Hrest.
  destruct Hd as (ids & tc & ty & tsemi & -> & Hids & Htc & Hty & Hsemi).
  cbn [parse_var_decls].
  destruct (id_list_items _ Hids ids eq_refl) as (ti & items & -> & Hti & Hitems).
  flat.
  eapply yields_pbind.
  { apply parse_id_list_complete; [done|done|]. simpl. by rewrite Htc. }
  intros x out ->.
  eapply yields_pbind; [by apply yields_expect|]. intros _ out ->.
  assert (Hty' : bool_decide (type ty = INTEGER) || bool_decide (type ty = REAL)
                 || bool_decide (type ty = BOOLEAN) = true).
  { destruct Hty as [H|[H|H]]; rewrite H; done. }
  rewrite Hty'.
  eapply yields_pbind; [by apply yields_expect|]. intros _ out ->.
  destruct more as [|d' more]; cbn [concat]; flat.
  - destruct rest as [|t r]; [done|]. simpl in Hrest. by destruct (decide (type t = ID)).
  - apply Forall_cons in Hmore as [Hd' Hmore].
    pose proof Hd' as (ids' & tc' & ty' & tsemi' & -> & Hids' & _).
    destruct (id_list_items _ Hids' ids' eq_refl) as (ti' & items' & -> & Hti' & _).
    flat. destruct (decide (type ti' = ID)); [|done].
    specialize (IH _ more rest Hd' Hmore Hrest). revert IH. by flat.
Qed.

(** The parser accepts every program of the grammar: with the fuel it
    needs, it returns a derivation and leaves no token. *)
Lemma parse_program_complete fuel ts :
  Grammar.program (map type ts) ->
  yields (parse_program float_str fuel ts) (fun out => out = []).
Proof.
  intros H. remember (map type ts) as tys eqn:E. symmetry in E.
  assert (Hbody : forall tb l te td,
            type tb = BEGIN -> Grammar.stmt_list (map type l) -> type te = END ->
            type td = DOT ->
            yields
              (pbind (expect BEGIN (tb :: l ++ [te; td])) (fun _ rest =>
               pbind (parse_stmt_list float_str fuel rest) (fun body rest =>
               pbind (expect END rest) (fun _ rest =>
               pbind (expect DOT rest) (fun _ rest => POk body rest)))))
              (fun out => out = [])).
  { intros tb l te td Htb Hl Hte Htd.
    eapply yields_pbind; [by apply yields_expect|]. intros _ out ->.
    eapply yields_pbind.
    { apply parse_stmt_complete; [done|]. eexists _, _. split; [done|]. by left. }
    intros body out ->.
    eapply yields_pbind; [by apply yields_expect|]. intros _ out ->.
    eapply yields_pbind; [by apply yields_expect|]. intros _ out ->. done. }
  destruct H as [l Hl|ds l Hds Hl].
  - apply map_eq_cons in E as (tb & w1 & -> & Htb & E).
    apply map_eq_app in E as (tl & w2 & -> & <- & E).
    destruct w2 as [|te [|td [|]]]; try done. injection E as Hte Htd.
    unfold parse_program. destruct (decide (type tb = VAR)) as [Hv|_]; [congruence|].
    simpl pbind at 1. by apply Hbody.
  - apply map_eq_cons in E as (tv & w1 & -> & Htv & E).
    apply map_eq_app in E as (tds & w2 & -> & Htds & E).
    apply map_eq_cons in E as (tb & w3 & -> & Htb & E).
    apply map_eq_app in E as (tl & w4 & -> & <- & E).
    destruct w4 as [|te [|td [|]]]; try done. injection E as Hte Htd.
    unfold parse_program. destruct (decide (type tv = VAR)) as [_|Hv]; [|done].
    subst ds. destruct (var_decls_items _ Hds tds eq_refl) as (d & more & -> & Hd & Hmore).
    eapply yields_pbind.
    { flat. apply parse_var_decls_complete; [done|done|]. simpl. by rewrite Htb. }
    intros _ out ->. by apply Hbody.
Qed.

End CompleteProgram.

(** *** The offending token. *)

Lemma map_type_token_of q : map type (map token_of q) = q.
Proof. induction q as [|ty q IH]; [done|]. simpl. by rewrite IH. Qed.

Lemma viable_program p : Grammar.program p -> viable p.
Proof. intros H. exists []. by rewrite app_nil_r. Qed.

Lemma viable_prefix p q : viable (p ++ q) -> viable p.
Proof. intros [r Hr]. exists (q ++ r). by rewrite app_assoc. Qed.

(** A sequence of tokens has one offending token at most. *)
Lemma offending_unique ts t t' : offending ts t -> offending ts t' -> t = t'.
Proof.
  assert (Hlate : forall pre pre' (t' : token) l,
            pre = pre' ++ t' :: l -> viable (map type pre) ->
            ~ viable (map type (pre' ++ [t'])) -> False).
  { intros pre pre' t0' l -> Hv Hn. apply Hn.
    apply (viable_prefix _ (map type l)). rewrite <- map_app, <- app_assoc. done. }
  intros (pre & post & -> & Hv & Hn) (pre' & post' & Heq & Hv' & Hn').
  apply app_eq_app in Heq as [l [[-> Heq]|[-> Heq]]].
  - destruct l as [|x l]; [by injection Heq|]. injection Heq as <- _.
    exfalso. by eapply Hlate.
  - destruct l as [|x l]; [by injection Heq|]. injection Heq as <- _.
    exfalso. by eapply Hlate.
Qed.

Section Offending.

Variable float_str : string -> string.

(** No program of the grammar goes through a token at which the parser
    stops whatever follows. *)
Lemma stopped_not_viable fuel pre t :
  (forall post, parse_program float_str fuel (pre ++ t :: post) = PErr (Some t)) ->
  ~ viable (map type (pre ++ [t])).
Proof.
  intros Hstop [q Hq].
  pose proof (parse_program_complete float_str fuel (pre ++ t :: map token_of q)) as Hc.
  rewrite Hstop in Hc. apply Hc.
  rewrite map_app. simpl. rewrite map_type_token_of.
  rewrite map_app in Hq. simpl in Hq. by rewrite <- app_assoc in Hq.
Qed.

(** The tokens before the first token at which the parser stops begin a
    program. *)
Lemma stopped_after_viable fuel n : forall pre t post,
  length pre < n -> 10 * length pre + 8 < fuel ->
  (forall post', parse_program float_str fuel (pre ++ t :: post') = PErr (Some t)) ->
  exists pre0 post0,
    pre ++ t :: post = pre0 ++ t :: post0 /\ viable (map type pre0)
    /\ forall post', parse_program float_str fuel (pre0 ++ t :: post') = PErr (Some t).
Proof.
  induction n as [|n IH]; intros pre t post Hn Hfuel Hstop; [lia|].
  - pose proof (parse_program_ok float_str fuel pre) as Hp.
    pose proof (parse_program_defined float_str fuel pre Hfuel) as Hd.
    pose proof (parse_program_local float_str fuel pre) as Hl. unfold local_at in Hl.
    destruct (parse_program float_str fuel pre) as [x rest|[t'|]|] eqn:E; try done.
    + destruct Hl as (p & Hpre & Hl). destruct rest as [|t' rest].
      * destruct Hp as (p' & Hpre' & Hp). rewrite app_nil_r in Hpre'. subst p'.
        exists pre, post. split_and!; [done| |done]. by apply viable_program.
      * specialize (Hl (t' :: rest ++ t :: post) eq_refl).
        rewrite app_comm_cons, app_assoc, <- Hpre in Hl. by rewrite Hstop in Hl.
    + destruct Hl as (p1 & q1 & -> & Hl).
      assert (t' = t) as ->.
      { specialize (Hstop []). rewrite <- app_assoc, <- app_comm_cons, Hl in Hstop.
        by injection Hstop. }
      destruct (IH p1 t (q1 ++ t :: post)) as (pre0 & post0 & Heq & Hv & Hstop0).
      * rewrite length_app in Hn. simpl in Hn. lia.
      * rewrite length_app in Hfuel. lia.
      * done.
      * exists pre0, post0. split_and!; [|done|done].
        by rewrite <- app_assoc, <- app_comm_cons.
    + exists pre, post. split_and!; [done| |done]. destruct Hp as [q Hq]. by exists q.
Qed.

(** The token the parser stops at is the offending one. *)
Lemma parse_error_offending fuel ts t :
  10 * length ts + 8 < fuel ->
  parse_program float_str fuel ts = PErr (Some t) -> offending ts t.
Proof.
  intros Hfuel E.
  pose proof (parse_program_local float_str fuel ts) as Hl. unfold local_at in Hl.
  rewrite E in Hl. destruct Hl as (pre & post & -> & Hstop).
  destruct (stopped_after_viable fuel (S (length pre)) pre t post)
    as (pre0 & post0 & Heq & Hv & Hstop0); [lia| |done|].
  { rewrite length_app in Hfuel. lia. }
  exists pre0, post0. split_and!; [done|done|]. by eapply stopped_not_viable.
Qed.

(** So is the token that follows a whole program. *)
Lemma parse_rest_offending fuel ts body t rest :
  parse_program float_str fuel ts = POk body (t :: rest) -> offending ts t.
Proof.
  intros E.
  pose proof (parse_program_ok float_str fuel ts) as Hp.
  pose proof (parse_program_local float_str fuel ts) as Hl. unfold local_at in Hl.
  rewrite E in Hp, Hl. destruct Hp as (pre & -> & Hp). destruct Hl as (pre' & Heq & Hl).
  apply app_inv_tail in Heq as <-.
  exists pre, rest. split_and!; [done|by apply viable_program|].
  intros [q Hq].
  pose proof (parse_program_complete float_str fuel (pre ++ t :: map token_of q)) as Hc.
  rewrite (Hl (t :: map token_of q) eq_refl) in Hc.
  assert (t :: map token_of q = []); [|done].
  apply Hc. rewrite map_app. simpl. rewrite map_type_token_of.
  rewrite map_app in Hq. simpl in Hq. by rewrite <- app_assoc in Hq.
Qed.

End Offending.

(** *** The tokenizer returns. *)

Lemma span_length p s a r :
  span p s = (a, r) -> String.length s = String.length a + String.length r.
Proof.
  revert a r. induction s as [|c s IH]; intros a r; simpl.
  - by intros [= <- <-].
  - destruct (p c).
    + destruct (span p s) as [a' r'] eqn:E. intros [= <- <-]. simpl.
      by rewrite (IH _ _ eq_refl).
    + by intros [= <- <-].
Qed.

Lemma span_first p c s a r :
  p c = true -> span p (String c s) = (a, r) -> String.length r <= String.length s.
Proof.
  intros Hp. simpl. rewrite Hp. destruct (span p s) as [a' r'] eqn:E.
  intros [= <- <-]. apply span_length in E. lia.
Qed.

Lemma lex_string_rules_progress c s line :
  match lex_string_rules c s line with
  | LexToken _ rest => String.length rest <= String.length s
  | LexSkip rest _ => String.length rest <= String.length s
  | _ => True
  end.
Proof.
  unfold lex_string_rules. destruct s as [|d s'].
  - by destruct (op1 c).
  - destruct (op2 c d); simpl; [lia|]. by destruct (op1 c).
Qed.

Lemma lex_one_progress s line :
  match lex_one s line with
  | LexToken _ rest => String.length rest < String.length s
  | LexSkip rest _ => String.length rest < String.length s
  | _ => True
  end.
Proof.
  destruct s as [|c s]; [done|]. unfold lex_one.
  destruct (t_ignore c); [simpl; lia|].
  destruct (is_digit c) eqn:Hd.
  { destruct (span is_digit (String c s)) as [d1 r1] eqn:E1.
    pose proof (span_first _ _ _ _ _ Hd E1) as H1.
    destruct r1 as [|c1 r2]; [simpl in *; lia|].
    destruct (Ascii.ascii_dec c1 "."%char) as [->|Hne].
    - destruct (span is_digit r2) as [d2 r3] eqn:E2. apply span_length in E2.
      destruct d2; simpl in *; lia.
    - assert (String.length (String c1 r2) < String.length (String c s)) by (simpl in *; lia).
      clear -H Hne. destruct c1 as [[] [] [] [] [] [] [] []]; try done. }
  destruct (is_id_start c) eqn:Hi.
  { assert (Hc : is_id_char c = true) by (unfold is_id_char; by rewrite Hi).
    destruct (span is_id_char (String c s)) as [w r] eqn:E.
    pose proof (span_first _ _ _ _ _ Hc E) as H1.
    destruct (lookup_reserved _ _); simpl; lia. }
  destruct (is_newline c) eqn:Hn.
  { destruct (span is_newline (String c s)) as [w r] eqn:E.
    pose proof (span_first _ _ _ _ _ Hn E) as H1. simpl. lia. }
  pose proof (lex_string_rules_progress c s line) as Hr.
  assert (Hr' : match lex_string_rules c s line with
                | LexToken _ rest | LexSkip rest _ =>
                    String.length rest < String.length (String c s)
                | _ => True
                end).
  { destruct (lex_string_rules c s line); simpl; try done; lia. }
  destruct (Ascii.ascii_dec c "{"%char) as [->|Hne].
  - destruct (span not_rbrace s) as [w r] eqn:E. apply span_length in E.
    destruct r as [|c' r']; [done|]. simpl in *. lia.
  - clear -Hr' Hne. destruct c as [[] [] [] [] [] [] [] []]; try done.
Qed.

Lemma tokenize_defined fuel : forall s line,
  String.length s < fuel -> (tokenize fuel s line).2 <> LexFuel.
Proof.
  induction fuel as [|fuel IH]; [intros; lia|]. intros s line Hf. simpl.
  pose proof (lex_one_progress s line) as Hp.
  destruct (lex_one s line) as [t rest|rest line'| |c line']; try done.
  - specialize (IH rest line ltac:(lia)).
    by destruct (tokenize fuel rest line).
  - apply IH. lia.
Qed.

Lemma tokens_of_defined s line : (tokens_of s line).2 <> LexFuel.
Proof. apply tokenize_defined. lia. Qed.

Lemma span_app p s a r : span p s = (a, r) -> s = a +:+ r.
Proof.
  revert a r. induction s as [|c s IH]; intros a r; simpl.
  - by intros [= <- <-].
  - destruct (p c).
    + destruct (span p s) as [a' r'] eqn:E. intros [= <- <-].
      by rewrite append_cons, <- (IH _ _ eq_refl).
    + by intros [= <- <-].
Qed.

Lemma lex_string_rules_suffix c s line :
  match lex_string_rules c s line with
  | LexToken _ rest => exists pre, String c s = pre +:+ rest
  | LexSkip rest _ => exists pre, String c s = pre +:+ rest
  | LexEOF => False
  | LexError c' line' => c' = c /\ line' = line
  end.
Proof.
  unfold lex_string_rules. destruct s as [|d s'].
  - destruct (op1 c); [|done]. by exists (String c EmptyString).
  - destruct (op2 c d).
    + by exists (String c (String d EmptyString)).
    + destruct (op1 c); [|done]. by exists (String c EmptyString).
Qed.

Lemma lex_one_suffix s line :
  match lex_one s line with
  | LexToken _ rest => exists pre, s = pre +:+ rest
  | LexSkip rest _ => exists pre, s = pre +:+ rest
  | LexEOF => s = EmptyString
  | LexError c line' => exists rest, s = String c rest /\ line' = line
  end.
Proof.
  destruct s as [|c s]; [done|]. unfold lex_one.
  destruct (t_ignore c); [by exists (String c EmptyString)|].
  destruct (is_digit c).
  { destruct (span is_digit (String c s)) as [d1 r1] eqn:E1. apply span_app in E1.
    assert (Hint : exists pre, String c s = pre +:+ r1) by eauto.
    destruct r1 as [|c1 r2]; [done|].
    destruct (Ascii.ascii_dec c1 "."%char) as [->|Hne].
    - destruct (span is_digit r2) as [d2 r3] eqn:E2. apply span_app in E2.
      destruct d2 as [|c2 d2]; [done|].
      exists (d1 +:+ "." +:+ String c2 d2). rewrite E1, E2.
      by rewrite !append_assoc.
    - clear -Hint Hne. destruct c1 as [[] [] [] [] [] [] [] []]; try done. }
  destruct (is_id_start c).
  { destruct (span is_id_char (String c s)) as [w r] eqn:E. apply span_app in E.
    destruct (lookup_reserved _ _); eauto. }
  destruct (is_newline c).
  { destruct (span is_newline (String c s)) as [w r] eqn:E. apply span_app in E. eauto. }
  pose proof (lex_string_rules_suffix c s line) as Hr.
  assert (Hr' : match lex_string_rules c s line with
                | LexToken _ rest | LexSkip rest _ => exists pre, String c s = pre +:+ rest
                | LexEOF => String c s = EmptyString
                | LexError c0 line' => exists rest, String c s = String c0 rest /\ line' = line
                end).
  { destruct (lex_string_rules c s line); try done. destruct Hr as [-> ->]. eauto. }
  destruct (Ascii.ascii_dec c "{"%char) as [->|Hne].
  - destruct (span not_rbrace s) as [w r] eqn:E. apply span_app in E.
    destruct r as [|c' r']; [done|].
    exists (String "{" (w +:+ String c' EmptyString)).
    rewrite E, append_cons, append_assoc. done.
  - clear -Hr' Hne. destruct c as [[] [] [] [] [] [] [] []]; try done.
Qed.

(** *** Where the tokenizer stops. *)

Lemma span_all p s a r :
  span p s = (a, r) ->
  s = a +:+ r /\ all_chars p a = true
  /\ match r with String c _ => p c = false | EmptyString => True end.
Proof.
  revert a r. induction s as [|c s IH]; intros a r; simpl.
  - by intros [= <- <-].
  - destruct (p c) eqn:Hp.
    + destruct (span p s) as [a' r'] eqn:E. intros [= <- <-].
      destruct (IH _ _ eq_refl) as (-> & Ha & Hr). simpl. by rewrite Hp.
    + intros [= <- <-]. by rewrite Hp.
Qed.

Lemma all_chars_impl (p q : ascii -> bool) s :
  (forall c, p c = true -> q c = true) -> all_chars p s = true -> all_chars q s = true.
Proof.
  intros H. induction s as [|c s IH]; [done|]. simpl.
  intros [Hc Hs]%andb_true_iff. rewrite (H _ Hc). by apply IH.
Qed.

Lemma all_chars_app p a b : all_chars p (a +:+ b) = all_chars p a && all_chars p b.
Proof. induction a as [|c a IH]; [done|]. simpl. by rewrite IH, andb_assoc. Qed.

Lemma newlines_app a b : newlines (a +:+ b) = newlines a + newlines b.
Proof. induction a as [|c a IH]; [done|]. simpl. rewrite IH. lia. Qed.

Lemma digit_plain c : is_digit c = true -> plain c = true.
Proof. destruct c as [[] [] [] [] [] [] [] []]; done. Qed.
Lemma id_char_plain c : is_id_char c = true -> plain c = true.
Proof. destruct c as [[] [] [] [] [] [] [] []]; done. Qed.
Lemma ignore_plain c : t_ignore c = true -> plain c = true.
Proof. destruct c as [[] [] [] [] [] [] [] []]; done. Qed.
Lemma op1_plain c ty : op1 c = Some ty -> plain c = true.
Proof. destruct c as [[] [] [] [] [] [] [] []]; done. Qed.
Lemma op2_plain c d ty : op2 c d = Some ty -> plain c = true /\ plain d = true.
Proof.
  destruct c as [[] [] [] [] [] [] [] []]; try done;
    destruct d as [[] [] [] [] [] [] [] []]; done.
Qed.
Lemma newline_not_lbrace c : is_newline c = true -> is_lbrace c = false.
Proof. destruct c as [[] [] [] [] [] [] [] []]; done. Qed.

(** A run of plain characters, or of line feeds, leaves the text outside
    of a comment. *)
Lemma comment_newline_plain a x :
  all_chars plain a = true ->
  comment_newline false (a +:+ x) = comment_newline false x /\ newlines a = 0.
Proof.
  induction a as [|c a IH]; [done|]. simpl.
  intros [Hc Ha]%andb_true_iff. unfold plain in Hc.
  apply andb_true_iff in Hc as [Hn Hb]. apply negb_true_iff in Hn, Hb.
  rewrite Hb, Hn. by apply IH.
Qed.

Lemma comment_newline_feeds a x :
  all_chars is_newline a = true ->
  comment_newline false (a +:+ x) = comment_newline false x
  /\ newlines a = String.length a.
Proof.
  induction a as [|c a IH]; [done|]. simpl.
  intros [Hc Ha]%andb_true_iff. rewrite (newline_not_lbrace _ Hc), Hc.
  destruct (IH Ha) as [-> ->]. done.
Qed.

Lemma comment_newline_inside w c x :
  all_chars not_rbrace w = true -> not_rbrace c = false ->
  comment_newline true (w +:+ String c x) = false ->
  comment_newline false x = false /\ newlines (w +:+ String c x) = newlines x.
Proof.
  intros Hw Hc. induction w as [|d w IH]; simpl.
  - rewrite Hc. intros [Hn Hx]%orb_false_iff. by rewrite Hn.
  - simpl in Hw. apply andb_true_iff in Hw as [Hd Hw]. rewrite Hd.
    intros [Hn Hx]%orb_false_iff. rewrite Hn. by apply IH.
Qed.

Lemma step_plain s l chunk rest :
  s = chunk +:+ rest -> all_chars plain chunk = true -> step_ok s l rest l.
Proof.
  intros -> Hc. exists chunk. split; [done|]. intros x Hx.
  destruct (comment_newline_plain chunk x Hc) as [E ->]. rewrite E in Hx. split; [done|lia].
Qed.

(** Every step of the tokenizer is of this kind. *)
Lemma lex_string_rules_step c s line :
  match lex_string_rules c s line with
  | LexToken _ rest => step_ok (String c s) line rest line
  | LexSkip rest l1 => step_ok (String c s) line rest l1
  | _ => True
  end.
Proof.
  unfold lex_string_rules. destruct s as [|d s'].
  - destruct (op1 c) eqn:E; [|done]. apply (step_plain _ _ (String c EmptyString)); [done|].
    simpl. by rewrite (op1_plain _ _ E).
  - destruct (op2 c d) eqn:E2.
    + apply (step_plain _ _ (String c (String d EmptyString))); [done|].
      destruct (op2_plain _ _ _ E2) as [H1 H2]. simpl. by rewrite H1, H2.
    + destruct (op1 c) eqn:E; [|done]. apply (step_plain _ _ (String c EmptyString)); [done|].
      simpl. by rewrite (op1_plain _ _ E).
Qed.

Lemma lex_one_step s line :
  match lex_one s line with
  | LexToken _ rest => step_ok s line rest line
  | LexSkip rest l1 => step_ok s line rest l1
  | _ => True
  end.
Proof.
  destruct s as [|c s]; [done|]. unfold lex_one.
  destruct (t_ignore c) eqn:Hi.
  { apply (step_plain _ _ (String c EmptyString)); [done|]. simpl. by rewrite (ignore_plain _ Hi). }
  destruct (is_digit c).
  { destruct (span is_digit (String c s)) as [d1 r1] eqn:E1.
    apply span_all in E1 as (E1 & H1 & _).
    apply (all_chars_impl _ plain _ digit_plain) in H1.
    assert (Hint : step_ok (String c s) line r1 line) by (by eapply step_plain).
    destruct r1 as [|c1 r2]; [done|].
    destruct (Ascii.ascii_dec c1 "."%char) as [->|Hne].
    - destruct (span is_digit r2) as [d2 r3] eqn:E2.
      apply span_all in E2 as (E2 & H2 & _).
      apply (all_chars_impl _ plain _ digit_plain) in H2.
      destruct d2 as [|c2 d2]; [done|].
      apply (step_plain _ _ (d1 +:+ "." +:+ String c2 d2)).
      + rewrite E1, E2. by rewrite !append_assoc.
      + rewrite !all_chars_app, H1, H2. done.
    - clear -Hint Hne. destruct c1 as [[] [] [] [] [] [] [] []]; try done. }
  destruct (is_id_start c).
  { destruct (span is_id_char (String c s)) as [w r] eqn:E.
    apply span_all in E as (E & H1 & _).
    apply (all_chars_impl _ plain _ id_char_plain) in H1.
    destruct (lookup_reserved _ _); by eapply step_plain. }
  destruct (is_newline c).
  { destruct (span is_newline (String c s)) as [w r] eqn:E.
    apply span_all in E as (E & H1 & _).
    exists w. split; [done|]. intros x Hx.
    destruct (comment_newline_feeds w x H1) as [E' ->]. by rewrite E' in Hx. }
  pose proof (lex_string_rules_step c s line) as Hr.
  destruct (Ascii.ascii_dec c "{"%char) as [->|Hne].
  - destruct (span not_rbrace s) as [w r] eqn:E.
    apply span_all in E as (E & H1 & Hstop).
    destruct r as [|c' r']; [done|].
    exists (String "{" (w +:+ String c' EmptyString)). split.
    { rewrite E, append_cons, append_assoc. done. }
    intros x. rewrite append_cons, append_assoc. simpl. intros Hx.
    destruct (comment_newline_inside w c' x H1 Hstop Hx) as [Hx' Hn].
    split; [done|]. rewrite newlines_app. rewrite newlines_app in Hn. simpl in *. lia.
  - clear -Hr Hne. destruct c as [[] [] [] [] [] [] [] []]; try done.
Qed.

(** Where the tokenizer stops at a character without a rule. *)
Lemma tokenize_illegal fuel : forall s line ts c l,
  tokenize fuel s line = (ts, Illegal c l) ->
  exists pre rest,
    s = pre +:+ String c rest /\ reads s line (String c rest) l
    /\ lex_one (String c rest) l = LexError c l
    /\ (comment_newline false pre = false -> l = line + newlines pre).
Proof.
  induction fuel as [|fuel IH]; [done|]. intros s line ts c l. simpl.
  pose proof (lex_one_suffix s line) as Hs.
  pose proof (lex_one_step s line) as Hstep.
  destruct (lex_one s line) as [t rest|rest line'| |c' line'] eqn:E; try done.
  - destruct (tokenize fuel rest line) as [ts' e] eqn:Et. intros [= <- ->].
    destruct Hstep as (chunk & -> & Hchunk).
    destruct (IH _ _ _ _ _ Et) as (pre' & rest' & -> & Hreads & Hl & Hline).
    exists (chunk +:+ pre'), rest'. split_and!; [by rewrite append_assoc| |done|].
    + eapply reads_token; [exact E|done].
    + intros Hc. destruct (Hchunk _ Hc) as [Hc' Heq].
      rewrite newlines_app, (Hline Hc'). lia.
  - intros Et. destruct Hstep as (chunk & -> & Hchunk).
    destruct (IH _ _ _ _ _ Et) as (pre' & rest' & -> & Hreads & Hl & Hline).
    exists (chunk +:+ pre'), rest'. split_and!; [by rewrite append_assoc| |done|].
    + eapply reads_skip; [exact E|done].
    + intros Hc. destruct (Hchunk _ Hc) as [Hc' Heq].
      rewrite newlines_app, (Hline Hc'). lia.
  - intros [= <- <- <-]. destruct Hs as (rest & -> & ->).
    exists EmptyString, rest. split_and!; [done|constructor|done|]. simpl. lia.
Qed.

(** The tokenizer gets to an input once, with one value of its line
    counter. *)
Lemma reads_shorter s l s' l' : reads s l s' l' -> String.length s' <= String.length s.
Proof.
  induction 1 as [s l|s l t rest s' l' E _ IH|s l rest l1 s' l' E _ IH]; [done| |];
    pose proof (lex_one_progress s l) as Hp; rewrite E in Hp; lia.
Qed.

Lemma reads_functional s l s' l1 l2 : reads s l s' l1 -> reads s l s' l2 -> l1 = l2.
Proof.
  assert (Hback : forall s l rest l0 l', reads rest l0 s l' ->
            match lex_one s l with
            | LexToken _ r | LexSkip r _ => r = rest
            | _ => False
            end -> False).
  { intros s0 l0 rest l3 l' H Hr. apply reads_shorter in H.
    pose proof (lex_one_progress s0 l0) as Hp.
    destruct (lex_one s0 l0); try done; subst; lia. }
  induction 1 as [s l|s l t rest s' l' E H IH|s l rest l0 s' l' E H IH]; intros H2.
  - inversion H2 as [|? ? t rest ? ? E H|? ? rest l0 ? ? E H]; subst; try done;
      exfalso; (eapply Hback; [exact H|]); by rewrite E.
  - inversion H2 as [|? ? t0 rest0 ? ? E0 H0|? ? rest0 l0 ? ? E0 H0]; subst.
    + exfalso. eapply Hback; [exact H|]. by rewrite E.
    + rewrite E in E0. injection E0 as _ <-. by apply IH.
    + congruence.
  - inversion H2 as [|? ? t0 rest0 ? ? E0 H0|? ? rest0 l3 ? ? E0 H0]; subst.
    + exfalso. eapply Hback; [exact H|]. by rewrite E.
    + congruence.
    + rewrite E in E0. injection E0 as <- <-. by apply IH.
Qed.

Lemma parse_returned float_str fuel src line body :
  parse float_str fuel src line = Returned body -> grammatical src line.
Proof.
  unfold parse, grammatical. destruct (tokens_of src line) as [ts e]. simpl.
  pose proof (parse_program_ok float_str fuel ts) as Hp.
  destruct (parse_program float_str fuel ts) as [b rest|[t|]|]; try done.
  - destruct rest as [|t rest]; [|done].
    destruct Hp as (pre & -> & HG). rewrite app_nil_r.
    destruct e; try done. eauto.
  - by destruct e.
Qed.

Lemma parse_raised float_str src line e :
  parse float_str (10 * length (tokens_of src line).1 + 9) src line = Raised e ->
  (exists t, offending (tokens_of src line).1 t /\ e = p_error float_str (Some t))
  \/ (e = p_error float_str None
      /\ viable (map type (tokens_of src line).1)
      /\ exists l, (tokens_of src line).2 = AtEOF l)
  \/ (exists c l pre rest,
        e = t_error c l /\ src = pre +:+ String c rest
        /\ reads src line (String c rest) l
        /\ lex_one (String c rest) l = LexError c l
        /\ viable (map type (tokens_of src line).1)
        /\ (line = 1 -> comment_newline false pre = false -> l = S (newlines pre))).
Proof.
  unfold parse. destruct (tokens_of src line) as [ts le] eqn:Et. cbn [fst snd].
  set (fuel := 10 * length ts + 9).
  assert (Hill : forall c l, le = Illegal c l -> viable (map type ts) ->
            exists c0 l0 pre rest,
              t_error c l = t_error c0 l0 /\ src = pre +:+ String c0 rest
              /\ reads src line (String c0 rest) l0
              /\ lex_one (String c0 rest) l0 = LexError c0 l0
              /\ viable (map type ts)
              /\ (line = 1 -> comment_newline false pre = false -> l0 = S (newlines pre))).
  { intros c l -> Hv. unfold tokens_of in Et.
    destruct (tokenize_illegal _ _ _ _ _ _ Et) as (pre & rest & Hsrc & Hreads & Hlex & Hline).
    exists c, l, pre, rest. split_and!; try done. intros -> Hc. rewrite (Hline Hc). lia. }
  pose proof (parse_program_ok float_str fuel ts) as Hp.
  pose proof (parse_error_offending float_str fuel ts) as Herr.
  pose proof (parse_rest_offending float_str fuel ts) as Hrest.
  destruct (parse_program float_str fuel ts) as [b rest|[t|]|]; try done.
  - destruct rest as [|t rest].
    + destruct le as [l|c l|]; simpl; try done. intros [= <-].
      right. right. apply Hill; [done|].
      destruct Hp as (pre & Hts & Hp). rewrite app_nil_r in Hts. subst pre.
      by apply viable_program.
    + intros [= <-]. left. exists t. split; [|done]. by eapply Hrest.
  - intros [= <-]. left. exists t. split; [|done]. apply Herr; [unfold fuel; lia|done].
  - assert (Hv : viable (map type ts)) by (destruct Hp as [q Hq]; by exists q).
    destruct le as [l|c l|]; simpl; try done.
    + intros [= <-]. right. left. eauto.
    + intros [= <-]. right. right. by apply Hill.
Qed.

Lemma parse_defined float_str src line :
  parse float_str (10 * length (tokens_of src line).1 + 9) src line <> NoFuel.
Proof.
  unfold parse. pose proof (tokens_of_defined src line) as Hl.
  destruct (tokens_of src line) as [ts le]. simpl in *.
  pose proof (parse_program_defined float_str (10 * length ts + 9) ts ltac:(lia)) as Hd.
  destruct (parse_program _ _ ts) as [b [|t rest]|[t|]|]; try done; by destruct le.
Qed.



(** The example with the missing right-hand side is not a program of the
    grammar. *)
Lemma bad_assign_not_grammatical line : ~ grammatical bad_assign_example line.
Proof.
  intros (l & _ & Hg). vm_compute in Hg.
  inversion Hg as [l0 Hsl Heq|]; subst.
  assert (l0 = [ID; ASSIGN]) as ->.
  { apply (app_inv_tail [END; DOT]). done. }
  clear Hg Heq.
  inversion Hsl as [s0 Hs|l1 s1 _ _ Heq]; subst.
  - inversion Hs as [e He| | | | | | | | |]; subst.
    by apply expr_nonempty in He.
  - assert (Hin : SEMI ∈ [ID; ASSIGN]) by (rewrite <- Heq; set_solver).
    set_solver.
Qed.


(** ** The graph of a program is well formed *)

Lemma graph_program_nodes :
  (forall s a c y lo hi,
     lo <= a -> a + nodes s <= hi -> lo <= y < hi ->
     Forall (fun n => program_node lo hi n /\ cls n <> StartNode /\ cls n <> EndNode)
       (graph s a c [y]))
  /\ (forall e a c y lo hi,
     lo <= a -> a + nodes_else e <= hi -> lo <= y < hi ->
     Forall (fun n => program_node lo hi n /\ cls n <> StartNode /\ cls n <> EndNode)
       (graph_else e a c [y]))
  /\ (forall l a c y lo hi,
     lo <= a -> a + nodes_list l <= hi -> lo <= y < hi ->
     Forall (fun n => program_node lo hi n /\ cls n <> StartNode /\ cls n <> EndNode)
       (graph_list l a c [y])).
Proof.
  assert (Hf : (forall s, first_off s < nodes s)
               /\ (forall l, first_off_list l < nodes_list l)).
  { destruct first_off_early as (H1 & _ & H3). split; intros x; [apply H1|apply H3]. }
  destruct Hf as [Hf Hfl].
  apply stmt_mutind; intros;
    try match goal with p5 : opt_else |- _ => destruct p5 end;
    cbn [graph graph_else graph_list nodes nodes_else nodes_list] in *;
    repeat match goal with
           | s : stmt |- _ =>
               lazymatch goal with
               | _ : first_off s < nodes s |- _ => fail
               | _ => pose proof (Hf s)
               end
           | l : stmt_list |- _ =>
               lazymatch goal with
               | _ : first_off_list l < nodes_list l |- _ => fail
               | _ => pose proof (Hfl l)
               end
           end;
    repeat match goal with
           | |- Forall _ [] => constructor
           | |- Forall _ (_ :: _) => constructor
           | |- Forall _ (_ ++ _) => apply Forall_app; split
           | H : forall a c y lo hi, _ -> _ -> _ -> Forall _ (graph ?s _ _ _)
             |- Forall _ (graph ?s _ _ _) => apply H; lia
           | H : forall a c y lo hi, _ -> _ -> _ -> Forall _ (graph_list ?s _ _ _)
             |- Forall _ (graph_list ?s _ _ _) => apply H; lia
           | H : forall a c y lo hi, _ -> _ -> _ -> Forall _ (graph_else ?s _ _ _)
             |- Forall _ (graph_else ?s _ _ _) => apply H; simpl; lia
           | |- _ /\ _ => split
           | |- cls _ <> _ => done
           | |- program_node _ _ (op_node _ _ _) =>
               unfold program_node; simpl; eexists; split; [reflexivity|lia]
           | |- program_node _ _ (cond_node _ _ _ _) =>
               unfold program_node; simpl; split; [done|];
               eexists _, _; split_and!; [reflexivity|reflexivity|lia..]
           end.
Qed.

Lemma walk_each_extend (w w' : addr -> FlowCGenerator -> option FlowCGenerator) l :
  (forall a g r, w a g = Some r -> w' a g = Some r) ->
  forall g r, walk_each w l g = Some r -> walk_each w' l g = Some r.
Proof. apply walk_each_mono. Qed.

(** A walk does not see the nodes made after those it reaches. *)
Lemma _walk_extend fuel h h' : forall a g r,
  _walk fuel h a g = Some r -> _walk fuel (h ++ h') a g = Some r.
Proof.
  induction fuel as [|fuel IH]; intros a g r H; [done|].
  simpl in *. destruct (h !! a) as [n|] eqn:Hn; [|done].
  rewrite (lookup_app_l_Some _ _ _ _ Hn).
  destruct (decide (id n ∈ visited g)); [done|].
  destruct (cls n) as [| |code|c t f].
  - eapply walk_each_mono; eauto.
  - eapply walk_each_mono; eauto.
  - eapply walk_each_mono; eauto.
  - destruct t as [t|]; simpl in *.
    + destruct (_walk fuel h t _) as [g1|] eqn:E1; [|done].
      rewrite (IH _ _ _ E1).
      destruct f as [f|].
      * destruct (_walk fuel h f _) as [g2|] eqn:E2; [|done].
        rewrite (IH _ _ _ E2). eapply walk_each_mono; eauto.
      * eapply walk_each_mono; eauto.
    + destruct f as [f|].
      * destruct (_walk fuel h f _) as [g2|] eqn:E2; [|done].
        rewrite (IH _ _ _ E2). eapply walk_each_mono; eauto.
      * eapply walk_each_mono; eauto.
Qed.

Lemma generate_extend fuel h h' start text :
  generate fuel h start = Some text -> generate fuel (h ++ h') start = Some text.
Proof.
  unfold generate, generate_lines.
  destruct (_walk fuel h start header) as [g|] eqn:E; [|done].
  by rewrite (_walk_extend _ _ _ _ _ _ E).
Qed.

(** X1: building a program only appends nodes to the heap of the process
    and advances the counter by their number; the nodes that were there are
    left as they were, so regenerating from an Entry node made earlier gives
    the text it gave before. *)
Theorem builds_only_append body s :
  let r := build_program body s in
  (exists G, heap r.2 = heap s ++ G /\ _counter r.2 = _counter s + length G)
  /\ (forall a n, heap s !! a = Some n -> heap r.2 !! a = Some n)
  /\ (forall fuel start text,
        generate fuel (heap s) start = Some text ->
        generate fuel (heap r.2) start = Some text).
Proof.
  intros r. unfold r. rewrite build_program_graph. cbn [fst snd heap _counter].
  split_and!.
  - eexists. split; [reflexivity|]. rewrite length_program_graph. lia.
  - intros a n Hn. by apply lookup_app_l_Some.
  - intros fuel start text. apply generate_extend.
Qed.

Lemma builds_only_append_witness :
  generate 10
    (heap (build_program (StmtOne (AssignStmt "b" "2"))
             (build_program (StmtOne (AssignStmt "a" "1")) {| _counter := 0; heap := [] |}).2).2)
    1
  = Some (join newline ["#include <stdio.h>"; EmptyString; "int main() {";
                        "    a = 1;"; "    return 0;"; "}"]).
Proof.
  destruct (builds_only_append (StmtOne (AssignStmt "b" "2"))
              (build_program (StmtOne (AssignStmt "a" "1"))
                 {| _counter := 0; heap := [] |}).2) as (_ & _ & H).
  apply H. reflexivity.
Defined.

(** The nodes made for a program refer to nodes made for it, with the
    successors of their class. *)
Lemma program_nodes body s :
  Forall (program_node (length (heap s)) (length (heap (build_program body s).2)))
    (new_nodes (heap s) (heap (build_program body s).2)).
Proof.
  rewrite new_nodes_program, build_program_graph.
  cbn [fst snd heap first last]. rewrite length_app, length_program_graph.
  destruct graph_program_nodes as (_ & _ & Hl).
  destruct first_off_early as (_ & _ & Hf). destruct (Hf body) as [Hf1 _].
  pose proof (Hl body (length (heap s)) (_counter s) (S (length (heap s) + nodes_list body))
                (length (heap s)) (length (heap s) + (nodes_list body + 2))
                ltac:(lia) ltac:(lia) ltac:(lia)) as Hb.
  unfold program_graph. apply Forall_app. split.
  - eapply Forall_impl; [exact Hb|]. by intros n [Hn _].
  - repeat constructor. unfold program_node. simpl. eexists. split; [reflexivity|lia].
Qed.

(** X2: in the graph of a program every Operation node and the Entry node
    have exactly one successor, every Condition node has both branches and no
    successor, the Exit node has none, and every reference is to a node of the
    same graph; the Entry and the Exit node are the two nodes made last, and
    no other node is of their class. *)
Theorem program_graph_well_formed body s :
  let r := build_program body s in
  let lo := length (heap s) in
  let hi := length (heap r.2) in
  Forall (program_node lo hi) (new_nodes (heap s) (heap r.2))
  /\ first r.1 = hi - 2 /\ last r.1 = hi - 1
  /\ (forall a n, heap r.2 !! a = Some n -> lo <= a ->
        (cls n = StartNode <-> a = first r.1) /\ (cls n = EndNode <-> a = last r.1)).
Proof.
  intros r lo hi. split; [apply program_nodes|].
  unfold hi, lo, r. rewrite build_program_graph.
  cbn [fst snd heap first last]. rewrite length_app, length_program_graph.
  destruct graph_program_nodes as (_ & _ & Hl).
  destruct first_off_early as (_ & _ & Hf). destruct (Hf body) as [Hf1 _].
  pose proof (Hl body (length (heap s)) (_counter s) (S (length (heap s) + nodes_list body))
                (length (heap s)) (length (heap s) + (nodes_list body + 2))
                ltac:(lia) ltac:(lia) ltac:(lia)) as Hb.
  split_and!.
  - lia.
  - lia.
  - intros a n Hn Hlo. rewrite lookup_app_r in Hn by done.
    unfold program_graph in Hn. apply lookup_app_Some in Hn as [Hn|[Hle Hn]].
    + rewrite Forall_lookup in Hb. destruct (Hb _ _ Hn) as (_ & H1 & H2).
      apply lookup_lt_Some in Hn. rewrite length_graph_list in Hn.
      split; split; intros; (done || lia).
    + rewrite length_graph_list in *.
      destruct (a - length (heap s) - nodes_list body) as [|[|k]] eqn:Hk; simpl in Hn; [| |done].
      * injection Hn as <-. simpl. split; split; intros; (done || lia).
      * injection Hn as <-. simpl. split; split; intros; (done || lia).
Qed.

Lemma program_graph_well_formed_witness :
  cls {| id := 1; label := "START"; next := [0]; cls := StartNode |} = StartNode <-> 1 = 1.
Proof.
  destruct (program_graph_well_formed (StmtOne EmptyStmt) {| _counter := 0; heap := [] |})
    as (_ & _ & _ & H).
  destruct (H 1 {| id := 1; label := "START"; next := [0]; cls := StartNode |}) as [H1 _].
  - reflexivity.
  - simpl. lia.
  - exact H1.
Defined.

(** ** The walk of any graph *)

Lemma elem_of_ids h a n : h !! a = Some n -> id n ∈ ids h.
Proof.
  intros H. unfold ids. apply elem_of_list_to_set, list_elem_of_fmap.
  exists n. split; [done|]. apply list_elem_of_lookup. eauto.
Qed.

Lemma unvisited_mono h (V V' : gset nat) :
  V ⊆ V' -> size (ids h ∖ V') <= size (ids h ∖ V).
Proof. intros H. apply subseteq_size. set_solver. Qed.

Lemma unvisited_visit h (V : gset nat) i :
  i ∈ ids h -> i ∉ V -> size (ids h ∖ ({[i]} ∪ V)) < size (ids h ∖ V).
Proof. intros H1 H2. apply subset_size. set_solver. Qed.

Lemma refs_next n x : x ∈ next n -> x ∈ refs n.
Proof. unfold refs. set_solver. Qed.
Lemma refs_true n c t f : cls n = ConditionNode c (Some t) f -> t ∈ refs n.
Proof. unfold refs. intros ->. set_solver. Qed.
Lemma refs_false n c t f : cls n = ConditionNode c t (Some f) -> f ∈ refs n.
Proof. unfold refs. intros ->. destruct t; set_solver. Qed.

Lemma walk_each_defined h k l : forall g,
  (forall a g', a < length h -> size (ids h ∖ visited g') <= k ->
     exists r, _walk (S k) h a g' = Some r) ->
  (forall x, x ∈ l -> x < length h) ->
  size (ids h ∖ visited g) <= k ->
  exists r, walk_each (_walk (S k) h) l g = Some r.
Proof.
  induction l as [|x l IH]; intros g Hw Hl Hk; [by eexists|].
  cbn [walk_each]. destruct (Hw x g) as [g1 H1]; [apply Hl; set_solver|done|].
  rewrite H1. apply IH; [done|intros; apply Hl; set_solver|].
  apply _walk_frame in H1 as (_ & Hv & _).
  pose proof (unvisited_mono h _ _ Hv). lia.
Qed.

(** With one unit of fuel more than there are ids left to visit, the walk
    returns. *)
Lemma _walk_defined h : closed h -> forall k a g,
  a < length h -> size (ids h ∖ visited g) <= k ->
  exists r, _walk (S k) h a g = Some r.
Proof.
  intros Hc. induction k as [|k IH]; intros a g Ha Hk.
  - destruct (lookup_lt_is_Some_2 h a Ha) as [n Hn]. cbn [_walk]. unfold addr. rewrite Hn.
    destruct (decide (id n ∈ visited g)); [by eexists|].
    pose proof (unvisited_visit h (visited g) (id n) (elem_of_ids _ _ _ Hn) ltac:(done)). lia.
  - destruct (lookup_lt_is_Some_2 h a Ha) as [n Hn].
    set (fuel := S k) in *. cbn [_walk]. cbv zeta. unfold addr. rewrite Hn.
    destruct (decide (id n ∈ visited g)) as [|Hv]; [by eexists|].
    pose proof (unvisited_visit h (visited g) (id n) (elem_of_ids _ _ _ Hn) Hv) as Hlt.
    assert (Hnext : forall x, x ∈ next n -> x < length h).
    { intros x Hx. eapply Hc; [done|]. by apply refs_next. }
    assert (Heach : forall g', visited (visit (id n) g) ⊆ visited g' ->
              exists r, walk_each (_walk fuel h) (next n) g' = Some r).
    { intros g' Hsub. apply walk_each_defined; [auto|done|].
      pose proof (unvisited_mono h _ _ Hsub). simpl in *. lia. }
    destruct (cls n) as [| |code|c t f] eqn:Hcls.
    + apply Heach. done.
    + apply Heach. done.
    + apply Heach. done.
    + assert (H1 : exists g1, walk_opt (_walk fuel h) t
                (indent_inc (emit ("if (" +:+ c +:+ ") {") (visit (id n) g))) = Some g1
                /\ visited (visit (id n) g) ⊆ visited g1).
      { destruct t as [t|]; simpl.
        - destruct (IH t (indent_inc (emit ("if (" +:+ c +:+ ") {") (visit (id n) g))))
            as [g1 H1].
          + eapply Hc; [done|]. by eapply refs_true.
          + simpl in *. lia.
          + exists g1. split; [done|]. by apply _walk_frame in H1 as (_ & Hv1 & _).
        - eexists. split; [done|]. done. }
      destruct H1 as (g1 & E1 & Hv1). unfold addr in *. rewrite E1. cbv beta iota zeta.
      assert (H2 : exists g2,
                match f with
                | Some fb =>
                    match _walk fuel h fb (indent_inc (emit "} else {" (indent_dec g1))) with
                    | Some g => Some (indent_dec g)
                    | None => None
                    end
                | None => Some (indent_dec g1)
                end = Some g2 /\ visited (visit (id n) g) ⊆ visited g2).
      { destruct f as [fb|].
        - destruct (IH fb (indent_inc (emit "} else {" (indent_dec g1)))) as [g2 H2].
          + eapply Hc; [done|]. by eapply refs_false.
          + pose proof (unvisited_mono h _ _ Hv1). simpl in *. lia.
          + rewrite H2. eexists. split; [done|].
            apply _walk_frame in H2 as (_ & Hv2 & _). simpl in *. set_solver.
        - eexists. split; [done|]. done. }
      destruct H2 as (g2 & E2 & Hv2). unfold addr in *. rewrite E2. cbv beta iota zeta.
      apply Heach. done.
Qed.

Lemma deeper_le i i' line : i <= i' -> deeper i' line -> deeper i line.
Proof.
  intros Hle (j & text & ->). exists (i' - i + j), text. f_equal. lia.
Qed.

Lemma walk_each_indented (w : addr -> FlowCGenerator -> option FlowCGenerator) l :
  (forall a g r, w a g = Some r ->
     indent_level r = indent_level g
     /\ exists out, lines r = lines g ++ out /\ Forall (deeper (indent_level g)) out) ->
  forall g r, walk_each w l g = Some r ->
     indent_level r = indent_level g
     /\ exists out, lines r = lines g ++ out /\ Forall (deeper (indent_level g)) out.
Proof.
  intros Hw. induction l as [|x l IH]; simpl; intros g r H.
  - injection H as <-. split; [done|]. exists []. by rewrite app_nil_r.
  - destruct (w x g) as [g1|] eqn:E; [|done].
    destruct (Hw _ _ _ E) as (Hi & out & Hl & Hd).
    destruct (IH _ _ H) as (Hi' & out' & Hl' & Hd').
    split; [congruence|]. exists (out ++ out'). split.
    + by rewrite Hl', Hl, app_assoc.
    + apply Forall_app. split; [done|]. by rewrite <- Hi.
Qed.

Lemma deeper_emit g line : deeper (indent_level g) (indent g +:+ line).
Proof. exists 0, line. by rewrite Nat.add_0_r. Qed.

Lemma _walk_indented fuel : forall h a g r,
  _walk fuel h a g = Some r ->
  indent_level r = indent_level g
  /\ exists out, lines r = lines g ++ out /\ Forall (deeper (indent_level g)) out.
Proof.
  induction fuel as [|fuel IH]; intros h a g r H; [done|].
  simpl in H. destruct (h !! a) as [n|]; [|done].
  destruct (decide (id n ∈ visited g)).
  { injection H as <-. split; [done|]. exists []. by rewrite app_nil_r. }
  assert (Hs := fun a g r => IH h a g r).
  destruct (cls n) as [| |code|c t f].
  - apply (walk_each_indented _ _ Hs) in H as (Hi & out & Hl & Hd). simpl in *. eauto.
  - apply (walk_each_indented _ _ Hs) in H as (Hi & out & Hl & Hd). simpl in *. eauto.
  - apply (walk_each_indented _ _ Hs) in H as (Hi & out & Hl & Hd). simpl in *.
    split; [done|]. exists ([indent g +:+ code] ++ out). split.
    + by rewrite Hl, app_assoc.
    + apply Forall_app. split; [|done]. apply Forall_singleton. apply deeper_emit.
  - assert (exists g1, walk_opt (_walk fuel h) t
               (indent_inc (emit ("if (" +:+ c +:+ ") {") (visit (id n) g))) = Some g1
             /\ exists g2, match f with
                  | Some fb =>
                      match _walk fuel h fb (indent_inc (emit "} else {" (indent_dec g1))) with
                      | Some g => Some (indent_dec g)
                      | None => None
                      end
                  | None => Some (indent_dec g1)
                  end = Some g2
               /\ walk_each (_walk fuel h) (next n) (emit "}" g2) = Some r)
      as (g1 & H1 & g2 & H2 & H3).
    { destruct (walk_opt _ t _) as [g1|]; [|done]. exists g1. split; [done|].
      destruct f as [fb|].
      - destruct (_walk fuel h fb _) as [g2|]; [|done]. eauto.
      - eauto. }
    clear H.
    assert (indent_level g1 = S (indent_level g)
            /\ exists out, lines g1 = lines g ++ out /\ Forall (deeper (indent_level g)) out)
      as (Hi1 & out1 & Hl1 & Hd1).
    { destruct t as [t|]; simpl in H1.
      - apply Hs in H1 as (Hi & out & Hl & Hd). simpl in *.
        split; [done|]. eexists. split; [by rewrite Hl, <- app_assoc|].
        apply Forall_app. split; [apply Forall_singleton; apply (deeper_emit (visit (id n) g))|].
        eapply Forall_impl; [exact Hd|]. intros l. apply deeper_le. lia.
      - injection H1 as <-. simpl. split; [done|]. eexists. split; [done|].
        apply Forall_singleton. apply (deeper_emit (visit (id n) g)). }
    assert (indent_level g2 = indent_level g
            /\ exists out, lines g2 = lines g1 ++ out /\ Forall (deeper (indent_level g)) out)
      as (Hi2 & out2 & Hl2 & Hd2).
    { destruct f as [fb|].
      - destruct (_walk fuel h fb _) as [g'|] eqn:E; [|done]. injection H2 as <-.
        apply Hs in E as (Hi & out & Hl & Hd). simpl in *.
        split; [lia|]. eexists. split; [by rewrite Hl, <- app_assoc|].
        apply Forall_app. split.
        + apply Forall_singleton. exists 0, "} else {". unfold indent, ind. simpl.
          rewrite Hi1, Nat.add_0_r. simpl. by rewrite Nat.sub_0_r.
        + eapply Forall_impl; [exact Hd|]. intros l. apply deeper_le. lia.
      - injection H2 as <-. simpl. split; [lia|].
        exists []. by rewrite app_nil_r. }
    apply (walk_each_indented _ _ Hs) in H3 as (Hi & out & Hl & Hd). simpl in *.
    split; [congruence|].
    exists (out1 ++ out2 ++ [indent g2 +:+ "}"] ++ out). split.
    + rewrite Hl, Hl2, Hl1, <- !app_assoc. reflexivity.
    + repeat (apply Forall_app; split); try done.
      * apply Forall_singleton. exists 0, "}". unfold indent, ind.
        by rewrite Hi2, Nat.add_0_r.
      * by rewrite <- Hi2.
Qed.

(** X3: on every heap in which all references are valid, regeneration from
    any node returns, with as much fuel as there are ids in the heap and two
    units more, and with every larger amount: cycles and shared nodes are cut
    by the [visited] set. *)
Theorem generate_terminates h start :
  closed h -> start < length h ->
  exists text, forall k, generate (size (ids h) + 2 + k) h start = Some text.
Proof.
  intros Hc Hs.
  destruct (_walk_defined h Hc (size (ids h)) start header Hs) as [r Hr].
  { apply subseteq_size. set_solver. }
  eexists. intros k. unfold generate, generate_lines.
  rewrite (_walk_mono (S (size (ids h))) (size (ids h) + 2 + k) _ _ _ _ ltac:(lia) Hr).
  reflexivity.
Qed.

Lemma generate_terminates_witness :
  exists text, forall k,
    generate (size (ids [ {| id := 0; label := "OP"; next := [1; 0]; cls := OperationNode "a" |};
                          {| id := 1; label := "COND"; next := [1];
                             cls := ConditionNode "c" (Some 0) None |} ]) + 2 + k)
      [ {| id := 0; label := "OP"; next := [1; 0]; cls := OperationNode "a" |};
        {| id := 1; label := "COND"; next := [1]; cls := ConditionNode "c" (Some 0) None |} ]
      0 = Some text.
Proof.
  apply generate_terminates.
  - intros [|[|a]] n Hn x Hx; [| |done]; injection Hn as <-;
      unfold refs in Hx; simpl in *; set_unfold; lia.
  - simpl. lia.
Defined.

(** X4: whatever the graph, the lines [generate] returns are the three
    lines of the head, lines indented by one level or more, the [return]
    statement at one level and the closing brace: the walk comes back at the
    indent level it started at. *)
Theorem generate_scaffold fuel h start out :
  generate_lines fuel h start = Some out ->
  exists inner,
    out = ["#include <stdio.h>"; EmptyString; "int main() {"]
          ++ inner ++ ["    return 0;"; "}"]
    /\ Forall (deeper 1) inner.
Proof.
  unfold generate_lines. destruct (_walk fuel h start header) as [g|] eqn:E; [|done].
  intros [= <-]. apply _walk_indented in E as (Hi & inner & Hl & Hd).
  exists inner. split; [|done]. simpl in Hi. simpl. unfold indent. simpl.
  rewrite Hi, Hl. simpl. rewrite <- !app_assoc. reflexivity.
Qed.

Lemma generate_scaffold_witness :
  exists inner,
    ["#include <stdio.h>"; EmptyString; "int main() {"; "    if (c) {"; "        a";
     "    }"; "    return 0;"; "}"]
    = ["#include <stdio.h>"; EmptyString; "int main() {"]
      ++ inner ++ ["    return 0;"; "}"]
    /\ Forall (deeper 1) inner.
Proof.
  apply (generate_scaffold 5
           [ {| id := 0; label := "OP"; next := [1; 0]; cls := OperationNode "a" |};
             {| id := 1; label := "COND"; next := [1];
                cls := ConditionNode "c" (Some 0) None |} ] 1).
  reflexivity.
Defined.

(** ** The graph helpers of the drawing *)

Lemma reach_trans h a b c : reach h a b -> reach h b c -> reach h a c.
Proof. induction 1; [done|]. intros. eapply reach_step; eauto. Qed.

Lemma reach_edge h a n x : h !! a = Some n -> x ∈ refs n -> reach h a x.
Proof. intros. eapply reach_step; [done..|apply reach_refl]. Qed.

(** A set of nodes that holds the references of its nodes holds every node
    its nodes reach. *)
Lemma reach_closed h (P : addr -> Prop) a b :
  reach h a b ->
  (forall a n x, P a -> h !! a = Some n -> x ∈ refs n -> P x) ->
  P a -> P b.
Proof. induction 1; eauto. Qed.

Lemma degree_bound h a n : h !! a = Some n -> length (refs n) <= degree h.
Proof.
  revert a. induction h as [|m h IH]; intros a Hn; [done|].
  unfold degree. simpl. destruct a as [|a]; simpl in Hn.
  - injection Hn as ->. lia.
  - apply IH in Hn. unfold degree in Hn. lia.
Qed.

Lemma elem_of_ids_at h l i :
  i ∈ ids_at h l <-> exists a n, a ∈ l /\ h !! a = Some n /\ id n = i.
Proof.
  unfold ids_at. rewrite list_elem_of_omap. split.
  - intros (a & Ha & Hi). destruct (h !! a) as [n|] eqn:E; [|done].
    injection Hi as <-. eauto.
  - intros (a & n & Ha & Hn & <-). exists a. by rewrite Hn.
Qed.

(** What the loop of [iter_reachable] yields: nodes that were not visited,
    with ids that differ from each other; in the end every node that was on
    the stack and every reference of a yielded node is visited. *)
Lemma iter_loop_spec fuel h : forall V st l,
  iter_loop fuel h V st = Some l ->
  NoDup (ids_at h l)
  /\ (forall a, a ∈ l -> exists n, h !! a = Some n /\ id n ∉ V)
  /\ (forall a, a ∈ l -> exists x, x ∈ st /\ reach h x a)
  /\ (forall x, x ∈ st ->
        exists n, h !! x = Some n /\ id n ∈ V ∪ list_to_set (ids_at h l))
  /\ (forall a n x, a ∈ l -> h !! a = Some n -> x ∈ refs n ->
        exists m, h !! x = Some m /\ id m ∈ V ∪ list_to_set (ids_at h l)).
Proof.
  induction fuel as [|fuel IH]; intros V st l H; [done|].
  simpl in H. destruct st as [|a st].
  { injection H as <-. split_and!; [constructor|set_solver..]. }
  destruct (h !! a) as [n|] eqn:Hn; [|done].
  destruct (decide (id n ∈ V)) as [Hv|Hv].
  - destruct (IH _ _ _ H) as (H1 & H2 & H3 & H4 & H5).
    split_and!; [done|done| | |done].
    + intros b Hb. destruct (H3 b Hb) as (x & Hx & Hr). exists x. set_solver.
    + intros x Hx. apply elem_of_cons in Hx as [->|Hx]; [|auto].
      exists n. split; [done|]. set_solver.
  - destruct (iter_loop fuel h _ _) as [l'|] eqn:E; [|done]. injection H as <-.
    destruct (IH _ _ _ E) as (H1 & H2 & H3 & H4 & H5).
    assert (Hids : ids_at h (a :: l') = id n :: ids_at h l').
    { unfold ids_at. simpl. by rewrite Hn. }
    rewrite Hids.
    assert (Hnot : id n ∉ ids_at h l').
    { intros Hin. apply elem_of_ids_at in Hin as (b & m & Hb & Hm & Hid).
      destruct (H2 b Hb) as (m' & Hm' & Hnv). set_solver. }
    split_and!.
    + by constructor.
    + intros b Hb. apply elem_of_cons in Hb as [->|Hb]; [eauto|].
      destruct (H2 b Hb) as (m & Hm & Hnv). exists m. split; [done|]. set_solver.
    + intros b Hb. apply elem_of_cons in Hb as [->|Hb].
      * exists a. split; [set_solver|apply reach_refl].
      * destruct (H3 b Hb) as (x & Hx & Hr). unfold push_all in Hx.
        apply elem_of_app in Hx as [Hx|Hx].
        -- exists a. split; [set_solver|]. rewrite elem_of_reverse in Hx.
           exact (reach_step h a n x b Hn Hx Hr).
        -- exists x. set_solver.
    + intros x Hx. apply elem_of_cons in Hx as [->|Hx].
      * exists n. split; [done|]. set_solver.
      * destruct (H4 x) as (m & Hm & Hin).
        { unfold push_all. set_solver. }
        exists m. split; [done|]. set_solver.
    + intros b m x Hb Hm Hx. apply elem_of_cons in Hb as [->|Hb].
      * assert (m = n) as -> by congruence.
        destruct (H4 x) as (m' & Hm' & Hin).
        { unfold push_all. apply elem_of_app. left. by apply elem_of_reverse_2. }
        exists m'. split; [done|]. set_solver.
      * destruct (H5 b m x Hb Hm Hx) as (m' & Hm' & Hin).
        exists m'. split; [done|]. set_solver.
Qed.

(** The loop returns: each turn takes a node off the stack, and a turn that
    pushes nodes visits a new id. *)
Lemma iter_loop_defined h : closed h -> forall fuel V st,
  (forall x, x ∈ st -> x < length h) ->
  size (ids h ∖ V) * S (degree h) + length st < fuel ->
  exists l, iter_loop fuel h V st = Some l.
Proof.
  intros Hc. induction fuel as [|fuel IH]; intros V st Hst Hf; [lia|].
  simpl. destruct st as [|a st]; [by eexists|].
  destruct (lookup_lt_is_Some_2 h a) as [n Hn]; [apply Hst; set_solver|].
  unfold addr in *. rewrite Hn.
  destruct (decide (id n ∈ V)) as [Hv|Hv].
  - apply IH; [intros; apply Hst; set_solver|]. simpl in Hf. lia.
  - destruct (IH ({[id n]} ∪ V) (push_all (refs n) st)) as [l Hl].
    + intros x Hx. unfold push_all in Hx. apply elem_of_app in Hx as [Hx|Hx].
      * rewrite elem_of_reverse in Hx. eapply Hc; eauto.
      * apply Hst. set_solver.
    + pose proof (unvisited_visit h V (id n) (elem_of_ids _ _ _ Hn) Hv) as Hlt.
      pose proof (degree_bound _ _ _ Hn) as Hd.
      unfold push_all. rewrite length_app, length_reverse. simpl in Hf.
      set (u := size (ids h ∖ V)) in *. set (u' := size (ids h ∖ ({[id n]} ∪ V))) in *.
      clearbody u u'.
      pose proof (Nat.mul_le_mono_r (S u') u (S (degree h)) Hlt) as Hm.
      rewrite Nat.mul_succ_l in Hm. unfold addr in *. lia.
    + rewrite Hl. by eexists.
Qed.

Lemma iter_loop_mono fuel : forall fuel' h V st l,
  fuel <= fuel' -> iter_loop fuel h V st = Some l -> iter_loop fuel' h V st = Some l.
Proof.
  induction fuel as [|fuel IH]; intros fuel' h V st l Hle H; [done|].
  destruct fuel' as [|fuel']; [lia|]. simpl in *.
  destruct st as [|a st]; [done|]. destruct (h !! a) as [n|]; [|done].
  destruct (decide _); [apply IH; [lia|done]|].
  destruct (iter_loop fuel h _ _) as [l'|] eqn:E; [|done].
  by rewrite (IH fuel' _ _ _ _ ltac:(lia) E).
Qed.

Lemma NoDup_ids_at h l :
  (forall a, a ∈ l -> is_Some (h !! a)) -> NoDup (ids_at h l) -> NoDup l.
Proof.
  induction l as [|a l IH]; intros Hl Hnd; [constructor|].
  destruct (Hl a) as [n Hn]; [set_solver|].
  assert (Hids : ids_at h (a :: l) = id n :: ids_at h l).
  { unfold ids_at. simpl. by rewrite Hn. }
  rewrite Hids in Hnd. apply NoDup_cons in Hnd as [Hnot Hnd].
  constructor.
  - intros Hin. apply Hnot. apply elem_of_ids_at. eauto.
  - apply IH; [|done]. intros b Hb. apply Hl. set_solver.
Qed.

Lemma id_inj h a b n m :
  NoDup (map id h) -> h !! a = Some n -> h !! b = Some m -> id n = id m -> a = b.
Proof.
  intros Hnd Ha Hb Hid. eapply NoDup_lookup; [exact Hnd| |].
  - rewrite list_lookup_fmap, Ha. reflexivity.
  - rewrite list_lookup_fmap, Hb. simpl. by rewrite Hid.
Qed.

Lemma iter_loop_head fuel h start l :
  iter_loop fuel h ∅ [start] = Some l -> head l = Some start.
Proof.
  destruct fuel as [|fuel]; [done|]. simpl.
  destruct (h !! start) as [n|]; [|done].
  rewrite decide_False by set_solver.
  destruct (iter_loop fuel h _ _); [|done]. by intros [= <-].
Qed.

(** What [iter_reachable] yields. *)
Lemma iter_reachable_spec h start :
  closed h -> NoDup (map id h) -> start < length h ->
  exists l,
    (forall k, iter_reachable (size (ids h) * S (degree h) + 2 + k) h start = Some l)
    /\ NoDup l /\ head l = Some start
    /\ forall a, a ∈ l <-> reach h start a.
Proof.
  intros Hc Hnd Hs.
  destruct (iter_loop_defined h Hc (size (ids h) * S (degree h) + 2) ∅ [start]) as [l Hl].
  { intros x Hx. set_solver. }
  { assert (size (ids h ∖ ∅) <= size (ids h)) by (apply subseteq_size; set_solver).
    simpl. nia. }
  destruct (iter_loop_spec _ _ _ _ _ Hl) as (H1 & H2 & H3 & H4 & H5).
  exists l. split_and!.
  - intros k. unfold iter_reachable. eapply iter_loop_mono; [|exact Hl]. lia.
  - apply (NoDup_ids_at h); [|done]. intros a Ha. destruct (H2 a Ha) as (n & -> & _). eauto.
  - by eapply iter_loop_head.
  - assert (Hin : start ∈ l).
    { destruct (H4 start) as (n & Hn & Hin); [set_solver|].
      apply elem_of_union in Hin as [Hin|Hin]; [set_solver|].
      apply elem_of_list_to_set, elem_of_ids_at in Hin as (b & m & Hb & Hm & Hid).
      by rewrite (id_inj h start b n m Hnd Hn Hm (eq_sym Hid)). }
    intros a. split.
    + intros Ha. destruct (H3 a Ha) as (x & Hx & Hr).
      apply list_elem_of_singleton in Hx. by subst x.
    + intros Hr. apply (reach_closed h (fun a => a ∈ l) _ _ Hr); [|done].
      intros b n x Hb Hn Hx. destruct (H5 b n x Hb Hn Hx) as (m & Hm & Hv).
      apply elem_of_union in Hv as [Hv|Hv]; [set_solver|].
      apply elem_of_list_to_set, elem_of_ids_at in Hv as (b' & m' & Hb' & Hm' & Hid).
      by rewrite (id_inj h x b' m m' Hnd Hm Hm' (eq_sym Hid)).
Qed.

(** X5: on a heap with valid references and ids that differ from each
    other, [iter_reachable] returns, and yields the start node first and then,
    once each, exactly the nodes that the start node reaches. *)
Theorem iter_reachable_yields_reachable h start :
  closed h -> NoDup (map id h) -> start < length h ->
  exists l,
    (forall k, iter_reachable (size (ids h) * S (degree h) + 2 + k) h start = Some l)
    /\ NoDup l /\ head l = Some start
    /\ forall a, a ∈ l <-> reach h start a.
Proof. apply iter_reachable_spec. Qed.

Lemma iter_reachable_yields_reachable_witness :
  exists l,
    (forall k,
       iter_reachable
         (size (ids [ {| id := 0; label := "OP"; next := [1; 0]; cls := OperationNode "a" |};
                      {| id := 1; label := "COND"; next := [1];
                         cls := ConditionNode "c" (Some 0) None |} ])
          * S (degree [ {| id := 0; label := "OP"; next := [1; 0]; cls := OperationNode "a" |};
                        {| id := 1; label := "COND"; next := [1];
                           cls := ConditionNode "c" (Some 0) None |} ]) + 2 + k)
         [ {| id := 0; label := "OP"; next := [1; 0]; cls := OperationNode "a" |};
           {| id := 1; label := "COND"; next := [1];
              cls := ConditionNode "c" (Some 0) None |} ] 0 = Some l)
    /\ NoDup l /\ head l = Some 0
    /\ forall a, a ∈ l
         <-> reach [ {| id := 0; label := "OP"; next := [1; 0]; cls := OperationNode "a" |};
                     {| id := 1; label := "COND"; next := [1];
                        cls := ConditionNode "c" (Some 0) None |} ] 0 a.
Proof.
  apply iter_reachable_yields_reachable.
  - intros [|[|a]] n Hn x Hx; [| |done]; injection Hn as <-;
      unfold refs in Hx; simpl in *; set_unfold; lia.
  - simpl. repeat constructor; set_solver.
  - simpl. lia.
Defined.

(** ** The builder keeps the process well formed *)

Lemma program_node_refs lo hi n x :
  program_node lo hi n -> x ∈ refs n -> lo <= x < hi.
Proof.
  unfold program_node, refs. destruct (cls n) as [| |code|c t f].
  - intros (y & -> & Hy) Hx. assert (x = y) as -> by set_solver. done.
  - intros -> Hx. set_solver.
  - intros (y & -> & Hy) Hx. assert (x = y) as -> by set_solver. done.
  - intros (-> & ta & fa & -> & -> & Ht & Hf) Hx. simpl in Hx.
    assert (x = ta \/ x = fa) as [-> | ->] by set_solver; done.
Qed.

(** A process that has made no node is well formed. *)
Lemma process_ok_empty : process_ok {| _counter := 0; heap := [] |}.
Proof. split_and!; [by intros a n|constructor|constructor]. Qed.

(** Building a program keeps a process well formed. *)
Lemma process_ok_build body s : process_ok s -> process_ok (build_program body s).2.
Proof.
  intros (Hc & Hnd & Hlt).
  pose proof (program_nodes body s) as Hwf.
  pose proof (program_graph_ids body (length (heap s)) (_counter s)) as Hids.
  revert Hwf. rewrite new_nodes_program, build_program_graph. cbn [fst snd heap _counter].
  rewrite length_app, length_program_graph. intros Hwf.
  split_and!.
  - intros a n Hn x Hx. cbn [heap] in *. rewrite length_app, length_program_graph.
    apply lookup_app_Some in Hn as [Hn|[Hle Hn]].
    + pose proof (Hc a n Hn x Hx). lia.
    + rewrite Forall_lookup in Hwf.
      pose proof (program_node_refs _ _ _ _ (Hwf _ _ Hn) Hx). lia.
  - cbn [heap]. rewrite map_app. apply NoDup_app. split_and!.
    + done.
    + intros i Hi Hi'. apply list_elem_of_fmap in Hi as (n & -> & Hn).
      apply list_elem_of_fmap in Hi' as (m & Hid & Hm).
      rewrite Forall_forall in Hlt. apply Hlt in Hn.
      apply list_elem_of_lookup in Hm as [k Hk]. apply Hids in Hk. lia.
    + rewrite (ids_from_seq _ _ Hids). apply NoDup_seq.
  - cbn [heap _counter]. apply Forall_app. split.
    + eapply Forall_impl; [exact Hlt|]. simpl. intros. lia.
    + apply Forall_lookup. intros k n Hk. pose proof (lookup_lt_Some _ _ _ Hk) as Hl.
      rewrite length_program_graph in Hl. apply Hids in Hk. lia.
Qed.

(** X6: the empty process is well formed, and building a program in a well
    formed process leaves a well formed process: every reference is to a node
    of the heap, no two nodes share an id, and every id is below the
    counter. *)
Theorem build_keeps_process_ok body s :
  process_ok {| _counter := 0; heap := [] |}
  /\ (process_ok s -> process_ok (build_program body s).2).
Proof.
  split; [apply process_ok_empty|apply process_ok_build].
Qed.

Lemma build_keeps_process_ok_witness :
  process_ok (build_program (StmtOne EmptyStmt) {| _counter := 0; heap := [] |}).2.
Proof.
  destruct (build_keeps_process_ok (StmtOne EmptyStmt) {| _counter := 0; heap := [] |})
    as [H0 H].
  apply H. exact H0.
Defined.

(** ** The depth of the walk of a program *)

Lemma walk_each_defined_in h (R : addr -> Prop) (I : gset nat) k l : forall g,
  (forall a g', R a -> size (I ∖ visited g') <= k ->
     exists r, _walk (S k) h a g' = Some r) ->
  (forall x, x ∈ l -> R x) ->
  size (I ∖ visited g) <= k ->
  exists r, walk_each (_walk (S k) h) l g = Some r.
Proof.
  induction l as [|x l IH]; intros g Hw Hl Hk; [by eexists|].
  cbn [walk_each]. destruct (Hw x g) as [g1 H1]; [apply Hl; set_solver|done|].
  rewrite H1. apply IH; [done|intros; apply Hl; set_solver|].
  apply _walk_frame in H1 as (_ & Hv & _).
  assert (size (I ∖ visited g1) <= size (I ∖ visited g)); [|lia].
  apply subseteq_size. set_solver.
Qed.

(** The walk stays among the nodes at the addresses [R] when their
    references do; with one unit of fuel more than they have ids left to
    visit, it returns. *)
Lemma _walk_defined_in h (R : addr -> Prop) (I : gset nat) :
  (forall a, R a -> exists n, h !! a = Some n /\ id n ∈ I /\ forall x, x ∈ refs n -> R x) ->
  forall k a g, R a -> size (I ∖ visited g) <= k ->
  exists r, _walk (S k) h a g = Some r.
Proof.
  intros HR.
  assert (Hmono : forall V V' : gset nat, V ⊆ V' -> size (I ∖ V') <= size (I ∖ V)).
  { intros V V' H. apply subseteq_size. set_solver. }
  assert (Hvisit : forall (V : gset nat) i,
            i ∈ I -> i ∉ V -> size (I ∖ ({[i]} ∪ V)) < size (I ∖ V)).
  { intros V i H1 H2. apply subset_size. set_solver. }
  induction k as [|k IH]; intros a g Ha Hk.
  - destruct (HR a Ha) as (n & Hn & Hi & _). cbn [_walk]. unfold addr in *. rewrite Hn.
    destruct (decide (id n ∈ visited g)); [by eexists|].
    pose proof (Hvisit (visited g) (id n) Hi ltac:(done)). lia.
  - destruct (HR a Ha) as (n & Hn & Hi & Hrefs).
    set (fuel := S k) in *. cbn [_walk]. cbv zeta. unfold addr in *. rewrite Hn.
    destruct (decide (id n ∈ visited g)) as [|Hv]; [by eexists|].
    pose proof (Hvisit (visited g) (id n) Hi Hv) as Hlt.
    assert (Hnext : forall x, x ∈ next n -> R x).
    { intros x Hx. apply Hrefs. by apply refs_next. }
    assert (Heach : forall g', visited (visit (id n) g) ⊆ visited g' ->
              exists r, walk_each (_walk fuel h) (next n) g' = Some r).
    { intros g' Hsub. apply (walk_each_defined_in h R I); [auto|done|].
      pose proof (Hmono _ _ Hsub). simpl in *. lia. }
    destruct (cls n) as [| |code|c t f] eqn:Hcls.
    + apply Heach. done.
    + apply Heach. done.
    + apply Heach. done.
    + assert (H1 : exists g1, walk_opt (_walk fuel h) t
                (indent_inc (emit ("if (" +:+ c +:+ ") {") (visit (id n) g))) = Some g1
                /\ visited (visit (id n) g) ⊆ visited g1).
      { destruct t as [t|]; simpl.
        - destruct (IH t (indent_inc (emit ("if (" +:+ c +:+ ") {") (visit (id n) g))))
            as [g1 H1].
          + apply Hrefs. by eapply refs_true.
          + simpl in *. lia.
          + exists g1. split; [done|]. by apply _walk_frame in H1 as (_ & Hv1 & _).
        - eexists. split; [done|]. done. }
      destruct H1 as (g1 & E1 & Hv1). unfold addr in *. rewrite E1. cbv beta iota zeta.
      assert (H2 : exists g2,
                match f with
                | Some fb =>
                    match _walk fuel h fb (indent_inc (emit "} else {" (indent_dec g1))) with
                    | Some g => Some (indent_dec g)
                    | None => None
                    end
                | None => Some (indent_dec g1)
                end = Some g2 /\ visited (visit (id n) g) ⊆ visited g2).
      { destruct f as [fb|].
        - destruct (IH fb (indent_inc (emit "} else {" (indent_dec g1)))) as [g2 H2].
          + apply Hrefs. by eapply refs_false.
          + pose proof (Hmono _ _ Hv1). simpl in *. lia.
          + rewrite H2. eexists. split; [done|].
            apply _walk_frame in H2 as (_ & Hv2 & _). simpl in *. set_solver.
        - eexists. split; [done|]. done. }
      destruct H2 as (g2 & E2 & Hv2). unfold addr in *. rewrite E2. cbv beta iota zeta.
      apply Heach. done.
Qed.

Lemma ids_from_program_graph body a c : ids_from c (program_graph body a c).
Proof.
  unfold program_graph. destruct graph_ids as (_ & _ & Hl).
  apply ids_from_app; [apply Hl|]. rewrite length_graph_list.
  apply ids_from_cons; [done|]. apply ids_from_cons; [simpl; lia|]. apply ids_from_nil.
Qed.

(** From the Entry node of a built program the walk returns at a recursion
    depth of the number of nodes of the program plus one. *)
Lemma generate_lines_program_depth body s k :
  generate_lines (nodes_list body + 3 + k)
    (heap (build_program body s).2) (first (build_program body s).1)
  = Some (program_lines body).
Proof.
  destruct (generate_lines_program body s) as [fuel H].
  pose proof (program_nodes body s) as Hwf.
  rewrite new_nodes_program in Hwf.
  rewrite build_program_graph in *. cbn [fst snd heap first last] in *.
  rewrite length_app, length_program_graph in Hwf.
  set (lo := length (heap s)) in *. set (n := nodes_list body) in *.
  set (h := heap s ++ program_graph body lo (_counter s)) in *.
  destruct (_walk_defined_in h (fun a => lo <= a < lo + (n + 2))
              (set_seq (_counter s) (n + 2))) with (k := n + 2) (a := lo + n) (g := header)
    as [r Hr].
  - intros a Ha.
    destruct (lookup_lt_is_Some_2 (program_graph body lo (_counter s)) (a - lo)) as [x Hx].
    { rewrite length_program_graph. lia. }
    exists x. split_and!.
    + unfold h. rewrite lookup_app_r by lia. done.
    + rewrite (ids_from_program_graph _ _ _ _ _ Hx).
      apply lookup_lt_Some in Hx. rewrite length_program_graph in Hx.
      apply elem_of_set_seq. lia.
    + intros y Hy. rewrite Forall_lookup in Hwf.
      apply (program_node_refs _ _ _ _ (Hwf _ _ Hx) Hy).
  - lia.
  - pose proof (subseteq_size (set_seq (C:=gset nat) (_counter s) (n + 2) ∖ visited header)
                  (set_seq (_counter s) (n + 2)) ltac:(set_solver)) as Hs.
    rewrite size_set_seq in Hs. lia.
  - assert (Hg : exists out, generate_lines (S (n + 2)) h (lo + n) = Some out).
    { unfold generate_lines. rewrite Hr. by eexists. }
    destruct Hg as [out Hg].
    assert (Hle1 : fuel <= fuel + S (n + 2)) by lia.
    assert (Hle2 : S (n + 2) <= fuel + S (n + 2)) by lia.
    pose proof (generate_lines_mono _ _ _ _ _ Hle1 H) as H1.
    pose proof (generate_lines_mono _ _ _ _ _ Hle2 Hg) as H2.
    rewrite H1 in H2. injection H2 as <-.
    apply (generate_lines_mono (S (n + 2))); [lia|done].
Qed.

(** C4 (as amended): building the graph of a program and regenerating from
    it returns at every recursion depth from the number of nodes of the graph
    plus one on, a text that is not empty and whose lines hold the include
    line, the opening of [main], the [return] statement and the closing brace
    of [main] exactly once each. *)
Theorem regeneration_terminates_with_one_scaffold body s :
  let r := build_program body s in
  exists out,
    (forall k,
       generate_lines (nodes_list body + 3 + k) (heap r.2) (first r.1) = Some out
       /\ generate (nodes_list body + 3 + k) (heap r.2) (first r.1) = Some (join newline out))
    /\ join newline out <> EmptyString
    /\ count_occ string_dec out "#include <stdio.h>" = 1
    /\ count_occ string_dec out "int main() {" = 1
    /\ count_occ string_dec out "    return 0;" = 1
    /\ count_occ string_dec out "}" = 1.
Proof.
  intros r. exists (program_lines body).
  destruct body_lines_indented as (_ & _ & Hl). destruct (Hl body 0) as [Hb Ha].
  split_and!.
  - intros k. pose proof (generate_lines_program_depth body s k) as H. fold r in H.
    split; [done|]. unfold generate. by rewrite H.
  - apply join_newline_nonempty.
  - by scaffold_once.
  - by scaffold_once.
  - by scaffold_once.
  - by scaffold_once.
Qed.

(** C4, the claim as stated fails: the text of a thousand assignments is a
    program of the grammar, and the walk of its graph nests deeper than the
    interpreter allows, so that no text is produced. *)
Lemma deep_program_counterexample :
  parse_pascal_to_flow (fun l => l) (50 * 1000) long_example 1
    {| _counter := 0; heap := [] |}
  = Returned (build_program long_program {| _counter := 0; heap := [] |})
  /\ generate recursion_limit
       (heap (build_program long_program {| _counter := 0; heap := [] |}).2)
       (first (build_program long_program {| _counter := 0; heap := [] |}).1)
     = None
  /\ on_translate (fun l => l) (50 * 1000) recursion_limit long_example 1
       {| _counter := 0; heap := [] |}
     = OutOfFuel.
Proof. split_and!; vm_compute; reflexivity. Qed.

(** ** Every node of a program is reached from its Entry node *)

(** The node made last for a fragment is an Operation node, and its
    successors are those given to the fragment. *)
Lemma graph_last :
  (forall s a c nx, exists G i code, graph s a c nx = G ++ [op_node i code nx])
  /\ (forall e : opt_else, True)
  /\ (forall l a c nx, exists G i code, graph_list l a c nx = G ++ [op_node i code nx]).
Proof.
  apply stmt_mutind; intros; try done; cbn [graph graph_list].
  - by exists [], c, (p1 +:+ " = " +:+ p3 +:+ ";").
  - match goal with
    | |- exists G i code, ?X ++ ?Y ++ [?n; op_node ?j ?t _] = _ =>
        exists (X ++ Y ++ [n]), j, t
    end.
    by rewrite <- !app_assoc.
  - match goal with
    | |- exists G i code, ?X ++ [?n; op_node ?j ?t _] = _ => exists (X ++ [n]), j, t
    end.
    by rewrite <- !app_assoc.
  - match goal with
    | |- exists G i code, ?X ++ [?n1; ?n2; ?n3; op_node ?j ?t _] = _ =>
        exists (X ++ [n1; n2; n3]), j, t
    end.
    by rewrite <- !app_assoc.
  - match goal with
    | |- exists G i code, ?X ++ [?n; op_node ?j ?t _] = _ => exists (X ++ [n]), j, t
    end.
    by rewrite <- !app_assoc.
  - by exists [], c, (io_code p1 p3).
  - apply H.
  - by exists [], c, "/* empty */".
  - apply H.
  - destruct (H0 (a + nodes_list p1) (c + nodes_list p1) nx) as (G & i & code & ->).
    eexists (_ ++ G), i, code. by rewrite app_assoc.
Qed.

Lemma exit_node s a c nx h :
  holds h a (graph s a c nx) ->
  exists n, h !! (a + nodes s - 1) = Some n /\ next n = nx.
Proof.
  intros Hh. destruct graph_last as (Hl & _ & _).
  destruct (Hl s a c nx) as (G & i & code & E).
  pose proof (length_graph s a c nx) as Hlen. rewrite E, length_app in Hlen. simpl in Hlen.
  rewrite E in Hh. apply holds_app in Hh as [_ Hh]. apply holds_cons in Hh as [Hn _].
  exists (op_node i code nx). split; [|reflexivity].
  replace (a + nodes s - 1) with (a + length G) by lia. exact Hn.
Qed.

Lemma exit_node_list l a c nx h :
  holds h a (graph_list l a c nx) ->
  exists n, h !! (a + nodes_list l - 1) = Some n /\ next n = nx.
Proof.
  intros Hh. destruct graph_last as (_ & _ & Hl).
  destruct (Hl l a c nx) as (G & i & code & E).
  pose proof (length_graph_list l a c nx) as Hlen. rewrite E, length_app in Hlen.
  simpl in Hlen.
  rewrite E in Hh. apply holds_app in Hh as [_ Hh]. apply holds_cons in Hh as [Hn _].
  exists (op_node i code nx). split; [|reflexivity].
  replace (a + nodes_list l - 1) with (a + length G) by lia. exact Hn.
Qed.

Lemma reach_next h a n x : h !! a = Some n -> next n = [x] -> reach h a x.
Proof.
  intros Hn Hx. eapply reach_edge; [done|]. apply refs_next. rewrite Hx. set_solver.
Qed.

Lemma reach_cond_true h a i c t f :
  h !! a = Some (cond_node i c t f) -> reach h a t.
Proof. intros Hn. eapply reach_edge; [done|]. unfold refs. simpl. set_solver. Qed.

Lemma reach_cond_false h a i c t f :
  h !! a = Some (cond_node i c t f) -> reach h a f.
Proof. intros Hn. eapply reach_edge; [done|]. unfold refs. simpl. set_solver. Qed.

Lemma reach_op h a i code x :
  h !! a = Some (op_node i code [x]) -> reach h a x.
Proof. intros Hn. by eapply reach_next. Qed.

Lemma reach_eq h a a' b b' : reach h a b -> a = a' -> b = b' -> reach h a' b'.
Proof. by intros ? <- <-. Qed.

(** Take a heap that holds a graph apart into the nodes made for it. *)
Ltac holds_parts H :=
  repeat first
    [ let Hb := fresh "Hb" in apply holds_app in H as [Hb H]
    | let Hn := fresh "Hn" in apply holds_cons in H as [Hn H] ];
  autorewrite with len in *.

(** The entry node of a fragment reaches every node of the fragment. *)
Lemma reach_from_first :
  (forall s a c nx h, holds h a (graph s a c nx) ->
     forall k, k < nodes s -> reach h (a + first_off s) (a + k))
  /\ (forall e : opt_else, match e with
        | ElseStmt s => forall a c nx h, holds h a (graph s a c nx) ->
            forall k, k < nodes s -> reach h (a + first_off s) (a + k)
        | NoElse => True
        end)
  /\ (forall l a c nx h, holds h a (graph_list l a c nx) ->
     forall k, k < nodes_list l -> reach h (a + first_off_list l) (a + k)).
Proof.
  apply stmt_mutind.
  - (* assignment *)
    intros p1 p3 a c nx h Hh k Hk. simpl in *.
    eapply reach_eq; [apply reach_refl|reflexivity|lia].
  - (* if *)
    intros p2 p4 IH4 p5 IH5 a c nx h Hh k Hk.
    destruct p5 as [e|]; cbn [graph graph_else nodes nodes_else first_off] in *.
    + pose proof Hh as Hh'. holds_parts Hh.
      destruct (exit_node _ _ _ _ _ Hb) as (n4 & Hn4 & Hx4).
      assert (Hc : reach h (a + (nodes p4 + nodes e)) (a + first_off p4)).
      { eapply reach_eq; [eapply reach_cond_true; exact Hn|lia|lia]. }
      destruct (decide (k < nodes p4)) as [Hk4|Hk4].
      { eapply reach_trans; [exact Hc|]. by eapply IH4. }
      destruct (decide (k < nodes p4 + nodes e)) as [Hk5|Hk5].
      { eapply reach_trans.
        - eapply reach_eq; [eapply reach_cond_false; exact Hn|lia|reflexivity].
        - eapply reach_eq; [eapply (IH5 _ _ _ _ Hb0 (k - nodes p4)); lia|lia|lia]. }
      destruct (decide (k = nodes p4 + nodes e)) as [->|Hkc]; [apply reach_refl|].
      eapply reach_trans; [exact Hc|]. eapply reach_trans.
      * eapply (IH4 _ _ _ _ Hb (nodes p4 - 1)). pose proof (nodes_stmt_pos p4). lia.
      * eapply reach_eq; [eapply reach_next; [exact Hn4|exact Hx4]| |];
          pose proof (nodes_stmt_pos p4); lia.
    + holds_parts Hh.
      assert (Hc : reach h (a + (nodes p4 + 0)) (a + first_off p4)).
      { eapply reach_eq; [eapply reach_cond_true; exact Hn|lia|lia]. }
      destruct (decide (k < nodes p4)) as [Hk4|Hk4].
      { eapply reach_trans; [exact Hc|]. by eapply IH4. }
      destruct (decide (k = nodes p4 + 0)) as [->|Hkc]; [apply reach_refl|].
      eapply reach_eq; [eapply reach_cond_false; exact Hn|lia|lia].
  - (* while *)
    intros p2 p4 IH4 a c nx h Hh k Hk. cbn [graph nodes first_off] in *.
    holds_parts Hh.
    destruct (decide (k < nodes p4)) as [Hk4|Hk4].
    { eapply reach_trans.
      - eapply reach_eq; [eapply reach_cond_true; exact Hn|lia|reflexivity].
      - by eapply IH4. }
    destruct (decide (k = nodes p4)) as [->|Hkc]; [apply reach_refl|].
    eapply reach_eq; [eapply reach_cond_false; exact Hn|lia|lia].
  - (* for *)
    intros p2 p4 p5 p6 p8 IH8 a c nx h Hh k Hk. cbn [graph nodes first_off] in *.
    holds_parts Hh.
    destruct (exit_node _ _ _ _ _ Hb) as (n8 & Hn8 & Hx8).
    assert (Hi : reach h (a + nodes p8) (S (a + nodes p8))).
    { eapply reach_op. exact Hn. }
    assert (Hc : reach h (a + nodes p8) (a + first_off p8)).
    { eapply reach_trans; [exact Hi|]. eapply reach_cond_true. exact Hn0. }
    destruct (decide (k < nodes p8)) as [Hk8|Hk8].
    { eapply reach_trans; [exact Hc|]. by eapply IH8. }
    destruct (decide (k = nodes p8)) as [->|Hk0]; [apply reach_refl|].
    destruct (decide (k = nodes p8 + 1)) as [->|Hk1].
    { eapply reach_eq; [exact Hi|lia|lia]. }
    destruct (decide (k = nodes p8 + 2)) as [->|Hk2].
    { eapply reach_trans; [exact Hc|]. eapply reach_trans.
      - eapply (IH8 _ _ _ _ Hb (nodes p8 - 1)). pose proof (nodes_stmt_pos p8). lia.
      - eapply reach_eq; [eapply reach_next; [exact Hn8|exact Hx8]| |];
          pose proof (nodes_stmt_pos p8); lia. }
    eapply reach_trans; [exact Hi|].
    eapply reach_eq; [eapply reach_cond_false; exact Hn0|lia|lia].
  - (* repeat *)
    intros p2 IH2 p4 a c nx h Hh k Hk. cbn [graph nodes first_off] in *.
    holds_parts Hh.
    destruct (exit_node_list _ _ _ _ _ Hb) as (n2 & Hn2 & Hx2).
    assert (Hc : reach h (a + first_off_list p2) (a + nodes_list p2)).
    { eapply reach_trans.
      - eapply (IH2 _ _ _ _ Hb (nodes_list p2 - 1)). pose proof (nodes_list_pos p2). lia.
      - eapply reach_eq; [eapply reach_next; [exact Hn2|exact Hx2]| |];
          pose proof (nodes_list_pos p2); lia. }
    destruct (decide (k < nodes_list p2)) as [Hk2|Hk2]; [by eapply IH2|].
    destruct (decide (k = nodes_list p2)) as [->|Hk0]; [exact Hc|].
    eapply reach_trans; [exact Hc|].
    eapply reach_eq; [eapply reach_cond_true; exact Hn|lia|lia].
  - (* input and output *)
    intros p1 p3 a c nx h Hh k Hk. simpl in *.
    eapply reach_eq; [apply reach_refl|reflexivity|lia].
  - (* block *)
    intros p2 IH2 a c nx h Hh k Hk. by eapply IH2.
  - (* empty *)
    intros a c nx h Hh k Hk. simpl in *.
    eapply reach_eq; [apply reach_refl|reflexivity|lia].
  - intros p2 IH. exact IH.
  - exact I.
  - intros p1 IH1 a c nx h Hh k Hk. by eapply IH1.
  - (* sequence *)
    intros p1 IH1 p3 IH3 a c nx h Hh k Hk.
    cbn [graph_list nodes_list first_off_list] in *.
    apply holds_app in Hh as [Hb1 Hb3]. rewrite length_graph_list in Hb3.
    destruct (exit_node_list _ _ _ _ _ Hb1) as (n1 & Hn1 & Hx1).
    destruct (decide (k < nodes_list p1)) as [Hk1|Hk1]; [by eapply IH1|].
    eapply reach_trans.
    + eapply (IH1 _ _ _ _ Hb1 (nodes_list p1 - 1)). pose proof (nodes_list_pos p1). lia.
    + eapply reach_trans.
      * eapply reach_eq; [eapply reach_next; [exact Hn1|exact Hx1]| |reflexivity].
        pose proof (nodes_list_pos p1). lia.
      * eapply reach_eq; [eapply (IH3 _ _ _ _ Hb3 (k - nodes_list p1)); lia|lia|lia].
Qed.

Lemma reach_program body a c h k :
  holds h a (program_graph body a c) -> k < nodes_list body + 2 ->
  reach h (a + nodes_list body) (a + k).
Proof.
  intros Hh Hk. unfold program_graph in Hh. holds_parts Hh.
  destruct reach_from_first as (_ & _ & Hr).
  destruct (exit_node_list _ _ _ _ _ Hb) as (n & Hn' & Hx).
  assert (Hf : reach h (a + nodes_list body) (a + first_off_list body)).
  { eapply reach_next; [exact Hn|reflexivity]. }
  destruct (decide (k < nodes_list body)) as [Hk1|Hk1].
  { eapply reach_trans; [exact Hf|]. by eapply Hr. }
  destruct (decide (k = nodes_list body)) as [->|Hk2]; [apply reach_refl|].
  eapply reach_trans; [exact Hf|]. eapply reach_trans.
  - eapply (Hr _ _ _ _ _ Hb (nodes_list body - 1)). pose proof (nodes_list_pos body). lia.
  - eapply reach_eq; [eapply reach_next; [exact Hn'|exact Hx]| |];
      pose proof (nodes_list_pos body); lia.
Qed.

(** X7: in a well formed process, [iter_reachable] from the Entry node of
    a program just built yields the Entry node first and then every other node
    made for the program, each once, and no node made before. *)
Theorem iter_reachable_program body s :
  process_ok s ->
  let r := build_program body s in
  exists fuel l,
    (forall k, iter_reachable (fuel + k) (heap r.2) (first r.1) = Some l)
    /\ head l = Some (first r.1)
    /\ l ≡ₚ seq (length (heap s)) (length (heap r.2) - length (heap s)).
Proof.
  intros Hok r.
  pose proof (process_ok_build body s Hok) as Hok'.
  fold r in Hok'. destruct Hok' as (Hc & Hnd & _).
  pose proof (program_nodes body s) as Hwf. fold r in Hwf.
  assert (Hr : r = ({| first := length (heap s) + nodes_list body;
                       last := length (heap s) + nodes_list body + 1 |},
                    {| _counter := _counter s + nodes_list body + 2;
                       heap := heap s ++ program_graph body (length (heap s)) (_counter s) |}))
    by apply build_program_graph.
  assert (Hlen : length (heap r.2) = length (heap s) + (nodes_list body + 2)).
  { rewrite Hr. cbn [snd heap]. by rewrite length_app, length_program_graph. }
  assert (Hfirst : first r.1 = length (heap s) + nodes_list body) by (by rewrite Hr).
  assert (Hnew : new_nodes (heap s) (heap r.2)
                 = program_graph body (length (heap s)) (_counter s))
    by apply new_nodes_program.
  assert (Hheap : heap r.2 = heap s ++ program_graph body (length (heap s)) (_counter s))
    by (by rewrite Hr).
  destruct (iter_reachable_spec (heap r.2) (first r.1) Hc Hnd)
    as (l & Hl & Hndl & Hhd & Hin); [lia|].
  eexists _, l. split_and!; [exact Hl|exact Hhd|].
  apply NoDup_Permutation; [done|apply NoDup_seq|].
  intros a. rewrite Hin, elem_of_seq. split.
  - intros Hreach.
    apply (reach_closed _ (fun a => length (heap s) <= a
                                    < length (heap s) + (length (heap r.2) - length (heap s)))
             _ _ Hreach); [|lia].
    intros b n x Hb Hn Hx. rewrite Hheap in Hn.
    rewrite lookup_app_r in Hn by lia. rewrite Hnew, Forall_lookup in Hwf.
    pose proof (program_node_refs _ _ _ _ (Hwf _ _ Hn) Hx). lia.
  - intros Ha. rewrite Hfirst.
    eapply reach_eq;
      [apply (reach_program body (length (heap s)) (_counter s) (heap r.2)
                (a - length (heap s)))|reflexivity|lia].
    + rewrite Hheap. apply holds_self.
    + lia.
Qed.

Lemma iter_reachable_program_witness :
  exists fuel l,
    (forall k, iter_reachable (fuel + k)
                 (heap (build_program (StmtOne (WhileStmt "c" EmptyStmt))
                          {| _counter := 0; heap := [] |}).2)
                 (first (build_program (StmtOne (WhileStmt "c" EmptyStmt))
                           {| _counter := 0; heap := [] |}).1) = Some l)
    /\ head l = Some (first (build_program (StmtOne (WhileStmt "c" EmptyStmt))
                               {| _counter := 0; heap := [] |}).1)
    /\ l ≡ₚ seq (length (heap {| _counter := 0; heap := [] |}))
             (length (heap (build_program (StmtOne (WhileStmt "c" EmptyStmt))
                              {| _counter := 0; heap := [] |}).2)
              - length (heap {| _counter := 0; heap := [] |})).
Proof.
  apply (iter_reachable_program (StmtOne (WhileStmt "c" EmptyStmt))
           {| _counter := 0; heap := [] |}).
  apply process_ok_empty.
Defined.

(** ** Every node of a program reaches its Exit node *)

(** Every node of a fragment reaches the node made last for it. *)
Lemma reach_to_last :
  (forall s a c nx h, holds h a (graph s a c nx) ->
     forall k, k < nodes s -> reach h (a + k) (a + nodes s - 1))
  /\ (forall e : opt_else, match e with
        | ElseStmt s => forall a c nx h, holds h a (graph s a c nx) ->
            forall k, k < nodes s -> reach h (a + k) (a + nodes s - 1)
        | NoElse => True
        end)
  /\ (forall l a c nx h, holds h a (graph_list l a c nx) ->
     forall k, k < nodes_list l -> reach h (a + k) (a + nodes_list l - 1)).
Proof.
  assert (Hf : (forall s, first_off s < nodes s)
               /\ (forall l, first_off_list l < nodes_list l)).
  { destruct first_off_early as (H1 & _ & H3). split; intros x; [apply H1|apply H3]. }
  destruct Hf as [Hf Hfl].
  apply stmt_mutind.
  - (* assignment *)
    intros p1 p3 a c nx h Hh k Hk. simpl in *.
    eapply reach_eq; [apply reach_refl|reflexivity|lia].
  - (* if *)
    intros p2 p4 IH4 p5 IH5 a c nx h Hh k Hk.
    pose proof (Hf p4) as Hf4. pose proof (nodes_stmt_pos p4) as Hp4.
    destruct p5 as [e|]; cbn [graph graph_else nodes nodes_else first_off] in *.
    + pose proof (nodes_stmt_pos e) as Hpe.
      holds_parts Hh.
      destruct (exit_node _ _ _ _ _ Hb) as (n4 & Hn4 & Hx4).
      destruct (exit_node _ _ _ _ _ Hb0) as (n5 & Hn5 & Hx5).
      assert (H4 : forall j, j < nodes p4 ->
                reach h (a + j) (a + (nodes p4 + nodes e + 2) - 1)).
      { intros j Hj. eapply reach_trans; [by eapply IH4|].
        eapply reach_eq; [eapply reach_next; [exact Hn4|exact Hx4]|lia|lia]. }
      destruct (decide (k < nodes p4)) as [Hk4|Hk4]; [by apply H4|].
      destruct (decide (k < nodes p4 + nodes e)) as [Hk5|Hk5].
      { eapply reach_trans.
        - eapply reach_eq; [eapply (IH5 _ _ _ _ Hb0 (k - nodes p4)); lia|lia|reflexivity].
        - eapply reach_eq; [eapply reach_next; [exact Hn5|exact Hx5]|lia|lia]. }
      destruct (decide (k = nodes p4 + nodes e)) as [->|Hkc].
      { eapply reach_trans; [|apply (H4 (first_off p4) Hf4)].
        eapply reach_eq; [eapply reach_cond_true; exact Hn|lia|lia]. }
      eapply reach_eq; [apply reach_refl|reflexivity|lia].
    + holds_parts Hh.
      destruct (exit_node _ _ _ _ _ Hb) as (n4 & Hn4 & Hx4).
      destruct (decide (k < nodes p4)) as [Hk4|Hk4].
      { eapply reach_trans; [by eapply IH4|].
        eapply reach_eq; [eapply reach_next; [exact Hn4|exact Hx4]|lia|lia]. }
      destruct (decide (k = nodes p4 + 0)) as [->|Hkc].
      { eapply reach_eq; [eapply reach_cond_false; exact Hn|lia|lia]. }
      eapply reach_eq; [apply reach_refl|reflexivity|lia].
  - (* while *)
    intros p2 p4 IH4 a c nx h Hh k Hk. cbn [graph nodes first_off] in *.
    pose proof (nodes_stmt_pos p4) as Hp4.
    holds_parts Hh.
    destruct (exit_node _ _ _ _ _ Hb) as (n4 & Hn4 & Hx4).
    assert (Hc : reach h (a + nodes p4) (a + (nodes p4 + 2) - 1)).
    { eapply reach_eq; [eapply reach_cond_false; exact Hn|lia|lia]. }
    destruct (decide (k < nodes p4)) as [Hk4|Hk4].
    { eapply reach_trans; [by eapply IH4|]. eapply reach_trans; [|exact Hc].
      eapply reach_eq; [eapply reach_next; [exact Hn4|exact Hx4]|lia|lia]. }
    destruct (decide (k = nodes p4)) as [->|Hkc]; [exact Hc|].
    eapply reach_eq; [apply reach_refl|reflexivity|lia].
  - (* for *)
    intros p2 p4 p5 p6 p8 IH8 a c nx h Hh k Hk. cbn [graph nodes first_off] in *.
    pose proof (nodes_stmt_pos p8) as Hp8.
    holds_parts Hh.
    destruct (exit_node _ _ _ _ _ Hb) as (n8 & Hn8 & Hx8).
    assert (Hc : reach h (S (a + nodes p8)) (a + (nodes p8 + 4) - 1)).
    { eapply reach_eq; [eapply reach_cond_false; exact Hn0|lia|lia]. }
    assert (Hs : reach h (S (S (a + nodes p8))) (a + (nodes p8 + 4) - 1)).
    { eapply reach_trans; [|exact Hc]. eapply reach_op. exact Hn1. }
    destruct (decide (k < nodes p8)) as [Hk8|Hk8].
    { eapply reach_trans; [by eapply IH8|]. eapply reach_trans; [|exact Hs].
      eapply reach_eq; [eapply reach_next; [exact Hn8|exact Hx8]|lia|lia]. }
    destruct (decide (k = nodes p8)) as [->|Hk0].
    { eapply reach_trans; [|exact Hc]. eapply reach_op. exact Hn. }
    destruct (decide (k = nodes p8 + 1)) as [->|Hk1].
    { eapply reach_eq; [exact Hc|lia|lia]. }
    destruct (decide (k = nodes p8 + 2)) as [->|Hk2].
    { eapply reach_eq; [exact Hs|lia|lia]. }
    eapply reach_eq; [apply reach_refl|reflexivity|lia].
  - (* repeat *)
    intros p2 IH2 p4 a c nx h Hh k Hk. cbn [graph nodes first_off] in *.
    pose proof (nodes_list_pos p2) as Hp2.
    holds_parts Hh.
    destruct (exit_node_list _ _ _ _ _ Hb) as (n2 & Hn2 & Hx2).
    assert (Hc : reach h (a + nodes_list p2) (a + (nodes_list p2 + 2) - 1)).
    { eapply reach_eq; [eapply reach_cond_true; exact Hn|lia|lia]. }
    destruct (decide (k < nodes_list p2)) as [Hk2|Hk2].
    { eapply reach_trans; [by eapply IH2|]. eapply reach_trans; [|exact Hc].
      eapply reach_eq; [eapply reach_next; [exact Hn2|exact Hx2]|lia|lia]. }
    destruct (decide (k = nodes_list p2)) as [->|Hk0]; [exact Hc|].
    eapply reach_eq; [apply reach_refl|reflexivity|lia].
  - (* input and output *)
    intros p1 p3 a c nx h Hh k Hk. simpl in *.
    eapply reach_eq; [apply reach_refl|reflexivity|lia].
  - (* block *)
    intros p2 IH2 a c nx h Hh k Hk. by eapply IH2.
  - (* empty *)
    intros a c nx h Hh k Hk. simpl in *.
    eapply reach_eq; [apply reach_refl|reflexivity|lia].
  - intros p2 IH. exact IH.
  - exact I.
  - intros p1 IH1 a c nx h Hh k Hk. by eapply IH1.
  - (* sequence *)
    intros p1 IH1 p3 IH3 a c nx h Hh k Hk.
    cbn [graph_list nodes_list first_off_list] in *.
    pose proof (nodes_list_pos p1) as Hp1. pose proof (Hf p3) as Hf3.
    apply holds_app in Hh as [Hb1 Hb3]. rewrite length_graph_list in Hb3.
    destruct (exit_node_list _ _ _ _ _ Hb1) as (n1 & Hn1 & Hx1).
    assert (H3 : forall j, j < nodes p3 ->
              reach h (a + nodes_list p1 + j) (a + (nodes_list p1 + nodes p3) - 1)).
    { intros j Hj. eapply reach_eq; [eapply (IH3 _ _ _ _ Hb3 j Hj)|lia|lia]. }
    destruct (decide (k < nodes_list p1)) as [Hk1|Hk1].
    + eapply reach_trans; [by eapply IH1|]. eapply reach_trans; [|apply (H3 _ Hf3)].
      eapply reach_eq; [eapply reach_next; [exact Hn1|exact Hx1]|lia|lia].
    + eapply reach_eq; [apply (H3 (k - nodes_list p1))|lia|lia]. lia.
Qed.

(** X8: in the graph of a program the Entry node reaches every node and
    every node reaches the Exit node. *)
Theorem program_graph_connected body s :
  let r := build_program body s in
  forall a, length (heap s) <= a < length (heap r.2) ->
    reach (heap r.2) (first r.1) a /\ reach (heap r.2) a (last r.1).
Proof.
  intros r a. unfold r. rewrite build_program_graph. cbn [fst snd heap first last].
  rewrite length_app, length_program_graph. intros Ha.
  pose proof (holds_self (heap s) (program_graph body (length (heap s)) (_counter s))) as Hh.
  split.
  - eapply reach_eq; [apply (reach_program body _ _ _ (a - length (heap s)) Hh)| |]; lia.
  - unfold program_graph in Hh. holds_parts Hh.
    destruct reach_to_last as (_ & _ & Hr).
    destruct (exit_node_list _ _ _ _ _ Hb) as (n & Hn' & Hx).
    pose proof (nodes_list_pos body) as Hp.
    assert (Hl : reach (heap s ++ program_graph body (length (heap s)) (_counter s))
                   (length (heap s) + nodes_list body - 1)
                   (length (heap s) + nodes_list body + 1)).
    { eapply reach_eq; [eapply reach_next; [exact Hn'|exact Hx]|lia|lia]. }
    destruct (decide (a < length (heap s) + nodes_list body)) as [H1|H1].
    { eapply reach_trans; [|exact Hl].
      eapply reach_eq; [apply (Hr _ _ _ _ _ Hb (a - length (heap s)))| |]; lia. }
    destruct (decide (a = length (heap s) + nodes_list body)) as [->|H2].
    { eapply reach_trans; [eapply reach_next; [exact Hn|reflexivity]|].
      destruct first_off_early as (_ & _ & Hf). destruct (Hf body) as [Hf1 _].
      eapply reach_trans; [|exact Hl].
      eapply reach_eq; [apply (Hr _ _ _ _ _ Hb (first_off_list body) Hf1)| |]; lia. }
    eapply reach_eq; [apply reach_refl|reflexivity|lia].
Qed.

Lemma program_graph_connected_witness :
  reach (heap (build_program (StmtOne EmptyStmt) {| _counter := 0; heap := [] |}).2) 1 0
  /\ reach (heap (build_program (StmtOne EmptyStmt) {| _counter := 0; heap := [] |}).2) 0 2.
Proof.
  apply (program_graph_connected (StmtOne EmptyStmt) {| _counter := 0; heap := [] |} 0).
  simpl. lia.
Defined.

(** ** Service markers are passed over *)

Lemma same_node (h : list FlowNode) p q n m :
  h !! p = Some n -> h !! q = Some m -> p = q -> n = m.
Proof. intros Hp Hq ->. congruence. Qed.

Lemma forward_op h b i code nx :
  h !! b = Some (op_node i code nx) -> (forall x, x ∈ nx -> b < x) -> forward h b.
Proof.
  intros Hn Hnx n code' x Hn' _ Hx. left. apply Hnx.
  by rewrite (same_node h b b n _ Hn' Hn eq_refl) in Hx.
Qed.

Lemma forward_cond h b i cc t f :
  h !! b = Some (cond_node i cc t f) -> forward h b.
Proof.
  intros Hn n code' x Hn' Hc Hx.
  by rewrite (same_node h b b n _ Hn' Hn eq_refl) in Hc.
Qed.

Lemma forward_eq h b b' : forward h b' -> b = b' -> forward h b.
Proof. by intros ? ->. Qed.

Lemma next_forward :
  (forall s a c nx h, holds h a (graph s a c nx) ->
     (forall x, x ∈ nx -> a + nodes s <= x) ->
     forall k, k < nodes s -> forward h (a + k))
  /\ (forall e : opt_else, match e with
        | ElseStmt s => forall a c nx h, holds h a (graph s a c nx) ->
            (forall x, x ∈ nx -> a + nodes s <= x) ->
            forall k, k < nodes s -> forward h (a + k)
        | NoElse => True
        end)
  /\ (forall l a c nx h, holds h a (graph_list l a c nx) ->
     (forall x, x ∈ nx -> a + nodes_list l <= x) ->
     forall k, k < nodes_list l -> forward h (a + k)).
Proof.
  assert (Hleaf : forall h a i code nx k,
            holds h a [op_node i code nx] -> (forall x, x ∈ nx -> a + 1 <= x) ->
            k < 1 -> forward h (a + k)).
  { intros h a i code nx k Hh Hnx Hk. apply holds_cons in Hh as [Hn _].
    assert (k = 0) as -> by lia. rewrite Nat.add_0_r.
    eapply forward_op; [exact Hn|]. intros x Hx. apply Hnx in Hx. lia. }
  apply stmt_mutind.
  - intros p1 p3 a c nx h Hh Hnx k Hk. by eapply Hleaf.
  - (* if *)
    intros p2 p4 IH4 p5 IH5 a c nx h Hh Hnx k Hk.
    destruct p5 as [e|]; cbn [graph graph_else nodes nodes_else first_off] in *.
    + holds_parts Hh.
      destruct (decide (k < nodes p4)) as [Hk4|Hk4].
      { eapply IH4; [exact Hb| |done]. intros x Hx. set_unfold. lia. }
      destruct (decide (k < nodes p4 + nodes e)) as [Hk5|Hk5].
      { replace (a + k) with (a + nodes p4 + (k - nodes p4)) by lia.
        eapply IH5; [exact Hb0| |lia]. intros x Hx. set_unfold. lia. }
      destruct (decide (k = nodes p4 + nodes e)) as [->|Hkc].
      { eapply forward_eq; [eapply forward_cond; exact Hn|lia]. }
      eapply forward_eq; [eapply forward_op; [exact Hn0|]|lia].
      intros x Hx. apply Hnx in Hx. lia.
    + holds_parts Hh.
      destruct (decide (k < nodes p4)) as [Hk4|Hk4].
      { eapply IH4; [exact Hb| |done]. intros x Hx. set_unfold. lia. }
      destruct (decide (k = nodes p4 + 0)) as [->|Hkc].
      { eapply forward_eq; [eapply forward_cond; exact Hn|lia]. }
      eapply forward_eq; [eapply forward_op; [exact Hn0|]|lia].
      intros x Hx. apply Hnx in Hx. lia.
  - (* while *)
    intros p2 p4 IH4 a c nx h Hh Hnx k Hk. cbn [graph nodes first_off] in *.
    holds_parts Hh.
    destruct (decide (k < nodes p4)) as [Hk4|Hk4].
    { eapply IH4; [exact Hb| |done]. intros x Hx. set_unfold. lia. }
    destruct (decide (k = nodes p4)) as [->|Hkc].
    { eapply forward_eq; [eapply forward_cond; exact Hn|lia]. }
    eapply forward_eq; [eapply forward_op; [exact Hn0|]|lia].
    intros x Hx. apply Hnx in Hx. lia.
  - (* for *)
    intros p2 p4 p5 p6 p8 IH8 a c nx h Hh Hnx k Hk. cbn [graph nodes first_off] in *.
    holds_parts Hh.
    destruct (decide (k < nodes p8)) as [Hk8|Hk8].
    { eapply IH8; [exact Hb| |done]. intros x Hx. set_unfold. lia. }
    destruct (decide (k = nodes p8)) as [->|Hk0].
    { eapply forward_eq; [eapply forward_op; [exact Hn|]|lia]. intros x Hx. set_unfold. lia. }
    destruct (decide (k = nodes p8 + 1)) as [->|Hk1].
    { eapply forward_eq; [eapply forward_cond; exact Hn0|lia]. }
    destruct (decide (k = nodes p8 + 2)) as [->|Hk2].
    { eapply (forward_eq _ _ (S (S (a + nodes p8)))); [|lia].
      intros n code x Hn' _ Hx.
      rewrite (same_node h _ _ n _ Hn' Hn1 eq_refl) in Hx. simpl in Hx.
      apply list_elem_of_singleton in Hx as ->. right.
      eexists _, _, _, _. split; [exact Hn0|reflexivity]. }
    eapply forward_eq; [eapply forward_op; [exact Hn2|]|lia].
    intros x Hx. apply Hnx in Hx. lia.
  - (* repeat *)
    intros p2 IH2 p4 a c nx h Hh Hnx k Hk. cbn [graph nodes first_off] in *.
    holds_parts Hh.
    destruct (decide (k < nodes_list p2)) as [Hk2|Hk2].
    { eapply IH2; [exact Hb| |done]. intros x Hx. set_unfold. lia. }
    destruct (decide (k = nodes_list p2)) as [->|Hkc].
    { eapply forward_eq; [eapply forward_cond; exact Hn|lia]. }
    eapply forward_eq; [eapply forward_op; [exact Hn0|]|lia].
    intros x Hx. apply Hnx in Hx. lia.
  - intros p1 p3 a c nx h Hh Hnx k Hk. by eapply Hleaf.
  - intros p2 IH2 a c nx h Hh Hnx k Hk. by eapply IH2.
  - intros a c nx h Hh Hnx k Hk. by eapply Hleaf.
  - intros p2 IH. exact IH.
  - exact I.
  - intros p1 IH1 a c nx h Hh Hnx k Hk. by eapply IH1.
  - (* sequence *)
    intros p1 IH1 p3 IH3 a c nx h Hh Hnx k Hk.
    cbn [graph_list nodes_list first_off_list] in *.
    apply holds_app in Hh as [Hb1 Hb3]. rewrite length_graph_list in Hb3.
    destruct (decide (k < nodes_list p1)) as [Hk1|Hk1].
    + eapply IH1; [exact Hb1| |done]. intros x Hx. set_unfold. lia.
    + replace (a + k) with (a + nodes_list p1 + (k - nodes_list p1)) by lia.
      eapply IH3; [exact Hb3| |lia]. intros x Hx. apply Hnx in Hx. lia.
Qed.

Lemma skip_loop_mono fuel : forall fuel' h seen cur r,
  fuel <= fuel' -> skip_loop fuel h seen cur = Some r -> skip_loop fuel' h seen cur = Some r.
Proof.
  induction fuel as [|fuel IH]; intros fuel' h seen cur r Hle H; [done|].
  destruct fuel' as [|fuel']; [lia|]. simpl in *.
  destruct cur as [a|]; [|done]. destruct (h !! a) as [n|]; [|done].
  destruct (decide _); [done|]. destruct (is_real n); [done|].
  destruct (next n) as [|x l]; [done|]. apply IH; [lia|done].
Qed.

(** What [skip_service] returns is reached from the node it is given. *)
Lemma skip_loop_reach fuel h : forall seen a y,
  skip_loop fuel h seen (Some a) = Some (Some y) -> reach h a y.
Proof.
  induction fuel as [|fuel IH]; intros seen a y H; [done|]. simpl in H.
  destruct (h !! a) as [n|] eqn:Hn; [|done].
  destruct (decide _); [injection H as <-; apply reach_refl|].
  destruct (is_real n); [injection H as <-; apply reach_refl|].
  destruct (next n) as [|x l] eqn:Hx; [done|].
  eapply reach_step; [exact Hn| |by eapply IH].
  apply refs_next. rewrite Hx. set_solver.
Qed.

(** In a set of nodes in which every node that is not real has a first
    successor in the set, [skip_service] returns a node of the set. *)
Lemma skip_loop_closed (P : addr -> Prop) fuel h : forall seen a r,
  (forall b n, P b -> h !! b = Some n -> is_real n = false ->
     exists x l, next n = x :: l /\ P x) ->
  skip_loop fuel h seen (Some a) = Some r -> P a ->
  exists y, r = Some y /\ P y.
Proof.
  intros seen a r HP. revert seen a r.
  induction fuel as [|fuel IH]; intros seen a r H Ha; [done|]. simpl in H.
  destruct (h !! a) as [n|] eqn:Hn; [|done].
  destruct (decide _); [injection H as <-; eauto|].
  destruct (is_real n) eqn:Hr; [injection H as <-; eauto|].
  destruct (HP a n Ha Hn Hr) as (x & l & Hx & Hpx). rewrite Hx in H.
  by eapply IH.
Qed.

(** [skip_service] returns: each turn of its loop sees a new id. *)
Lemma skip_loop_defined h : closed h -> forall fuel seen a,
  a < length h -> size (ids h ∖ seen) < fuel ->
  exists r, skip_loop fuel h seen (Some a) = Some r.
Proof.
  intros Hc. induction fuel as [|fuel IH]; intros seen a Ha Hf; [lia|].
  simpl. destruct (lookup_lt_is_Some_2 h a Ha) as [n Hn]. unfold addr in *. rewrite Hn.
  destruct (decide (id n ∈ seen)) as [|Hs]; [by eexists|].
  destruct (is_real n); [by eexists|].
  destruct (next n) as [|x l] eqn:Hx; [by eexists|].
  apply IH.
  - eapply Hc; [exact Hn|]. apply refs_next. rewrite Hx. set_solver.
  - pose proof (unvisited_visit h seen (id n) (elem_of_ids _ _ _ Hn) Hs). lia.
Qed.

(** On the graph of a program [skip_service] returns a real node. *)
Lemma skip_loop_program body lo c (old : list FlowNode) :
  lo = length old ->
  let h := old ++ program_graph body lo c in
  forall m cur seen,
    lo <= cur < lo + (nodes_list body + 2) -> lo + (nodes_list body + 2) - cur <= m ->
    (forall i, i ∈ seen -> i < c + (cur - lo)) ->
    exists y ny, skip_loop (m + 2) h seen (Some cur) = Some (Some y)
                 /\ h !! y = Some ny /\ is_real ny = true
                 /\ lo <= y < lo + (nodes_list body + 2).
Proof.
  intros -> h.
  assert (Hh : holds h (length old) (program_graph body (length old) c)) by apply holds_self.
  pose proof (program_nodes body {| _counter := c; heap := old |}) as Hwf. revert Hwf.
  rewrite new_nodes_program, build_program_graph. cbn [fst snd heap _counter].
  rewrite length_app, length_program_graph, Forall_lookup. intros Hwf.
  pose proof (program_graph_ids body (length old) c) as Hids.
  assert (Hfw : forall k, k < nodes_list body + 2 -> forward h (length old + k)).
  { intros k Hk. pose proof Hh as Hh'. unfold program_graph in Hh'. holds_parts Hh'.
    destruct next_forward as (_ & _ & Hf).
    destruct (decide (k < nodes_list body)) as [Hk1|Hk1].
    - eapply Hf; [exact Hb| |done]. intros x Hx. set_unfold. lia.
    - intros n code x Hn' Hc _.
      destruct (decide (k = nodes_list body)) as [->|Hk2].
      + by rewrite (same_node h _ _ n _ Hn' Hn eq_refl) in Hc.
      + by rewrite (same_node h _ _ n _ Hn' Hn0 ltac:(lia)) in Hc. }
  induction m as [|m IH]; intros cur seen Hcur Hm Hseen; [lia|].
  assert (Hk : cur - length old < nodes_list body + 2) by lia.
  destruct (lookup_lt_is_Some_2 (program_graph body (length old) c) (cur - length old))
    as [n Hn]; [by rewrite length_program_graph|].
  assert (Hn' : h !! cur = Some n).
  { unfold h. rewrite lookup_app_r by lia. exact Hn. }
  pose proof (Hids _ _ Hn) as Hid. pose proof (Hwf _ _ Hn) as Hpn.
  replace (S m + 2) with (S (m + 2)) by lia. cbn [skip_loop].
  unfold addr in *. rewrite Hn'.
  rewrite decide_False by (intros Hin; apply Hseen in Hin; lia).
  destruct (is_real n) eqn:Hr.
  { exists cur, n. split_and!; (done || lia). }
  unfold is_real in Hr. unfold program_node in Hpn.
  destruct (cls n) as [| |code|cc t f] eqn:Hcls; try done.
  destruct Hpn as (x & Hx & Hxr). rewrite Hx.
  destruct (Hfw (cur - length old) Hk n code x) as [Hlt|(mx & cx & tx & fx & Hmx & Hcx)].
  - by replace (length old + (cur - length old)) with cur by lia.
  - done.
  - rewrite Hx. set_solver.
  - replace (length old + (cur - length old)) with cur in Hlt by lia.
    destruct (IH x ({[id n]} ∪ seen)) as (y & ny & Hy & Hny & Hyr & Hyrange).
    + lia.
    + lia.
    + intros i Hi. apply elem_of_union in Hi as [Hi|Hi].
      * apply elem_of_singleton in Hi. lia.
      * apply Hseen in Hi. lia.
    + exists y, ny. split_and!; [exact Hy|done|done|lia|lia].
  - exists x, mx. replace (m + 2) with (S (m + 1)) by lia. cbn [skip_loop].
    unfold addr in *. rewrite Hmx. split_and!.
    + destruct (decide (id mx ∈ {[id n]} ∪ seen)); [done|]. unfold is_real. by rewrite Hcx.
    + done.
    + unfold is_real. by rewrite Hcx.
    + lia.
    + lia.
Qed.

(** X9: on the graph of a program, [skip_service] from any node returns: a
    node of the graph that is real and is reached from the node it was
    given.  It never returns [None] there, and never a service marker. *)
Theorem skip_service_program body s a :
  let r := build_program body s in
  length (heap s) <= a < length (heap r.2) ->
  exists fuel y ny,
    (forall k, skip_service (fuel + k) (heap r.2) (Some a) = Some (Some y))
    /\ heap r.2 !! y = Some ny /\ is_real ny = true
    /\ length (heap s) <= y < length (heap r.2)
    /\ reach (heap r.2) a y.
Proof.
  intros r. unfold r. rewrite build_program_graph. cbn [fst snd heap].
  rewrite length_app, length_program_graph. intros Ha.
  destruct (skip_loop_program body (length (heap s)) (_counter s) (heap s) eq_refl
              (length (heap s) + (nodes_list body + 2) - a) a ∅)
    as (y & ny & Hy & Hny & Hr & Hrange); [lia|lia|set_solver|].
  exists (length (heap s) + (nodes_list body + 2) - a + 2), y, ny. split_and!; try done; try lia.
  - intros k. unfold skip_service. eapply skip_loop_mono; [|exact Hy]. lia.
  - by eapply skip_loop_reach.
Qed.

Lemma skip_service_program_witness :
  exists fuel y ny,
    (forall k, skip_service (fuel + k)
                 (heap (build_program (StmtOne EmptyStmt) {| _counter := 0; heap := [] |}).2)
                 (Some 0) = Some (Some y))
    /\ heap (build_program (StmtOne EmptyStmt) {| _counter := 0; heap := [] |}).2 !! y
       = Some ny
    /\ is_real ny = true
    /\ length (heap {| _counter := 0; heap := [] |}) <= y
       < length (heap (build_program (StmtOne EmptyStmt) {| _counter := 0; heap := [] |}).2)
    /\ reach (heap (build_program (StmtOne EmptyStmt) {| _counter := 0; heap := [] |}).2)
         0 y.
Proof.
  apply (skip_service_program (StmtOne EmptyStmt) {| _counter := 0; heap := [] |} 0).
  simpl. lia.
Defined.

(** ** The loop heuristic of the drawing *)

Lemma loop_search_mono fuel : forall fuel' h cond V st b,
  fuel <= fuel' -> loop_search fuel h cond V st = Some b ->
  loop_search fuel' h cond V st = Some b.
Proof.
  induction fuel as [|fuel IH]; intros fuel' h cond V st b Hle H; [done|].
  destruct fuel' as [|fuel']; [lia|]. simpl in *.
  destruct st as [|a st]; [done|]. destruct (h !! a) as [n|]; [|done].
  destruct (decide _); [apply IH; [lia|done]|].
  destruct (decide _); [done|]. apply IH; [lia|done].
Qed.

(** The search finds the node exactly when the loop of [iter_reachable],
    started on the same stack, yields it. *)
Lemma loop_search_iter fuel h cond : forall fuel' V st b l,
  loop_search fuel h cond V st = Some b -> iter_loop fuel' h V st = Some l ->
  (b = true <-> cond ∈ l).
Proof.
  induction fuel as [|fuel IH]; intros fuel' V st b l Hs Hi; [done|].
  destruct fuel' as [|fuel']; [done|]. simpl in *.
  destruct st as [|a st].
  { injection Hs as <-. injection Hi as <-. split; [done|]. set_solver. }
  destruct (h !! a) as [n|]; [|done].
  destruct (decide (id n ∈ V)); [by eapply IH|].
  destruct (iter_loop fuel' h _ _) as [l'|] eqn:E; [|done]. injection Hi as <-.
  destruct (decide (a = cond)) as [->|Hne].
  - injection Hs as <-. split; [|done]. set_solver.
  - rewrite (IH _ _ _ _ _ Hs E). set_solver.
Qed.

Lemma loop_search_defined h cond : closed h -> forall fuel V st,
  (forall x, x ∈ st -> x < length h) ->
  size (ids h ∖ V) * S (degree h) + length st < fuel ->
  exists b, loop_search fuel h cond V st = Some b.
Proof.
  intros Hc. induction fuel as [|fuel IH]; intros V st Hst Hf; [lia|].
  simpl. destruct st as [|a st]; [by eexists|].
  destruct (lookup_lt_is_Some_2 h a) as [n Hn]; [apply Hst; set_solver|].
  unfold addr in *. rewrite Hn.
  destruct (decide (id n ∈ V)) as [Hv|Hv].
  - apply IH; [intros; apply Hst; set_solver|]. simpl in Hf. lia.
  - destruct (decide (a = cond)); [by eexists|].
    apply IH.
    + intros x Hx. unfold push_all in Hx. apply elem_of_app in Hx as [Hx|Hx].
      * rewrite elem_of_reverse in Hx. eapply Hc; eauto.
      * apply Hst. set_solver.
    + pose proof (unvisited_visit h V (id n) (elem_of_ids _ _ _ Hn) Hv) as Hlt.
      pose proof (degree_bound _ _ _ Hn) as Hd.
      unfold push_all. rewrite length_app, length_reverse. simpl in Hf.
      set (u := size (ids h ∖ V)) in *. set (u' := size (ids h ∖ ({[id n]} ∪ V))) in *.
      clearbody u u'.
      pose proof (Nat.mul_le_mono_r (S u') u (S (degree h)) Hlt) as Hm.
      rewrite Nat.mul_succ_l in Hm. unfold addr in *. lia.
Qed.

(** What [is_loop_condition] answers. *)
Lemma is_loop_condition_spec h cond n cc t f :
  closed h -> NoDup (map id h) ->
  h !! cond = Some n -> cls n = ConditionNode cc t f ->
  exists b,
    (forall k, is_loop_condition (S (S (size (ids h) * S (degree h))) + k) h cond = Some b)
    /\ (b = true <->
        exists start, (exists fuel', skip_service fuel' h t = Some (Some start))
                      /\ reach h start cond).
Proof.
  intros Hc Hnd Hn Hcls.
  set (F := S (S (size (ids h) * S (degree h)))).
  assert (Hsz : forall V : gset nat, size (ids h ∖ V) <= size (ids h)).
  { intros V. apply subseteq_size. set_solver. }
  assert (Hskip : exists r, skip_service F h t = Some r).
  { destruct t as [ta|]; [|by exists None].
    apply skip_loop_defined; [done| |].
    - eapply Hc; [exact Hn|]. unfold refs. rewrite Hcls. set_solver.
    - pose proof (Hsz ∅). unfold F. nia. }
  destruct Hskip as [[start|] Hskip].
  - assert (Hstart : start < length h).
    { destruct t as [ta|]; [|done]. apply skip_loop_reach in Hskip.
      assert (Hta : ta < length h).
      { eapply Hc; [exact Hn|]. unfold refs. rewrite Hcls. set_solver. }
      apply (reach_closed h (fun x => x < length h) _ _ Hskip); [|done].
      intros b m x _ Hm Hx. by eapply Hc. }
    destruct (loop_search_defined h cond Hc F ∅ [start]) as [b Hb].
    { intros x Hx. set_solver. }
    { pose proof (Hsz ∅). unfold F. simpl. nia. }
    destruct (iter_reachable_spec h start Hc Hnd Hstart)
      as (l & Hl & _ & _ & Hin).
    exists b. split.
    + intros k. unfold is_loop_condition. rewrite Hn, Hcls.
      unfold skip_service in *.
      rewrite (skip_loop_mono F (F + k) _ _ _ _ ltac:(lia) Hskip).
      eapply loop_search_mono; [|exact Hb]. lia.
    + rewrite (loop_search_iter _ _ _ _ _ _ _ _ Hb (Hl 0)), Hin. split.
      * intros Hr. exists start. split; [by exists F|done].
      * intros (start' & [fuel' Hs'] & Hr). unfold skip_service in *.
        pose proof (skip_loop_mono F (F + fuel') _ _ _ _ ltac:(lia) Hskip) as H1.
        pose proof (skip_loop_mono fuel' (F + fuel') _ _ _ _ ltac:(lia) Hs') as H2.
        assert (start' = start) as -> by congruence. done.
  - exists false. split.
    + intros k. unfold is_loop_condition. rewrite Hn, Hcls.
      unfold skip_service in *.
      by rewrite (skip_loop_mono F (F + k) _ _ _ _ ltac:(lia) Hskip).
    + split; [done|]. intros (start' & [fuel' Hs'] & _). unfold skip_service in *.
      pose proof (skip_loop_mono F (F + fuel') _ _ _ _ ltac:(lia) Hskip) as H1.
      pose proof (skip_loop_mono fuel' (F + fuel') _ _ _ _ ltac:(lia) Hs') as H2.
      congruence.
Qed.

(** X10: on a heap with valid references and ids that differ from each
    other, [is_loop_condition] on a Condition node returns, and it answers
    [True] exactly when [skip_service] returns a node for the true branch and
    that node reaches the Condition node. *)
Theorem is_loop_condition_decides_reach h cond n cc t f :
  closed h -> NoDup (map id h) ->
  h !! cond = Some n -> cls n = ConditionNode cc t f ->
  exists fuel b,
    (forall k, is_loop_condition (fuel + k) h cond = Some b)
    /\ (b = true <->
        exists start, (exists fuel', skip_service fuel' h t = Some (Some start))
                      /\ reach h start cond).
Proof.
  intros Hc Hnd Hn Hcls.
  destruct (is_loop_condition_spec h cond n cc t f Hc Hnd Hn Hcls) as (b & Hb & Hiff).
  by eexists _, b.
Qed.

Lemma is_loop_condition_decides_reach_witness :
  exists fuel b,
    (forall k,
       is_loop_condition (fuel + k)
         [ {| id := 0; label := "OP"; next := [1; 0]; cls := OperationNode "a" |};
           {| id := 1; label := "COND"; next := [1];
              cls := ConditionNode "c" (Some 0) None |} ] 1 = Some b)
    /\ (b = true <->
        exists start,
          (exists fuel',
             skip_service fuel'
               [ {| id := 0; label := "OP"; next := [1; 0]; cls := OperationNode "a" |};
                 {| id := 1; label := "COND"; next := [1];
                    cls := ConditionNode "c" (Some 0) None |} ] (Some 0) = Some (Some start))
          /\ reach [ {| id := 0; label := "OP"; next := [1; 0]; cls := OperationNode "a" |};
                     {| id := 1; label := "COND"; next := [1];
                        cls := ConditionNode "c" (Some 0) None |} ] start 1).
Proof.
  apply (is_loop_condition_decides_reach _ 1
           {| id := 1; label := "COND"; next := [1]; cls := ConditionNode "c" (Some 0) None |}
           "c" (Some 0) None).
  - intros [|[|a]] n Hn x Hx; [| |done]; injection Hn as <-;
      unfold refs in Hx; simpl in *; set_unfold; lia.
  - simpl. repeat constructor; set_solver.
  - reflexivity.
  - reflexivity.
Defined.

(** The nodes of a fragment whose exit leads to [y], seen as nodes of a
    program. *)
Lemma fragment_nodes s a c y h lo hi k n :
  holds h a (graph s a c [y]) -> lo <= a -> a + nodes s <= hi -> lo <= y < hi ->
  k < nodes s -> h !! (a + k) = Some n ->
  program_node lo hi n /\ cls n <> StartNode /\ cls n <> EndNode.
Proof.
  intros Hh Hlo Hhi Hy Hk Hn.
  destruct graph_program_nodes as (Hg & _ & _).
  pose proof (Hg s a c y lo hi Hlo Hhi Hy) as Hall. rewrite Forall_lookup in Hall.
  destruct (lookup_lt_is_Some_2 (graph s a c [y]) k) as [m Hm]; [by rewrite length_graph|].
  pose proof (Hh _ _ Hm) as Hm'. assert (n = m) as -> by congruence. eauto.
Qed.

(** A node of a program that is not real is an Operation node, and has one
    successor. *)
Lemma service_next lo hi n :
  program_node lo hi n -> cls n <> StartNode -> cls n <> EndNode -> is_real n = false ->
  exists x, next n = [x] /\ lo <= x < hi.
Proof.
  unfold program_node, is_real. destruct (cls n); try done.
Qed.

(** What [is_loop_condition] answers when the true branch leads back. *)
Lemma is_loop_condition_true h cond n cc ta f (P : addr -> Prop) :
  closed h -> NoDup (map id h) ->
  h !! cond = Some n -> cls n = ConditionNode cc (Some ta) f ->
  P ta ->
  (forall b m, P b -> h !! b = Some m -> is_real m = false ->
     exists x l, next m = x :: l /\ P x) ->
  (forall b, P b -> reach h b cond) ->
  exists fuel, forall k, is_loop_condition (fuel + k) h cond = Some true.
Proof.
  intros Hc Hnd Hn Hcls Hta HP Hreach.
  destruct (is_loop_condition_spec h cond n cc (Some ta) f Hc Hnd Hn Hcls)
    as (b & Hb & Hiff).
  eexists. assert (b = true) as ->; [|exact Hb]. apply Hiff.
  assert (Hlt : ta < length h).
  { eapply Hc; [exact Hn|]. unfold refs. rewrite Hcls. set_solver. }
  destruct (skip_loop_defined h Hc (S (size (ids h ∖ ∅))) ∅ ta Hlt ltac:(lia)) as [r Hr].
  destruct (skip_loop_closed P _ _ _ _ _ HP Hr Hta) as (y & -> & Hy).
  exists y. split; [by eexists|auto].
Qed.

(** X11: wherever the nodes of a [while] or of a [for] statement lie in a
    heap with valid references and ids that differ from each other,
    [is_loop_condition] answers [True] on the Condition node of the loop. *)
Theorem loops_are_recognised h a c y :
  closed h -> NoDup (map id h) ->
  (forall p2 p4, holds h a (graph (WhileStmt p2 p4) a c [y]) ->
     exists fuel, forall k, is_loop_condition (fuel + k) h (a + nodes p4) = Some true)
  /\ (forall p2 p4 p5 p6 p8, holds h a (graph (ForStmt p2 p4 p5 p6 p8) a c [y]) ->
        exists fuel, forall k,
          is_loop_condition (fuel + k) h (S (a + nodes p8)) = Some true).
Proof.
  intros Hc Hnd.
  assert (Hf : forall s, first_off s < nodes s).
  { destruct first_off_early as (H1 & _ & _). intros x. apply H1. }
  destruct reach_to_last as (Hlast & _ & _).
  split.
  - intros p2 p4 Hh. cbn [graph] in Hh. holds_parts Hh.
    pose proof (Hf p4) as Hf4. pose proof (nodes_stmt_pos p4) as Hp4.
    destruct (exit_node _ _ _ _ _ Hb) as (n4 & Hn4 & Hx4).
    eapply (is_loop_condition_true h _ _ _ _ _ (fun b => a <= b <= a + nodes p4));
      [done|done|exact Hn|reflexivity|lia| |].
    + intros b m Hb' Hm Hr.
      destruct (decide (b = a + nodes p4)) as [->|Hne].
      { rewrite (same_node h _ _ m _ Hm Hn eq_refl) in Hr. done. }
      destruct (fragment_nodes p4 a c (a + nodes p4) h a (S (a + nodes p4)) (b - a) m)
        as (Hpn & Hs & He); [done|lia|lia|lia|lia| |].
      { by replace (a + (b - a)) with b by lia. }
      destruct (service_next _ _ _ Hpn Hs He Hr) as (x & Hx & Hxr).
      exists x, []. split; [done|lia].
    + intros b Hb'. destruct (decide (b = a + nodes p4)) as [->|Hne]; [apply reach_refl|].
      eapply reach_trans.
      * eapply reach_eq; [apply (Hlast _ _ _ _ _ Hb (b - a))| |reflexivity]; lia.
      * eapply reach_eq; [eapply reach_next; [exact Hn4|exact Hx4]|lia|lia].
  - intros p2 p4 p5 p6 p8 Hh. cbn [graph] in Hh. holds_parts Hh.
    pose proof (Hf p8) as Hf8. pose proof (nodes_stmt_pos p8) as Hp8.
    destruct (exit_node _ _ _ _ _ Hb) as (n8 & Hn8 & Hx8).
    assert (Hstep : reach h (S (S (a + nodes p8))) (S (a + nodes p8))).
    { eapply reach_op. exact Hn1. }
    eapply (is_loop_condition_true h _ _ _ _ _ (fun b => a <= b < a + nodes p8 + 3));
      [done|done|exact Hn0|reflexivity|lia| |].
    + intros b m Hb' Hm Hr.
      destruct (decide (b < a + nodes p8)) as [Hlt|Hge].
      { destruct (fragment_nodes p8 a c (S (S (a + nodes p8))) h a (a + nodes p8 + 3)
                    (b - a) m) as (Hpn & Hs & He); [done|lia|lia|lia|lia| |].
        { by replace (a + (b - a)) with b by lia. }
        destruct (service_next _ _ _ Hpn Hs He Hr) as (x & Hx & Hxr).
        exists x, []. split; [done|lia]. }
      destruct (decide (b = a + nodes p8)) as [->|Hb0].
      { rewrite (same_node h _ _ m _ Hm Hn eq_refl). eexists _, _. split; [reflexivity|lia]. }
      destruct (decide (b = S (a + nodes p8))) as [->|Hb1].
      { rewrite (same_node h _ _ m _ Hm Hn0 eq_refl) in Hr. done. }
      rewrite (same_node h _ _ m _ Hm Hn1 ltac:(lia)).
      eexists _, _. split; [reflexivity|lia].
    + intros b Hb'.
      destruct (decide (b < a + nodes p8)) as [Hlt|Hge].
      { eapply reach_trans.
        - eapply reach_eq; [apply (Hlast _ _ _ _ _ Hb (b - a))| |reflexivity]; lia.
        - eapply reach_trans; [|exact Hstep].
          eapply reach_eq; [eapply reach_next; [exact Hn8|exact Hx8]|lia|lia]. }
      destruct (decide (b = a + nodes p8)) as [->|Hb0].
      { eapply reach_op. exact Hn. }
      destruct (decide (b = S (a + nodes p8))) as [->|Hb1]; [apply reach_refl|].
      eapply reach_eq; [exact Hstep|lia|reflexivity].
Qed.

Lemma loops_are_recognised_witness :
  exists fuel, forall k,
    is_loop_condition (fuel + k)
      (heap (build_program (StmtOne (WhileStmt "c" EmptyStmt))
               {| _counter := 0; heap := [] |}).2)
      (0 + nodes EmptyStmt) = Some true.
Proof.
  destruct (process_ok_build (StmtOne (WhileStmt "c" EmptyStmt)) _ process_ok_empty)
    as (Hc & Hnd & _).
  destruct (loops_are_recognised _ 0 0 4 Hc Hnd) as [H _].
  apply (H "c" EmptyStmt).
  intros [|[|[|k]]] n Hn; try done; injection Hn as <-; reflexivity.
Defined.

(** X12: the Condition node of a [repeat] loop has the exit marker of the
    loop as its true branch, and that marker is real; so [is_loop_condition]
    answers [True] on it exactly when what follows the loop leads back to the
    loop, as inside an enclosing loop. *)
Theorem repeat_is_a_loop_only_if_reentered h a c y p2 p4 :
  closed h -> NoDup (map id h) ->
  holds h a (graph (RepeatStmt p2 p4) a c [y]) ->
  exists fuel b,
    (forall k, is_loop_condition (fuel + k) h (a + nodes_list p2) = Some b)
    /\ (b = true <-> reach h y (a + nodes_list p2)).
Proof.
  intros Hc Hnd Hh. cbn [graph] in Hh. holds_parts Hh.
  destruct (is_loop_condition_spec h _ _ _ _ _ Hc Hnd Hn eq_refl)
    as (b & Hb' & Hiff).
  eexists _, b. split; [exact Hb'|]. rewrite Hiff.
  assert (Hskip : forall fuel', skip_service (S fuel') h (Some (S (a + nodes_list p2)))
                                = Some (Some (S (a + nodes_list p2)))).
  { intros fuel'. unfold skip_service. simpl. unfold addr in *. rewrite Hn0.
    rewrite decide_False by set_solver. reflexivity. }
  split.
  - intros (start & [fuel' Hs] & Hr).
    destruct fuel' as [|fuel']; [done|]. rewrite Hskip in Hs. injection Hs as <-.
    inversion Hr as [|? m x ? Hm Hx Hr']; subst; [lia|].
    rewrite (same_node h _ _ m _ Hm Hn0 eq_refl) in Hx.
    unfold refs in Hx. simpl in Hx. apply list_elem_of_singleton in Hx as ->. done.
  - intros Hr. exists (S (a + nodes_list p2)). split; [exists 1; apply Hskip|].
    eapply reach_trans; [|exact Hr]. eapply reach_op. exact Hn0.
Qed.

Lemma repeat_is_a_loop_only_if_reentered_witness :
  exists fuel b,
    (forall k,
       is_loop_condition (fuel + k)
         (heap (build_program (StmtOne (RepeatStmt (StmtOne EmptyStmt) "c"))
                  {| _counter := 0; heap := [] |}).2)
         (0 + nodes_list (StmtOne EmptyStmt)) = Some b)
    /\ (b = true <->
        reach (heap (build_program (StmtOne (RepeatStmt (StmtOne EmptyStmt) "c"))
                       {| _counter := 0; heap := [] |}).2)
          4 (0 + nodes_list (StmtOne EmptyStmt))).
Proof.
  destruct (process_ok_build (StmtOne (RepeatStmt (StmtOne EmptyStmt) "c")) _
              process_ok_empty) as (Hc & Hnd & _).
  apply (repeat_is_a_loop_only_if_reentered _ 0 0 4 (StmtOne EmptyStmt) "c" Hc Hnd).
  intros [|[|[|k]]] n Hn; try done; injection Hn as <-; reflexivity.
Defined.

(** ** The layout returns *)

Lemma subchain_loop_mono fuel : forall fuel' h x stop_at cur y seen lay r,
  fuel <= fuel' ->
  Layout.subchain_loop fuel h x stop_at cur y seen lay = Some r ->
  Layout.subchain_loop fuel' h x stop_at cur y seen lay = Some r.
Proof.
  induction fuel as [|fuel IH]; intros fuel' h x stop_at cur y seen lay r Hle H; [done|].
  destruct fuel' as [|fuel']; [lia|]. cbn [Layout.subchain_loop] in *.
  destruct cur as [a|]; [|done]. destruct (h !! a) as [n|]; [|done].
  destruct (decide _); [done|]. destruct (decide _); [done|].
  assert (Hs : forall r0, (if is_real n then Some (Some a) else skip_service fuel h (Some a))
                          = Some r0 ->
                          (if is_real n then Some (Some a) else skip_service fuel' h (Some a))
                          = Some r0).
  { intros r0. destruct (is_real n); [done|]. apply skip_loop_mono. lia. }
  destruct (if is_real n then _ else skip_service fuel h (Some a)) as [r0|] eqn:E; [|done].
  rewrite (Hs _ eq_refl). destruct r0 as [a'|]; [|done].
  destruct (h !! a') as [n'|]; [|done].
  destruct (Layout.pos lay !! id n'); (destruct (cls n'); try done);
    unfold Layout.skip_next in *;
    (destruct (next n') as [|x0 l0]; [by apply (IH fuel'); [lia|]|]);
    (destruct (skip_service fuel h (Some x0)) as [c0|] eqn:E0; [|done]);
    unfold skip_service in *;
    rewrite (skip_loop_mono fuel fuel' _ _ _ _ ltac:(lia) E0); (apply IH; [lia|done]).
Qed.

Lemma place_condition_with_mono (rec rec' : addr -> Z -> Layout.Layout -> option Layout.Layout)
    fuel fuel' h cond x lay r :
  (forall a x0 l r0, rec a x0 l = Some r0 -> rec' a x0 l = Some r0) ->
  fuel <= fuel' ->
  Layout.place_condition_with rec fuel h cond x lay = Some r ->
  Layout.place_condition_with rec' fuel' h cond x lay = Some r.
Proof.
  intros Hrec Hle. unfold Layout.place_condition_with.
  destruct (h !! cond) as [node|]; [|done].
  destruct (cls node) as [| | |cc t f]; try done.
  destruct (skip_service fuel h t) as [rt|] eqn:Et; [|done].
  destruct (skip_service fuel h f) as [rf|] eqn:Ef; [|done].
  destruct (is_loop_condition fuel h cond) as [loop|] eqn:El; [|done].
  unfold skip_service in *.
  rewrite (skip_loop_mono fuel fuel' _ _ _ _ Hle Et).
  rewrite (skip_loop_mono fuel fuel' _ _ _ _ Hle Ef).
  assert (El' : is_loop_condition fuel' h cond = Some loop).
  { revert El. unfold is_loop_condition. destruct (h !! cond) as [nc|]; [|done].
    destruct (cls nc) as [| | |c0 t0 f0]; try done. unfold skip_service.
    destruct (skip_loop fuel h ∅ t0) as [r0|] eqn:E0; [|done].
    rewrite (skip_loop_mono fuel fuel' _ _ _ _ Hle E0).
    destruct r0; [|done]. apply loop_search_mono. done. }
  rewrite El'. destruct (Layout.pos lay !! id node) as [[x0 y_cond]|]; [|done].
  intros H.
  match type of H with
  | match ?e with _ => _ end = _ => destruct e as [[yt lay1]|] eqn:E1; [|done]
  end.
  assert (E1' : match rt with
                | Some t0 =>
                    Layout.place_subchain fuel' h t0 (x + Layout.branch_dx)
                      (y_cond + Layout.step_y) (if loop then Some cond else None) lay
                | None => Some ((y_cond + Layout.step_y)%Z, lay)
                end = Some (yt, lay1)).
  { destruct rt; [|done]. revert E1. apply subchain_loop_mono. done. }
  rewrite E1'.
  match type of H with
  | match ?e with _ => _ end = _ => destruct e as [[yf lay2]|] eqn:E2; [|done]
  end.
  assert (E2' : match rf with
                | Some f0 =>
                    if loop
                    then match h !! f0 with
                         | Some nf =>
                             Some ((y_cond + Layout.step_y + Layout.step_y)%Z,
                                   match Layout.pos lay1 !! id nf with
                                   | Some _ => lay1
                                   | None =>
                                       Layout.set_pos (id nf)
                                         (x, (y_cond + Layout.step_y)%Z) lay1
                                   end)
                         | None => None
                         end
                    else Layout.place_subchain fuel' h f0 (x - Layout.branch_dx)
                           (y_cond + Layout.step_y) None lay1
                | None => Some ((y_cond + Layout.step_y)%Z, lay1)
                end = Some (yf, lay2)).
  { destruct rf; [|done]. destruct loop; [done|]. revert E2. apply subchain_loop_mono. done. }
  rewrite E2'. unfold Layout.skip_next in *.
  destruct (next node) as [|x1 l1]; [done|]. unfold skip_service in *.
  destruct (skip_loop fuel h ∅ (Some x1)) as [rn|] eqn:En; [|done].
  rewrite (skip_loop_mono fuel fuel' _ _ _ _ Hle En).
  destruct rn as [nxt|]; [|done]. destruct (h !! nxt) as [nn|]; [|done].
  destruct (Layout.pos lay2 !! id nn); [done|]. by apply Hrec.
Qed.

Lemma place_linear_mono fuel : forall fuel' h node x lay r,
  fuel <= fuel' ->
  Layout.place_linear fuel h node x lay = Some r ->
  Layout.place_linear fuel' h node x lay = Some r.
Proof.
  induction fuel as [|fuel IH]; intros fuel' h node x lay r Hle H; [done|].
  destruct fuel' as [|fuel']; [lia|]. cbn [Layout.place_linear] in *.
  destruct (h !! node) as [n|]; [|done]. cbv zeta in *.
  destruct (decide _); [done|].
  assert (Hn : forall lay0 r0,
             match Layout.skip_next fuel h n with
             | Some (Some nxt) => Layout.place_linear fuel h nxt x lay0
             | Some None => Some lay0
             | None => None
             end = Some r0 ->
             match Layout.skip_next fuel' h n with
             | Some (Some nxt) => Layout.place_linear fuel' h nxt x lay0
             | Some None => Some lay0
             | None => None
             end = Some r0).
  { intros lay0 r0. unfold Layout.skip_next. destruct (next n) as [|x0 l0]; [done|].
    unfold skip_service.
    destruct (skip_loop fuel h ∅ (Some x0)) as [rn|] eqn:En; [|done].
    rewrite (skip_loop_mono fuel fuel' _ _ _ _ ltac:(lia) En).
    destruct rn; [|done]. apply IH. lia. }
  destruct (cls n); try (by apply Hn).
  revert H. apply place_condition_with_mono; [|lia].
  intros a x0 l r0. apply IH. lia.
Qed.

(** What [skip_service] returns is a node of the heap. *)
Lemma skip_loop_valid fuel h seen a y :
  closed h -> a < length h -> skip_loop fuel h seen (Some a) = Some (Some y) -> y < length h.
Proof.
  intros Hc Ha H. apply skip_loop_reach in H.
  apply (reach_closed h (fun x => x < length h) _ _ H); [|done].
  intros b m x _ Hm Hx. by eapply Hc.
Qed.

Lemma skip_next_defined h fuel n a :
  closed h -> h !! a = Some n -> size (ids h) < fuel ->
  exists r, Layout.skip_next fuel h n = Some r /\ forall y, r = Some y -> y < length h.
Proof.
  intros Hc Hn Hf. unfold Layout.skip_next.
  destruct (next n) as [|x l] eqn:Hx; [by exists None|].
  assert (Hlt : x < length h).
  { eapply Hc; [exact Hn|]. apply refs_next. rewrite Hx. set_solver. }
  destruct (skip_loop_defined h Hc fuel ∅ x Hlt) as [r Hr].
  { assert (size (ids h ∖ ∅) <= size (ids h)) by (apply subseteq_size; set_solver). lia. }
  exists r. split; [done|]. intros y ->. by eapply skip_loop_valid.
Qed.

(** [place_subchain] leaves the height of the main line and the set
    [visited] as they are, and keeps the positions there are. *)
Lemma subchain_loop_keeps fuel h x stop_at : forall cur y seen lay y' lay',
  Layout.subchain_loop fuel h x stop_at cur y seen lay = Some (y', lay') ->
  Layout.visited lay' = Layout.visited lay /\ Layout.level_y lay' = Layout.level_y lay
  /\ Layout.pos lay ⊆ Layout.pos lay'.
Proof.
  induction fuel as [|fuel IH]; intros cur y seen lay y' lay' H; [done|].
  cbn [Layout.subchain_loop] in H.
  destruct cur as [a|]; [|by injection H as <- <-].
  destruct (h !! a) as [n|]; [|done].
  destruct (decide _); [by injection H as <- <-|].
  destruct (decide _); [by injection H as <- <-|].
  destruct (if is_real n then _ else _) as [[a'|]|]; [|by injection H as <- <-|done].
  destruct (h !! a') as [n'|]; [|done].
  destruct (Layout.pos lay !! id n') as [p|] eqn:Hp.
  - destruct (cls n'); try (by injection H as <- <-);
      (destruct (Layout.skip_next fuel h n') as [c|]; [|done]); by apply IH in H.
  - assert (Hsub : Layout.pos lay ⊆ <[id n' := (x, y)]> (Layout.pos lay))
      by (by apply insert_subseteq).
    destruct (cls n');
      try (injection H as <- <-; by split_and!);
      (destruct (Layout.skip_next fuel h n') as [c|]; [|done]);
      apply IH in H as (H1 & H2 & H3); split_and!; try done;
      (etrans; [exact Hsub|exact H3]).
Qed.

(** [place_subchain] returns: each turn of its loop sees a new id. *)
Lemma subchain_loop_defined h : closed h -> forall fuel x stop_at cur y seen lay,
  (forall a, cur = Some a -> a < length h) ->
  size (ids h) + 1 + size (ids h ∖ seen) < fuel ->
  exists r, Layout.subchain_loop fuel h x stop_at cur y seen lay = Some r.
Proof.
  intros Hc. induction fuel as [|fuel IH]; intros x stop_at cur y seen lay Hcur Hf; [lia|].
  cbn [Layout.subchain_loop].
  destruct cur as [a|]; [|by eexists].
  destruct (lookup_lt_is_Some_2 h a (Hcur a eq_refl)) as [n Hn].
  unfold addr in *. rewrite Hn.
  destruct (decide (id n ∈ seen)) as [|Hs]; [by eexists|].
  destruct (decide _); [by eexists|].
  pose proof (unvisited_visit h seen (id n) (elem_of_ids _ _ _ Hn) Hs) as Hm.
  assert (Hsz : size (ids h ∖ ∅) <= size (ids h)) by (apply subseteq_size; set_solver).
  assert (Hr : exists r, (if is_real n then Some (Some a) else skip_service fuel h (Some a))
                         = Some r /\ forall a', r = Some a' -> a' < length h).
  { destruct (is_real n).
    - exists (Some a). split; [done|]. intros a' [= <-]. by apply Hcur.
    - destruct (skip_loop_defined h Hc fuel ∅ a (Hcur a eq_refl)) as [r Hr]; [lia|].
      exists r. split; [done|]. intros a' ->. eapply skip_loop_valid; [done| |exact Hr].
      by apply Hcur. }
  destruct Hr as (r & -> & Hv). destruct r as [a'|]; [|by eexists].
  destruct (lookup_lt_is_Some_2 h a' (Hv a' eq_refl)) as [n' Hn']. rewrite Hn'.
  destruct (skip_next_defined h fuel n' a' Hc Hn') as (c & Hc' & Hcv); [lia|].
  destruct (Layout.pos lay !! id n'); (destruct (cls n'); try (by eexists));
    rewrite Hc'; (apply IH; [done|lia]).
Qed.

(** [place_linear] returns on every graph: each call sees a new id, the
    position of a Condition node is set before it is read, and the helpers
    return. *)
Lemma place_linear_defined h : closed h -> NoDup (map id h) -> forall fuel node x lay,
  node < length h ->
  S (S (size (ids h) * S (degree h))) + 2 * size (ids h) + 2
    + size (ids h ∖ Layout.visited lay) < fuel ->
  exists lay', Layout.place_linear fuel h node x lay = Some lay'.
Proof.
  intros Hc Hnd. induction fuel as [|fuel IH]; intros node x lay Hnode Hf; [lia|].
  cbn [Layout.place_linear].
  destruct (lookup_lt_is_Some_2 h node Hnode) as [n Hn]. unfold addr in *. rewrite Hn.
  cbv zeta. destruct (decide (id n ∈ Layout.visited lay)) as [|Hv]; [by eexists|].
  pose proof (unvisited_visit h (Layout.visited lay) (id n) (elem_of_ids _ _ _ Hn) Hv) as Hm.
  assert (Hsz : size (ids h ∖ ∅) <= size (ids h)) by (apply subseteq_size; set_solver).
  set (lay1 := {| Layout.pos := <[id n := (x, Layout.level_y lay)]> (Layout.pos lay);
                  Layout.level_y := Layout.level_y lay + Layout.step_y;
                  Layout.visited := {[id n]} ∪ Layout.visited lay |}).
  assert (Hlin : exists lay',
             match Layout.skip_next fuel h n with
             | Some (Some nxt) => Layout.place_linear fuel h nxt x lay1
             | Some None => Some lay1
             | None => None
             end = Some lay').
  { destruct (skip_next_defined h fuel n node Hc Hn) as (r & -> & Hr); [lia|].
    destruct r as [nxt|]; [|by eexists]. apply IH; [by apply Hr|]. simpl. lia. }
  destruct (cls n) as [| | |cc t f] eqn:Hcls; try exact Hlin.
  unfold Layout.place_condition_with. unfold addr in *. rewrite Hn, Hcls.
  assert (Hskip : forall b : option addr, (forall a, b = Some a -> a ∈ refs n) ->
            exists r, skip_service fuel h b = Some r /\ forall y, r = Some y -> y < length h).
  { intros [a|] Hb.
    - assert (Ha : a < length h) by (eapply Hc; [exact Hn|by apply Hb]).
      destruct (skip_loop_defined h Hc fuel ∅ a Ha) as [r Hr]; [lia|].
      exists r. split; [done|]. intros y ->. by eapply skip_loop_valid.
    - exists None. split; [|done]. destruct fuel; [lia|done]. }
  destruct (Hskip t) as (rt & -> & Hrt).
  { intros a ->. unfold refs. rewrite Hcls. set_solver. }
  destruct (Hskip f) as (rf & -> & Hrf).
  { intros a ->. unfold refs. rewrite Hcls. set_solver. }
  destruct (is_loop_condition_spec h node n cc t f Hc Hnd Hn Hcls) as (loop & Hloop & _).
  specialize (Hloop (fuel - S (S (size (ids h) * S (degree h))))).
  replace (S (S (size (ids h) * S (degree h)))
           + (fuel - S (S (size (ids h) * S (degree h))))) with fuel in Hloop by lia.
  unfold addr in *. rewrite Hloop. simpl Layout.pos. rewrite lookup_insert_eq. cbv beta iota.
  assert (Hsub : forall a x0 y0 st l0, a < length h ->
            exists r, Layout.place_subchain fuel h a x0 y0 st l0 = Some r).
  { intros a x0 y0 st l0 Ha. apply subchain_loop_defined; [done| |lia]. by intros ? [= <-]. }
  set (yc := Layout.level_y lay).
  assert (Ht : exists yt lay2,
             match rt with
             | Some t0 => Layout.place_subchain fuel h t0 (x + Layout.branch_dx)
                            (yc + Layout.step_y) (if loop then Some node else None) lay1
             | None => Some ((yc + Layout.step_y)%Z, lay1)
             end = Some (yt, lay2) /\ Layout.visited lay2 = Layout.visited lay1).
  { destruct rt as [t0|]; [|by eexists _, _].
    destruct (Hsub t0 (x + Layout.branch_dx)%Z (yc + Layout.step_y)%Z
                (if loop then Some node else None) lay1 (Hrt _ eq_refl)) as [[yt lay2] Hr].
    exists yt, lay2. split; [done|]. by apply subchain_loop_keeps in Hr as (? & _). }
  destruct Ht as (yt & lay2 & Ht & Hv2). unfold addr in *. rewrite Ht. cbv beta iota.
  assert (Hfb : exists yf lay3,
             match rf with
             | Some f0 =>
                 if loop
                 then match h !! f0 with
                      | Some nf =>
                          Some ((yc + Layout.step_y + Layout.step_y)%Z,
                                match Layout.pos lay2 !! id nf with
                                | Some _ => lay2
                                | None =>
                                    Layout.set_pos (id nf) (x, (yc + Layout.step_y)%Z) lay2
                                end)
                      | None => None
                      end
                 else Layout.place_subchain fuel h f0 (x - Layout.branch_dx)
                        (yc + Layout.step_y) None lay2
             | None => Some ((yc + Layout.step_y)%Z, lay2)
             end = Some (yf, lay3) /\ Layout.visited lay3 = Layout.visited lay2).
  { destruct rf as [f0|]; [|by eexists _, _]. destruct loop.
    - destruct (lookup_lt_is_Some_2 h f0 (Hrf _ eq_refl)) as [nf Hnf]. rewrite Hnf.
      eexists _, _. split; [reflexivity|]. by destruct (Layout.pos lay2 !! id nf).
    - destruct (Hsub f0 (x - Layout.branch_dx)%Z (yc + Layout.step_y)%Z None lay2
                  (Hrf _ eq_refl)) as [[yf lay3] Hr].
      exists yf, lay3. split; [done|]. by apply subchain_loop_keeps in Hr as (? & _). }
  destruct Hfb as (yf & lay3 & Hfb & Hv3). unfold addr in *. rewrite Hfb. cbv beta iota.
  destruct (skip_next_defined h fuel n node Hc Hn) as (r & -> & Hr); [lia|].
  destruct r as [nxt|]; [|by eexists].
  destruct (lookup_lt_is_Some_2 h nxt (Hr _ eq_refl)) as [nn Hnn]. rewrite Hnn.
  destruct (Layout.pos lay3 !! id nn); [by eexists|].
  apply IH; [by apply Hr|]. simpl. rewrite Hv3, Hv2. simpl. lia.
Qed.

(** X13: on every graph with valid references and ids that differ from
    each other, cyclic or not, the layout of the drawing returns from any
    node: no call recurs for ever and no position is read before it is set. *)
Theorem layout_terminates h current_start :
  closed h -> NoDup (map id h) -> current_start < length h ->
  exists p, forall k,
    Layout.positions
      (S (S (size (ids h) * S (degree h))) + 3 * size (ids h) + 3 + k) h current_start
    = Some p.
Proof.
  intros Hc Hnd Hs.
  set (F := S (S (size (ids h) * S (degree h))) + 3 * size (ids h) + 3).
  assert (Hsz : forall V : gset nat, size (ids h ∖ V) <= size (ids h)).
  { intros V. apply subseteq_size. set_solver. }
  destruct (skip_loop_defined h Hc F ∅ current_start Hs) as [r Hr].
  { pose proof (Hsz ∅). unfold F. lia. }
  assert (Hstart : default current_start r < length h).
  { destruct r as [y|]; [|done]. simpl. by eapply skip_loop_valid. }
  destruct (place_linear_defined h Hc Hnd F (default current_start r) 0 Layout.new_Layout Hstart)
    as [lay Hlay].
  { pose proof (Hsz (Layout.visited Layout.new_Layout)). unfold F. lia. }
  exists (Layout.pos lay). intros k. unfold Layout.positions, skip_service.
  pose proof (skip_loop_mono F (F + k) _ _ _ _ ltac:(lia) Hr) as Hr'.
  pose proof (place_linear_mono F (F + k) _ _ _ _ _ ltac:(lia) Hlay) as Hlay'.
  unfold addr in *. rewrite Hr', Hlay'. reflexivity.
Qed.

Lemma layout_terminates_witness :
  exists p, forall k,
    Layout.positions
      (S (S (size (ids [ {| id := 0; label := "OP"; next := [1; 0]; cls := OperationNode "a" |};
                         {| id := 1; label := "COND"; next := [1];
                            cls := ConditionNode "c" (Some 0) None |} ])
             * S (degree [ {| id := 0; label := "OP"; next := [1; 0];
                              cls := OperationNode "a" |};
                           {| id := 1; label := "COND"; next := [1];
                              cls := ConditionNode "c" (Some 0) None |} ])))
       + 3 * size (ids [ {| id := 0; label := "OP"; next := [1; 0]; cls := OperationNode "a" |};
                         {| id := 1; label := "COND"; next := [1];
                            cls := ConditionNode "c" (Some 0) None |} ]) + 3 + k)
      [ {| id := 0; label := "OP"; next := [1; 0]; cls := OperationNode "a" |};
        {| id := 1; label := "COND"; next := [1]; cls := ConditionNode "c" (Some 0) None |} ]
      0 = Some p.
Proof.
  apply layout_terminates.
  - intros [|[|a]] n Hn x Hx; [| |done]; injection Hn as <-;
      unfold refs in Hx; simpl in *; set_unfold; lia.
  - simpl. repeat constructor; set_solver.
  - simpl. lia.
Defined.

(** ** The nodes the layout gives a position *)

Section Region.

Variable h : list FlowNode.
Variable P : addr -> Prop.

(** A set of nodes that holds the nodes its nodes refer to, in which
    [skip_service] returns real nodes, and in which the Condition nodes have
    no successor, as in the graph of a program. *)
Hypothesis region_closed :
  forall a n x, P a -> h !! a = Some n -> x ∈ refs n -> P x.
Hypothesis region_skip :
  forall fuel a r, P a -> skip_service fuel h (Some a) = Some r ->
    exists y ny, r = Some y /\ P y /\ h !! y = Some ny /\ is_real ny = true.
Hypothesis region_cond :
  forall a n cc t f, P a -> h !! a = Some n -> cls n = ConditionNode cc t f -> next n = [].

Lemma placed_mono cs cs' a : cs ⊆ cs' -> placed h P cs a -> placed h P cs' a.
Proof.
  intros Hs (Hp & n & Hn & Hr & Hc). split; [done|]. exists n. split_and!; try done.
  intros cc t f Hcls. apply Hs. by eapply Hc.
Qed.

Lemma adds_refl p : adds h p p [].
Proof. intros i Hi. by left. Qed.

Lemma adds_trans p1 p2 p3 l1 l2 : adds h p1 p2 l1 -> adds h p2 p3 l2 -> adds h p1 p3 (l1 ++ l2).
Proof.
  intros H1 H2 i Hi. destruct (H2 i Hi) as [Hi2|(a & n & Ha & Hn & Hid)].
  - destruct (H1 i Hi2) as [?|(a & n & Ha & Hn & Hid)]; [by left|].
    right. exists a, n. set_solver.
  - right. exists a, n. set_solver.
Qed.

Lemma adds_insert p a n v : h !! a = Some n -> adds h p (<[id n := v]> p) [a].
Proof.
  intros Hn i Hi. destruct (decide (i = id n)) as [->|Hne].
  - right. exists a, n. set_solver.
  - left. by rewrite lookup_insert_ne in Hi.
Qed.

Lemma skip_next_region fuel a n r :
  P a -> h !! a = Some n -> Layout.skip_next fuel h n = Some r ->
  match r with
  | Some y => P y /\ exists ny, h !! y = Some ny /\ is_real ny = true
  | None => next n = []
  end.
Proof.
  intros Ha Hn. unfold Layout.skip_next. destruct (next n) as [|x l] eqn:Hx.
  - by intros [= <-].
  - intros Hs. destruct (region_skip fuel x r) as (y & ny & -> & Hy & Hny & Hr); [|done|eauto].
    apply (region_closed a n); [done|done|]. apply refs_next. rewrite Hx. set_solver.
Qed.

(** [place_subchain] gives positions to real nodes of the set, of which the
    last only can be a Condition node. *)
Lemma subchain_loop_region fuel x stop_at : forall cur y seen lay y' lay',
  (forall a, cur = Some a -> P a) ->
  Layout.subchain_loop fuel h x stop_at cur y seen lay = Some (y', lay') ->
  exists l cs, length cs <= 1 /\ Forall (placed h P cs) l
               /\ adds h (Layout.pos lay) (Layout.pos lay') l.
Proof.
  induction fuel as [|fuel IH]; intros cur y seen lay y' lay' Hcur H; [done|].
  assert (Hnone : forall (l0 : Layout.Layout),
            exists l cs, length cs <= 1 /\ Forall (placed h P cs) l
                         /\ adds h (Layout.pos l0) (Layout.pos l0) l).
  { intros l0. exists [], []. split_and!; [simpl; lia|constructor|apply adds_refl]. }
  cbn [Layout.subchain_loop] in H.
  destruct cur as [a|]; [|injection H as <- <-; apply Hnone].
  destruct (h !! a) as [n|] eqn:Hn; [|done].
  destruct (decide _); [injection H as <- <-; apply Hnone|].
  destruct (decide _); [injection H as <- <-; apply Hnone|].
  destruct (if is_real n then _ else _) as [[a'|]|] eqn:Hs;
    [|injection H as <- <-; apply Hnone|done].
  assert (Ha' : P a' /\ exists n', h !! a' = Some n' /\ is_real n' = true).
  { destruct (is_real n) eqn:Hr.
    - injection Hs as <-. split; [by apply Hcur|eauto].
    - destruct (region_skip fuel a (Some a')) as (y0 & ny & [= <-] & Hy & Hny & Hry);
        [by apply Hcur|done|eauto]. }
  destruct Ha' as (Hpa' & n' & Hn' & Hr'). unfold addr in *. rewrite Hn' in H.
  set (p1 := match Layout.pos lay !! id n' with
             | Some _ => (y, lay)
             | None => ((y + Layout.step_y)%Z, Layout.set_pos (id n') (x, y) lay)
             end) in H.
  assert (Hadd : adds h (Layout.pos lay) (Layout.pos p1.2) [a']).
  { unfold p1. destruct (Layout.pos lay !! id n') eqn:Hp; simpl.
    - intros i Hi. by left.
    - by apply adds_insert. }
  destruct p1 as [y1 lay1]. simpl in Hadd.
  destruct (cls n') as [| | |cc t f] eqn:Hcls.
  4: { injection H as <- <-. exists [a'], [a']. split_and!; [simpl; lia| |done].
       constructor; [|constructor]. split; [done|]. exists n'. split_and!; try done.
       intros. set_solver. }
  all: destruct (Layout.skip_next fuel h n') as [c|] eqn:Hc; [|done].
  all: pose proof (skip_next_region _ _ _ _ Hpa' Hn' Hc) as Hreg.
  all: apply IH in H as (l & cs & Hlen & Hl & Hadds);
         [|intros a0 ->; by destruct Hreg].
  all: exists (a' :: l), cs; split_and!;
         [done| |apply (adds_trans _ _ _ [a'] l Hadd Hadds)].
  all: constructor; [|done]; split; [done|]; exists n'; split_and!; try done.
  all: intros ? ? ? Heq; by rewrite Hcls in Heq.
Qed.

(** [place_linear] gives positions to real nodes of the set, and to at most
    three Condition nodes: the first one on the main line, and the one at
    which each of its two branches stops. *)
Lemma place_linear_region fuel : forall node n x lay lay',
  P node -> h !! node = Some n -> is_real n = true ->
  Layout.place_linear fuel h node x lay = Some lay' ->
  exists l cs, length cs <= 3 /\ Forall (placed h P cs) l
               /\ adds h (Layout.pos lay) (Layout.pos lay') l.
Proof.
  induction fuel as [|fuel IH]; intros node n x lay lay' Hp Hn Hr H; [done|].
  cbn [Layout.place_linear] in H. unfold addr in *. rewrite Hn in H. cbv zeta in H.
  destruct (decide _).
  { injection H as <-. exists [], []. split_and!; [simpl; lia|constructor|apply adds_refl]. }
  set (lay1 := {| Layout.pos := <[id n := (x, Layout.level_y lay)]> (Layout.pos lay);
                  Layout.level_y := Layout.level_y lay + Layout.step_y;
                  Layout.visited := {[id n]} ∪ Layout.visited lay |}) in H.
  assert (Hadd : adds h (Layout.pos lay) (Layout.pos lay1) [node]) by (by apply adds_insert).
  assert (Hlin : cls n <> EndNode \/ True ->
            (forall cc t f, cls n <> ConditionNode cc t f) ->
            match Layout.skip_next fuel h n with
            | Some (Some nxt) => Layout.place_linear fuel h nxt x lay1
            | Some None => Some lay1
            | None => None
            end = Some lay' ->
            exists l cs, length cs <= 3 /\ Forall (placed h P cs) l
                         /\ adds h (Layout.pos lay) (Layout.pos lay') l).
  { intros _ Hnc H'. destruct (Layout.skip_next fuel h n) as [[nxt|]|] eqn:Hs; [| |done].
    - destruct (skip_next_region _ _ _ _ Hp Hn Hs) as (Hpn & nn & Hnn & Hrn).
      destruct (IH _ _ _ _ _ Hpn Hnn Hrn H') as (l & cs & Hlen & Hl & Hadds).
      exists (node :: l), cs. split_and!; [done| |apply (adds_trans _ _ _ [node] l Hadd Hadds)].
      constructor; [|done]. split; [done|]. exists n. split_and!; try done.
      intros cc t f Hcls. by destruct (Hnc cc t f).
    - injection H' as <-. exists [node], []. split_and!; [simpl; lia| |done].
      constructor; [|constructor]. split; [done|]. exists n. split_and!; try done.
      intros cc t f Hcls. by destruct (Hnc cc t f). }
  destruct (cls n) as [| | |cc t f] eqn:Hcls; try (apply Hlin; [by right|done|done]).
  clear Hlin. unfold Layout.place_condition_with in H. unfold addr in *.
  rewrite Hn, Hcls in H.
  destruct (skip_service fuel h t) as [rt|] eqn:Et; [|done].
  destruct (skip_service fuel h f) as [rf|] eqn:Ef; [|done].
  destruct (is_loop_condition fuel h node) as [loop|]; [|done].
  destruct (Layout.pos lay1 !! id n) as [[x0 y_cond]|]; [|done].
  assert (Hbranch : forall (b : option addr) rb, b = t \/ b = f ->
            skip_service fuel h b = Some rb ->
            forall y, rb = Some y -> P y /\ exists ny, h !! y = Some ny /\ is_real ny = true).
  { intros b rb Hb Hs y ->. destruct b as [a|].
    - destruct (region_skip fuel a (Some y)) as (y0 & ny & [= <-] & Hy & Hny & Hry);
        [|done|eauto].
      apply (region_closed node n); [done|done|]. unfold refs. rewrite Hcls.
      destruct Hb as [<- | <-]; set_solver.
    - destruct fuel; [done|]. done. }
  match type of H with
  | match ?e with _ => _ end = _ => destruct e as [[yt lay2]|] eqn:E1; [|done]
  end.
  assert (Ht : exists l cs, length cs <= 1 /\ Forall (placed h P cs) l
                            /\ adds h (Layout.pos lay1) (Layout.pos lay2) l).
  { destruct rt as [t0|].
    - apply subchain_loop_region in E1; [done|]. intros a [= <-].
      by destruct (Hbranch t (Some t0) (or_introl eq_refl) Et t0 eq_refl).
    - injection E1 as <- <-. exists [], [].
      split_and!; [simpl; lia|constructor|apply adds_refl]. }
  match type of H with
  | match ?e with _ => _ end = _ => destruct e as [[yf lay3]|] eqn:E2; [|done]
  end.
  assert (Hf : exists l cs, length cs <= 1 /\ Forall (placed h P cs) l
                            /\ adds h (Layout.pos lay2) (Layout.pos lay3) l).
  { destruct rf as [f0|].
    - destruct (Hbranch f (Some f0) (or_intror eq_refl) Ef f0 eq_refl)
        as (Hpf & nf & Hnf & Hrf).
      destruct loop.
      + unfold addr in *. rewrite Hnf in E2. injection E2 as <- <-. exists [f0], [f0].
        split_and!; [simpl; lia| |].
        * constructor; [|constructor]. split; [done|]. exists nf. split_and!; try done.
          intros. set_solver.
        * destruct (Layout.pos lay2 !! id nf) eqn:Hpos; simpl.
          -- intros i Hi. by left.
          -- by apply adds_insert.
      + apply subchain_loop_region in E2; [done|]. by intros a [= <-].
    - injection E2 as <- <-. exists [], [].
      split_and!; [simpl; lia|constructor|apply adds_refl]. }
  assert (Hnx : Layout.skip_next fuel h n = Some None).
  { unfold Layout.skip_next. by rewrite (region_cond node n cc t f Hp Hn Hcls). }
  rewrite Hnx in H. injection H as <-.
  destruct Ht as (lt & cst & Hlent & Hlt & Haddt).
  destruct Hf as (lf & csf & Hlenf & Hlf & Haddf).
  exists (node :: lt ++ lf), (node :: cst ++ csf). split_and!.
  - simpl. rewrite length_app. lia.
  - constructor.
    + split; [done|]. exists n. split_and!; try done. intros. set_solver.
    + apply Forall_app. split.
      * eapply Forall_impl; [exact Hlt|]. intros a. apply placed_mono. set_solver.
      * eapply Forall_impl; [exact Hlf|]. intros a. apply placed_mono. set_solver.
  - apply (adds_trans _ _ _ [node] (lt ++ lf) Hadd).
    apply (adds_trans _ _ _ lt lf Haddt Haddf).
Qed.

End Region.

(** The nodes made for a program are such a set. *)
Lemma program_region body s :
  let r := build_program body s in
  let h := heap r.2 in
  let P := fun a => length (heap s) <= a < length h in
  (forall a n x, P a -> h !! a = Some n -> x ∈ refs n -> P x)
  /\ (forall fuel a r0, P a -> skip_service fuel h (Some a) = Some r0 ->
        exists y ny, r0 = Some y /\ P y /\ h !! y = Some ny /\ is_real ny = true)
  /\ (forall a n cc t f, P a -> h !! a = Some n -> cls n = ConditionNode cc t f ->
        next n = []).
Proof.
  intros r h P.
  pose proof (program_nodes body s) as Hwf. fold r in Hwf. fold h in Hwf.
  assert (Hnode : forall a n, P a -> h !! a = Some n ->
            program_node (length (heap s)) (length h) n).
  { intros a n [Hlo Hhi] Hn. rewrite Forall_lookup in Hwf.
    apply (Hwf (a - length (heap s))). unfold new_nodes. rewrite lookup_drop.
    by replace (length (heap s) + (a - length (heap s))) with a by lia. }
  split_and!.
  - intros a n x Ha Hn Hx. unfold P. apply (program_node_refs _ _ n x (Hnode a n Ha Hn) Hx).
  - intros fuel a r0 Ha Hs. unfold P, h, r in *. revert Ha Hs.
    rewrite build_program_graph. cbn [fst snd heap].
    rewrite length_app, length_program_graph. intros Ha Hs.
    destruct (skip_loop_program body (length (heap s)) (_counter s) (heap s) eq_refl
                (length (heap s) + (nodes_list body + 2) - a) a ∅)
      as (y & ny & Hy & Hny & Hr & Hrange); [lia|lia|set_solver|].
    exists y, ny. split_and!; try done; try lia.
    unfold skip_service in Hs.
    set (m := length (heap s) + (nodes_list body + 2) - a + 2) in *.
    pose proof (skip_loop_mono fuel (fuel + m) _ _ _ _ ltac:(lia) Hs) as H1.
    pose proof (skip_loop_mono m (fuel + m) _ _ _ _ ltac:(lia) Hy) as H2.
    congruence.
  - intros a n cc t f Ha Hn Hcls. specialize (Hnode a n Ha Hn).
    unfold program_node in Hnode. rewrite Hcls in Hnode. by destruct Hnode.
Qed.

(** The layout of the graph of a program. *)
Lemma layout_program body s :
  process_ok s ->
  let r := build_program body s in
  let h := heap r.2 in
  exists fuel p l cs,
    (forall k, Layout.positions (fuel + k) h (first r.1) = Some p)
    /\ length cs <= 3
    /\ Forall (placed h (fun a => length (heap s) <= a < length h) cs) l
    /\ adds h ∅ p l.
Proof.
  intros Hok r h.
  destruct (process_ok_build body s Hok) as (Hc & Hnd & _). fold r in Hc, Hnd. fold h in Hc, Hnd.
  destruct (program_region body s) as (H1 & H2 & H3). fold r in H1, H2, H3. fold h in H1, H2, H3.
  assert (Hr : r = ({| first := length (heap s) + nodes_list body;
                       last := length (heap s) + nodes_list body + 1 |},
                    {| _counter := _counter s + nodes_list body + 2;
                       heap := heap s ++ program_graph body (length (heap s)) (_counter s) |}))
    by apply build_program_graph.
  assert (Hlen : length h = length (heap s) + (nodes_list body + 2)).
  { unfold h. rewrite Hr. cbn [snd heap]. by rewrite length_app, length_program_graph. }
  assert (Hfirst : first r.1 = length (heap s) + nodes_list body) by (by rewrite Hr).
  assert (Hstart : exists n, h !! first r.1 = Some n /\ cls n = StartNode).
  { unfold h. rewrite Hr. cbn [fst snd heap first]. rewrite lookup_app_r by lia.
    unfold program_graph. rewrite lookup_app_r by (rewrite length_graph_list; lia).
    rewrite length_graph_list.
    replace (length (heap s) + nodes_list body - length (heap s) - nodes_list body) with 0
      by lia.
    eexists. split; [reflexivity|done]. }
  destruct Hstart as (n & Hn & Hcls).
  assert (Hreal : is_real n = true) by (unfold is_real; by rewrite Hcls).
  set (F := S (S (size (ids h) * S (degree h))) + 3 * size (ids h) + 3).
  assert (Hsz : size (ids h ∖ Layout.visited Layout.new_Layout) <= size (ids h)).
  { apply subseteq_size. set_solver. }
  destruct (place_linear_defined h Hc Hnd F (first r.1) 0 Layout.new_Layout) as [lay El].
  { lia. }
  { unfold F. lia. }
  assert (Hp : forall k, Layout.positions (F + k) h (first r.1) = Some (Layout.pos lay)).
  { intros k. unfold Layout.positions.
    assert (Hskip : skip_service (F + k) h (Some (first r.1)) = Some (Some (first r.1))).
    { replace (F + k) with (S (F + k - 1)) by (unfold F; lia).
      unfold skip_service. cbn [skip_loop]. unfold addr in *.
      rewrite Hn, Hreal. by rewrite decide_False by set_solver. }
    unfold addr in *. rewrite Hskip. cbn [default from_option Datatypes.id].
    by rewrite (place_linear_mono F (F + k) _ _ _ _ _ ltac:(lia) El). }
  assert (HP0 : length (heap s) <= first r.1 < length h) by lia.
  destruct (place_linear_region h (fun a => length (heap s) <= a < length h) H1 H2 H3
              _ _ _ _ _ _ HP0 Hn Hreal El) as (l & cs & Hcs & Hl & Hadd).
  exists F, (Layout.pos lay), l, cs. split_and!; done.
Qed.

(** X14: the layout of the graph of a program returns, and it gives a
    position to nodes made for that program only, and to real nodes only: no
    service marker gets a place in the drawing. *)
Theorem layout_places_real_nodes body s :
  process_ok s ->
  let r := build_program body s in
  exists fuel p,
    (forall k, Layout.positions (fuel + k) (heap r.2) (first r.1) = Some p)
    /\ forall i, is_Some (p !! i) ->
         exists a n, length (heap s) <= a < length (heap r.2)
                     /\ heap r.2 !! a = Some n /\ id n = i /\ is_real n = true.
Proof.
  intros Hok r. subst r.
  destruct (layout_program body s Hok) as (fuel & p & l & cs & Hp & _ & Hl & Hadd).
  exists fuel, p. split; [done|].
  intros i Hi. destruct (Hadd i Hi) as [Hi'|(a & n & Ha & Hn & Hid)].
  { rewrite lookup_empty in Hi'. by destruct Hi'. }
  rewrite Forall_forall in Hl. destruct (Hl a Ha) as (Hpa & n' & Hn' & Hr & _).
  exists a, n. split_and!; try done; try lia. congruence.
Qed.

Lemma layout_places_real_nodes_witness :
  exists fuel p,
    (forall k,
       Layout.positions (fuel + k)
         (heap (build_program (StmtOne (WhileStmt "c" EmptyStmt))
                  {| _counter := 0; heap := [] |}).2)
         (first (build_program (StmtOne (WhileStmt "c" EmptyStmt))
                   {| _counter := 0; heap := [] |}).1) = Some p)
    /\ forall i, is_Some (p !! i) ->
         exists a n,
           length (heap {| _counter := 0; heap := [] |}) <= a
           < length (heap (build_program (StmtOne (WhileStmt "c" EmptyStmt))
                             {| _counter := 0; heap := [] |}).2)
           /\ heap (build_program (StmtOne (WhileStmt "c" EmptyStmt))
                      {| _counter := 0; heap := [] |}).2 !! a = Some n
           /\ id n = i /\ is_real n = true.
Proof.
  apply (layout_places_real_nodes (StmtOne (WhileStmt "c" EmptyStmt))
           {| _counter := 0; heap := [] |}).
  apply process_ok_empty.
Defined.

(** X15: whatever the number of conditionals and loops of a program, the
    layout of its graph returns and gives a position to at most three
    Condition nodes. *)
Theorem layout_places_three_conditions body s :
  process_ok s ->
  let r := build_program body s in
  exists fuel p,
    (forall k, Layout.positions (fuel + k) (heap r.2) (first r.1) = Some p)
    /\ length (positioned_conditions (heap r.2) p) <= 3.
Proof.
  intros Hok r. subst r.
  destruct (layout_program body s Hok) as (fuel & p & l & cs & Hp & Hcs & Hl & Hadd).
  destruct (process_ok_build body s Hok) as (_ & Hnd & _).
  exists fuel, p. split; [done|].
  set (h := heap (build_program body s).2) in *.
  etrans; [|exact Hcs].
  rewrite <- (length_fmap id (positioned_conditions h p)).
  rewrite <- (length_fmap (fun a => default 0 (id <$> h !! a)) cs).
  apply submseteq_length, NoDup_submseteq.
  - eapply sublist_NoDup; [exact Hnd|]. apply (fmap_sublist id). apply sublist_filter.
  - intros i Hi. apply list_elem_of_fmap in Hi as (n & -> & Hn).
    unfold positioned_conditions in Hn. apply list_elem_of_filter in Hn as [Hc Hn].
    destruct (cls n) as [| | |cc t f] eqn:Hcls; try done.
    apply bool_decide_eq_true in Hc.
    destruct (Hadd _ Hc) as [Hi'|(a & m & Ha & Hm & Hid)].
    { rewrite lookup_empty in Hi'. by destruct Hi'. }
    apply list_elem_of_lookup in Hn as [b Hb].
    assert (a = b) as -> by (by eapply (id_inj h)).
    assert (m = n) as -> by (unfold addr in *; congruence).
    rewrite Forall_forall in Hl. destruct (Hl b Ha) as (_ & n' & Hn' & _ & Hin).
    assert (n' = n) as -> by (unfold addr in *; congruence).
    apply list_elem_of_fmap. exists b. split; [|by eapply Hin].
    unfold addr in *. by rewrite Hb.
Qed.

Lemma layout_places_three_conditions_witness :
  exists fuel p,
    (forall k,
       Layout.positions (fuel + k)
         (heap (build_program
                  (StmtOne (IfStmt "a" (IfStmt "b" (IfStmt "c" EmptyStmt NoElse) NoElse)
                              (ElseStmt (IfStmt "d" (IfStmt "e" EmptyStmt NoElse) NoElse))))
                  {| _counter := 0; heap := [] |}).2)
         (first (build_program
                   (StmtOne (IfStmt "a" (IfStmt "b" (IfStmt "c" EmptyStmt NoElse) NoElse)
                               (ElseStmt (IfStmt "d" (IfStmt "e" EmptyStmt NoElse) NoElse))))
                   {| _counter := 0; heap := [] |}).1) = Some p)
    /\ length (positioned_conditions
                 (heap (build_program
                          (StmtOne (IfStmt "a" (IfStmt "b" (IfStmt "c" EmptyStmt NoElse) NoElse)
                                      (ElseStmt (IfStmt "d" (IfStmt "e" EmptyStmt NoElse)
                                                   NoElse))))
                          {| _counter := 0; heap := [] |}).2) p) <= 3.
Proof.
  apply (layout_places_three_conditions
           (StmtOne (IfStmt "a" (IfStmt "b" (IfStmt "c" EmptyStmt NoElse) NoElse)
                       (ElseStmt (IfStmt "d" (IfStmt "e" EmptyStmt NoElse) NoElse))))
           {| _counter := 0; heap := [] |}).
  apply process_ok_empty.
Defined.

(** ** The layout of a program without conditionals and loops *)

Lemma real_of_cons h u rest :
  real_of h (u :: rest)
  = if decide (is_real <$> h !! u = Some true) then u :: real_of h rest else real_of h rest.
Proof. unfold real_of. by rewrite filter_cons. Qed.

Lemma chain_real h l : chain h l -> l <> [] -> real_of h l <> [].
Proof.
  induction l as [|u rest IH]; [done|]. intros [(n & Hn & _ & _ & Hlast) Hrest] _.
  rewrite real_of_cons. destruct (decide _) as [|Hnr]; [done|].
  destruct rest as [|v rest]; [|by apply IH].
  destruct Hnr. unfold addr in *. rewrite Hn. simpl. by rewrite (Hlast eq_refl).
Qed.

(** On a line [skip_service] returns the first real node. *)
Lemma skip_loop_chain h : forall l u rest seen fuel,
  chain h l -> l = u :: rest ->
  (forall i, i ∈ ids_at h l -> i ∉ seen) -> NoDup (ids_at h l) ->
  length l < fuel ->
  skip_loop fuel h seen (Some u) = Some (head (real_of h l)).
Proof.
  induction l as [|u0 rest0 IH]; intros u rest seen fuel Hch [= <- <-] Hseen Hnd Hf; [].
  destruct Hch as [(n & Hn & Hnc & Hnx & Hlast) Hrest].
  destruct fuel as [|fuel]; [simpl in Hf; lia|]. cbn [skip_loop].
  unfold addr in *. rewrite Hn.
  assert (Hid : ids_at h (u0 :: rest0) = id n :: ids_at h rest0).
  { unfold ids_at. cbn [omap list_omap]. unfold addr in *. by rewrite Hn. }
  rewrite Hid in Hseen, Hnd. apply NoDup_cons in Hnd as [Hnin Hnd].
  rewrite decide_False by (apply Hseen; set_solver).
  rewrite real_of_cons. unfold addr in *. rewrite Hn. cbn [fmap option_fmap option_map].
  destruct (is_real n) eqn:Hr.
  { by rewrite decide_True. }
  rewrite decide_False by (by intros [=]).
  destruct rest0 as [|v rest1]; [by specialize (Hlast eq_refl)|].
  rewrite Hnx. cbn [head option_list].
  apply (IH v rest1); try done.
  - intros i Hi. apply not_elem_of_union. split; [set_solver|apply Hseen; set_solver].
  - simpl in *. lia.
Qed.

Lemma ids_at_cons h u rest n :
  h !! u = Some n -> ids_at h (u :: rest) = id n :: ids_at h rest.
Proof. intros Hn. unfold ids_at. cbn [omap list_omap]. unfold addr in *. by rewrite Hn. Qed.

Lemma ids_at_real_of h l i : i ∈ ids_at h (real_of h l) -> i ∈ ids_at h l.
Proof.
  rewrite !elem_of_ids_at. intros (a & n & Ha & Hn & Hid). exists a, n. split_and!; try done.
  unfold real_of in Ha. by apply list_elem_of_filter in Ha as [_ Ha].
Qed.

Lemma column_keys x y l i v : (i, v) ∈ column x y l -> i ∈ l.
Proof.
  revert y. induction l as [|j l IH]; intros y; simpl; [by rewrite elem_of_nil|].
  rewrite elem_of_cons. intros [[= -> _]|H]; [set_solver|]. apply IH in H. set_solver.
Qed.

(** From the first real node of a line of nodes that [place_linear] has
    not seen, [place_linear] puts the real nodes of the line in one column,
    in their order. *)
Lemma place_linear_chain h x : forall l fuel lay y,
  chain h l -> NoDup (ids_at h l) ->
  (forall i, i ∈ ids_at h l -> i ∉ Layout.visited lay) ->
  head (real_of h l) = Some y ->
  2 * length l + 2 <= fuel ->
  exists lay',
    Layout.place_linear fuel h y x lay = Some lay'
    /\ Layout.pos lay'
       = list_to_map (column x (Layout.level_y lay) (ids_at h (real_of h l))) ∪ Layout.pos lay.
Proof.
  induction l as [|u rest IH]; intros fuel lay y Hch Hnd Hvis Hy Hf; [done|].
  pose proof Hch as [(n & Hn & Hnc & Hnx & Hlast) Hrest].
  rewrite (ids_at_cons h u rest n Hn) in Hnd, Hvis. apply NoDup_cons in Hnd as [Hnin Hnd].
  rewrite real_of_cons in Hy |- *. unfold addr in *. rewrite Hn in Hy |- *.
  cbn [fmap option_fmap option_map] in Hy |- *.
  destruct (is_real n) eqn:Hr.
  2: { rewrite decide_False in Hy |- * by (by intros [=]).
       apply IH; try done; [intros i Hi; apply Hvis; set_solver|simpl in Hf; lia]. }
  rewrite decide_True in Hy |- * by done. injection Hy as <-.
  destruct fuel as [|fuel]; [lia|]. cbn [Layout.place_linear]. unfold addr in *.
  rewrite Hn. cbv zeta. rewrite decide_False by (apply Hvis; set_solver).
  rewrite (ids_at_cons h u _ n Hn). cbn [column list_to_map foldr]. cbn [fst snd].
  set (lay1 := {| Layout.pos := <[id n := (x, Layout.level_y lay)]> (Layout.pos lay);
                  Layout.level_y := Layout.level_y lay + Layout.step_y;
                  Layout.visited := {[id n]} ∪ Layout.visited lay |}).
  assert (Hfresh : forall m : gmap nat (Z * Z),
            (forall i, is_Some (m !! i) -> i ∈ ids_at h rest) ->
            m ∪ <[id n := (x, Layout.level_y lay)]> (Layout.pos lay)
            = <[id n := (x, Layout.level_y lay)]> m ∪ Layout.pos lay).
  { intros m Hm. rewrite <- insert_union_l. symmetry. apply insert_union_r.
    apply eq_None_not_Some. intros Hi. apply Hnin. by apply Hm. }
  assert (Hnext :
    exists lay',
      match Layout.skip_next fuel h n with
      | Some (Some nxt) => Layout.place_linear fuel h nxt x lay1
      | Some None => Some lay1
      | None => None
      end = Some lay'
      /\ Layout.pos lay'
         = <[id n := (x, Layout.level_y lay)]>
             (list_to_map (column x (Layout.level_y lay + Layout.step_y)
                             (ids_at h (real_of h rest)))) ∪ Layout.pos lay).
  { unfold Layout.skip_next. rewrite Hnx. destruct rest as [|v rest1].
    - simpl. exists lay1. split; [done|]. simpl. rewrite insert_empty.
      by rewrite <- insert_union_singleton_l.
    - cbn [head]. change (option_list (Some v)) with [v]. unfold skip_service.
      pose proof (skip_loop_chain h (v :: rest1) v rest1 ∅ fuel Hrest eq_refl) as Hsk.
      unfold addr in *. rewrite Hsk; [|set_solver|done|simpl in *; lia].
      destruct (head (real_of h (v :: rest1))) as [y'|] eqn:Hy'.
      2: { apply head_None in Hy'. by destruct (chain_real h (v :: rest1) Hrest). }
      destruct (IH fuel lay1 y' Hrest Hnd) as (lay' & Hl & Hp); [|done|simpl in *; lia|].
      { intros i Hi. simpl. apply not_elem_of_union. split.
        - intros ->%elem_of_singleton. done.
        - apply Hvis. set_solver. }
      exists lay'. split; [unfold addr in *; by rewrite Hy'|]. rewrite Hp. simpl. apply Hfresh.
      intros i [v0 Hi]. apply elem_of_list_to_map_2, column_keys in Hi.
      by apply ids_at_real_of. }
  destruct (cls n); try done.
Qed.

(** The nodes of a program without conditionals and loops make a line, in
    the order of the statements. *)
Lemma straight_line h e :
  (forall s, straight s = true -> forall a c, holds h a (graph s a c [e]) ->
     first_off s = 0
     /\ map cls (graph s a c [e]) = map OperationNode (statements s)
     /\ forall tl, chain h (e :: tl) -> chain h (seq a (nodes s) ++ e :: tl))
  /\ (forall o : opt_else, True)
  /\ (forall l, straight_list l = true -> forall a c, holds h a (graph_list l a c [e]) ->
        first_off_list l = 0
        /\ map cls (graph_list l a c [e]) = map OperationNode (statements_list l)
        /\ forall tl, chain h (e :: tl) -> chain h (seq a (nodes_list l) ++ e :: tl)).
Proof.
  assert (Hleaf : forall a c code, holds h a [op_node c code [e]] ->
            forall tl, chain h (e :: tl) -> chain h (a :: e :: tl)).
  { intros a c code Hh tl Hc. split; [|done].
    exists (op_node c code [e]). split_and!; try done.
    specialize (Hh 0 _ eq_refl). by rewrite Nat.add_0_r in Hh. }
  revert e Hleaf. 
  cut ((forall s, straight s = true -> forall e a c,
          (forall a c code, holds h a [op_node c code [e]] ->
             forall tl, chain h (e :: tl) -> chain h (a :: e :: tl)) ->
          holds h a (graph s a c [e]) ->
          first_off s = 0
          /\ map cls (graph s a c [e]) = map OperationNode (statements s)
          /\ forall tl, chain h (e :: tl) -> chain h (seq a (nodes s) ++ e :: tl))
       /\ (forall o : opt_else, True)
       /\ (forall l, straight_list l = true -> forall e a c,
             (forall a c code, holds h a [op_node c code [e]] ->
                forall tl, chain h (e :: tl) -> chain h (a :: e :: tl)) ->
             holds h a (graph_list l a c [e]) ->
             first_off_list l = 0
             /\ map cls (graph_list l a c [e]) = map OperationNode (statements_list l)
             /\ forall tl, chain h (e :: tl) -> chain h (seq a (nodes_list l) ++ e :: tl))).
  { intros (H1 & _ & H3) e Hleaf. split_and!; [|done|]; intros; eauto. }
  apply stmt_mutind; try done.
  - intros p1 p3 _ e a c Hleaf Hh. split_and!; [done|done|]. intros tl. by eapply Hleaf.
  - intros p1 p3 _ e a c Hleaf Hh. split_and!; [done|done|]. intros tl. by eapply Hleaf.
  - intros _ e a c Hleaf Hh. split_and!; [done|done|]. intros tl. by eapply Hleaf.
  - intros p1 IH1 p3 IH3 Hs e a c Hleaf Hh. cbn [straight_list] in Hs.
    apply andb_true_iff in Hs as [Hs1 Hs3]. cbn [graph_list] in Hh.
    apply holds_app in Hh as [Hh1 Hh3]. rewrite length_graph_list in Hh3.
    destruct (IH3 Hs3 e (a + nodes_list p1) (c + nodes_list p1) Hleaf Hh3)
      as (Hf3 & Hc3 & Hch3).
    rewrite Hf3, Nat.add_0_r in Hh1.
    assert (Hleaf1 : forall a0 c0 code, holds h a0 [op_node c0 code [a + nodes_list p1]] ->
              forall tl, chain h (a + nodes_list p1 :: tl) ->
                         chain h (a0 :: a + nodes_list p1 :: tl)).
    { intros a0 c0 code Hh0 tl Hc. split; [|done].
      exists (op_node c0 code [a + nodes_list p1]). split_and!; try done.
      specialize (Hh0 0 _ eq_refl). by rewrite Nat.add_0_r in Hh0. }
    destruct (IH1 Hs1 (a + nodes_list p1) a c Hleaf1 Hh1) as (Hf1 & Hc1 & Hch1).
    split_and!.
    + done.
    + cbn [graph_list statements_list]. rewrite Hf3, Nat.add_0_r, !map_app. by f_equal.
    + intros tl Htl. cbn [nodes_list]. rewrite seq_app, <- app_assoc.
      specialize (Hch3 tl Htl). pose proof (nodes_stmt_pos p3) as Hp3.
      destruct (nodes p3) as [|k] eqn:Hk; [lia|]. cbn [seq app] in Hch3 |- *.
      by apply Hch1.
Qed.

(** The ids of nodes of a fragment, by their addresses. *)
Lemma ids_at_fragment h lo c G l :
  holds h lo G -> ids_from c G ->
  (forall a, a ∈ l -> lo <= a < lo + length G) ->
  ids_at h l = map (fun a => c + (a - lo)) l.
Proof.
  intros Hh Hids. induction l as [|a l IH]; intros Hl; [done|].
  destruct (lookup_lt_is_Some_2 G (a - lo)) as [n Hn].
  { specialize (Hl a ltac:(set_solver)). lia. }
  pose proof (Hh _ _ Hn) as Hn'.
  replace (lo + (a - lo)) with a in Hn' by (specialize (Hl a ltac:(set_solver)); lia).
  rewrite (ids_at_cons h a l n Hn'). simpl. f_equal.
  - by apply Hids.
  - apply IH. intros b Hb. apply Hl. set_solver.
Qed.

(** X16: for a program without conditionals and loops the layout puts the
    Entry node, the nodes of the statements in the order of the source and the
    Exit node in one column, the Entry node at the top and each next real node
    one step below; the service markers among them get no position. *)
Theorem straight_program_layout body s :
  straight_list body = true ->
  let r := build_program body s in
  let h := heap r.2 in
  let lo := length (heap s) in
  let line := first r.1 :: seq lo (nodes_list body) ++ [last r.1] in
  map cls (take (nodes_list body) (new_nodes (heap s) h))
  = map OperationNode (statements_list body)
  /\ exists fuel, forall k,
       Layout.positions (fuel + k) h (first r.1)
       = Some (list_to_map (column 0 0 (ids_at h (real_of h line)))).
Proof.
  intros Hs r h lo line. unfold line, h. unfold r at 1 2 3 5.
  rewrite new_nodes_program. unfold r. rewrite build_program_graph.
  cbn [fst snd heap first last]. fold lo.
  set (n := nodes_list body). set (c := _counter s).
  set (h' := heap s ++ program_graph body lo c).
  assert (Hh : holds h' lo (program_graph body lo c)) by apply holds_self.
  pose proof Hh as Hh0. unfold program_graph in Hh. fold n in Hh.
  apply holds_app in Hh as [Hb Hse]. rewrite length_graph_list in Hse. fold n in Hse.
  pose proof (Hse 0 _ eq_refl) as Hstart. pose proof (Hse 1 _ eq_refl) as Hend.
  rewrite Nat.add_0_r in Hstart. replace (lo + n + 1) with (S (lo + n)) in * by lia.
  destruct (straight_line h' (S (lo + n))) as (_ & _ & Hl).
  destruct (Hl body Hs lo c Hb) as (Hf & Hcls & Hch). fold n in Hch.
  split.
  { unfold program_graph. fold n.
    rewrite take_app_length' by (by rewrite length_graph_list). exact Hcls. }
  assert (Hpos : 0 < n) by apply nodes_list_pos.
  assert (Hline : chain h' (lo + n :: seq lo n ++ [S (lo + n)])).
  { split.
    - eexists. split_and!; [exact Hstart|done| |done]. cbn [next].
      rewrite Hf, Nat.add_0_r. destruct n; [lia|done].
    - apply Hch. split; [|done]. eexists. split_and!; [exact Hend|done|done|done]. }
  assert (Hnd : NoDup (ids_at h' (lo + n :: seq lo n ++ [S (lo + n)]))).
  { rewrite (ids_at_fragment h' lo c (program_graph body lo c)); [|done| |].
    - apply NoDup_fmap_2_strong.
      + intros a b Ha Hb' Hab.
        assert (lo <= a /\ lo <= b); [|lia].
        split; [clear Hb'; revert Ha|clear Ha; revert Hb'];
          rewrite elem_of_cons, elem_of_app, elem_of_seq, list_elem_of_singleton; lia.
      + apply NoDup_cons. split.
        * rewrite elem_of_app, elem_of_seq, list_elem_of_singleton. lia.
        * apply NoDup_app. split_and!; [apply NoDup_seq| |apply NoDup_singleton].
          intros a. rewrite elem_of_seq, list_elem_of_singleton. lia.
    - apply program_graph_ids.
    - intros a. rewrite length_program_graph. fold n.
      rewrite elem_of_cons, elem_of_app, elem_of_seq, list_elem_of_singleton. lia. }
  assert (Hhead : head (real_of h' (lo + n :: seq lo n ++ [S (lo + n)])) = Some (lo + n)).
  { rewrite real_of_cons. unfold addr in *. rewrite Hstart. by rewrite decide_True. }
  exists (2 * (n + 2) + 3). intros k.
  destruct (place_linear_chain h' 0 _ (2 * (n + 2) + 3 + k) Layout.new_Layout (lo + n)
              Hline Hnd) as (lay & Hlay & Hp).
  { intros i _. set_solver. }
  { exact Hhead. }
  { simpl. rewrite length_app, length_seq. simpl. lia. }
  unfold Layout.positions, skip_service.
  pose proof (skip_loop_chain h' _ (lo + n) _ ∅ (2 * (n + 2) + 3 + k) Hline eq_refl) as Hsk.
  unfold addr in *. rewrite Hsk; [|set_solver|done|].
  2: { simpl. rewrite length_app, length_seq. simpl. lia. }
  rewrite Hhead. cbn [default from_option Datatypes.id]. rewrite Hlay.
  cbn [fmap option_fmap option_map]. rewrite Hp. simpl. by rewrite (right_id ∅ (∪)).
Qed.

Lemma straight_program_layout_witness :
  exists fuel, forall k,
    Layout.positions (fuel + k)
      (heap (build_program (StmtSeq (StmtOne (AssignStmt "a" "1")) EmptyStmt)
               {| _counter := 0; heap := [] |}).2)
      (first (build_program (StmtSeq (StmtOne (AssignStmt "a" "1")) EmptyStmt)
                {| _counter := 0; heap := [] |}).1)
    = Some (list_to_map [(2, (0, 0)%Z); (0, (0, 110)%Z); (3, (0, 220)%Z)]).
Proof.
  destruct (straight_program_layout (StmtSeq (StmtOne (AssignStmt "a" "1")) EmptyStmt)
              {| _counter := 0; heap := [] |} eq_refl) as [_ [fuel H]].
  exists fuel. intros k. rewrite H. reflexivity.
Defined.

(** ** Conditionals and the loop heuristic *)

(** The nodes of a fragment refer to nodes of the fragment and to the
    successor of its exit node. *)
Lemma graph_refs :
  (forall s a c y,
     Forall (fun n => forall x, x ∈ refs n -> a <= x < a + nodes s \/ x = y)
       (graph s a c [y]))
  /\ (forall e a c y,
     Forall (fun n => forall x, x ∈ refs n -> a <= x < a + nodes_else e \/ x = y)
       (graph_else e a c [y]))
  /\ (forall l a c y,
     Forall (fun n => forall x, x ∈ refs n -> a <= x < a + nodes_list l \/ x = y)
       (graph_list l a c [y])).
Proof.
  assert (Hf : (forall s, first_off s < nodes s)
               /\ (forall l, first_off_list l < nodes_list l)).
  { destruct first_off_early as (H1 & _ & H3). split; intros x; [apply H1|apply H3]. }
  destruct Hf as [Hf Hfl].
  assert (Hsub : forall (G : list FlowNode) a n y a' n' y',
            Forall (fun m => forall x, x ∈ refs m -> a <= x < a + n \/ x = y) G ->
            (forall x, a <= x < a + n \/ x = y -> a' <= x < a' + n' \/ x = y') ->
            Forall (fun m => forall x, x ∈ refs m -> a' <= x < a' + n' \/ x = y') G).
  { intros G a n y a' n' y' HG Himp. eapply Forall_impl; [exact HG|].
    intros m Hm x Hx. apply Himp. by apply Hm. }
  apply stmt_mutind; intros;
    try match goal with p5 : opt_else |- _ => destruct p5 end;
    cbn [graph graph_else graph_list nodes nodes_else nodes_list] in *;
    repeat match goal with
           | s : stmt |- _ =>
               lazymatch goal with
               | _ : first_off s < nodes s |- _ => fail
               | _ => pose proof (Hf s)
               end
           | l : stmt_list |- _ =>
               lazymatch goal with
               | _ : first_off_list l < nodes_list l |- _ => fail
               | _ => pose proof (Hfl l)
               end
           end;
    repeat match goal with
           | |- Forall _ [] => constructor
           | |- Forall _ (_ :: _) => constructor
           | |- Forall _ (_ ++ _) => apply Forall_app; split
           | H : forall a c y, Forall _ (graph ?s _ _ _)
             |- Forall _ (graph ?s _ _ _) =>
               eapply Hsub; [apply H|]; cbn [nodes_else]; intros; lia
           | H : forall a c y, Forall _ (graph_list ?s _ _ _)
             |- Forall _ (graph_list ?s _ _ _) =>
               eapply Hsub; [apply H|]; intros; lia
           | H : forall a c y, Forall _ (graph_else ?s _ _ _)
             |- Forall _ (graph_else ?s _ _ _) =>
               eapply Hsub; [apply H|]; cbn [nodes_else]; intros; lia
           | |- forall x, x ∈ refs _ -> _ =>
               let x := fresh "x" in let Hx := fresh "Hx" in
               intros x Hx; unfold refs in Hx; simpl in Hx; set_unfold; lia
           end.
Qed.

(** A path from a node of a fragment to a node outside of it goes through
    the successor of the exit node of the fragment. *)
Lemma fragment_exit s a c y h x b :
  holds h a (graph s a c [y]) -> a <= x < a + nodes s -> reach h x b ->
  a <= b < a + nodes s \/ reach h y b.
Proof.
  intros Hh Hx Hr.
  apply (reach_closed h (fun b => a <= b < a + nodes s \/ reach h y b) _ _ Hr); [|by left].
  intros u n v [Hu|Hu] Hn Hv.
  - destruct graph_refs as (Hg & _ & _). specialize (Hg s a c y).
    rewrite Forall_lookup in Hg.
    destruct (lookup_lt_is_Some_2 (graph s a c [y]) (u - a)) as [m Hm];
      [rewrite length_graph; lia|].
    pose proof (Hh _ _ Hm) as Hm'. replace (a + (u - a)) with u in Hm' by lia.
    assert (n = m) as -> by (unfold addr in *; congruence).
    destruct (Hg _ _ Hm v Hv) as [?| ->]; [by left|right; apply reach_refl].
  - right. eapply reach_trans; [exact Hu|]. by eapply reach_edge.
Qed.

(** Where the nodes that are not real have one successor, a real node
    reached from a node is reached from what [skip_service] returns for
    it. *)
Lemma skip_loop_forced h (R : addr -> Prop) target nt :
  (forall a n, R a -> h !! a = Some n -> is_real n = false ->
     exists x, refs n = [x] /\ R x) ->
  h !! target = Some nt -> is_real nt = true ->
  forall fuel seen a start,
    R a -> skip_loop fuel h seen (Some a) = Some (Some start) ->
    reach h a target -> reach h start target.
Proof.
  intros HR Ht Hrt. induction fuel as [|fuel IH]; intros seen a start Ha H Hr; [done|].
  simpl in H. destruct (h !! a) as [n|] eqn:Hn; [|done].
  destruct (decide _); [by injection H as <-|].
  destruct (is_real n) eqn:Hreal; [by injection H as <-|].
  destruct (HR a n Ha Hn Hreal) as (x & Hx & Hrx).
  assert (Hnx : next n = [x]).
  { unfold is_real in Hreal. unfold refs in Hx. by destruct (cls n). }
  rewrite Hnx in H. apply (IH _ _ _ Hrx H).
  inversion Hr as [|? m v ? Hm Hv Hr']; subst.
  - unfold addr in *. assert (n = nt) as -> by congruence. congruence.
  - unfold addr in *. assert (m = n) as -> by congruence.
    rewrite Hx in Hv. apply list_elem_of_singleton in Hv as ->. done.
Qed.

(** X17: in the graph of a program, [is_loop_condition] answers [True] on
    the Condition node of an [if] statement exactly when what follows the
    statement leads back to it, as in the body of a loop ([while], [for] or
    [repeat]): there the conditional is taken for a loop. *)
Theorem if_is_a_loop_only_if_reentered body s a c y p2 p4 p5 :
  process_ok s ->
  let r := build_program body s in
  let h := heap r.2 in
  length (heap s) <= a ->
  holds h a (graph (IfStmt p2 p4 p5) a c [y]) ->
  exists fuel b,
    (forall k, is_loop_condition (fuel + k) h (a + nodes p4 + nodes_else p5) = Some b)
    /\ (b = true <-> reach h y (a + nodes p4 + nodes_else p5)).
Proof.
  intros Hok r h Hlo Hh.
  destruct (process_ok_build body s Hok) as (Hc & Hnd & _). fold r in Hc, Hnd. fold h in Hc, Hnd.
  destruct (program_region body s) as (H1 & H2 & H3). fold r in H1, H2, H3. fold h in H1, H2, H3.
  pose proof (program_nodes body s) as Hwf. fold r in Hwf. fold h in Hwf.
  pose proof Hh as Hh'. cbn [graph] in Hh'. holds_parts Hh'. rename Hb into Hb4.
  set (cond := a + nodes p4 + nodes_else p5) in *.
  assert (Hf4 : first_off p4 < nodes p4).
  { destruct first_off_early as (Hf & _ & _). apply Hf. }
  assert (Hjoin : forall b, reach h (S cond) b -> b = S cond \/ reach h y b).
  { intros b Hr. inversion Hr as [|? m v ? Hm Hv Hr']; subst; [by left|right].
    rewrite (same_node h _ _ m _ Hm Hn0 eq_refl) in Hv.
    unfold refs in Hv. simpl in Hv. apply list_elem_of_singleton in Hv as ->. done. }
  assert (Hcondlt : cond < length h) by (by apply lookup_lt_Some in Hn).
  assert (Hregion : forall x, a <= x <= S cond -> length (heap s) <= x < length h).
  { intros x Hx. split; [lia|]. apply lookup_lt_Some in Hn0. lia. }
  destruct (is_loop_condition_spec h cond _ _ _ _ Hc Hnd Hn eq_refl) as (b & Hb & Hiff).
  eexists _, b. split; [exact Hb|]. rewrite Hiff.
  assert (Ht : reach h (a + first_off p4) (S cond)).
  { destruct reach_to_last as (Hlast & _ & _).
    destruct (exit_node _ _ _ _ _ Hb4) as (n4 & Hn4 & Hx4).
    eapply reach_trans; [apply (Hlast _ _ _ _ _ Hb4 (first_off p4) Hf4)|].
    eapply reach_eq; [eapply reach_next; [exact Hn4|exact Hx4]|lia|reflexivity]. }
  assert (Hone : forall u n, length (heap s) <= u < length h -> h !! u = Some n ->
            is_real n = false ->
            exists x, refs n = [x] /\ length (heap s) <= x < length h).
  { intros u n Hu Hn' Hreal.
    assert (Hpn : program_node (length (heap s)) (length h) n).
    { rewrite Forall_lookup in Hwf. apply (Hwf (u - length (heap s))).
      unfold new_nodes. rewrite lookup_drop.
      by replace (length (heap s) + (u - length (heap s))) with u by lia. }
    unfold program_node in Hpn. unfold is_real in Hreal. unfold refs.
    destruct (cls n); done. }
  split.
  - intros (start & [fuel' Hs] & Hr). apply skip_loop_reach in Hs.
    pose proof (reach_trans _ _ _ _ Hs Hr) as Hr'.
    assert (Hin4 : a <= a + first_off p4 < a + nodes p4) by lia.
    destruct (fragment_exit p4 a c (S cond) h _ _ Hb4 Hin4 Hr') as [Hin|Hout].
    + unfold cond in Hin. lia.
    + destruct (Hjoin _ Hout) as [Heq|Hy]; [lia|done].
  - intros Hr.
    assert (Hlt : a + first_off p4 < length h) by (apply Hregion; lia).
    destruct (skip_loop_defined h Hc (S (size (ids h ∖ ∅))) ∅ (a + first_off p4) Hlt
                ltac:(lia)) as [r0 Hr0].
    assert (Hin4 : a <= a + first_off p4 <= S cond) by (unfold cond; lia).
    destruct (H2 _ _ _ (Hregion _ Hin4) Hr0) as (start & ns & -> & Hps & Hns & Hrs).
    exists start. split; [by eexists|].
    eapply (skip_loop_forced h (fun x => length (heap s) <= x < length h) cond _ Hone Hn eq_refl
              _ _ _ _ (Hregion _ Hin4) Hr0).
    eapply reach_trans; [exact Ht|].
    eapply reach_trans; [eapply reach_op; exact Hn0|exact Hr].
Qed.

Lemma if_is_a_loop_only_if_reentered_witness :
  exists fuel b,
    (forall k,
       is_loop_condition (fuel + k)
         (heap (build_program (StmtOne (IfStmt "c" EmptyStmt NoElse))
                  {| _counter := 0; heap := [] |}).2)
         (0 + nodes EmptyStmt + nodes_else NoElse) = Some b)
    /\ (b = true <->
        reach (heap (build_program (StmtOne (IfStmt "c" EmptyStmt NoElse))
                       {| _counter := 0; heap := [] |}).2)
          4 (0 + nodes EmptyStmt + nodes_else NoElse)).
Proof.
  apply (if_is_a_loop_only_if_reentered (StmtOne (IfStmt "c" EmptyStmt NoElse))
           {| _counter := 0; heap := [] |} 0 0 4 "c" EmptyStmt NoElse process_ok_empty).
  - simpl. lia.
  - intros [|[|[|k]]] n Hn; try done; injection Hn as <-; reflexivity.
Defined.
